(** * mp3gonCrystals: the offline audio transformation engine

    A shallow embedding of [services/audioProcessor.ts] (the FFT engine,
    the feature extractors, the transformation operators and the morph
    combinator) together with the properties the specification states
    about them.

    Modelling conventions.
    - A JavaScript [number] that holds a sample or a parameter is an exact
      rational ([Q]); NaN and the infinities are not modelled, and
      equality of samples is [Qeq] (so that [0 * x] and [0] are the same
      sample, as [-0 === 0] in the source).
    - The value of a sample is computed exactly: the rounding of the
      sample arithmetic and of the stores into a [Float32Array] is not
      modelled.  The arithmetic on times and frame counts (the separation
      of the transients, the durations and the frame count of Time Scale
      Warping, the frame count and the trigger times of Interference
      Echoes) and the envelope follower of the live processor, whose gate
      compares its value with a threshold, is that of the doubles
      ([double]: every operation rounds to 53 bits, ties to even; the
      exponent range is not modelled).
    - A [number] that is only used as a size or an index is a [Z] or a
      [nat]; 32-bit bit operations wrap as in the source ([ToInt32]).
    - A [Float32Array] is a reference into a store of arrays
      ([heap : list (list Q)]); [getChannelData] hands out the reference
      held by the buffer, [new Float32Array (..)] and [slice] allocate.
    - Exceptions are an outcome ([Throw]) of the state monad [M].
    - [Math.sin], [Math.cos], [Math.sqrt], [Math.atan2], [Math.random] and
      the Web Audio renderer belong to the host and are parameters. *)

From Stdlib Require Import ZArith QArith Qpower Qround Qabs Lia Lqa String.
From stdpp Require Import base option list gmap.

Set Default Proof Using "Type".
Local Open Scope Z_scope.

(** ** JavaScript numbers used as 32-bit integers *)

Definition ToInt32 (z : Z) : Z := (z + 2 ^ 31) mod 2 ^ 32 - 2 ^ 31.
Definition ToUint32 (z : Z) : Z := z mod 2 ^ 32.

(** [a & b], [a | b], [a >> k], [a << k] *)
Definition js_and (a b : Z) : Z := Z.land (ToInt32 a) (ToInt32 b).
Definition js_or (a b : Z) : Z := Z.lor (ToInt32 a) (ToInt32 b).
Definition js_shr (a k : Z) : Z := Z.shiftr (ToInt32 a) (ToUint32 k mod 32).
Definition js_shl (a k : Z) : Z := ToInt32 (Z.shiftl (ToInt32 a) (ToUint32 k mod 32)).

(** ** Rational helpers for [Math.*] functions that are exact *)

Definition Qltb (a b : Q) : bool := negb (Qle_bool b a).
(** [Math.round]: the nearest integer, ties towards +infinity *)
Definition js_round (x : Q) : Z := Qfloor (x + (1 # 2))%Q.
(** [ToIntegerOrInfinity] on a finite number: truncation towards zero *)
Definition js_trunc (x : Q) : Z := if Qle_bool 0 x then Qfloor x else Qceiling x.

(** ** IEEE 754 rounding

    The result of an arithmetic operation on [number]s is the double
    nearest to the exact result, ties to the even significand. *)

(** the nearest integer, ties to the even one *)
Definition roundHalfEven (x : Q) : Z :=
  let below := Qfloor x in
  match (x - inject_Z below ?= 1 # 2)%Q with
  | Lt => below
  | Gt => below + 1
  | Eq => if Z.even below then below else below + 1
  end.

(** the exponent [e] with [2 ^ e <= |x| < 2 ^ (e + 1)], for [x] other
    than 0: the difference of the bit lengths of numerator and
    denominator, or one less *)
Definition binaryExponent (x : Q) : Z :=
  let guess := Z.log2 (Z.abs (Qnum x)) - Z.log2 (Zpos (Qden x)) in
  if Qle_bool (2 ^ guess) (Qabs x) then guess else guess - 1.

(** [x] rounded to a significand of [precision] bits *)
Definition roundToBits (precision : Z) (x : Q) : Q :=
  if Qeq_bool x 0 then 0%Q
  else let e := binaryExponent x - (precision - 1) in
       (inject_Z (roundHalfEven (x / 2 ^ e)) * 2 ^ e)%Q.

(** a [number]: binary64 *)
Definition double (x : Q) : Q := roundToBits 53 x.

(** ** The host *)

Record MathHost := {
  MPI : Q;
  Msin : Q → Q;
  Mcos : Q → Q;
  Msqrt : Q → Q;
  Matan2 : Q → Q → Q;
  (** the value returned by the n-th call of [Math.random] *)
  Mrandom : nat → Q;
}.

(** The [Math] functions see a number, not the fraction that represents
    it: every call goes through the reduced fraction. *)
Definition Math_sin (host : MathHost) (x : Q) : Q := Msin host (Qred x).
Definition Math_cos (host : MathHost) (x : Q) : Q := Mcos host (Qred x).
Definition Math_sqrt (host : MathHost) (x : Q) : Q := Msqrt host (Qred x).
Definition Math_atan2 (host : MathHost) (y x : Q) : Q := Matan2 host (Qred y) (Qred x).

(** ** Outcomes, the store and the monad *)

Inductive outcome (A : Type) : Type :=
  | Ok (a : A)
  | Throw (msg : string).
Arguments Ok {A} a.
Arguments Throw {A} msg.

Record FFTPlan := {
  plan_size : Z;
  bitReverse : list Z;
  sinTable : list Q;
  cosTable : list Q;
}.

Record State := {
  heap : list (list Q);
  fftCache : gmap Z FFTPlan;
  randomCalls : nat;
}.

Definition M (A : Type) : Type := State → State * outcome A.

Definition ret {A} (a : A) : M A := fun st => (st, Ok a).
Definition throw {A} (msg : string) : M A := fun st => (st, Throw msg).
Definition bind {A B} (m : M A) (k : A → M B) : M B := fun st =>
  match m st with
  | (st', Ok a) => k a st'
  | (st', Throw e) => (st', Throw e)
  end.

Declare Scope m_scope.
Delimit Scope m_scope with M.
Notation "x <- m ;; k" := (bind m (fun x => k))
  (at level 100, m at next level, right associativity) : m_scope.
Notation "m ;;; k" := (bind m (fun _ => k))
  (at level 100, k at level 200, right associativity) : m_scope.
Local Open Scope m_scope.

Fixpoint forEach {A} (l : list A) (body : A → M unit) : M unit :=
  match l with
  | [] => ret tt
  | x :: l' => body x ;;; forEach l' body
  end.

(** *** Typed arrays in the store *)

Definition set_heap (h : list (list Q)) (st : State) : State :=
  {| heap := h; fftCache := fftCache st; randomCalls := randomCalls st |}.

(** the contents behind a reference (nothing is ever freed, so a dangling
    reference cannot arise; it would read as the empty array) *)
Definition contents (st : State) (r : nat) : list Q := default [] (heap st !! r).

(** [new Float32Array (xs)]: a fresh array holding a copy of [xs] *)
Definition allocArray (xs : list Q) : M nat := fun st =>
  (set_heap (heap st ++ [xs]) st, Ok (length (heap st))).

(** [new Float32Array (n)]: a fresh array of [n] zeros *)
Definition newFloat32Array (n : nat) : M nat := allocArray (replicate n 0%Q).

Definition readArray (r : nat) : M (list Q) := fun st => (st, Ok (contents st r)).

Definition writeArray (r : nat) (xs : list Q) : M unit := fun st =>
  (set_heap (<[r := xs]> (heap st)) st, Ok tt).

(** [n] calls of [Math.random]; returns the number of earlier calls *)
Definition drawRandoms (n : nat) : M nat := fun st =>
  ({| heap := heap st; fftCache := fftCache st; randomCalls := (randomCalls st + n)%nat |},
   Ok (randomCalls st)).

(** run [m] and hand back its outcome instead of propagating a throw *)
Definition attempt {A} (m : M A) : M (outcome A) := fun st =>
  let '(st', o) := m st in (st', Ok o).

(** in-place update of the array behind [r] *)
Definition modifyArray (r : nat) (f : list Q → list Q) : M unit :=
  xs <- readArray r ;; writeArray r (f xs).

(** [a[i]] read on a local copy; every read in the modelled loops is in
    range (an out-of-range read is [undefined] in the source) *)
Definition at_ (xs : list Q) (i : nat) : Q := nth i xs 0%Q.
Arguments at_ : simpl never.

(** ** 4.1 FFT engine *)

Section FFT.
Context (host : MathHost).

Definition bitReverseIndex (log2size i : Z) : Z :=
  fold_left
    (fun p j => if negb (js_and (js_shr i j) 1 =? 0)
                then js_or p (js_shl 1 (log2size - 1 - j)) else p)
    (seqZ 0 log2size) 0.

(** the tables built on a cache miss; [Math.log2 size] is the exact
    integer logarithm because [size] passed the power-of-two check *)
Definition buildFFT (size : Z) : FFTPlan :=
  let log2size := Z.log2 size in
  {| plan_size := size;
     bitReverse := (fun i => ToUint32 (bitReverseIndex log2size i)) <$> seqZ 0 size;
     sinTable := (fun i => Math_sin host (MPI host * inject_Z i / inject_Z size)%Q) <$> seqZ 0 size;
     cosTable := (fun i => Math_cos host (MPI host * inject_Z i / inject_Z size)%Q) <$> seqZ 0 size |}.

Definition fft_size_invalid (size : Z) : bool :=
  (size <=? 0) || negb (js_and size (size - 1) =? 0).

Definition getFFT (size : Z) : M FFTPlan := fun st =>
  if fft_size_invalid size then (st, Throw "FFT size must be a power of two")
  else match fftCache st !! size with
       | Some fft => (st, Ok fft)
       | None =>
           let fft := buildFFT size in
           ({| heap := heap st; fftCache := <[size := fft]> (fftCache st);
               randomCalls := randomCalls st |}, Ok fft)
       end.
End FFT.

(** *** The transform closure returned by [getFFT]

    The closure works in place on the two arrays it is given; its loops
    are explicit state passing over the pair [(real, imag)]. *)

(** the index sequence of [for (i = start; i < bound; i += step)] *)
Fixpoint countUp (fuel i step bound : nat) : list nat :=
  match fuel with
  | O => []
  | S fuel' => if (i <? bound)%nat then i :: countUp fuel' (i + step)%nat step bound else []
  end.

(** the values of [len] in [for (len = 2; len <= size; len <<= 1)] *)
Fixpoint doublings (fuel len size : nat) : list nat :=
  match fuel with
  | O => []
  | S fuel' => if (len <=? size)%nat then len :: doublings fuel' (len * 2)%nat size else []
  end.

(** [[a[i], a[j]] = [a[j], a[i]]] *)
Definition swapAt (xs : list Q) (i j : nat) : list Q :=
  let vj := at_ xs j in
  let vi := at_ xs i in
  <[j := vi]> (<[i := vj]> xs).

Definition bitReversalPermutation (fft : FFTPlan) (ri : list Q * list Q) : list Q * list Q :=
  fold_left
    (fun '(real, imag) i =>
       let j := Z.to_nat (nth i (bitReverse fft) 0) in
       if (i <? j)%nat then (swapAt real i j, swapAt imag i j) else (real, imag))
    (seq 0 (Z.to_nat (plan_size fft))) ri.

Definition butterfly (fft : FFTPlan) (invert : bool) (len i j : nat)
    (ri : list Q * list Q) : list Q * list Q :=
  let '(real, imag) := ri in
  let size := Z.to_nat (plan_size fft) in
  let halfLen := (len / 2)%nat in
  let tableStep := (size / len)%nat in
  let k := (j * tableStep)%nat in
  let t_re := at_ (cosTable fft) k in
  let t_im := ((if invert then -1 else 1) * at_ (sinTable fft) k)%Q in
  let p_re := at_ real (i + j + halfLen) in
  let p_im := at_ imag (i + j + halfLen) in
  let u_re := at_ real (i + j) in
  let u_im := at_ imag (i + j) in
  let real := <[(i + j)%nat := (u_re + p_re * t_re - p_im * t_im)%Q]> real in
  let imag := <[(i + j)%nat := (u_im + p_re * t_im + p_im * t_re)%Q]> imag in
  let real := <[(i + j + halfLen)%nat := (u_re - (p_re * t_re - p_im * t_im))%Q]> real in
  let imag := <[(i + j + halfLen)%nat := (u_im - (p_re * t_im + p_im * t_re))%Q]> imag in
  (real, imag).

Definition cooleyTukeyStage (fft : FFTPlan) (invert : bool) (len : nat)
    (ri : list Q * list Q) : list Q * list Q :=
  let size := Z.to_nat (plan_size fft) in
  fold_left
    (fun ri i => fold_left (fun ri j => butterfly fft invert len i j ri) (seq 0 (len / 2)) ri)
    (countUp size 0 len size) ri.

Definition cooleyTukey (fft : FFTPlan) (invert : bool) (ri : list Q * list Q) : list Q * list Q :=
  let size := Z.to_nat (plan_size fft) in
  fold_left (fun ri len => cooleyTukeyStage fft invert len ri) (doublings size 2 size) ri.

(** [a[i] /= size] for every [i < size] *)
Definition divideBySize (size : nat) (xs : list Q) : list Q :=
  fold_left (fun xs i => <[i := (at_ xs i / inject_Z (Z.of_nat size))%Q]> xs) (seq 0 size) xs.

Definition fft_kernel (fft : FFTPlan) (invert : bool) (ri : list Q * list Q) : list Q * list Q :=
  let size := Z.to_nat (plan_size fft) in
  let '(real, imag) := cooleyTukey fft invert (bitReversalPermutation fft ri) in
  if invert then (divideBySize size real, divideBySize size imag) else (real, imag).

(** the call [fft (real, imag, invert)] on two (distinct) arrays of the store *)
Definition fft_call (fft : FFTPlan) (real imag : nat) (invert : bool) : M unit :=
  re <- readArray real ;;
  im <- readArray imag ;;
  let '(re', im') := fft_kernel fft invert (re, im) in
  writeArray real re' ;;; writeArray imag im'.

(** ** Audio buffers and the Web Audio host *)

(** An [AudioBuffer]: its three read-only attributes and, per channel, the
    [Float32Array] that [getChannelData] returns. *)
Record AudioBuffer := {
  numberOfChannels : nat;
  bufferLength : nat;
  sampleRate : Q;
  channelData : list nat;
}.

(** a copy of the samples of a buffer, as a node of a render graph
    acquires them when the buffer is assigned to it *)
Record BufferData := {
  dataRate : Q;
  dataChannels : list (list Q);
}.

(** one scheduled segment of Time Scale Warping:
    [start (when, offset, duration)] at a playback rate *)
Record Segment := {
  segWhen : Q;
  segOffset : Q;
  segDuration : Q;
  segPlaybackRate : Q;
}.

(** The node graphs the operators hand to [startRendering]. *)
Inductive RenderGraph : Type :=
  | SpectralShapingGraph (source target : BufferData) (bands : list Q) (spectralMix : Q)
  | ConvolverGraph (impulse target : BufferData)
  | TimeWarpGraph (target : BufferData) (segments : list Segment)
  | HarmonicGraph (target : BufferData) (frequencies : list Q) (q gainDb : Q)
  | InterferenceGraph (target : BufferData) (triggerTimes : list Q) (feedback mix : Q)
  | FormantGraph (target : BufferData) (frequencies : list Q) (q gainDb mix : Q)
  | GainMixGraph (inputs : list (Q * BufferData)).

Record AudioHost := {
  (** whether the host creates buffers and contexts at this sample rate *)
  supportsSampleRate : Q → bool;
  (** the samples rendered for a graph of filters, delays or convolvers
      by a context of the given channel count, length and rate *)
  renderFilterGraph : nat → nat → Q → RenderGraph → list (list Q);
  (** sample-rate conversion of a buffer played in a context of another rate *)
  resampleTo : Q → BufferData → list (list Q);
  (** up- or down-mixing of a signal to another channel count *)
  mixToChannels : nat → list (list Q) → list (list Q);
}.

Record OfflineAudioContext := {
  ctxChannels : nat;
  ctxLength : nat;
  ctxSampleRate : Q;
}.

Definition getChannelData (b : AudioBuffer) (channel : nat) : M nat :=
  match channelData b !! channel with
  | Some r => ret r
  | None => throw "IndexSizeError"
  end.

Fixpoint allocChannels (n : nat) (xs : list (list Q)) : M (list nat) :=
  match n with
  | O => ret []
  | S n' =>
      r <- allocArray (nth 0 xs []) ;;
      rs <- allocChannels n' (tail xs) ;;
      ret (r :: rs)
  end.

(** bring rendered samples to the shape of the context: [n] channels of
    [len] frames, silence where the host produced nothing *)
Definition toShape (n len : nat) (xs : list (list Q)) : list (list Q) :=
  (fun c => take len (nth c xs []) ++ replicate (len - length (nth c xs [])) 0%Q) <$> seq 0 n.

Definition snapshot (st : State) (b : AudioBuffer) : BufferData :=
  {| dataRate := sampleRate b; dataChannels := contents st <$> channelData b |}.

(** a node acquires the contents of the buffer assigned to it *)
Definition acquire (b : AudioBuffer) : M BufferData := fun st => (st, Ok (snapshot st b)).

(** [convolver.buffer = b] on a node of a context: the host refuses an
    impulse response whose channel count is not 1, 2 or 4, or whose
    sample rate is not the rate of the context (the setter of
    [ConvolverNode.buffer] in the Web Audio API) *)
Definition convolverAccepts (contextRate : Q) (b : AudioBuffer) : bool :=
  ((numberOfChannels b =? 1)%nat || (numberOfChannels b =? 2)%nat
   || (numberOfChannels b =? 4)%nat)
  && Qeq_bool (sampleRate b) contextRate.

Definition setConvolverBuffer (ctx : OfflineAudioContext) (b : AudioBuffer) : M BufferData :=
  if convolverAccepts (ctxSampleRate ctx) b then acquire b else throw "NotSupportedError".

Section Host.
Context (host : MathHost) (audio : AudioHost).

Definition shapeRejected (nch len : nat) (rate : Q) : bool :=
  (nch =? 0)%nat || (len =? 0)%nat || negb (supportsSampleRate audio rate).

(** [ctx.createBuffer (numberOfChannels, length, sampleRate)] *)
Definition createBuffer (nch len : nat) (rate : Q) : M AudioBuffer :=
  if shapeRejected nch len rate then throw "NotSupportedError"
  else
    refs <- allocChannels nch (replicate nch (replicate len 0%Q)) ;;
    ret {| numberOfChannels := nch; bufferLength := len; sampleRate := rate;
           channelData := refs |}.

(** [new OfflineAudioContext (numberOfChannels, length, sampleRate)] *)
Definition newOfflineAudioContext (nch len : nat) (rate : Q) : M OfflineAudioContext :=
  if shapeRejected nch len rate then throw "NotSupportedError"
  else ret {| ctxChannels := nch; ctxLength := len; ctxSampleRate := rate |}.

(** A buffer source played from time 0 through a gain node into the
    destination: converted to the rate and channel count of the context
    when they differ, silent after its last frame. *)
Definition playedSignal (ctx : OfflineAudioContext) (b : BufferData) : list (list Q) :=
  let atRate := if Qeq_bool (dataRate b) (ctxSampleRate ctx)
                then dataChannels b else resampleTo audio (ctxSampleRate ctx) b in
  if (length atRate =? ctxChannels ctx)%nat then atRate
  else mixToChannels audio (ctxChannels ctx) atRate.

Definition gainMixSample (ctx : OfflineAudioContext) (inputs : list (Q * BufferData))
    (c i : nat) : Q :=
  fold_left (fun acc '(g, b) => (acc + g * at_ (nth c (playedSignal ctx b) []) i)%Q)
            inputs 0%Q.

Definition renderGainMix (ctx : OfflineAudioContext) (inputs : list (Q * BufferData))
    : list (list Q) :=
  (fun c => (fun i => gainMixSample ctx inputs c i) <$> seq 0 (ctxLength ctx))
    <$> seq 0 (ctxChannels ctx).

(** [ctx.startRendering ()]: a new buffer of the shape of the context *)
Definition startRendering (ctx : OfflineAudioContext) (graph : RenderGraph) : M AudioBuffer :=
  let rendered :=
    match graph with
    | GainMixGraph inputs => renderGainMix ctx inputs
    | _ => toShape (ctxChannels ctx) (ctxLength ctx)
             (renderFilterGraph audio (ctxChannels ctx) (ctxLength ctx) (ctxSampleRate ctx) graph)
    end in
  refs <- allocChannels (ctxChannels ctx) rendered ;;
  ret {| numberOfChannels := ctxChannels ctx; bufferLength := ctxLength ctx;
         sampleRate := ctxSampleRate ctx; channelData := refs |}.
End Host.

(** ** 4.2 Feature extractors *)

(** *** Loops over local arrays *)

(** [getAmplitudeEnvelope], first loop: the one-pole follower *)
Definition followEnvelope (smoothing : Q) (inputData outputData : list Q) : list Q :=
  snd (fold_left
         (fun '(lastValue, out) i =>
            let absValue := Qabs (at_ inputData i) in
            let lastValue := (smoothing * lastValue + (1 - smoothing) * absValue)%Q in
            (lastValue, <[i := lastValue]> out))
         (seq 0 (length inputData)) (0%Q, outputData)).

(** second loop: the peak *)
Definition peakOf (outputData : list Q) : Q :=
  fold_left
    (fun maxVal i => if Qltb maxVal (at_ outputData i) then at_ outputData i else maxVal)
    (seq 0 (length outputData)) 0%Q.

(** third loop: [outputData[i] /= maxVal], only when [maxVal > 0] *)
Definition normalizeBy (maxVal : Q) (outputData : list Q) : list Q :=
  if Qltb 0 maxVal
  then fold_left (fun out i => <[i := (at_ out i / maxVal)%Q]> out)
                 (seq 0 (length outputData)) outputData
  else outputData.

Definition envelopeChannel (smoothing : Q) (inputData outputData : list Q) : list Q :=
  let out := followEnvelope smoothing inputData outputData in
  normalizeBy (peakOf out) out.

(** [applyEnvelopeToBuffer], inner loop *)
Definition multiplyInto (targetData envelopeData resultData : list Q) : list Q :=
  fold_left (fun res i => <[i := (at_ targetData i * at_ envelopeData i)%Q]> res)
            (seq 0 (Nat.min (length targetData) (length envelopeData))) resultData.

(** [applyRhythmicGating], inner loop *)
Definition gateInto (gateThreshold : Q) (envelopeData gateData : list Q) : list Q :=
  fold_left (fun gate i => <[i := if Qltb gateThreshold (at_ envelopeData i) then 1%Q else 0%Q]> gate)
            (seq 0 (length envelopeData)) gateData.

(** [Array.prototype.sort (compare)]: stable, by insertion *)
Fixpoint insertBy {A} (after : A → A → bool) (x : A) (l : list A) : list A :=
  match l with
  | [] => [x]
  | y :: l' => if after x y then y :: insertBy after x l' else x :: y :: l'
  end.
Definition sortBy {A} (after : A → A → bool) (l : list A) : list A :=
  fold_right (insertBy after) [] l.

(** [Array.prototype.slice (0, n)] *)
Definition sliceTo {A} (n : Q) (l : list A) : list A :=
  let e := js_trunc n in
  let len := Z.of_nat (length l) in
  take (Z.to_nat (if e <? 0 then Z.max (len + e) 0 else Z.min e len)) l.

(** [TypedArray.prototype.set (source)] at offset 0 *)
Definition setFrom (source dest : list Q) : list Q :=
  fold_left (fun d i => <[i := at_ source i]> d) (seq 0 (length source)) dest.

(** the local maxima of a magnitude list, in index order *)
Definition findPeaks (magnitudes : list (Q * Q)) : list (Q * Q) :=
  let mag i := snd (nth i magnitudes (0%Q, 0%Q)) in
  fold_left
    (fun peaks i =>
       if Qltb (mag (i - 1)%nat) (mag i) && Qltb (mag (i + 1)%nat) (mag i)
       then peaks ++ [nth i magnitudes (0%Q, 0%Q)] else peaks)
    (seq 1 (length magnitudes - 2)) [].

(** [peaks.sort ((a, b) => b.mag - a.mag).slice (0, n).map (p => p.freq)] *)
Definition topFrequencies (n : Q) (peaks : list (Q * Q)) : list Q :=
  fst <$> sliceTo n (sortBy (fun a b => Qltb (snd a) (snd b)) peaks).

Section Extractors.
Context (host : MathHost) (audio : AudioHost).

Definition fftSize8192 : nat := Z.to_nat 8192.

(** [{freq, mag}] of bin [i] *)
Definition binMagnitude (sampleRate : Q) (real imag : list Q) (i : nat) : Q * Q :=
  ((inject_Z (Z.of_nat i) * sampleRate / inject_Z (Z.of_nat fftSize8192))%Q,
   Math_sqrt host (at_ real i * at_ real i + at_ imag i * at_ imag i)%Q).

Definition harmonicMagnitudes (sampleRate : Q) (real imag : list Q) : list (Q * Q) :=
  binMagnitude sampleRate real imag <$> seq 1 (fftSize8192 / 2 - 1).

Definition formantMagnitudes (sampleRate : Q) (real imag : list Q) : list (Q * Q) :=
  filter (fun m => Qle_bool 300 (fst m) && Qle_bool (fst m) 5000 = true)
         (binMagnitude sampleRate real imag <$> seq 1 (fftSize8192 / 2 - 1)).

(** the common first half of [detectHarmonics] and [detectFormants]:
    the spectrum of the first 8192 samples of channel 0 *)
Definition spectrumOfChannel0 (buffer : AudioBuffer) : M (list Q * list Q) :=
  fft <- getFFT host (Z.of_nat fftSize8192) ;;
  data <- getChannelData buffer 0 ;;
  dataNow <- readArray data ;;
  chunk <- (if (fftSize8192 <? length dataNow)%nat
            then allocArray (take fftSize8192 dataNow) else ret data) ;;
  real <- newFloat32Array fftSize8192 ;;
  chunkNow <- readArray chunk ;;
  modifyArray real (setFrom chunkNow) ;;;
  imag <- newFloat32Array fftSize8192 ;;
  fft_call fft real imag false ;;;
  re <- readArray real ;;
  im <- readArray imag ;;
  ret (re, im).

Definition detectFormants (buffer : AudioBuffer) (numFormants sampleRate : Q) : M (list Q) :=
  spectrum <- spectrumOfChannel0 buffer ;;
  let '(re, im) := spectrum in
  ret (topFrequencies numFormants (findPeaks (formantMagnitudes sampleRate re im))).

Definition detectHarmonics (buffer : AudioBuffer) (numHarmonics sampleRate : Q) : M (list Q) :=
  spectrum <- spectrumOfChannel0 buffer ;;
  let '(re, im) := spectrum in
  ret (topFrequencies numHarmonics (findPeaks (harmonicMagnitudes sampleRate re im))).

(** *** [detectTransients] *)

Definition chunkSize : nat := 512.

Definition chunkEnergy (data : list Q) (i : nat) : Q :=
  let end_ := Nat.min (i + chunkSize) (length data) in
  let sumOfSquares :=
    fold_left (fun sum j => (sum + at_ data j * at_ data j)%Q) (seq i (end_ - i)) 0%Q in
  Math_sqrt host (sumOfSquares / inject_Z (Z.of_nat (end_ - i)))%Q.

Definition chunkEnergies (data : list Q) : list Q :=
  chunkEnergy data <$> countUp (length data) 0 chunkSize (length data).

(** the middle loop: the accepted onsets, with [lastTransient] *)
Definition pickTransients (energies : list Q) (threshold : Q) (minSeparation : Z)
    : list Z * Z :=
  fold_left
    (fun '(transients, lastTransient) i =>
       if Qltb (at_ energies (i - 1) * threshold)%Q (at_ energies i)
       then
         let sampleIndex := (Z.of_nat i * Z.of_nat chunkSize)%Z in
         if (minSeparation <? sampleIndex - lastTransient)%Z
         then (transients ++ [sampleIndex], sampleIndex)
         else (transients, lastTransient)
       else (transients, lastTransient))
    (seq 1 (length energies - 1)) ([0%Z], 0%Z).

Definition withFinalFrame (dataLength : nat) (transients : list Z) : list Z :=
  if (List.last transients 0 <? Z.of_nat dataLength - 1)%Z
  then transients ++ [Z.of_nat dataLength - 1]%Z else transients.

(** [Math.floor (sampleRate * (minSeparationMs / 1000))] *)
Definition minSeparationFrames (sampleRate minSeparationMs : Q) : Z :=
  Qfloor (double (sampleRate * double (minSeparationMs / 1000)))%Q.

Definition detectTransients (buffer : AudioBuffer) (threshold minSeparationMs : Q)
    : M (list Z) :=
  data <- getChannelData buffer 0 ;;
  dataNow <- readArray data ;;
  let minSeparation := minSeparationFrames (sampleRate buffer) minSeparationMs in
  let energies := chunkEnergies dataNow in
  let '(transients, _) := pickTransients energies threshold minSeparation in
  ret (withFinalFrame (length dataNow) transients).

(** *** [getAmplitudeEnvelope] *)

Definition getAmplitudeEnvelope (buffer : AudioBuffer) (smoothing : Q) : M AudioBuffer :=
  offlineCtx <- newOfflineAudioContext audio (numberOfChannels buffer) (bufferLength buffer)
                  (sampleRate buffer) ;;
  resultBuffer <- createBuffer audio (numberOfChannels buffer) (bufferLength buffer)
                    (sampleRate buffer) ;;
  forEach (seq 0 (numberOfChannels buffer)) (fun c =>
    inputData <- getChannelData buffer c ;;
    outputData <- getChannelData resultBuffer c ;;
    input <- readArray inputData ;;
    modifyArray outputData (envelopeChannel smoothing input)) ;;;
  ret resultBuffer.

(** *** [applyEnvelopeToBuffer] *)

Definition applyEnvelopeToBuffer (envelopeBuffer targetBuffer : AudioBuffer) : M AudioBuffer :=
  offlineCtx <- newOfflineAudioContext audio (numberOfChannels targetBuffer)
                  (bufferLength targetBuffer) (sampleRate targetBuffer) ;;
  resultBuffer <- createBuffer audio (numberOfChannels targetBuffer)
                    (bufferLength targetBuffer) (sampleRate targetBuffer) ;;
  forEach (seq 0 (numberOfChannels targetBuffer)) (fun channel =>
    targetData <- getChannelData targetBuffer channel ;;
    resultData <- getChannelData resultBuffer channel ;;
    envelopeData <- getChannelData envelopeBuffer
                      (channel mod numberOfChannels envelopeBuffer) ;;
    target <- readArray targetData ;;
    envelope <- readArray envelopeData ;;
    modifyArray resultData (multiplyInto target envelope)) ;;;
  ret resultBuffer.
End Extractors.

(** ** 4.3 Transformation operators *)

Record TransformationParams := {
  gateThreshold : option Q;
  spectralMix : option Q;
  transientSensitivity : option Q;
  surfaceJitter : option Q;
  numHarmonics : option Q;
  harmonicQ : option Q;
  interferenceFeedback : option Q;
  interferenceMix : option Q;
  numFormants : option Q;
  formantQ : option Q;
  formantMix : option Q;
  ringModBaseFreq : option Q;
  ringModRange : option Q;
  ringModMix : option Q;
  morphPosition : option Q;
}.

Inductive TransformationType : Type :=
  | AMPLITUDE | SPECTRAL | RHYTHMIC | CONVOLUTION | TIME_WARP | SURFACE_TRANSLATE
  | FOURIER_MASKING | HARMONIC_IMPRINT | INTERFERENCE_ECHOES | FORMANT_SHIFTING
  | DYNAMIC_RING_MOD | TRANSFORMATION_MORPH.

Definition BAND_FREQUENCIES : list Q :=
  [60; 150; 300; 500; 750; 1000; 1500; 2000;
   3000; 4000; 5000; 7000; 9000; 11000; 14000; 18000]%Q.

Fixpoint foldM {A S} (l : list A) (s : S) (body : S → A → M S) : M S :=
  match l with
  | [] => ret s
  | x :: l' => s' <- body s x ;; foldM l' s' body
  end.

(** [Float32Array.prototype.sort ()]: ascending *)
Definition sortAscending (xs : list Q) : list Q := sortBy (fun a b => Qltb b a) xs.

(** [applySurfaceTranslationMapping], the loop; [calls] is the number of
    earlier calls of [Math.random] *)
Definition surfaceLoop (host : MathHost) (calls : nat) (surfaceJitter : Q)
    (sourceData sortedTargetData resultData : list Q) : list Q :=
  let sortedLength := Z.of_nat (length sortedTargetData) in
  let jitterAmount := (surfaceJitter * inject_Z sortedLength * (5 # 100))%Q in
  fold_left
    (fun res i =>
       let sourceSample := at_ sourceData i in
       let normalizedIndex := ((sourceSample + 1) / 2)%Q in
       let baseTargetIndex := Qfloor (normalizedIndex * inject_Z (sortedLength - 1))%Q in
       let randomOffset := ((Mrandom host (calls + i) - (1 # 2)) * jitterAmount)%Q in
       let finalIndex := js_round (inject_Z baseTargetIndex + randomOffset)%Q in
       let clampedIndex := Z.max 0 (Z.min (sortedLength - 1) finalIndex) in
       <[i := at_ sortedTargetData (Z.to_nat clampedIndex)]> res)
    (seq 0 (length sourceData)) resultData.

(** [applyDynamicRingModulation], the inner loop over one channel; the
    phase is carried from one channel to the next *)
Definition ringModLoop (host : MathHost) (ringModBaseFreq ringModRange ringModMix sr : Q)
    (frames : nat) (sourceEnvData targetData : list Q) (state : Q * list Q) : Q * list Q :=
  fold_left
    (fun '(phase, res) i =>
       let envValue := at_ sourceEnvData i in
       let modFreq := (ringModBaseFreq + envValue * ringModRange)%Q in
       let modSample := Math_sin host phase in
       let phase := (phase + 2 * MPI host * modFreq / sr)%Q in
       let phase := if Qltb (2 * MPI host) phase then (phase - 2 * MPI host)%Q else phase in
       let wetSample := (at_ targetData i * modSample)%Q in
       let drySample := at_ targetData i in
       (phase, <[i := (wetSample * ringModMix + drySample * (1 - ringModMix))%Q]> res))
    (seq 0 frames) state.

(** [trimSilence]: the index of the first sample above the threshold, 0 if none *)
Definition firstLoudSample (threshold : Q) (data : list Q) : nat :=
  default 0%nat (head (filter (fun i => Qltb threshold (Qabs (at_ data i)) = true)
                              (seq 0 (length data)))).

Section Operators.
Context (host : MathHost) (audio : AudioHost).

Definition applyAmplitudeMapping (sourceBuffer targetBuffer : AudioBuffer) : M AudioBuffer :=
  sourceEnvelope <- getAmplitudeEnvelope audio sourceBuffer (995 # 1000) ;;
  applyEnvelopeToBuffer audio sourceEnvelope targetBuffer.

Definition applyRhythmicGating (sourceBuffer targetBuffer : AudioBuffer)
    (params : TransformationParams) : M AudioBuffer :=
  let gateThreshold := default (2 # 10) (gateThreshold params) in
  sourceEnvelope <- getAmplitudeEnvelope audio sourceBuffer (998 # 1000) ;;
  ctx <- newOfflineAudioContext audio (numberOfChannels sourceEnvelope)
           (bufferLength sourceEnvelope) (sampleRate sourceEnvelope) ;;
  gateBuffer <- createBuffer audio (numberOfChannels sourceEnvelope)
                  (bufferLength sourceEnvelope) (sampleRate sourceEnvelope) ;;
  forEach (seq 0 (numberOfChannels sourceEnvelope)) (fun channel =>
    envelopeData <- getChannelData sourceEnvelope channel ;;
    gateData <- getChannelData gateBuffer channel ;;
    envelope <- readArray envelopeData ;;
    modifyArray gateData (gateInto gateThreshold envelope)) ;;;
  applyEnvelopeToBuffer audio gateBuffer targetBuffer.

Definition applySpectralShaping (sourceBuffer targetBuffer : AudioBuffer)
    (params : TransformationParams) : M AudioBuffer :=
  let spectralMix := default 1%Q (spectralMix params) in
  offlineCtx <- newOfflineAudioContext audio (numberOfChannels targetBuffer)
                  (bufferLength targetBuffer) (sampleRate targetBuffer) ;;
  source <- acquire sourceBuffer ;;
  target <- acquire targetBuffer ;;
  startRendering audio offlineCtx (SpectralShapingGraph source target BAND_FREQUENCIES spectralMix).

Definition trimSilence (buffer : AudioBuffer) (threshold : Q) : M AudioBuffer :=
  data <- getChannelData buffer 0 ;;
  dataNow <- readArray data ;;
  let firstSample := firstLoudSample threshold dataNow in
  if (firstSample =? 0)%nat then ret buffer
  else
    let newLength := (bufferLength buffer - firstSample)%nat in
    newBuffer <- createBuffer audio (numberOfChannels buffer) newLength (sampleRate buffer) ;;
    forEach (seq 0 (numberOfChannels buffer)) (fun i =>
      channel <- getChannelData buffer i ;;
      channelNow <- readArray channel ;;
      sliced <- allocArray (drop firstSample channelNow) ;;
      slicedNow <- readArray sliced ;;
      dest <- getChannelData newBuffer i ;;
      modifyArray dest (setFrom slicedNow)) ;;;
    ret newBuffer.

Definition applyConvolution (sourceBuffer targetBuffer : AudioBuffer) : M AudioBuffer :=
  let newLength := (bufferLength sourceBuffer + bufferLength targetBuffer - 1)%nat in
  offlineCtx <- newOfflineAudioContext audio (numberOfChannels targetBuffer) newLength
                  (sampleRate targetBuffer) ;;
  target <- acquire targetBuffer ;;
  impulse <- setConvolverBuffer offlineCtx sourceBuffer ;;
  renderedBuffer <- startRendering audio offlineCtx (ConvolverGraph impulse target) ;;
  trimSilence renderedBuffer (5 # 1000).

(** the segments scheduled by the second loop of [applyTimeScaleWarping] *)
Definition warpSegments (sourceRate targetRate : Q) (sourceTransients targetTransients : list Z)
    (numSegments : nat) : list Segment :=
  snd (fold_left
         (fun '(currentTime, segments) i =>
            let sourceSegmentStart := nth i sourceTransients 0%Z in
            let sourceSegmentEnd := nth (i + 1) sourceTransients 0%Z in
            let sourceDuration :=
              double (inject_Z (sourceSegmentEnd - sourceSegmentStart) / sourceRate) in
            let targetSegmentStart := nth i targetTransients 0%Z in
            let targetSegmentEnd := nth (i + 1) targetTransients 0%Z in
            let targetDuration :=
              double (inject_Z (targetSegmentEnd - targetSegmentStart) / targetRate) in
            if Qltb targetDuration (double (1 # 100)) || Qltb sourceDuration (double (1 # 100))
            then (currentTime, segments)
            else
              (double (currentTime + sourceDuration),
               segments ++ [{| segWhen := currentTime;
                               segOffset := double (inject_Z targetSegmentStart / targetRate);
                               segDuration := targetDuration;
                               segPlaybackRate := double (targetDuration / sourceDuration) |}]))
         (seq 0 numSegments) (0%Q, [])).

Definition applyTimeScaleWarping (sourceBuffer targetBuffer : AudioBuffer)
    (params : TransformationParams) : M AudioBuffer :=
  let transientSensitivity := default (18 # 10) (transientSensitivity params) in
  sourceTransients <- detectTransients host sourceBuffer transientSensitivity 50 ;;
  targetTransients <- detectTransients host targetBuffer transientSensitivity 50 ;;
  let numSegments :=
    (Z.min (Z.of_nat (length sourceTransients)) (Z.of_nat (length targetTransients)) - 1)%Z in
  if (numSegments <=? 0)%Z then ret targetBuffer
  else
    let totalDuration :=
      fold_left
        (fun total i =>
           let sourceDuration :=
             double (inject_Z (nth (i + 1) sourceTransients 0%Z - nth i sourceTransients 0%Z)
                     / sampleRate sourceBuffer) in
           double (total + sourceDuration))
        (seq 0 (Z.to_nat numSegments)) 0%Q in
    offlineCtx <- newOfflineAudioContext audio (numberOfChannels targetBuffer)
                    (Z.to_nat (Qceiling (double (totalDuration * sampleRate targetBuffer))))
                    (sampleRate targetBuffer) ;;
    target <- acquire targetBuffer ;;
    startRendering audio offlineCtx
      (TimeWarpGraph target
         (warpSegments (sampleRate sourceBuffer) (sampleRate targetBuffer)
            sourceTransients targetTransients (Z.to_nat numSegments))).

Definition applySurfaceTranslationMapping (sourceBuffer targetBuffer : AudioBuffer)
    (params : TransformationParams) : M AudioBuffer :=
  let surfaceJitter := default 0%Q (surfaceJitter params) in
  sourceData <- getChannelData sourceBuffer 0 ;;
  targetData <- getChannelData targetBuffer 0 ;;
  targetNow <- readArray targetData ;;
  sortedTargetData <- allocArray targetNow ;;
  modifyArray sortedTargetData sortAscending ;;;
  resultBuffer <- createBuffer audio 1 (bufferLength sourceBuffer) (sampleRate sourceBuffer) ;;
  resultData <- getChannelData resultBuffer 0 ;;
  source <- readArray sourceData ;;
  sorted <- readArray sortedTargetData ;;
  calls <- drawRandoms (length source) ;;
  modifyArray resultData (surfaceLoop host calls surfaceJitter source sorted) ;;;
  ret resultBuffer.

(** *** Fourier Masking *)

Definition fftSize2048 : nat := Z.to_nat 2048.
Definition hopSize : nat := (fftSize2048 / 4)%nat.

Definition hannWindow (fftWindow : list Q) : list Q :=
  fold_left
    (fun w i =>
       <[i := ((1 # 2) * (1 - Math_cos host (2 * MPI host * inject_Z (Z.of_nat i)
                                         / inject_Z (Z.of_nat fftSize2048 - 1))))%Q]> w)
    (seq 0 fftSize2048) fftWindow.

Definition windowedFrame (data fftWindow : list Q) (i : nat) (frame : list Q) : list Q :=
  fold_left (fun f j => <[j := (at_ data (i + j) * at_ fftWindow j)%Q]> f)
            (seq 0 fftSize2048) frame.

Definition maskReal (sourceReal sourceImag targetReal targetImag newReal : list Q) : list Q :=
  fold_left
    (fun f j =>
       let sourceMag := Math_sqrt host (at_ sourceReal j * at_ sourceReal j
                                    + at_ sourceImag j * at_ sourceImag j)%Q in
       let targetPhase := Math_atan2 host (at_ targetImag j) (at_ targetReal j) in
       <[j := (sourceMag * Math_cos host targetPhase)%Q]> f)
    (seq 0 fftSize2048) newReal.

Definition maskImag (sourceReal sourceImag targetReal targetImag newImag : list Q) : list Q :=
  fold_left
    (fun f j =>
       let sourceMag := Math_sqrt host (at_ sourceReal j * at_ sourceReal j
                                    + at_ sourceImag j * at_ sourceImag j)%Q in
       let targetPhase := Math_atan2 host (at_ targetImag j) (at_ targetReal j) in
       <[j := (sourceMag * Math_sin host targetPhase)%Q]> f)
    (seq 0 fftSize2048) newImag.

Definition overlapAdd (newReal fftWindow : list Q) (i : nat) (resultData : list Q) : list Q :=
  fold_left
    (fun res j => <[(i + j)%nat := (at_ res (i + j) + at_ newReal j * at_ fftWindow j)%Q]> res)
    (seq 0 fftSize2048) resultData.

Definition applyFourierMasking (sourceBuffer targetBuffer : AudioBuffer) : M AudioBuffer :=
  fft <- getFFT host (Z.of_nat fftSize2048) ;;
  let length_ := Nat.min (bufferLength sourceBuffer) (bufferLength targetBuffer) in
  resultBuffer <- createBuffer audio 1 length_ (sampleRate sourceBuffer) ;;
  resultData <- getChannelData resultBuffer 0 ;;
  sourceData <- getChannelData sourceBuffer 0 ;;
  targetData <- getChannelData targetBuffer 0 ;;
  fftWindow <- newFloat32Array fftSize2048 ;;
  modifyArray fftWindow hannWindow ;;;
  forEach (countUp length_ 0 hopSize (length_ + 1 - fftSize2048)) (fun i =>
    sourceReal <- newFloat32Array fftSize2048 ;;
    targetReal <- newFloat32Array fftSize2048 ;;
    source <- readArray sourceData ;;
    target <- readArray targetData ;;
    window <- readArray fftWindow ;;
    modifyArray sourceReal (windowedFrame source window i) ;;;
    modifyArray targetReal (windowedFrame target window i) ;;;
    sourceImag <- newFloat32Array fftSize2048 ;;
    targetImag <- newFloat32Array fftSize2048 ;;
    fft_call fft sourceReal sourceImag false ;;;
    fft_call fft targetReal targetImag false ;;;
    newReal <- newFloat32Array fftSize2048 ;;
    newImag <- newFloat32Array fftSize2048 ;;
    sRe <- readArray sourceReal ;;
    sIm <- readArray sourceImag ;;
    tRe <- readArray targetReal ;;
    tIm <- readArray targetImag ;;
    modifyArray newReal (maskReal sRe sIm tRe tIm) ;;;
    modifyArray newImag (maskImag sRe sIm tRe tIm) ;;;
    fft_call fft newReal newImag true ;;;
    nRe <- readArray newReal ;;
    modifyArray resultData (overlapAdd nRe window i)) ;;;
  ret resultBuffer.

(** [harmonics.forEach (freq => if (freq > 0 && freq < ctx.sampleRate / 2) ..)] *)
Definition audibleFrequencies (ctxRate : Q) (frequencies : list Q) : list Q :=
  filter (fun freq => Qltb 0 freq && Qltb freq (ctxRate / 2) = true) frequencies.

Definition applyHarmonicImprinting (sourceBuffer targetBuffer : AudioBuffer)
    (params : TransformationParams) : M AudioBuffer :=
  let numHarmonics := default 12%Q (numHarmonics params) in
  let harmonicQ := default 30%Q (harmonicQ params) in
  harmonics <- detectHarmonics host sourceBuffer numHarmonics (sampleRate targetBuffer) ;;
  if (length harmonics =? 0)%nat then ret targetBuffer
  else
    offlineCtx <- newOfflineAudioContext audio (numberOfChannels targetBuffer)
                    (bufferLength targetBuffer) (sampleRate targetBuffer) ;;
    target <- acquire targetBuffer ;;
    startRendering audio offlineCtx
      (HarmonicGraph target (audibleFrequencies (ctxSampleRate offlineCtx) harmonics)
         harmonicQ 15).

Definition applyInterferenceEchoes (sourceBuffer targetBuffer : AudioBuffer)
    (params : TransformationParams) : M AudioBuffer :=
  let interferenceFeedback := default (5 # 10) (interferenceFeedback params) in
  let interferenceMix := default (5 # 10) (interferenceMix params) in
  context <- newOfflineAudioContext audio (numberOfChannels targetBuffer)
               (Z.to_nat (js_trunc (double (inject_Z (Z.of_nat (bufferLength targetBuffer))
                                            + double (sampleRate targetBuffer * 4)))))
               (sampleRate targetBuffer) ;;
  sourceTransients <- detectTransients host sourceBuffer (18 # 10) 50 ;;
  if (length sourceTransients <=? 1)%nat then ret targetBuffer
  else
    target <- acquire targetBuffer ;;
    startRendering audio context
      (InterferenceGraph target
         ((fun sampleIndex => double (inject_Z sampleIndex / sampleRate sourceBuffer))
            <$> sourceTransients)
         interferenceFeedback interferenceMix).

Definition applyFormantShifting (sourceBuffer targetBuffer : AudioBuffer)
    (params : TransformationParams) : M AudioBuffer :=
  let numFormants := default 4%Q (numFormants params) in
  let formantQ := default 20%Q (formantQ params) in
  let formantMix := default (7 # 10) (formantMix params) in
  formants <- detectFormants host sourceBuffer numFormants (sampleRate targetBuffer) ;;
  if (length formants =? 0)%nat then ret targetBuffer
  else
    context <- newOfflineAudioContext audio (numberOfChannels targetBuffer)
                 (bufferLength targetBuffer) (sampleRate targetBuffer) ;;
    target <- acquire targetBuffer ;;
    startRendering audio context
      (FormantGraph target (audibleFrequencies (ctxSampleRate context) formants)
         formantQ 18 formantMix).

Definition applyDynamicRingModulation (sourceBuffer targetBuffer : AudioBuffer)
    (params : TransformationParams) : M AudioBuffer :=
  let ringModBaseFreq := default 100%Q (ringModBaseFreq params) in
  let ringModRange := default 1000%Q (ringModRange params) in
  let ringModMix := default (5 # 10) (ringModMix params) in
  sourceEnvelope <- getAmplitudeEnvelope audio sourceBuffer (99 # 100) ;;
  context <- newOfflineAudioContext audio (numberOfChannels targetBuffer)
               (bufferLength targetBuffer) (sampleRate targetBuffer) ;;
  sourceEnvData <- getChannelData sourceEnvelope 0 ;;
  let numChannels := numberOfChannels targetBuffer in
  resultBuffer <- createBuffer audio numChannels (bufferLength targetBuffer)
                    (sampleRate targetBuffer) ;;
  let sr := ctxSampleRate context in
  foldM (seq 0 numChannels) 0%Q (fun phase c =>
    targetData <- getChannelData targetBuffer c ;;
    resultData <- getChannelData resultBuffer c ;;
    envelope <- readArray sourceEnvData ;;
    target <- readArray targetData ;;
    result <- readArray resultData ;;
    let '(phase', result') :=
      ringModLoop host ringModBaseFreq ringModRange ringModMix sr (bufferLength targetBuffer)
        envelope target (phase, result) in
    writeArray resultData result' ;;;
    ret phase') ;;;
  ret resultBuffer.

(** *** Transformation Morph *)

Definition run (sourceBuffer targetBuffer : AudioBuffer) (params : TransformationParams)
    (type : TransformationType) : M AudioBuffer :=
  match type with
  | AMPLITUDE => applyAmplitudeMapping sourceBuffer targetBuffer
  | RHYTHMIC => applyRhythmicGating sourceBuffer targetBuffer params
  | SPECTRAL => applySpectralShaping sourceBuffer targetBuffer params
  | CONVOLUTION => applyConvolution sourceBuffer targetBuffer
  | TIME_WARP => applyTimeScaleWarping sourceBuffer targetBuffer params
  | SURFACE_TRANSLATE => applySurfaceTranslationMapping sourceBuffer targetBuffer params
  | FOURIER_MASKING => applyFourierMasking sourceBuffer targetBuffer
  | HARMONIC_IMPRINT => applyHarmonicImprinting sourceBuffer targetBuffer params
  | INTERFERENCE_ECHOES => applyInterferenceEchoes sourceBuffer targetBuffer params
  | FORMANT_SHIFTING => applyFormantShifting sourceBuffer targetBuffer params
  | DYNAMIC_RING_MOD => applyDynamicRingModulation sourceBuffer targetBuffer params
  | TRANSFORMATION_MORPH => throw "Invalid transformation type for morphing"
  end.

(** the cross-fade of the two results *)
Definition crossfade (resultA resultB : AudioBuffer) (params : TransformationParams)
    : M AudioBuffer :=
  let morphPosition := default (5 # 10) (morphPosition params) in
  let gainA := (1 - morphPosition)%Q in
  let gainB := morphPosition in
  let length_ := Nat.max (bufferLength resultA) (bufferLength resultB) in
  let numChannels := Nat.min (numberOfChannels resultA) (numberOfChannels resultB) in
  let sampleRate_ := sampleRate resultA in
  context <- newOfflineAudioContext audio numChannels length_ sampleRate_ ;;
  dataA <- acquire resultA ;;
  dataB <- acquire resultB ;;
  startRendering audio context (GainMixGraph [(gainA, dataA); (gainB, dataB)]).

(** [Promise.all] starts both runs; the first rejection, if any, is the
    outcome *)
Definition applyTransformationMorph (sourceBuffer targetBuffer : AudioBuffer)
    (transformA transformB : TransformationType) (params : TransformationParams)
    : M AudioBuffer :=
  outcomeA <- attempt (run sourceBuffer targetBuffer params transformA) ;;
  outcomeB <- attempt (run sourceBuffer targetBuffer params transformB) ;;
  match outcomeA, outcomeB with
  | Ok resultA, Ok resultB => crossfade resultA resultB params
  | Throw e, _ => throw e
  | _, Throw e => throw e
  end.
End Operators.

(** ** Vocabulary of the properties *)

(** the samples of channel [c] of a buffer, and one of them *)
Definition channel (st : State) (b : AudioBuffer) (c : nat) : list Q :=
  contents st (nth c (channelData b) 0%nat).
Definition sample (st : State) (b : AudioBuffer) (c i : nat) : Q :=
  at_ (channel st b c) i.

(** An [AudioBuffer] of the host: at least one channel and one frame, a
    rate the host supports, and behind every channel an array of the
    store with one sample per frame. *)
Definition valid (audio : AudioHost) (st : State) (b : AudioBuffer) : Prop :=
  length (channelData b) = numberOfChannels b ∧
  (0 < numberOfChannels b)%nat ∧
  (0 < bufferLength b)%nat ∧
  supportsSampleRate audio (sampleRate b) = true ∧
  Forall (fun r => ∃ xs, heap st !! r = Some xs ∧ length xs = bufferLength b) (channelData b).

(** every array that [st] holds is still there, with the same samples, in [st'] *)
Definition preserved (st st' : State) : Prop :=
  ∀ r xs, heap st !! r = Some xs → heap st' !! r = Some xs.

Definition noParams : TransformationParams :=
  {| gateThreshold := None; spectralMix := None; transientSensitivity := None;
     surfaceJitter := None; numHarmonics := None; harmonicQ := None;
     interferenceFeedback := None; interferenceMix := None; numFormants := None;
     formantQ := None; formantMix := None; ringModBaseFreq := None;
     ringModRange := None; ringModMix := None; morphPosition := None |}.

(** *** Hosts for running the operators on examples

    [exampleAudio] supports every sample rate and renders silence for the
    filter graphs; [exampleMath] replaces the transcendental functions by
    rational stand-ins (the examples below never depend on their values). *)
Definition exampleAudio : AudioHost :=
  {| supportsSampleRate := fun _ => true;
     renderFilterGraph := fun _ _ _ _ => [];
     resampleTo := fun _ b => dataChannels b;
     mixToChannels := fun _ xs => xs |}.

Definition exampleMath : MathHost :=
  {| MPI := 355 # 113;
     Msin := fun x => x;
     Mcos := fun _ => 1%Q;
     Msqrt := fun x => x;
     Matan2 := fun _ _ => 0%Q;
     Mrandom := fun _ => (1 # 2)%Q |}.

(** a state that holds the given arrays and nothing else *)
Definition stateOf (arrays : list (list Q)) : State :=
  {| heap := arrays; fftCache := ∅; randomCalls := 0 |}.

(** a mono buffer of [len] frames at 44.1 kHz over the array [r] *)
Definition monoBuffer (len r : nat) : AudioBuffer :=
  {| numberOfChannels := 1; bufferLength := len; sampleRate := 44100; channelData := [r] |}.

(** what the onset loop maintains after the chunks [1 .. m] *)
Definition onsetsInvariant (minSeparation : Z) (m : nat) (state : list Z * Z) : Prop :=
  let '(transients, lastTransient) := state in
  transients !! 0%nat = Some 0 ∧
  last transients = Some lastTransient ∧
  0 <= lastTransient <= Z.of_nat m * Z.of_nat chunkSize ∧
  (∀ i a b, transients !! i = Some a → transients !! S i = Some b →
     a < b ∧ minSeparation < b - a).


(** an array of zeros *)
Definition silent (xs : list Q) : Prop := ∀ i, (at_ xs i == 0)%Q.
Definition silentPair (ri : list Q * list Q) : Prop := silent (fst ri) ∧ silent (snd ri).

(** *** A program logic for the frame of a call

    [grows n st st']: the arrays below the reference [n] hold in [st'] the
    samples they hold in [st], and every array of [st] is still there in
    [st'] with its length (a typed array never changes its length).
    [wp n m st Q]: the run of [m] from [st] only writes to references from
    [n] on and, when it returns [a] in the state [st'], [Q st' a] holds. *)
Definition grows (n : nat) (st st' : State) : Prop :=
  (∀ r, (r < n)%nat → heap st' !! r = heap st !! r) ∧
  (∀ r xs, heap st !! r = Some xs → ∃ ys, heap st' !! r = Some ys ∧ length ys = length xs).

Definition wp {A} (n : nat) (m : M A) (st : State) (Q : State → A → Prop) : Prop :=
  grows n st (fst (m st)) ∧
  match snd (m st) with
  | Ok a => Q (fst (m st)) a
  | Throw _ => True
  end.

(** a buffer all of whose channels were allocated at or after [n] *)
Definition fresh (n : nat) (b : AudioBuffer) : Prop :=
  Forall (fun r => (n <= r)%nat) (channelData b).

(** the two arrays of [ri'] are as long as the two arrays of [ri] *)
Definition sameLengths (ri ri' : list Q * list Q) : Prop :=
  length (fst ri') = length (fst ri) ∧ length (snd ri') = length (snd ri).

(** the samples of both input buffers are in [st'] what they are in [st] *)
Definition inputsUnchanged (st st' : State) (sourceBuffer targetBuffer : AudioBuffer) : Prop :=
  (∀ c, (c < numberOfChannels sourceBuffer)%nat →
     channel st' sourceBuffer c = channel st sourceBuffer c) ∧
  (∀ c, (c < numberOfChannels targetBuffer)%nat →
     channel st' targetBuffer c = channel st targetBuffer c).

(** parameters that only set the morph position *)
Definition morphAt (position : Q) : TransformationParams :=
  {| gateThreshold := None; spectralMix := None; transientSensitivity := None;
     surfaceJitter := None; numHarmonics := None; harmonicQ := None;
     interferenceFeedback := None; interferenceMix := None; numFormants := None;
     formantQ := None; formantMix := None; ringModBaseFreq := None;
     ringModRange := None; ringModMix := None; morphPosition := Some position |}.

(** a loop [for (j = 0; j < n; j++) a[j] = f (j, a[j])] *)
Definition updateEach (f : nat → Q → Q) (n : nat) (l : list Q) : list Q :=
  fold_left (fun l j => <[j := f j (at_ l j)]> l) (seq 0 n) l.

(** ** Vocabulary of the properties of the transform

    Complex numbers over the rationals, compared component-wise up to
    [Qeq]. *)
Definition Complex : Type := Q * Q.
Definition Ceq (a b : Complex) : Prop := (fst a == fst b)%Q ∧ (snd a == snd b)%Q.
Definition Cadd (a b : Complex) : Complex := ((fst a + fst b)%Q, (snd a + snd b)%Q).
Definition Csub (a b : Complex) : Complex := ((fst a - fst b)%Q, (snd a - snd b)%Q).
Definition Cmul (a b : Complex) : Complex :=
  ((fst a * fst b - snd a * snd b)%Q, (fst a * snd b + snd a * fst b)%Q).
Definition Cscale (q : Q) (a : Complex) : Complex := ((q * fst a)%Q, (q * snd a)%Q).

(** the two outputs of a butterfly, written as the source writes them *)
Definition bfTop (u p t : Complex) : Complex :=
  ((fst u + fst p * fst t - snd p * snd t)%Q, (snd u + fst p * snd t + snd p * fst t)%Q).
Definition bfBottom (u p t : Complex) : Complex :=
  ((fst u - (fst p * fst t - snd p * snd t))%Q, (snd u - (fst p * snd t + snd p * fst t))%Q).

(** the complex sample at index [a] of a pair of arrays *)
Definition cval (ri : list Q * list Q) (a : nat) : Complex := (at_ (fst ri) a, at_ (snd ri) a).

(** the twiddle factor the butterfly reads from the tables of a plan *)
Definition twiddle (fft : FFTPlan) (invert : bool) (k : nat) : Complex :=
  (at_ (cosTable fft) k, ((if invert then -1 else 1) * at_ (sinTable fft) k)%Q).

(** the entry [bitReverse[i]] of a plan *)
Definition reversed (fft : FFTPlan) (i : nat) : nat := Z.to_nat (nth i (bitReverse fft) 0).

Definition bothLength (n : nat) (ri : list Q * list Q) : Prop :=
  length (fst ri) = n ∧ length (snd ri) = n.

(** the index whose [w] low bits are those of [b] in reverse order *)
Fixpoint bitrev (w b : nat) : nat :=
  match w with
  | O => 0
  | S w' => bitrev w' (b / 2) + (b mod 2) * 2 ^ w'
  end.

(** the recursive (decimation in time) reading of the loops of the
    closure, on [2 ^ s] samples [f 0, f 1, ...] with the twiddle factors
    [e 0, e sigma, e (2 * sigma), ...]; the proofs relate the loops to it *)
Fixpoint dit (e : nat → Complex) (s sigma : nat) (f : nat → Complex) (k : nat) : Complex :=
  match s with
  | O => f 0%nat
  | S s' =>
      let m := (2 ^ s')%nat in
      let E := dit e s' (2 * sigma) (fun n => f (2 * n)%nat) in
      let O := dit e s' (2 * sigma) (fun n => f (2 * n + 1)%nat) in
      if (k <? m)%nat then Cadd (E k) (Cmul (e (k * sigma)%nat) (O k))
      else Csub (E (k - m)%nat) (Cmul (e ((k - m) * sigma)%nat) (O (k - m)%nat))
  end.

(** every plan in the cache is one that [getFFT] built *)
Definition cacheBuilt (host : MathHost) (st : State) : Prop :=
  ∀ size fft, fftCache st !! size = Some fft → fft = buildFFT host size.

(** ** Further code: [constants.ts]

    The slider configuration of the parameters and the defaults the
    application starts with. *)

Record ParamConfig := {
  cfgLabel : string;
  cfgMin : Q;
  cfgMax : Q;
  cfgStep : Q;
  cfgDefaultValue : Q;
  cfgUnit : option string;
}.

(** the keys of [TransformationParams] *)
Inductive ParamKey : Type :=
  | KgateThreshold | KspectralMix | KtransientSensitivity | KsurfaceJitter
  | KnumHarmonics | KharmonicQ | KinterferenceFeedback | KinterferenceMix
  | KnumFormants | KformantQ | KformantMix
  | KringModBaseFreq | KringModRange | KringModMix | KmorphPosition.

#[global] Instance ParamKey_eq_dec : EqDecision ParamKey.
Proof. solve_decision. Defined.

Definition TRANSFORMATION_PARAMS_CONFIG : list (TransformationType * list (ParamKey * ParamConfig)) :=
  [ (RHYTHMIC,
     [ (KgateThreshold, {| cfgLabel := "Gate Threshold"; cfgMin := 1 # 100; cfgMax := 1;
                           cfgStep := 1 # 100; cfgDefaultValue := 2 # 10; cfgUnit := None |}) ]);
    (SPECTRAL,
     [ (KspectralMix, {| cfgLabel := "Mix"; cfgMin := 0; cfgMax := 1;
                         cfgStep := 1 # 100; cfgDefaultValue := 1; cfgUnit := None |}) ]);
    (TIME_WARP,
     [ (KtransientSensitivity,
        {| cfgLabel := "Transient Sensitivity"; cfgMin := 11 # 10; cfgMax := 4;
           cfgStep := 1 # 10; cfgDefaultValue := 18 # 10; cfgUnit := None |}) ]);
    (SURFACE_TRANSLATE,
     [ (KsurfaceJitter, {| cfgLabel := "Jitter"; cfgMin := 0; cfgMax := 1;
                           cfgStep := 1 # 100; cfgDefaultValue := 0; cfgUnit := None |}) ]);
    (HARMONIC_IMPRINT,
     [ (KnumHarmonics, {| cfgLabel := "Number of Harmonics"; cfgMin := 1; cfgMax := 20;
                          cfgStep := 1; cfgDefaultValue := 12; cfgUnit := None |});
       (KharmonicQ, {| cfgLabel := "Resonance (Q)"; cfgMin := 1; cfgMax := 100;
                       cfgStep := 1; cfgDefaultValue := 30; cfgUnit := None |}) ]);
    (INTERFERENCE_ECHOES,
     [ (KinterferenceFeedback, {| cfgLabel := "Feedback"; cfgMin := 0; cfgMax := 95 # 100;
                                  cfgStep := 1 # 100; cfgDefaultValue := 5 # 10; cfgUnit := None |});
       (KinterferenceMix, {| cfgLabel := "Echo Mix"; cfgMin := 0; cfgMax := 1;
                             cfgStep := 1 # 100; cfgDefaultValue := 5 # 10; cfgUnit := None |}) ]);
    (FORMANT_SHIFTING,
     [ (KnumFormants, {| cfgLabel := "Formants"; cfgMin := 1; cfgMax := 8;
                         cfgStep := 1; cfgDefaultValue := 4; cfgUnit := None |});
       (KformantQ, {| cfgLabel := "Resonance (Q)"; cfgMin := 1; cfgMax := 50;
                      cfgStep := 1; cfgDefaultValue := 20; cfgUnit := None |});
       (KformantMix, {| cfgLabel := "Mix"; cfgMin := 0; cfgMax := 1;
                        cfgStep := 1 # 100; cfgDefaultValue := 7 # 10; cfgUnit := None |}) ]);
    (DYNAMIC_RING_MOD,
     [ (KringModBaseFreq, {| cfgLabel := "Base Frequency"; cfgMin := 20; cfgMax := 2000;
                             cfgStep := 1; cfgDefaultValue := 100; cfgUnit := Some "Hz"%string |});
       (KringModRange, {| cfgLabel := "Frequency Range"; cfgMin := 0; cfgMax := 5000;
                          cfgStep := 10; cfgDefaultValue := 1000; cfgUnit := Some "Hz"%string |});
       (KringModMix, {| cfgLabel := "Mix"; cfgMin := 0; cfgMax := 1;
                        cfgStep := 1 # 100; cfgDefaultValue := 5 # 10; cfgUnit := None |}) ]);
    (TRANSFORMATION_MORPH,
     [ (KmorphPosition, {| cfgLabel := "Morph A/B"; cfgMin := 0; cfgMax := 1;
                           cfgStep := 1 # 100; cfgDefaultValue := 5 # 10; cfgUnit := None |}) ]) ].

(** [params[key]] and [params[key] = value] *)
Definition getParam (key : ParamKey) (p : TransformationParams) : option Q :=
  match key with
  | KgateThreshold => gateThreshold p
  | KspectralMix => spectralMix p
  | KtransientSensitivity => transientSensitivity p
  | KsurfaceJitter => surfaceJitter p
  | KnumHarmonics => numHarmonics p
  | KharmonicQ => harmonicQ p
  | KinterferenceFeedback => interferenceFeedback p
  | KinterferenceMix => interferenceMix p
  | KnumFormants => numFormants p
  | KformantQ => formantQ p
  | KformantMix => formantMix p
  | KringModBaseFreq => ringModBaseFreq p
  | KringModRange => ringModRange p
  | KringModMix => ringModMix p
  | KmorphPosition => morphPosition p
  end.

Definition setParam (key : ParamKey) (value : Q) (p : TransformationParams)
    : TransformationParams :=
  let keep k := if decide (k = key) then Some value else getParam k p in
  {| gateThreshold := keep KgateThreshold; spectralMix := keep KspectralMix;
     transientSensitivity := keep KtransientSensitivity; surfaceJitter := keep KsurfaceJitter;
     numHarmonics := keep KnumHarmonics; harmonicQ := keep KharmonicQ;
     interferenceFeedback := keep KinterferenceFeedback;
     interferenceMix := keep KinterferenceMix; numFormants := keep KnumFormants;
     formantQ := keep KformantQ; formantMix := keep KformantMix;
     ringModBaseFreq := keep KringModBaseFreq; ringModRange := keep KringModRange;
     ringModMix := keep KringModMix; morphPosition := keep KmorphPosition |}.

(** the two nested [for .. in] loops over the configuration *)
Definition getDefaultParams : TransformationParams :=
  fold_left
    (fun defaults '(_, config) =>
       fold_left
         (fun defaults '(paramKey, c) => setParam paramKey (cfgDefaultValue c) defaults)
         config defaults)
    TRANSFORMATION_PARAMS_CONFIG noParams.

(** ** Vocabulary of the further properties *)

(** the cache [c'] holds what [c] holds and, for the sizes 2048 and 8192
    only, possibly the plan that [getFFT] builds *)
Definition cacheExtends (host : MathHost) (c c' : gmap Z FFTPlan) : Prop :=
  ∀ size, c' !! size = c !! size ∨
          (c !! size = None ∧ c' !! size = Some (buildFFT host size) ∧
           (size = 2048 ∨ size = 8192)).

(** every run of [m] extends the cache in this way *)
Definition keepsCache {A} (host : MathHost) (m : M A) : Prop :=
  ∀ st, cacheExtends host (fftCache st) (fftCache (fst (m st))).

(** the value of [lastValue] in the first loop of [getAmplitudeEnvelope]
    after [k] samples *)
Fixpoint followerAfter (smoothing : Q) (inputData : list Q) (k : nat) : Q :=
  match k with
  | O => 0
  | S k' => smoothing * followerAfter smoothing inputData k'
            + (1 - smoothing) * Qabs (at_ inputData k')
  end.

(** the index into the sorted target that the loop of
    [applySurfaceTranslationMapping] computes for frame [i] *)
Definition surfaceIndex (host : MathHost) (calls : nat) (surfaceJitter : Q)
    (sourceData : list Q) (sortedLength : Z) (i : nat) : Z :=
  let jitterAmount := (surfaceJitter * inject_Z sortedLength * (5 # 100))%Q in
  let sourceSample := at_ sourceData i in
  let normalizedIndex := ((sourceSample + 1) / 2)%Q in
  let baseTargetIndex := Qfloor (normalizedIndex * inject_Z (sortedLength - 1))%Q in
  let randomOffset := ((Mrandom host (calls + i) - (1 # 2)) * jitterAmount)%Q in
  let finalIndex := js_round (inject_Z baseTargetIndex + randomOffset)%Q in
  Z.max 0 (Z.min (sortedLength - 1) finalIndex).

(** a list in ascending order *)
Fixpoint ascending (l : list Q) : Prop :=
  match l with
  | [] => True
  | x :: l' => (∀ y, y ∈ l' → (x <= y)%Q) ∧ ascending l'
  end.

(** [m] returns from every state, and what it returns satisfies [P] *)
Definition returnsWith {A} (m : M A) (P : A → Prop) : Prop :=
  ∀ st, ∃ st' a, m st = (st', Ok a) ∧ P a.

(** ** The live processor

    [EnvelopeFollower] and [TransformProcessor], the audio worklet that
    processes the microphone (input 0) against the looped target (input 1)
    block by block.  The fields of an object are the fields of a record;
    a method returns the updated object with its result. *)

Record EnvelopeFollower := {
  smoothing : Q;
  lastValue : Q;
}.

(** [new EnvelopeFollower (smoothing)] *)
Definition newEnvelopeFollower (smoothing : Q) : EnvelopeFollower :=
  {| smoothing := smoothing; lastValue := 0 |}.

(** [EnvelopeFollower.process (sample)]; the value of the follower is a
    [number] that the gate compares with its threshold: every operation
    rounds to a double.  A field holds the decimal that the source
    writes (0.998); the number it denotes is its double. *)
Definition EnvelopeFollower_process (follower : EnvelopeFollower) (sample : Q)
    : EnvelopeFollower * Q :=
  let value := Qabs sample in
  let smoothingNow := double (smoothing follower) in
  let lastValue' :=
    double (double (smoothingNow * lastValue follower)
            + double (double (1 - smoothingNow) * value)) in
  ({| smoothing := smoothing follower; lastValue := lastValue' |}, lastValue').

Record TransformProcessor := {
  tpTransformation : TransformationType;
  tpParams : TransformationParams;
  tpEnvelopeFollower : EnvelopeFollower;
  tpGateThreshold : Q;
}.

(** [x || d] on an optional number: [d] when [x] is missing or 0 *)
Definition orElse (x : option Q) (d : Q) : Q :=
  match x with
  | Some v => if Qeq_bool v 0 then d else v
  | None => d
  end.

(** [_updateParams ()] *)
Definition updateParams (tp : TransformProcessor) : TransformProcessor :=
  {| tpTransformation := tpTransformation tp; tpParams := tpParams tp;
     tpEnvelopeFollower := tpEnvelopeFollower tp;
     tpGateThreshold := orElse (gateThreshold (tpParams tp)) (2 # 10) |}.

(** [new TransformProcessor (options)]: the constructor and [_initialize ()] *)
Definition newTransformProcessor (transformation : TransformationType)
    (params : TransformationParams) : TransformProcessor :=
  updateParams
    {| tpTransformation := transformation; tpParams := params;
       tpEnvelopeFollower := newEnvelopeFollower (998 # 1000);
       tpGateThreshold := 0 |}.

(** the body of the inner loop of [process]: the [switch] *)
Definition processSample (tp : TransformProcessor) (follower : EnvelopeFollower)
    (sourceSample targetSample : Q) : EnvelopeFollower * Q :=
  match tpTransformation tp with
  | AMPLITUDE =>
      let '(follower', envelope) := EnvelopeFollower_process follower sourceSample in
      (follower', (targetSample * envelope * 5)%Q)
  | RHYTHMIC =>
      let '(follower', envelope) := EnvelopeFollower_process follower sourceSample in
      let gate := if Qltb (double (tpGateThreshold tp)) envelope then 1%Q else 0%Q in
      (follower', (targetSample * gate)%Q)
  | _ => (follower, targetSample)
  end.

(** the inner loop of [process] over one output channel *)
Definition processChannel (tp : TransformProcessor) (sourceChannel targetChannel : list Q)
    (state : EnvelopeFollower * list Q) : EnvelopeFollower * list Q :=
  fold_left
    (fun '(follower, outputChannel) i =>
       let sourceSample := at_ sourceChannel i in
       let targetSample := at_ targetChannel i in
       let '(follower', processedSample) :=
         processSample tp follower sourceSample targetSample in
       (follower', <[i := processedSample]> outputChannel))
    (seq 0 (length (snd state))) state.

(** the outer loop of [process]; reading a sample of a target channel
    that input 1 does not have throws *)
Fixpoint processChannels (tp : TransformProcessor) (sourceChannel : list Q)
    (targetInput : list (list Q)) (channels : list nat)
    (state : EnvelopeFollower * list (list Q))
    : (EnvelopeFollower * list (list Q)) * outcome unit :=
  match channels with
  | [] => (state, Ok tt)
  | channel :: rest =>
      let outputChannel := nth channel (snd state) [] in
      match targetInput !! channel with
      | Some targetChannel =>
          let '(follower', outputChannel') :=
            processChannel tp sourceChannel targetChannel (fst state, outputChannel) in
          processChannels tp sourceChannel targetInput rest
            (follower', <[channel := outputChannel']> (snd state))
      | None =>
          if (length outputChannel =? 0)%nat
          then processChannels tp sourceChannel targetInput rest state
          else (state, Throw "TypeError")
      end
  end.

(** [process (inputs, outputs)] with [inputs = [sourceInput, targetInput]]
    and [outputs = [output]]: the processor and the output block after
    the call, and what the call returns *)
Definition process (tp : TransformProcessor) (sourceInput targetInput output : list (list Q))
    : (TransformProcessor * list (list Q)) * outcome bool :=
  if (length sourceInput =? 0)%nat || (length targetInput =? 0)%nat
     || (length (nth 0 sourceInput []) =? 0)%nat || (length (nth 0 targetInput []) =? 0)%nat
  then ((tp, output), Ok true)
  else
    let sourceChannel := nth 0 sourceInput [] in
    let '((follower, output'), o) :=
      processChannels tp sourceChannel targetInput (seq 0 (length output))
        (tpEnvelopeFollower tp, output) in
    (({| tpTransformation := tpTransformation tp; tpParams := tpParams tp;
         tpEnvelopeFollower := follower; tpGateThreshold := tpGateThreshold tp |}, output'),
     match o with Ok _ => Ok true | Throw e => Throw e end).

(** ** The WAV encoder

    [bufferToWav]: a [DataView] over an [ArrayBuffer] is the list of its
    bytes; a write beyond its end throws [RangeError].  The two closures
    [setUint16] and [setUint32] advance the position [pos] they share. *)

Definition ToUint16 (z : Z) : Z := z mod 2 ^ 16.
Definition ToInt16 (z : Z) : Z := (z + 2 ^ 15) mod 2 ^ 16 - 2 ^ 15.

Definition Math_max (a b : Q) : Q := if Qltb a b then b else a.
Definition Math_min (a b : Q) : Q := if Qltb b a then b else a.

(** the [n] low bytes of [data], lowest first (two's complement for a
    negative [data]) *)
Definition littleEndian (n : nat) (data : Z) : list Z :=
  (fun k => (data / 2 ^ (8 * Z.of_nat k)) mod 256) <$> seq 0 n.

Definition setBytes (view : list Z) (byteOffset : nat) (bytes : list Z) : outcome (list Z) :=
  if (byteOffset + length bytes <=? length view)%nat
  then Ok (take byteOffset view ++ bytes ++ drop (byteOffset + length bytes) view)
  else Throw "RangeError".

(** [view.setUint16 (byteOffset, value, true)] and its two siblings *)
Definition DataView_setUint16 (view : list Z) (byteOffset : nat) (value : Q)
    : outcome (list Z) :=
  setBytes view byteOffset (littleEndian 2 (ToUint16 (js_trunc value))).
Definition DataView_setUint32 (view : list Z) (byteOffset : nat) (value : Q)
    : outcome (list Z) :=
  setBytes view byteOffset (littleEndian 4 (ToUint32 (js_trunc value))).
Definition DataView_setInt16 (view : list Z) (byteOffset : nat) (value : Q)
    : outcome (list Z) :=
  setBytes view byteOffset (littleEndian 2 (ToInt16 (js_trunc value))).

Definition andThen {A B} (o : outcome A) (k : A → outcome B) : outcome B :=
  match o with
  | Ok a => k a
  | Throw e => Throw e
  end.

(** the closures [setUint16] and [setUint32] on the pair [(view, pos)] *)
Definition setUint16 (data : Q) (w : list Z * nat) : outcome (list Z * nat) :=
  andThen (DataView_setUint16 (fst w) (snd w) data) (fun view => Ok (view, (snd w + 2)%nat)).
Definition setUint32 (data : Q) (w : list Z * nat) : outcome (list Z * nat) :=
  andThen (DataView_setUint32 (fst w) (snd w) data) (fun view => Ok (view, (snd w + 4)%nat)).

(** the RIFF header, the "fmt " sub-chunk and the head of the "data"
    sub-chunk *)
Definition writeHeader (numOfChan length_ : nat) (sampleRate : Q) (w : list Z * nat)
    : outcome (list Z * nat) :=
  andThen (setUint32 (inject_Z 0x46464952) w) (fun w =>
  andThen (setUint32 (inject_Z (Z.of_nat length_ - 8)) w) (fun w =>
  andThen (setUint32 (inject_Z 0x45564157) w) (fun w =>
  andThen (setUint32 (inject_Z 0x20746d66) w) (fun w =>
  andThen (setUint32 16 w) (fun w =>
  andThen (setUint16 1 w) (fun w =>
  andThen (setUint16 (inject_Z (Z.of_nat numOfChan)) w) (fun w =>
  andThen (setUint32 sampleRate w) (fun w =>
  andThen (setUint32 (sampleRate * 2 * inject_Z (Z.of_nat numOfChan)) w) (fun w =>
  andThen (setUint16 (inject_Z (Z.of_nat numOfChan * 2)) w) (fun w =>
  andThen (setUint16 16 w) (fun w =>
  andThen (setUint32 (inject_Z 0x61746164) w) (fun w =>
  setUint32 (inject_Z (Z.of_nat length_ - Z.of_nat (snd w) - 4)) w)))))))))))).

(** [Math.max (-1, Math.min (1, x))], then
    [(0.5 + sample < 0 ? sample * 32768 : sample * 32767) | 0] *)
Definition quantize (x : Q) : Z :=
  let sample := Math_max (-1) (Math_min 1 x) in
  js_or (js_trunc (if Qltb ((5 # 10) + sample) 0 then sample * 32768 else sample * 32767)%Q) 0.

(** the [for] loop over the channels of one frame *)
Definition writeFrame (channels : list (list Q)) (numOfChan offset : nat)
    (w : outcome (list Z * nat)) : outcome (list Z * nat) :=
  fold_left
    (fun w i =>
       andThen w (fun w =>
         let sample := quantize (at_ (nth i channels []) offset) in
         andThen (DataView_setInt16 (fst w) (snd w) (inject_Z sample))
                 (fun view => Ok (view, (snd w + 2)%nat))))
    (seq 0 numOfChan) w.

(** [while (pos < length) { ...; offset++ }] *)
Fixpoint writeFrames (fuel : nat) (channels : list (list Q)) (numOfChan length_ : nat)
    (w : list Z * nat) (offset : nat) : outcome (list Z * nat) :=
  match fuel with
  | O => Throw "out of fuel"
  | S fuel' =>
      if (snd w <? length_)%nat
      then andThen (writeFrame channels numOfChan offset (Ok w))
                   (fun w => writeFrames fuel' channels numOfChan length_ w (offset + 1)%nat)
      else Ok w
  end.

(** the samples behind a list of channel references *)
Definition readAll (channels : list nat) : M (list (list Q)) := fun st =>
  (st, Ok (contents st <$> channels)).

(** [bufferToWav (buffer)]: the bytes of the blob *)
Definition bufferToWav (buffer : AudioBuffer) : M (list Z) :=
  let numOfChan := numberOfChannels buffer in
  let length_ := (bufferLength buffer * numOfChan * 2 + 44)%nat in
  let view := replicate length_ 0%Z in
  match writeHeader numOfChan length_ (sampleRate buffer) (view, 0%nat) with
  | Throw e => throw e
  | Ok w =>
      channels <- foldM (seq 0 (numberOfChannels buffer)) []
                    (fun channels i =>
                       channel <- getChannelData buffer i ;; ret (channels ++ [channel])) ;;
      data <- readAll channels ;;
      match writeFrames (S (bufferLength buffer)) data numOfChan length_ w 0 with
      | Throw e => throw e
      | Ok w => ret (fst w)
      end
  end.

(** *** What the encoder writes *)

(** the number that [bytes] encode, lowest byte first *)
Definition littleEndianValue (bytes : list Z) : Z :=
  fold_right (fun b acc => b + 256 * acc) 0 bytes.

(** [n] bytes of [bytes] from [byteOffset] on *)
Definition bytesAt (bytes : list Z) (byteOffset n : nat) : list Z :=
  take n (drop byteOffset bytes).

(** the two bytes of one sample, and the bytes of one frame *)
Definition sampleBytes (channels : list (list Q)) (offset i : nat) : list Z :=
  littleEndian 2 (ToInt16 (quantize (at_ (nth i channels []) offset))).
Definition frameBytes (channels : list (list Q)) (numOfChan offset : nat) : list Z :=
  concat (sampleBytes channels offset <$> seq 0 numOfChan).

(** the 44 bytes in front of the samples *)
Definition headerBytes (numOfChan length_ : nat) (sampleRate : Q) : list Z :=
  littleEndian 4 (ToUint32 0x46464952) ++
  littleEndian 4 (ToUint32 (Z.of_nat length_ - 8)) ++
  littleEndian 4 (ToUint32 0x45564157) ++
  littleEndian 4 (ToUint32 0x20746d66) ++
  littleEndian 4 (ToUint32 16) ++
  littleEndian 2 (ToUint16 1) ++
  littleEndian 2 (ToUint16 (Z.of_nat numOfChan)) ++
  littleEndian 4 (ToUint32 (js_trunc sampleRate)) ++
  littleEndian 4 (ToUint32 (js_trunc (sampleRate * 2 * inject_Z (Z.of_nat numOfChan)))) ++
  littleEndian 2 (ToUint16 (Z.of_nat numOfChan * 2)) ++
  littleEndian 2 (ToUint16 16) ++
  littleEndian 4 (ToUint32 0x61746164) ++
  littleEndian 4 (ToUint32 (Z.of_nat length_ - 44)).

(** the two operators that return a mono buffer at the rate of the
    source; the others return the channels and the rate of the target *)
Definition returnsMono (type : TransformationType) : bool :=
  match type with
  | SURFACE_TRANSLATE | FOURIER_MASKING => true
  | _ => false
  end.

(** whether the host takes the buffers an operator hands to its nodes:
    the convolver of Convolution Morphing refuses some sources; no other
    operator sets a buffer that the host can refuse *)
Definition hostAccepts (type : TransformationType) (sourceBuffer targetBuffer : AudioBuffer)
    : bool :=
  match type with
  | CONVOLUTION => convolverAccepts (sampleRate targetBuffer) sourceBuffer
  | _ => true
  end.

(** [m] returns from every state that holds the array [n0], and the
    samples [ys] that the array holds afterwards are related by [R] to the
    samples [xs] it held before and to the value returned *)
Definition tracks {A} (n0 : nat) (m : M A) (R : list Q → list Q → A → Prop) : Prop :=
  ∀ s xs, heap s !! n0 = Some xs →
    ∃ s' a ys, m s = (s', Ok a) ∧ heap s' !! n0 = Some ys ∧ R xs ys a.

(** the unit roundoff of the doubles: the relative error of one
    operation is at most this *)
Definition unitRoundoff : Q := (2 ^ (-53))%Q.

(** * Properties *)

(** ** Rounding to the nearest double *)

Lemma Qpower2_pos e : (0 < 2 ^ e)%Q.
Proof. apply Qpower_0_lt. reflexivity. Qed.

Lemma Qpower2_quotient a b :
  0 <= a → 0 <= b → (2 ^ (a - b) == inject_Z (2 ^ a) / inject_Z (2 ^ b))%Q.
Proof.
  intros Ha Hb. rewrite Qpower_minus by discriminate.
  rewrite !Zpower_Qpower by assumption. reflexivity.
Qed.

Lemma binaryExponent_spec x :
  ¬ (x == 0)%Q → (2 ^ binaryExponent x <= Qabs x)%Q ∧ (Qabs x < 2 ^ (binaryExponent x + 1))%Q.
Proof.
  intros Hx. unfold binaryExponent.
  set (n := Z.abs (Qnum x)). set (d := Zpos (Qden x)).
  assert (Hn : 0 < n).
  { unfold n. destruct x as [[|p|p] q]; cbn; try lia. exfalso. apply Hx. reflexivity. }
  assert (Hd : 0 < d) by (unfold d; lia).
  destruct (Z.log2_spec n Hn) as [Hn1 Hn2]. destruct (Z.log2_spec d Hd) as [Hd1 Hd2].
  pose proof (Z.log2_nonneg n) as Ha. pose proof (Z.log2_nonneg d) as Hb.
  set (a := Z.log2 n) in *. set (b := Z.log2 d) in *.
  assert (Habs : (Qabs x == inject_Z n / inject_Z d)%Q).
  { destruct x as [xn xd]. unfold Qabs, n, d. cbn [Qnum Qden].
    unfold Qeq, Qdiv, Qmult, Qinv, inject_Z. cbn. lia. }
  assert (Hlow : (2 ^ (a - b - 1) <= Qabs x)%Q).
  { replace (a - b - 1) with (a - (b + 1)) by lia.
    rewrite Qpower2_quotient, Habs by lia.
    apply Qle_shift_div_l; [change 0%Q with (inject_Z 0); rewrite <- Zlt_Qlt; lia|].
    unfold Qdiv. rewrite <- Qmult_assoc, (Qmult_comm (/ _)), Qmult_assoc.
    apply Qle_shift_div_r; [change 0%Q with (inject_Z 0); rewrite <- Zlt_Qlt; lia|].
    rewrite <- !inject_Z_mult, <- Zle_Qle.
    assert (Hp : 2 ^ (b + 1) = 2 * 2 ^ b) by (rewrite Z.pow_add_r, Z.pow_1_r by lia; lia).
    rewrite Hp in *. nia. }
  assert (Hhigh : (Qabs x < 2 ^ (a - b + 1))%Q).
  { replace (a - b + 1) with ((a + 1) - b) by lia.
    rewrite Qpower2_quotient, Habs by lia.
    apply Qlt_shift_div_l; [change 0%Q with (inject_Z 0); rewrite <- Zlt_Qlt; lia|].
    unfold Qdiv. rewrite <- Qmult_assoc, (Qmult_comm (/ _)), Qmult_assoc.
    apply Qlt_shift_div_r; [change 0%Q with (inject_Z 0); rewrite <- Zlt_Qlt; lia|].
    rewrite <- !inject_Z_mult, <- Zlt_Qlt.
    assert (Hp : 2 ^ (a + 1) = 2 * 2 ^ a) by (rewrite Z.pow_add_r, Z.pow_1_r by lia; lia).
    rewrite Hp in *. nia. }
  destruct (Qle_bool (2 ^ (a - b)) (Qabs x)) eqn:E.
  - apply Qle_bool_iff in E. split; assumption.
  - split; [exact Hlow|].
    replace (a - b - 1 + 1) with (a - b) by lia.
    apply Qnot_le_lt. intros H. apply Qle_bool_iff in H. congruence.
Qed.

Lemma roundHalfEven_near x :
  (x - (1 # 2) <= inject_Z (roundHalfEven x))%Q ∧ (inject_Z (roundHalfEven x) <= x + (1 # 2))%Q.
Proof.
  unfold roundHalfEven.
  pose proof (Qfloor_le x) as Hlo. pose proof (Qlt_floor x) as Hhi.
  rewrite inject_Z_plus in Hhi. change (inject_Z 1) with 1%Q in Hhi.
  destruct (Qcompare_spec (x - inject_Z (Qfloor x)) (1 # 2)) as [E|E|E].
  - destruct (Z.even (Qfloor x)); [|rewrite inject_Z_plus; change (inject_Z 1) with 1%Q];
      split; lra.
  - split; lra.
  - rewrite inject_Z_plus. change (inject_Z 1) with 1%Q. split; lra.
Qed.

Lemma roundHalfEven_Z z : roundHalfEven (inject_Z z) = z.
Proof.
  unfold roundHalfEven. rewrite Qfloor_Z.
  destruct (Qcompare_spec (inject_Z z - inject_Z z) (1 # 2)) as [E|E|E]; [lra | reflexivity | lra].
Qed.

Lemma roundToBits_zero precision x : (x == 0)%Q → roundToBits precision x = 0%Q.
Proof. intros Hx. unfold roundToBits. apply Qeq_bool_iff in Hx. rewrite Hx. reflexivity. Qed.

Lemma roundToBits_scaled precision x :
  ¬ (x == 0)%Q →
  let e := binaryExponent x - (precision - 1) in
  (x == (x / 2 ^ e) * 2 ^ e)%Q ∧ (2 ^ (precision - 1) <= Qabs (x / 2 ^ e))%Q.
Proof.
  intros Hx e. pose proof (Qpower2_pos e) as He.
  split; [field; lra|].
  destruct (binaryExponent_spec x Hx) as [Hlo _].
  unfold Qdiv. rewrite Qabs_Qmult, (Qabs_pos (/ _)) by (apply Qlt_le_weak, Qinv_lt_0_compat, He).
  apply Qle_shift_div_l; [exact He|].
  rewrite <- Qpower_plus by discriminate.
  replace (precision - 1 + e) with (binaryExponent x) by (unfold e; lia). exact Hlo.
Qed.

Lemma roundToBits_pos precision x :
  1 <= precision → (0 < x)%Q → (0 < roundToBits precision x)%Q.
Proof.
  intros Hp Hx. unfold roundToBits.
  destruct (Qeq_bool x 0) eqn:E; [apply Qeq_bool_iff in E; lra|].
  assert (Hne : ¬ (x == 0)%Q) by lra.
  destruct (roundToBits_scaled precision x Hne) as [Heq Hge]. cbv zeta in Heq, Hge |- *.
  set (e := binaryExponent x - (precision - 1)) in *.
  pose proof (Qpower2_pos e) as He.
  assert (Hs : (0 < x / 2 ^ e)%Q) by (apply Qlt_shift_div_l; lra).
  rewrite Qabs_pos in Hge by lra.
  assert (H1 : (1 <= 2 ^ (precision - 1))%Q).
  { change 1%Q with (2 ^ 0)%Q. apply Qpower_le_compat_l; [lia | lra]. }
  destruct (roundHalfEven_near (x / 2 ^ e)) as [Hlo _].
  assert (Hr : 0 < roundHalfEven (x / 2 ^ e)).
  { rewrite Zlt_Qlt. change (inject_Z 0) with 0%Q. lra. }
  apply Qmult_lt_0_compat; [|exact He].
  change 0%Q with (inject_Z 0). rewrite <- Zlt_Qlt. exact Hr.
Qed.

Lemma roundToBits_nonneg precision x :
  1 <= precision → (0 <= x)%Q → (0 <= roundToBits precision x)%Q.
Proof.
  intros Hp Hx. destruct (Qeq_dec x 0) as [E|E].
  - rewrite (roundToBits_zero _ _ E). lra.
  - apply Qlt_le_weak, roundToBits_pos; [exact Hp | lra].
Qed.

(** the rounding error is at most half a unit in the last place:
    relative to [x] it is at most [2 ^ - precision] *)
Lemma roundToBits_error precision x :
  (Qabs (roundToBits precision x - x) <= Qabs x * 2 ^ (- precision))%Q.
Proof.
  unfold roundToBits. destruct (Qeq_bool x 0) eqn:E.
  { apply Qeq_bool_iff in E. rewrite E.
    change (0 <= 0 * 2 ^ (- precision))%Q. lra. }
  assert (Hne : ¬ (x == 0)%Q) by (intros H; apply Qeq_bool_iff in H; congruence).
  destruct (roundToBits_scaled precision x Hne) as [Heq Hge]. cbv zeta in Heq, Hge |- *.
  set (e := binaryExponent x - (precision - 1)) in *.
  set (s := (x / 2 ^ e)%Q) in *.
  pose proof (Qpower2_pos e) as He.
  destruct (roundHalfEven_near s) as [Hlo Hhi].
  assert (Hd : (Qabs (inject_Z (roundHalfEven s) - s) <= 1 # 2)%Q) by (apply Qabs_Qle_condition; lra).
  assert (Hdiff : (inject_Z (roundHalfEven s) * 2 ^ e - x
                   == (inject_Z (roundHalfEven s) - s) * 2 ^ e)%Q)
    by (rewrite Heq at 1; ring).
  rewrite Hdiff.
  rewrite Qabs_Qmult, (Qabs_pos (2 ^ e)) by lra.
  assert (Hx : (Qabs x == Qabs s * 2 ^ e)%Q).
  { rewrite Heq at 1. rewrite Qabs_Qmult, (Qabs_pos (2 ^ e)) by lra. reflexivity. }
  rewrite Hx.
  assert (Hpow : (2 ^ (precision - 1) * 2 ^ (- precision) == 1 # 2)%Q).
  { rewrite <- Qpower_plus by discriminate.
    replace (precision - 1 + - precision) with (-1) by lia. reflexivity. }
  pose proof (Qpower2_pos (- precision)) as Hpp.
  assert (Hhalf : (1 # 2 <= Qabs s * 2 ^ (- precision))%Q).
  { rewrite <- Hpow. apply Qmult_le_compat_r; lra. }
  assert (Hswap : (Qabs s * 2 ^ e * 2 ^ (- precision)
                   == Qabs s * 2 ^ (- precision) * 2 ^ e)%Q) by ring.
  rewrite Hswap. apply Qmult_le_compat_r; lra.
Qed.

Lemma Qpower2_mono a b : a <= b → (2 ^ a <= 2 ^ b)%Q.
Proof. intros H. apply Qpower_le_compat_l; [exact H | discriminate]. Qed.

Lemma Qpower2_Z k : 0 <= k → (2 ^ k == inject_Z (2 ^ k))%Q.
Proof. intros Hk. rewrite Zpower_Qpower by exact Hk. reflexivity. Qed.

(** the exponent is determined by the binade *)
Lemma binaryExponent_unique x k :
  (2 ^ k <= Qabs x)%Q → (Qabs x < 2 ^ (k + 1))%Q → binaryExponent x = k.
Proof.
  intros Hlo Hhi.
  assert (Hx : ¬ (x == 0)%Q).
  { intros E. rewrite E in Hlo. pose proof (Qpower2_pos k).
    change (Qabs 0) with 0%Q in Hlo. lra. }
  destruct (binaryExponent_spec x Hx) as [Hlo' Hhi'].
  destruct (Z.lt_trichotomy (binaryExponent x) k) as [H|[H|H]]; [|exact H|].
  - pose proof (Qpower2_mono (binaryExponent x + 1) k ltac:(lia)). lra.
  - pose proof (Qpower2_mono (k + 1) (binaryExponent x) ltac:(lia)). lra.
Qed.

Lemma roundHalfEven_comp x y : (x == y)%Q → roundHalfEven x = roundHalfEven y.
Proof.
  intros E. unfold roundHalfEven. rewrite (Qfloor_comp _ _ E).
  assert (E' : (x - inject_Z (Qfloor y) == y - inject_Z (Qfloor y))%Q) by (rewrite E; reflexivity).
  rewrite E'. reflexivity.
Qed.

(** a significand of [precision] bits is kept *)
Lemma roundToBits_exact precision m e :
  1 <= precision → 2 ^ (precision - 1) <= Z.abs m < 2 ^ precision →
  (roundToBits precision (inject_Z m * 2 ^ e) == inject_Z m * 2 ^ e)%Q.
Proof.
  intros Hp [Hlo Hhi]. pose proof (Qpower2_pos e) as He.
  assert (Hpow : 0 < 2 ^ (precision - 1)) by (apply Z.pow_pos_nonneg; lia).
  assert (Habs : (Qabs (inject_Z m * 2 ^ e) == inject_Z (Z.abs m) * 2 ^ e)%Q).
  { rewrite Qabs_Qmult, (Qabs_pos (2 ^ e)) by lra.
    unfold Qabs, inject_Z. cbn. reflexivity. }
  assert (Hk : binaryExponent (inject_Z m * 2 ^ e) = precision - 1 + e).
  { apply binaryExponent_unique; rewrite Habs.
    - rewrite Qpower_plus by discriminate. apply Qmult_le_compat_r; [|lra].
      rewrite Qpower2_Z by lia. rewrite <- Zle_Qle. exact Hlo.
    - replace (precision - 1 + e + 1) with (precision + e) by lia.
      rewrite Qpower_plus by discriminate. apply Qmult_lt_compat_r; [lra|].
      rewrite Qpower2_Z by lia. rewrite <- Zlt_Qlt. exact Hhi. }
  unfold roundToBits.
  destruct (Qeq_bool (inject_Z m * 2 ^ e) 0) eqn:E.
  { apply Qeq_bool_iff in E. rewrite E. reflexivity. }
  rewrite Hk. replace (precision - 1 + e - (precision - 1)) with e by lia.
  assert (Hs : (inject_Z m * 2 ^ e / 2 ^ e == inject_Z m)%Q) by (field; lra).
  rewrite (roundHalfEven_comp _ _ Hs), roundHalfEven_Z. reflexivity.
Qed.

Lemma roundHalfEven_range x a b :
  (inject_Z a <= x)%Q → (x <= inject_Z b)%Q → a <= roundHalfEven x <= b.
Proof.
  intros Ha Hb. unfold roundHalfEven.
  pose proof (Qfloor_resp_le _ _ Ha) as Hfa. rewrite Qfloor_Z in Hfa.
  pose proof (Qfloor_resp_le _ _ Hb) as Hfb. rewrite Qfloor_Z in Hfb.
  pose proof (Qfloor_le x) as Hfl.
  destruct (Z.eq_dec (Qfloor x) b) as [Eb|Nb].
  - assert (Hxb : (x == inject_Z b)%Q) by (rewrite Eb in Hfl; lra).
    destruct (Qcompare_spec (x - inject_Z (Qfloor x)) (1 # 2)) as [E|E|E];
      rewrite Eb, Hxb in E; try lra; lia.
  - destruct (Qcompare (x - inject_Z (Qfloor x)) (1 # 2)); [destruct (Z.even _)| |]; lia.
Qed.

(** rounding twice is rounding once *)
Lemma roundToBits_idempotent precision x :
  1 <= precision →
  (roundToBits precision (roundToBits precision x) == roundToBits precision x)%Q.
Proof.
  intros Hp. unfold roundToBits at 2 3.
  destruct (Qeq_bool x 0) eqn:E; [reflexivity|].
  assert (Hx : ¬ (x == 0)%Q) by (intros H; apply Qeq_bool_iff in H; congruence).
  destruct (roundToBits_scaled precision x Hx) as [Heq Hge]. cbv zeta in Heq, Hge |- *.
  set (e := binaryExponent x - (precision - 1)) in *.
  set (s := (x / 2 ^ e)%Q) in *.
  pose proof (Qpower2_pos e) as He.
  destruct (binaryExponent_spec x Hx) as [_ Hhi].
  assert (Hlt : (Qabs s < 2 ^ precision)%Q).
  { unfold s, Qdiv. rewrite Qabs_Qmult, (Qabs_pos (/ _)) by (apply Qlt_le_weak, Qinv_lt_0_compat, He).
    apply Qlt_shift_div_r; [exact He|]. rewrite <- Qpower_plus by discriminate.
    replace (precision + e) with (binaryExponent x + 1) by (unfold e; lia). exact Hhi. }
  set (m := roundHalfEven s).
  assert (Hm : 2 ^ (precision - 1) <= Z.abs m <= 2 ^ precision).
  { assert (Hpow : 0 < 2 ^ (precision - 1)) by (apply Z.pow_pos_nonneg; lia).
    rewrite (Qpower2_Z (precision - 1)) in Hge by lia.
    rewrite (Qpower2_Z precision) in Hlt by lia.
    destruct (Qlt_le_dec s 0) as [Hneg|Hpos].
    - rewrite Qabs_neg in Hge, Hlt by lra.
      destruct (roundHalfEven_range s (- 2 ^ precision) (- 2 ^ (precision - 1))) as [H1 H2];
        [rewrite inject_Z_opp; lra | rewrite inject_Z_opp; lra | fold m in H1, H2; lia].
    - rewrite Qabs_pos in Hge, Hlt by lra.
      destruct (roundHalfEven_range s (2 ^ (precision - 1)) (2 ^ precision)) as [H1 H2];
        [lra | lra | fold m in H1, H2; lia]. }
  destruct (Z.eq_dec (Z.abs m) (2 ^ precision)) as [Etop|Ntop].
  - (* the significand carried into the next binade *)
    assert (Hhalf : ∃ h, m = 2 * h ∧ Z.abs h = 2 ^ (precision - 1)).
    { assert (Hp2 : 2 ^ precision = 2 * 2 ^ (precision - 1)).
      { replace precision with (precision - 1 + 1) at 1 by lia.
        rewrite Z.pow_add_r, Z.pow_1_r by lia. lia. }
      destruct (Z.abs_spec m) as [[_ Ea]|[_ Ea]].
      - exists (2 ^ (precision - 1)). split; [lia|]. apply Z.abs_eq. lia.
      - exists (- 2 ^ (precision - 1)). split; [lia|]. rewrite Z.abs_opp. apply Z.abs_eq. lia. }
    destruct Hhalf as (h & Eh & Hh).
    assert (Hre : (inject_Z m * 2 ^ e == inject_Z h * 2 ^ (e + 1))%Q).
    { rewrite Eh, inject_Z_mult, Qpower_plus by discriminate.
      change (2 ^ 1)%Q with 2%Q. change (inject_Z 2) with 2%Q. ring. }
    assert (Hexact := roundToBits_exact precision h (e + 1) Hp ltac:(split; [lia|]; rewrite Hh;
      apply Z.pow_lt_mono_r; lia)).
    etransitivity; [|symmetry; exact Hre].
    etransitivity; [|exact Hexact].
    unfold roundToBits.
    assert (Eb : Qeq_bool (inject_Z m * 2 ^ e) 0 = Qeq_bool (inject_Z h * 2 ^ (e + 1)) 0).
    { destruct (Qeq_bool (inject_Z m * 2 ^ e) 0) eqn:E1,
        (Qeq_bool (inject_Z h * 2 ^ (e + 1)) 0) eqn:E2; try reflexivity.
      - apply Qeq_bool_iff in E1. rewrite Hre in E1. apply Qeq_bool_iff in E1. congruence.
      - apply Qeq_bool_iff in E2. rewrite <- Hre in E2. apply Qeq_bool_iff in E2. congruence. }
    rewrite Eb. destruct (Qeq_bool (inject_Z h * 2 ^ (e + 1)) 0); [reflexivity|].
    assert (Hbe : binaryExponent (inject_Z m * 2 ^ e) = binaryExponent (inject_Z h * 2 ^ (e + 1))).
    { assert (Hne : ¬ (inject_Z h * 2 ^ (e + 1) == 0)%Q).
      { intros H0. pose proof (Qpower2_pos (e + 1)).
        assert (Hh0 : (inject_Z h == 0)%Q).
        { apply Qmult_integral in H0 as [H0|H0]; [exact H0 | lra]. }
        change 0%Q with (inject_Z 0) in Hh0. rewrite inject_Z_injective in Hh0.
        assert (0 < 2 ^ (precision - 1)) by (apply Z.pow_pos_nonneg; lia).
        rewrite Hh0 in Hh. change (Z.abs 0) with 0 in Hh. lia. }
      destruct (binaryExponent_spec _ Hne) as [B1 B2].
      apply binaryExponent_unique; rewrite Hre; assumption. }
    rewrite Hbe.
    set (e' := binaryExponent (inject_Z h * 2 ^ (e + 1)) - (precision - 1)).
    assert (Hsc : (inject_Z m * 2 ^ e / 2 ^ e' == inject_Z h * 2 ^ (e + 1) / 2 ^ e')%Q)
      by (rewrite Hre; reflexivity).
    rewrite (roundHalfEven_comp _ _ Hsc). reflexivity.
  - apply roundToBits_exact; [exact Hp | lia].
Qed.

Lemma binaryExponent_comp x y : ¬ (x == 0)%Q → (x == y)%Q → binaryExponent x = binaryExponent y.
Proof.
  intros Hx E. assert (Hy : ¬ (y == 0)%Q) by (rewrite <- E; exact Hx).
  destruct (binaryExponent_spec y Hy) as [Hlo Hhi].
  apply binaryExponent_unique; rewrite E; assumption.
Qed.

Lemma roundToBits_comp precision x y :
  (x == y)%Q → (roundToBits precision x == roundToBits precision y)%Q.
Proof.
  intros E. unfold roundToBits.
  destruct (Qeq_bool x 0) eqn:Ex, (Qeq_bool y 0) eqn:Ey; try reflexivity.
  - apply Qeq_bool_iff in Ex. rewrite E in Ex. apply Qeq_bool_iff in Ex. congruence.
  - apply Qeq_bool_iff in Ey. rewrite <- E in Ey. apply Qeq_bool_iff in Ey. congruence.
  - assert (Hx : ¬ (x == 0)%Q) by (intros H; apply Qeq_bool_iff in H; congruence).
    rewrite (binaryExponent_comp x y Hx E).
    set (e := binaryExponent y - (precision - 1)).
    assert (Es : (x / 2 ^ e == y / 2 ^ e)%Q) by (rewrite E; reflexivity).
    rewrite (roundHalfEven_comp _ _ Es). reflexivity.
Qed.

(** an integer below [2 ^ precision] is kept *)
Lemma roundToBits_Z precision z :
  1 <= precision → Z.abs z < 2 ^ precision →
  (roundToBits precision (inject_Z z) == inject_Z z)%Q.
Proof.
  intros Hp Hz. destruct (Z.eq_dec z 0) as [->|Hne]; [reflexivity|].
  assert (Hpos : 0 < Z.abs z) by lia.
  destruct (Z.log2_spec (Z.abs z) Hpos) as [Hlo Hhi].
  pose proof (Z.log2_nonneg (Z.abs z)) as Hl0.
  set (l := Z.log2 (Z.abs z)) in *.
  assert (Hl : l < precision).
  { destruct (Z.lt_ge_cases l precision) as [H|H]; [exact H|].
    pose proof (Z.pow_le_mono_r 2 precision l ltac:(lia) H). lia. }
  set (k := precision - 1 - l).
  assert (Hk : 0 <= k) by (unfold k; lia).
  assert (Hre : (inject_Z z == inject_Z (z * 2 ^ k) * 2 ^ (- k))%Q).
  { rewrite inject_Z_mult, <- Qpower2_Z by exact Hk.
    rewrite <- Qmult_assoc, <- Qpower_plus by discriminate.
    replace (k + - k) with 0 by lia. change (2 ^ 0)%Q with 1%Q. ring. }
  rewrite (roundToBits_comp _ _ _ Hre). etransitivity; [|symmetry; exact Hre].
  apply roundToBits_exact; [exact Hp|].
  rewrite Z.abs_mul, (Z.abs_eq (2 ^ k)) by (apply Z.pow_nonneg; lia).
  assert (E1 : 2 ^ (precision - 1) = 2 ^ l * 2 ^ k).
  { rewrite <- Z.pow_add_r by lia. f_equal. unfold k. lia. }
  assert (E2 : 2 ^ precision = 2 ^ (l + 1) * 2 ^ k).
  { rewrite <- Z.pow_add_r by lia. f_equal. unfold k. lia. }
  assert (Hk0 : 0 < 2 ^ k) by (apply Z.pow_pos_nonneg; lia).
  rewrite E1, E2. split; [apply Z.mul_le_mono_nonneg_r; lia | apply Z.mul_lt_mono_pos_r; lia].
Qed.

(** rounding does not leave the binade *)
Lemma roundToBits_binade precision x k :
  1 <= precision → (2 ^ k <= x)%Q → (2 ^ k <= roundToBits precision x)%Q.
Proof.
  intros Hp Hk. pose proof (Qpower2_pos k) as Hk0.
  assert (Hx : ¬ (x == 0)%Q) by lra.
  destruct (binaryExponent_spec x Hx) as [Hlo Hhi].
  rewrite Qabs_pos in Hlo, Hhi by lra.
  assert (Hkb : k <= binaryExponent x).
  { destruct (Z.le_gt_cases k (binaryExponent x)) as [H|H]; [exact H|].
    pose proof (Qpower2_mono (binaryExponent x + 1) k ltac:(lia)). lra. }
  unfold roundToBits.
  destruct (Qeq_bool x 0) eqn:E; [apply Qeq_bool_iff in E; lra|].
  destruct (roundToBits_scaled precision x Hx) as [Heq Hge]. cbv zeta in Heq, Hge.
  set (e := binaryExponent x - (precision - 1)) in *.
  pose proof (Qpower2_pos e) as He.
  assert (Hs : (0 < x / 2 ^ e)%Q) by (apply Qlt_shift_div_l; lra).
  rewrite Qabs_pos in Hge by lra.
  assert (Hpow : 0 < 2 ^ (precision - 1)) by (apply Z.pow_pos_nonneg; lia).
  rewrite (Qpower2_Z (precision - 1)) in Hge by lia.
  destruct (roundHalfEven_range (x / 2 ^ e) (2 ^ (precision - 1)) (Qceiling (x / 2 ^ e)) Hge
              (Qle_ceiling _)) as [Hm _].
  apply Qle_trans with (2 ^ binaryExponent x)%Q; [apply Qpower2_mono, Hkb|].
  replace (binaryExponent x) with (precision - 1 + e) at 1 by (unfold e; lia).
  rewrite Qpower_plus by discriminate. apply Qmult_le_compat_r; [|lra].
  rewrite Qpower2_Z by lia. rewrite <- Zle_Qle. exact Hm.
Qed.

Lemma double_pos x : (0 < x)%Q → (0 < double x)%Q.
Proof. apply roundToBits_pos. lia. Qed.

Lemma double_nonneg x : (0 <= x)%Q → (0 <= double x)%Q.
Proof. apply roundToBits_nonneg. lia. Qed.

Lemma double_ge_1 x : (1 <= x)%Q → (1 <= double x)%Q.
Proof. intros H. apply (roundToBits_binade 53 x 0); [lia | exact H]. Qed.

Lemma double_comp x y : (x == y)%Q → (double x == double y)%Q.
Proof. apply roundToBits_comp. Qed.

(** the integers below [2 ^ 53] are doubles *)
Lemma double_Z z : Z.abs z < 2 ^ 53 → (double (inject_Z z) == inject_Z z)%Q.
Proof. apply roundToBits_Z. lia. Qed.

(** a double is its own double: reading a field that holds a double
    through [double] changes nothing *)
Lemma double_idempotent x : (double (double x) == double x)%Q.
Proof. apply roundToBits_idempotent. lia. Qed.

(** the values the doubles give: [48000 * (288 / 1000)] is
    [13823.999999999998] (so 288 ms at 48 kHz are 13823 frames of
    separation), [(13 / 44100) * 44100] is [13.000000000000002], and
    [1.0 - 0.998] is [0.0020000000000000018], the exact difference of
    1 and the double 0.998 *)
Example double_product_below : minSeparationFrames 48000 288 = 13823.
Proof. vm_compute. reflexivity. Qed.

Example double_product_above :
  Qceiling (double (double (13 / 44100) * 44100)) = 14.
Proof. vm_compute. reflexivity. Qed.

Example double_difference :
  (double (1 - double (998 # 1000)) == 1 - double (998 # 1000))%Q ∧
  (2 # 1000 < double (1 - double (998 # 1000)))%Q.
Proof. split; vm_compute; reflexivity. Qed.

(** ** The size check of [getFFT] *)

Lemma ToInt32_small z : -2 ^ 31 <= z < 2 ^ 31 → ToInt32 z = z.
Proof.
  intros Hz. unfold ToInt32.
  rewrite Z.mod_small by lia. lia.
Qed.

Lemma land_pred_nonzero s :
  0 < s → (∀ k, 0 <= k → s ≠ 2 ^ k) → Z.land s (s - 1) ≠ 0.
Proof.
  intros Hs Hnp Hland.
  pose proof (Z.log2_spec s Hs) as [Hlo Hhi].
  pose proof (Z.log2_nonneg s) as Hk.
  assert (Hne : s ≠ 2 ^ Z.log2 s) by (apply Hnp; lia).
  assert (Hpos : 0 < s - 1).
  { assert (0 < 2 ^ Z.log2 s) by (apply Z.pow_pos_nonneg; lia). lia. }
  assert (Hlog : Z.log2 (s - 1) = Z.log2 s).
  { apply Z.log2_unique; [lia|]. lia. }
  assert (Hb1 : Z.testbit s (Z.log2 s) = true) by (apply Z.bit_log2; lia).
  assert (Hb2 : Z.testbit (s - 1) (Z.log2 s) = true).
  { rewrite <- Hlog. apply Z.bit_log2; lia. }
  assert (Hb : Z.testbit (Z.land s (s - 1)) (Z.log2 s) = true).
  { rewrite Z.land_spec, Hb1, Hb2. reflexivity. }
  rewrite Hland, Z.bits_0 in Hb. discriminate.
Qed.

Lemma land_pred_pow2 k : 0 <= k → Z.land (2 ^ k) (2 ^ k - 1) = 0.
Proof.
  intros Hk. replace (2 ^ k - 1) with (Z.ones k) by (rewrite Z.ones_equiv; lia).
  apply Z.bits_inj'. intros n Hn.
  rewrite Z.land_spec, Z.bits_0, Z.pow2_bits_eqb by lia.
  destruct (Z.eqb_spec k n) as [->|Hne]; [|reflexivity].
  rewrite Z.ones_spec_high by lia. reflexivity.
Qed.

Lemma fft_size_invalid_nonpositive size : size <= 0 → fft_size_invalid size = true.
Proof. intros H. unfold fft_size_invalid. apply Z.leb_le in H. rewrite H. reflexivity. Qed.

Lemma fft_size_invalid_not_pow2 size :
  0 < size < 2 ^ 31 → (∀ k, 0 <= k → size ≠ 2 ^ k) → fft_size_invalid size = true.
Proof.
  intros Hs Hnp. unfold fft_size_invalid, js_and.
  rewrite !ToInt32_small by lia.
  apply orb_true_iff. right. apply negb_true_iff, Z.eqb_neq.
  apply land_pred_nonzero; [lia | exact Hnp].
Qed.

Lemma fft_size_valid_pow2 k : 0 <= k < 31 → fft_size_invalid (2 ^ k) = false.
Proof.
  intros Hk. unfold fft_size_invalid, js_and.
  assert (0 < 2 ^ k) by (apply Z.pow_pos_nonneg; lia).
  assert (2 ^ k < 2 ^ 31) by (apply Z.pow_lt_mono_r; lia).
  rewrite !ToInt32_small by lia.
  rewrite land_pred_pow2 by lia.
  apply orb_false_iff. split; [apply Z.leb_gt; lia | reflexivity].
Qed.

Lemma getFFT_throws host size st :
  fft_size_invalid size = true →
  getFFT host size st = (st, Throw "FFT size must be a power of two").
Proof. intros H. unfold getFFT. rewrite H. reflexivity. Qed.

Lemma getFFT_returns host size st :
  fft_size_invalid size = false →
  ∃ fft st', getFFT host size st = (st', Ok fft) ∧ heap st' = heap st
             ∧ randomCalls st' = randomCalls st.
Proof.
  intros H. unfold getFFT. rewrite H.
  destruct (fftCache st !! size) as [fft|]; eauto 6.
Qed.

(** C2. [getFFT] throws for size 0, for every negative size and for every
    size below 2^31 that is not a power of two (300 among them), leaving
    the state as it was; it returns a transform for every power of two
    below 2^31, in particular for 512 and 1024. *)
Theorem getFFT_size_check host st :
  (∀ size, size <= 0 →
     getFFT host size st = (st, Throw "FFT size must be a power of two")) ∧
  (∀ size, 0 < size < 2 ^ 31 → (∀ k, 0 <= k → size ≠ 2 ^ k) →
     getFFT host size st = (st, Throw "FFT size must be a power of two")) ∧
  getFFT host 300 st = (st, Throw "FFT size must be a power of two") ∧
  (∀ k, 0 <= k < 31 → ∃ fft st', getFFT host (2 ^ k) st = (st', Ok fft)) ∧
  (∃ fft st', getFFT host 512 st = (st', Ok fft)) ∧
  (∃ fft st', getFFT host 1024 st = (st', Ok fft)).
Proof.
  split_and!.
  - intros size H. apply getFFT_throws, fft_size_invalid_nonpositive, H.
  - intros size H1 H2. apply getFFT_throws, fft_size_invalid_not_pow2; assumption.
  - apply getFFT_throws. reflexivity.
  - intros k Hk.
    destruct (getFFT_returns host (2 ^ k) st) as (fft & st' & H & _);
      [apply fft_size_valid_pow2, Hk | eauto].
  - destruct (getFFT_returns host 512 st) as (fft & st' & H & _);
      [reflexivity | eauto].
  - destruct (getFFT_returns host 1024 st) as (fft & st' & H & _);
      [reflexivity | eauto].
Qed.

Lemma getFFT_size_check_witness :
  getFFT exampleMath (-4) (stateOf []) = (stateOf [], Throw "FFT size must be a power of two") ∧
  getFFT exampleMath 12 (stateOf []) = (stateOf [], Throw "FFT size must be a power of two").
Proof.
  destruct (getFFT_size_check exampleMath (stateOf [])) as (Hneg & Hodd & _).
  split.
  - apply Hneg. lia.
  - apply Hodd; [lia|]. intros k Hk E.
    assert (k < 4) by (apply (Z.pow_lt_mono_r_iff 2); lia).
    assert (k = 0 ∨ k = 1 ∨ k = 2 ∨ k = 3) as [-> | [-> | [-> | ->]]] by lia; discriminate E.
Defined.

(** ** The monad and the store *)

Lemma bind_ok {A B} (m : M A) (k : A → M B) st st' a :
  m st = (st', Ok a) → bind m k st = k a st'.
Proof. intros H. unfold bind. rewrite H. reflexivity. Qed.

Lemma set_heap_id st : set_heap (heap st) st = st.
Proof. destruct st. reflexivity. Qed.

Lemma set_heap_eq h st : heap st = h → st = set_heap h st.
Proof. intros <-. symmetry. apply set_heap_id. Qed.

Lemma contents_lookup st r xs : heap st !! r = Some xs → contents st r = xs.
Proof. intros H. unfold contents. rewrite H. reflexivity. Qed.

Lemma contents_set_heap h st r : contents (set_heap h st) r = default [] (h !! r).
Proof. reflexivity. Qed.

Lemma preserved_trans st1 st2 st3 : preserved st1 st2 → preserved st2 st3 → preserved st1 st3.
Proof. intros H1 H2 r xs H. apply H2, H1, H. Qed.

Lemma preserved_app h more st : heap st = h → preserved st (set_heap (h ++ more) st).
Proof.
  intros Hh r xs H. cbn. rewrite Hh in H.
  rewrite lookup_app_l; [exact H | eapply lookup_lt_Some, H].
Qed.

Lemma valid_ref_lt audio st b c :
  valid audio st b → (c < numberOfChannels b)%nat →
  ∃ r xs, channelData b !! c = Some r ∧ heap st !! r = Some xs
          ∧ length xs = bufferLength b ∧ (r < length (heap st))%nat.
Proof.
  intros (Hlen & _ & _ & _ & Hall) Hc.
  destruct (lookup_lt_is_Some_2 (channelData b) c) as [r Hr]; [lia|].
  rewrite Forall_lookup in Hall. destruct (Hall _ _ Hr) as (xs & Hxs & Hl).
  exists r, xs. split_and!; try done. eapply lookup_lt_Some, Hxs.
Qed.

Lemma valid_channel audio st b c :
  valid audio st b → (c < numberOfChannels b)%nat →
  length (channel st b c) = bufferLength b.
Proof.
  intros Hv Hc. destruct (valid_ref_lt _ _ _ _ Hv Hc) as (r & xs & Hr & Hxs & Hl & _).
  unfold channel. rewrite (nth_lookup_Some _ _ _ _ Hr).
  rewrite (contents_lookup _ _ _ Hxs). exact Hl.
Qed.

Lemma valid_preserved audio st st' b :
  valid audio st b → preserved st st' → valid audio st' b.
Proof.
  intros (H1 & H2 & H3 & H4 & H5) Hp. split_and!; try done.
  eapply Forall_impl; [exact H5|]. intros r (xs & Hxs & Hl). eauto.
Qed.

Lemma channel_preserved audio st st' b c :
  valid audio st b → preserved st st' → (c < numberOfChannels b)%nat →
  channel st' b c = channel st b c.
Proof.
  intros Hv Hp Hc. destruct (valid_ref_lt _ _ _ _ Hv Hc) as (r & xs & Hr & Hxs & _ & _).
  unfold channel. rewrite (nth_lookup_Some _ _ _ _ Hr).
  rewrite (contents_lookup _ _ _ Hxs). apply contents_lookup, Hp, Hxs.
Qed.

(** *** Allocation of the channels of a new buffer *)

Lemma allocChannels_spec n : ∀ xs st,
  length xs = n →
  allocChannels n xs st = (set_heap (heap st ++ xs) st, Ok (seq (length (heap st)) n)).
Proof.
  induction n as [|n IH]; intros xs st Hlen.
  - destruct xs; [|discriminate]. cbn. rewrite app_nil_r, set_heap_id. reflexivity.
  - destruct xs as [|x xs]; [discriminate|]. cbn [allocChannels nth tail].
    erewrite bind_ok; [|reflexivity].
    erewrite bind_ok; [|apply IH; cbn in Hlen; lia].
    cbn. unfold ret. rewrite length_app, <- app_assoc. cbn.
    replace (length (heap st) + 1)%nat with (S (length (heap st))) by lia.
    reflexivity.
Qed.

Section HostFacts.
Context (host : MathHost) (audio : AudioHost).

Lemma createBuffer_spec nch len rate st :
  shapeRejected audio nch len rate = false →
  createBuffer audio nch len rate st =
    (set_heap (heap st ++ replicate nch (replicate len 0%Q)) st,
     Ok {| numberOfChannels := nch; bufferLength := len; sampleRate := rate;
           channelData := seq (length (heap st)) nch |}).
Proof.
  intros H. unfold createBuffer. rewrite H.
  erewrite bind_ok; [|apply allocChannels_spec, length_replicate]. reflexivity.
Qed.

Lemma createBuffer_rejected nch len rate st :
  shapeRejected audio nch len rate = true →
  createBuffer audio nch len rate st = (st, Throw "NotSupportedError").
Proof. intros H. unfold createBuffer. rewrite H. reflexivity. Qed.

Lemma newOfflineAudioContext_spec nch len rate st :
  shapeRejected audio nch len rate = false →
  newOfflineAudioContext audio nch len rate st =
    (st, Ok {| ctxChannels := nch; ctxLength := len; ctxSampleRate := rate |}).
Proof. intros H. unfold newOfflineAudioContext. rewrite H. reflexivity. Qed.

Lemma valid_shape st b :
  valid audio st b →
  shapeRejected audio (numberOfChannels b) (bufferLength b) (sampleRate b) = false.
Proof.
  intros (_ & H2 & H3 & H4 & _). unfold shapeRejected. rewrite H4.
  destruct (Nat.eqb_spec (numberOfChannels b) 0); [lia|].
  destruct (Nat.eqb_spec (bufferLength b) 0); [lia|]. reflexivity.
Qed.
End HostFacts.

(** *** A loop that fills the channels of a freshly created buffer

    Iteration [c] replaces the [c]-th of the arrays allocated after [h0]
    by [G c]; the arrays of [h0] are read only. *)
Lemma forEach_fresh_channels (body : nat → M unit) (G : nat → list Q)
    (h0 news : list (list Q)) :
  (∀ c cur st, (c < length news)%nat → length cur = length news →
     nth c cur [] = nth c news [] → heap st = h0 ++ cur →
     body c st = (set_heap (h0 ++ <[c := G c]> cur) st, Ok tt)) →
  ∀ st, heap st = h0 ++ news →
    forEach (seq 0 (length news)) body st =
      (set_heap (h0 ++ (G <$> seq 0 (length news))) st, Ok tt).
Proof.
  intros Hbody.
  assert (Hgen : ∀ j k st, (k + j = length news)%nat →
            heap st = h0 ++ (G <$> seq 0 k) ++ drop k news →
            forEach (seq k j) body st =
              (set_heap (h0 ++ (G <$> seq 0 (length news))) st, Ok tt)).
  { induction j as [|j IH]; intros k st Hk Hst.
    - cbn. unfold ret. f_equal. replace k with (length news) in Hst by lia.
      rewrite drop_all, app_nil_r in Hst. apply set_heap_eq, Hst.
    - cbn [seq forEach].
      assert (Hklt : (k < length news)%nat) by lia.
      destruct (lookup_lt_is_Some_2 news k Hklt) as [x Hx].
      erewrite bind_ok.
      2:{ apply Hbody with (cur := (G <$> seq 0 k) ++ drop k news); try done.
          - rewrite length_app, length_fmap, length_seq, length_drop. lia.
          - rewrite app_nth2; rewrite length_fmap, length_seq; [|lia].
            rewrite Nat.sub_diag. rewrite (drop_S _ _ _ Hx). cbn.
            symmetry. apply nth_lookup_Some with (d := []) in Hx. exact Hx. }
      rewrite IH with (k := S k); [reflexivity | lia |].
      rewrite seq_S, fmap_app, <- app_assoc.
      cbn [heap set_heap]. f_equal.
      rewrite (drop_S _ _ _ Hx).
      rewrite insert_app_r_alt; rewrite length_fmap, length_seq; [|lia].
      rewrite Nat.sub_diag. reflexivity. }
  intros st Hst. apply (Hgen (length news) 0%nat); [lia|].
  cbn. rewrite drop_0. exact Hst.
Qed.

Lemma getChannelData_ok b c r st :
  channelData b !! c = Some r → getChannelData b c st = (st, Ok r).
Proof. intros H. unfold getChannelData. rewrite H. reflexivity. Qed.

Lemma modifyArray_fresh (h0 cur : list (list Q)) c f st :
  heap st = h0 ++ cur → (c < length cur)%nat →
  modifyArray (length h0 + c) f st =
    (set_heap (h0 ++ <[c := f (nth c cur [])]> cur) st, Ok tt).
Proof.
  intros Hst Hc. unfold modifyArray, bind, readArray, writeArray, contents.
  rewrite Hst. rewrite lookup_app_r by lia.
  replace (length h0 + c - length h0)%nat with c by lia.
  destruct (lookup_lt_is_Some_2 cur c Hc) as [x Hx]. rewrite Hx. cbn.
  rewrite (nth_lookup_Some _ _ _ _ Hx).
  rewrite insert_app_r_alt by lia.
  replace (length h0 + c - length h0)%nat with c by lia. reflexivity.
Qed.

Lemma readArray_old (h0 cur : list (list Q)) r st :
  heap st = h0 ++ cur → (r < length h0)%nat →
  readArray r st = (st, Ok (default [] (h0 !! r))).
Proof.
  intros Hst Hr. unfold readArray, contents. rewrite Hst, lookup_app_l by lia. reflexivity.
Qed.

Section EnvelopeFacts.
Context (audio : AudioHost).

Lemma getAmplitudeEnvelope_spec st b s :
  valid audio st b →
  getAmplitudeEnvelope audio b s st =
    (set_heap (heap st ++
               ((fun c => envelopeChannel s (channel st b c) (replicate (bufferLength b) 0%Q))
                  <$> seq 0 (numberOfChannels b))) st,
     Ok {| numberOfChannels := numberOfChannels b; bufferLength := bufferLength b;
           sampleRate := sampleRate b;
           channelData := seq (length (heap st)) (numberOfChannels b) |}).
Proof.
  intros Hv. unfold getAmplitudeEnvelope.
  erewrite bind_ok; [|apply newOfflineAudioContext_spec, (valid_shape _ _ _ Hv)].
  erewrite bind_ok; [|apply createBuffer_spec, (valid_shape _ _ _ Hv)].
  set (news := replicate (numberOfChannels b) (replicate (bufferLength b) 0%Q)).
  assert (Hn : length news = numberOfChannels b) by apply length_replicate.
  erewrite bind_ok.
  2:{ rewrite <- Hn.
      apply forEach_fresh_channels with (h0 := heap st)
        (G := fun c => envelopeChannel s (channel st b c) (replicate (bufferLength b) 0%Q));
        [|reflexivity].
      intros c cur st1 Hc Hcur Hnth Hst1. rewrite Hn in Hc.
      destruct (valid_ref_lt _ _ _ _ Hv Hc) as (r & xs & Hr & Hxs & Hl & Hrlt).
      erewrite bind_ok; [|apply getChannelData_ok, Hr].
      erewrite bind_ok.
      2:{ apply getChannelData_ok. cbn. apply lookup_seq. split; [reflexivity | lia]. }
      erewrite bind_ok; [|eapply readArray_old; [exact Hst1 | exact Hrlt]].
      rewrite (modifyArray_fresh (heap st) cur) by (done || lia).
      rewrite Hnth. unfold news.
      rewrite (nth_lookup_Some _ _ _ _ (lookup_replicate_2 _ _ _ Hc)).
      unfold channel. rewrite (nth_lookup_Some _ _ _ _ Hr).
      unfold contents. reflexivity. }
  cbn. rewrite Hn. reflexivity.
Qed.
End EnvelopeFacts.

(** ** Loops over local arrays *)

Lemma Qltb_lt a b : Qltb a b = true ↔ (a < b)%Q.
Proof.
  unfold Qltb. rewrite negb_true_iff. split.
  - intros H. apply Qnot_le_lt. intros Hle. apply Qle_bool_iff in Hle. congruence.
  - intros H. destruct (Qle_bool b a) eqn:E; [|reflexivity].
    apply Qle_bool_iff in E. exfalso. apply (Qlt_not_le _ _ H E).
Qed.

Lemma Qltb_ge a b : Qltb a b = false ↔ (b <= a)%Q.
Proof.
  unfold Qltb. rewrite negb_false_iff. apply Qle_bool_iff.
Qed.

Lemma at_insert (l : list Q) i j v :
  at_ (<[i := v]> l) j = if decide (i = j ∧ (i < length l)%nat) then v else at_ l j.
Proof.
  unfold at_. case_decide as H.
  - destruct H as [-> Hlt]. apply nth_lookup_Some, list_lookup_insert_eq, Hlt.
  - destruct (decide (i = j)) as [->|Hne].
    + rewrite list_insert_ge by lia. reflexivity.
    + destruct (decide (j < length l)%nat) as [Hj|Hj].
      * destruct (lookup_lt_is_Some_2 l j Hj) as [x Hx].
        rewrite (nth_lookup_Some _ _ _ _ Hx).
        apply nth_lookup_Some. rewrite list_lookup_insert_ne by done. exact Hx.
      * rewrite !nth_overflow; [reflexivity | lia | rewrite length_insert; lia].
Qed.

Lemma at_overflow (l : list Q) i : (length l <= i)%nat → at_ l i = 0%Q.
Proof. intros H. unfold at_. apply nth_overflow, H. Qed.

Lemma at_replicate n (x : Q) i : (i < n)%nat → at_ (replicate n x) i = x.
Proof. intros H. unfold at_. apply nth_lookup_Some, lookup_replicate_2, H. Qed.

Lemma at_zeros n i : at_ (replicate n 0%Q) i = 0%Q.
Proof.
  destruct (decide (i < n)%nat); [apply at_replicate; lia|].
  apply at_overflow. rewrite length_replicate. lia.
Qed.

(** an invariant of a loop holds when the loop is left *)
Lemma fold_left_invariant {A S} (P : S → Prop) (step : S → A → S) (l : list A) (s : S) :
  P s → (∀ s x, x ∈ l → P s → P (step s x)) → P (fold_left step l s).
Proof.
  revert s. induction l as [|x l IH]; intros s Hs Hstep; [exact Hs|].
  cbn. apply IH.
  - apply Hstep; [left | exact Hs].
  - intros s' y Hy. apply Hstep. right. exact Hy.
Qed.

Lemma updateEach_length f n l : length (updateEach f n l) = length l.
Proof.
  unfold updateEach. apply (fold_left_invariant (fun l' => length l' = length l)); [reflexivity|].
  intros l' j _ H. rewrite length_insert. exact H.
Qed.

Lemma updateEach_at f n l i :
  at_ (updateEach f n l) i =
    if decide ((i < n)%nat ∧ (i < length l)%nat) then f i (at_ l i) else at_ l i.
Proof.
  revert i. induction n as [|n IH]; intros i.
  - cbn. case_decide; [lia | reflexivity].
  - unfold updateEach. rewrite seq_S, fold_left_app. cbn [fold_left Nat.add].
    fold (updateEach f n l). rewrite at_insert, updateEach_length, !IH.
    repeat case_decide; try reflexivity; try lia.
    destruct H as [-> _]. reflexivity.
Qed.

(** *** The envelope follower *)

Lemma followEnvelope_length s input out :
  length (followEnvelope s input out) = length out.
Proof.
  unfold followEnvelope.
  apply (fold_left_invariant (fun p : Q * list Q => length (snd p) = length out));
    [reflexivity|].
  intros [lastValue o] i _ H. cbn in *. rewrite length_insert. exact H.
Qed.

Lemma followEnvelope_nonneg s input out :
  (0 <= s)%Q → (s <= 1)%Q → (∀ i, 0 <= at_ out i)%Q →
  ∀ i, (0 <= at_ (followEnvelope s input out) i)%Q.
Proof.
  intros Hs0 Hs1 Hout. unfold followEnvelope.
  apply (fold_left_invariant
           (fun p : Q * list Q => (0 <= fst p)%Q ∧ ∀ i, (0 <= at_ (snd p) i)%Q)).
  - split; [apply Qle_refl | exact Hout].
  - intros [lastValue o] j _ [Hl Ho]. cbn in *.
    assert (Hnew : (0 <= s * lastValue + (1 - s) * Qabs (at_ input j))%Q).
    { pose proof (Qabs_nonneg (at_ input j)) as Ha.
      assert (0 <= s * lastValue)%Q by (apply Qmult_le_0_compat; assumption).
      assert (0 <= (1 - s) * Qabs (at_ input j))%Q by (apply Qmult_le_0_compat; [lra | assumption]).
      lra. }
    split; [exact Hnew|]. intros i. rewrite at_insert. case_decide; [exact Hnew | apply Ho].
Qed.

Lemma followEnvelope_silence s input out :
  (∀ i, at_ input i == 0)%Q → (∀ i, at_ out i == 0)%Q →
  ∀ i, (at_ (followEnvelope s input out) i == 0)%Q.
Proof.
  intros Hin Hout. unfold followEnvelope.
  apply (fold_left_invariant
           (fun p : Q * list Q => (fst p == 0)%Q ∧ ∀ i, (at_ (snd p) i == 0)%Q)).
  - split; [reflexivity | exact Hout].
  - intros [lastValue o] j _ [Hl Ho]. cbn in *.
    assert (Hnew : (s * lastValue + (1 - s) * Qabs (at_ input j) == 0)%Q).
    { rewrite Hl, (Hin j). change (Qabs 0) with 0%Q. ring. }
    split; [exact Hnew|]. intros i. rewrite at_insert. case_decide; [exact Hnew | apply Ho].
Qed.

Lemma peakOf_upper out i : (i < length out)%nat → (at_ out i <= peakOf out)%Q.
Proof.
  unfold peakOf. generalize (length out) as n. intros n. revert i.
  induction n as [|n IH]; intros i Hi; [lia|].
  rewrite seq_S, fold_left_app. cbn [fold_left Nat.add].
  set (m := fold_left _ (seq 0 n) 0%Q) in *.
  destruct (Qltb m (at_ out n)) eqn:E.
  - apply Qltb_lt in E. destruct (decide (i = n)) as [->|Hne]; [apply Qle_refl|].
    specialize (IH i ltac:(lia)). lra.
  - apply Qltb_ge in E. destruct (decide (i = n)) as [->|Hne]; [exact E|].
    apply IH. lia.
Qed.

Lemma normalizeBy_length maxVal out : length (normalizeBy maxVal out) = length out.
Proof.
  unfold normalizeBy. destruct (Qltb 0 maxVal); [|reflexivity].
  apply (updateEach_length (fun _ v => (v / maxVal)%Q)).
Qed.

Lemma normalizeBy_at maxVal out i :
  at_ (normalizeBy maxVal out) i =
    if Qltb 0 maxVal then if decide (i < length out)%nat then (at_ out i / maxVal)%Q else at_ out i
    else at_ out i.
Proof.
  unfold normalizeBy. destruct (Qltb 0 maxVal); [|reflexivity].
  change (fold_left _ _ out) with (updateEach (fun _ v => (v / maxVal)%Q) (length out) out).
  rewrite updateEach_at. repeat case_decide; try reflexivity; lia.
Qed.

Lemma envelopeChannel_length s input out : length (envelopeChannel s input out) = length out.
Proof. unfold envelopeChannel. rewrite normalizeBy_length. apply followEnvelope_length. Qed.

(** an envelope that starts from silence lies in [0, 1] *)
Lemma envelopeChannel_bounded s input n i :
  (0 < s)%Q → (s < 1)%Q →
  (0 <= at_ (envelopeChannel s input (replicate n 0%Q)) i <= 1)%Q.
Proof.
  intros Hs0 Hs1. unfold envelopeChannel.
  set (out := followEnvelope s input (replicate n 0%Q)).
  assert (Hnn : ∀ j, (0 <= at_ out j)%Q).
  { apply followEnvelope_nonneg; try lra. intros j. rewrite at_zeros. apply Qle_refl. }
  rewrite normalizeBy_at.
  destruct (decide (i < length out)%nat) as [Hi|Hi].
  - pose proof (peakOf_upper out i Hi) as Hup.
    destruct (Qltb 0 (peakOf out)) eqn:E.
    + apply Qltb_lt in E. split.
      * apply Qle_shift_div_l; [exact E|]. specialize (Hnn i). lra.
      * apply Qle_shift_div_r; [exact E|]. lra.
    + apply Qltb_ge in E. specialize (Hnn i). lra.
  - assert (H0 : at_ out i = 0%Q) by (apply at_overflow; lia).
    destruct (Qltb 0 (peakOf out)); rewrite H0; lra.
Qed.

Lemma envelopeChannel_silence s input n i :
  (∀ j, at_ input j == 0)%Q →
  (at_ (envelopeChannel s input (replicate n 0%Q)) i == 0)%Q.
Proof.
  intros Hin. unfold envelopeChannel.
  set (out := followEnvelope s input (replicate n 0%Q)).
  assert (Hz : ∀ j, (at_ out j == 0)%Q).
  { apply followEnvelope_silence; [exact Hin|]. intros j. rewrite at_zeros. reflexivity. }
  rewrite normalizeBy_at.
  destruct (Qltb 0 (peakOf out)); [|apply Hz].
  case_decide; [|apply Hz]. rewrite (Hz i). unfold Qdiv. ring.
Qed.

(** ** Buffers whose channels were allocated together *)

Lemma fresh_channel h news st n len rate c :
  (c < n)%nat →
  channel (set_heap (h ++ news) st)
    {| numberOfChannels := n; bufferLength := len; sampleRate := rate;
       channelData := seq (length h) n |} c = nth c news [].
Proof.
  intros Hc. unfold channel. cbn [channelData].
  rewrite (nth_lookup_Some _ _ _ (length h + c)%nat) by (apply lookup_seq; lia).
  rewrite contents_set_heap, lookup_app_r by lia.
  replace (length h + c - length h)%nat with c by lia.
  destruct (decide (c < length news)%nat) as [Hlt|Hge].
  - destruct (lookup_lt_is_Some_2 news c Hlt) as [x Hx]. rewrite Hx.
    symmetry. apply nth_lookup_Some, Hx.
  - rewrite (lookup_ge_None_2 news c) by lia.
    symmetry. apply nth_overflow. lia.
Qed.

Lemma fresh_buffer_valid audio h news st n len rate :
  shapeRejected audio n len rate = false →
  length news = n → Forall (fun xs => length xs = len) news →
  valid audio (set_heap (h ++ news) st)
    {| numberOfChannels := n; bufferLength := len; sampleRate := rate;
       channelData := seq (length h) n |}.
Proof.
  intros Hshape Hn Hall. unfold shapeRejected in Hshape.
  apply orb_false_iff in Hshape as [Hshape Hrate].
  apply orb_false_iff in Hshape as [Hn0 Hl0].
  apply Nat.eqb_neq in Hn0, Hl0. apply negb_false_iff in Hrate.
  unfold valid. cbn. split_and!; try done; try lia.
  - apply length_seq.
  - apply Forall_forall. intros r Hr. apply elem_of_seq in Hr.
    destruct (lookup_lt_is_Some_2 news (r - length h)) as [xs Hxs]; [lia|].
    exists xs. split.
    + rewrite lookup_app_r by lia. exact Hxs.
    + rewrite Forall_lookup in Hall. eapply Hall, Hxs.
Qed.

(** ** The amplitude envelope *)

(** C5. For every buffer of the host and every smoothing in (0, 1),
    [getAmplitudeEnvelope] returns a buffer of the same shape whose
    samples all lie in [0, 1]; a channel of zeros gives a channel of
    zeros. *)
Theorem getAmplitudeEnvelope_bounded audio st buffer s :
  valid audio st buffer → (0 < s)%Q → (s < 1)%Q →
  ∃ st' envelope,
    getAmplitudeEnvelope audio buffer s st = (st', Ok envelope) ∧
    valid audio st' envelope ∧
    numberOfChannels envelope = numberOfChannels buffer ∧
    bufferLength envelope = bufferLength buffer ∧
    (∀ c i, (c < numberOfChannels buffer)%nat → (i < bufferLength buffer)%nat →
       (0 <= sample st' envelope c i <= 1)%Q) ∧
    (∀ c, (c < numberOfChannels buffer)%nat →
       (∀ i, sample st buffer c i == 0)%Q → ∀ i, (sample st' envelope c i == 0)%Q).
Proof.
  intros Hv Hs0 Hs1. eexists _, _. split; [apply getAmplitudeEnvelope_spec, Hv|].
  assert (Hch : ∀ c, (c < numberOfChannels buffer)%nat →
            channel (set_heap (heap st ++
                       ((fun c => envelopeChannel s (channel st buffer c)
                                    (replicate (bufferLength buffer) 0%Q))
                          <$> seq 0 (numberOfChannels buffer))) st)
              {| numberOfChannels := numberOfChannels buffer;
                 bufferLength := bufferLength buffer; sampleRate := sampleRate buffer;
                 channelData := seq (length (heap st)) (numberOfChannels buffer) |} c
            = envelopeChannel s (channel st buffer c) (replicate (bufferLength buffer) 0%Q)).
  { intros c Hc. rewrite fresh_channel by exact Hc.
    apply nth_lookup_Some. rewrite list_lookup_fmap, lookup_seq_lt by exact Hc. reflexivity. }
  split_and!; try reflexivity.
  - apply fresh_buffer_valid.
    + apply (valid_shape _ _ _ Hv).
    + rewrite length_fmap. apply length_seq.
    + apply Forall_fmap, Forall_forall. intros c _. cbn.
      rewrite envelopeChannel_length. apply length_replicate.
  - intros c i Hc Hi. unfold sample. rewrite Hch by exact Hc.
    apply envelopeChannel_bounded; assumption.
  - intros c Hc Hzero i. unfold sample. rewrite Hch by exact Hc.
    apply envelopeChannel_silence. exact Hzero.
Qed.

(** ** Applying an envelope to a buffer *)

Lemma multiplyInto_length t e res : length (multiplyInto t e res) = length res.
Proof. apply (updateEach_length (fun i _ => (at_ t i * at_ e i)%Q)). Qed.

Lemma multiplyInto_at t e n i :
  at_ (multiplyInto t e (replicate n 0%Q)) i =
    if decide ((i < Nat.min (length t) (length e))%nat ∧ (i < n)%nat)
    then (at_ t i * at_ e i)%Q else 0%Q.
Proof.
  unfold multiplyInto.
  change (fold_left _ _ ?r) with
    (updateEach (fun i _ => (at_ t i * at_ e i)%Q) (Nat.min (length t) (length e)) r).
  rewrite updateEach_at, length_replicate, at_zeros. reflexivity.
Qed.

Lemma gateInto_length thr e gate : length (gateInto thr e gate) = length gate.
Proof. apply (updateEach_length (fun i _ => if Qltb thr (at_ e i) then 1%Q else 0%Q)). Qed.

Lemma gateInto_at thr e n i :
  at_ (gateInto thr e (replicate n 0%Q)) i =
    if decide ((i < length e)%nat ∧ (i < n)%nat)
    then (if Qltb thr (at_ e i) then 1%Q else 0%Q) else 0%Q.
Proof.
  unfold gateInto.
  change (fold_left _ _ ?r) with
    (updateEach (fun i _ => if Qltb thr (at_ e i) then 1%Q else 0%Q) (length e) r).
  rewrite updateEach_at, length_replicate, at_zeros. reflexivity.
Qed.

Lemma gateInto_binary thr e n i :
  at_ (gateInto thr e (replicate n 0%Q)) i = 0%Q ∨ at_ (gateInto thr e (replicate n 0%Q)) i = 1%Q.
Proof.
  rewrite gateInto_at. case_decide; [|left; reflexivity].
  destruct (Qltb thr (at_ e i)); [right | left]; reflexivity.
Qed.

Section EnvelopeApplication.
Context (audio : AudioHost).

Lemma applyEnvelopeToBuffer_spec st env tgt :
  valid audio st env → valid audio st tgt →
  applyEnvelopeToBuffer audio env tgt st =
    (set_heap (heap st ++
               ((fun c => multiplyInto (channel st tgt c)
                            (channel st env (c mod numberOfChannels env))
                            (replicate (bufferLength tgt) 0%Q))
                  <$> seq 0 (numberOfChannels tgt))) st,
     Ok {| numberOfChannels := numberOfChannels tgt; bufferLength := bufferLength tgt;
           sampleRate := sampleRate tgt;
           channelData := seq (length (heap st)) (numberOfChannels tgt) |}).
Proof.
  intros Hve Hvt. unfold applyEnvelopeToBuffer.
  erewrite bind_ok; [|apply newOfflineAudioContext_spec, (valid_shape _ _ _ Hvt)].
  erewrite bind_ok; [|apply createBuffer_spec, (valid_shape _ _ _ Hvt)].
  set (news := replicate (numberOfChannels tgt) (replicate (bufferLength tgt) 0%Q)).
  assert (Hn : length news = numberOfChannels tgt) by apply length_replicate.
  erewrite bind_ok.
  2:{ rewrite <- Hn.
      apply forEach_fresh_channels with (h0 := heap st)
        (G := fun c => multiplyInto (channel st tgt c)
                         (channel st env (c mod numberOfChannels env))
                         (replicate (bufferLength tgt) 0%Q));
        [|reflexivity].
      intros c cur st1 Hc Hcur Hnth Hst1. rewrite Hn in Hc.
      destruct (valid_ref_lt _ _ _ _ Hvt Hc) as (r & xs & Hr & Hxs & Hl & Hrlt).
      assert (Hce : (c mod numberOfChannels env < numberOfChannels env)%nat).
      { apply Nat.mod_upper_bound. destruct Hve as (_ & ? & _). lia. }
      destruct (valid_ref_lt _ _ _ _ Hve Hce) as (re & xe & Hre & Hxe & Hle & Hrelt).
      erewrite bind_ok; [|apply getChannelData_ok, Hr].
      erewrite bind_ok.
      2:{ apply getChannelData_ok. cbn. apply lookup_seq. split; [reflexivity | lia]. }
      erewrite bind_ok; [|apply getChannelData_ok, Hre].
      erewrite bind_ok; [|eapply readArray_old; [exact Hst1 | exact Hrlt]].
      erewrite bind_ok; [|eapply readArray_old; [exact Hst1 | exact Hrelt]].
      rewrite (modifyArray_fresh (heap st) cur) by (done || lia).
      rewrite Hnth. unfold news.
      rewrite (nth_lookup_Some _ _ _ _ (lookup_replicate_2 _ _ _ Hc)).
      unfold channel. rewrite (nth_lookup_Some _ _ _ _ Hr), (nth_lookup_Some _ _ _ _ Hre).
      unfold contents. reflexivity. }
  cbn. rewrite Hn. reflexivity.
Qed.
End EnvelopeApplication.

(** *** What the callers need to know of a freshly filled buffer *)

Lemma fresh_buffer_result audio st (G : nat → list Q) n len rate :
  shapeRejected audio n len rate = false →
  (∀ c, (c < n)%nat → length (G c) = len) →
  let st' := set_heap (heap st ++ (G <$> seq 0 n)) st in
  let result := {| numberOfChannels := n; bufferLength := len; sampleRate := rate;
                   channelData := seq (length (heap st)) n |} in
  preserved st st' ∧ valid audio st' result ∧
  (∀ c, (c < n)%nat → channel st' result c = G c).
Proof.
  intros Hshape HG st' result. split_and!.
  - apply preserved_app. reflexivity.
  - apply fresh_buffer_valid; [exact Hshape | |].
    + rewrite length_fmap. apply length_seq.
    + apply Forall_fmap, Forall_forall. intros c Hc. cbn.
      apply HG. apply elem_of_seq in Hc. lia.
  - intros c Hc. unfold st', result. rewrite fresh_channel by exact Hc.
    apply nth_lookup_Some. rewrite list_lookup_fmap, lookup_seq_lt by exact Hc. reflexivity.
Qed.

Section Results.
Context (audio : AudioHost).

Lemma getAmplitudeEnvelope_result st buffer s :
  valid audio st buffer →
  ∃ st' envelope,
    getAmplitudeEnvelope audio buffer s st = (st', Ok envelope) ∧
    preserved st st' ∧ valid audio st' envelope ∧
    fftCache st' = fftCache st ∧ randomCalls st' = randomCalls st ∧
    numberOfChannels envelope = numberOfChannels buffer ∧
    bufferLength envelope = bufferLength buffer ∧
    sampleRate envelope = sampleRate buffer ∧
    (∀ c, (c < numberOfChannels buffer)%nat →
       channel st' envelope c =
         envelopeChannel s (channel st buffer c) (replicate (bufferLength buffer) 0%Q)).
Proof.
  intros Hv. eexists _, _. split; [apply getAmplitudeEnvelope_spec, Hv|].
  destruct (fresh_buffer_result audio st
              (fun c => envelopeChannel s (channel st buffer c)
                          (replicate (bufferLength buffer) 0%Q))
              (numberOfChannels buffer) (bufferLength buffer) (sampleRate buffer))
    as (Hp & Hval & Hch).
  - apply (valid_shape _ _ _ Hv).
  - intros c _. rewrite envelopeChannel_length. apply length_replicate.
  - split_and!; try done.
Qed.

Lemma applyEnvelopeToBuffer_result st env tgt :
  valid audio st env → valid audio st tgt →
  ∃ st' result,
    applyEnvelopeToBuffer audio env tgt st = (st', Ok result) ∧
    preserved st st' ∧ valid audio st' result ∧
    fftCache st' = fftCache st ∧ randomCalls st' = randomCalls st ∧
    numberOfChannels result = numberOfChannels tgt ∧
    bufferLength result = bufferLength tgt ∧
    sampleRate result = sampleRate tgt ∧
    (∀ c, (c < numberOfChannels tgt)%nat →
       channel st' result c =
         multiplyInto (channel st tgt c) (channel st env (c mod numberOfChannels env))
           (replicate (bufferLength tgt) 0%Q)).
Proof.
  intros Hve Hvt. eexists _, _. split; [apply applyEnvelopeToBuffer_spec; assumption|].
  destruct (fresh_buffer_result audio st
              (fun c => multiplyInto (channel st tgt c)
                          (channel st env (c mod numberOfChannels env))
                          (replicate (bufferLength tgt) 0%Q))
              (numberOfChannels tgt) (bufferLength tgt) (sampleRate tgt))
    as (Hp & Hval & Hch).
  - apply (valid_shape _ _ _ Hvt).
  - intros c _. rewrite multiplyInto_length. apply length_replicate.
  - split_and!; try done.
Qed.

Lemma applyRhythmicGating_result st src tgt params :
  valid audio st src → valid audio st tgt →
  ∃ st' result,
    applyRhythmicGating audio src tgt params st = (st', Ok result) ∧
    preserved st st' ∧ valid audio st' result ∧
    fftCache st' = fftCache st ∧ randomCalls st' = randomCalls st ∧
    numberOfChannels result = numberOfChannels tgt ∧
    bufferLength result = bufferLength tgt ∧
    sampleRate result = sampleRate tgt ∧
    (∀ c, (c < numberOfChannels tgt)%nat →
       channel st' result c =
         multiplyInto (channel st tgt c)
           (gateInto (default (2 # 10) (gateThreshold params))
              (envelopeChannel (998 # 1000)
                 (channel st src (c mod numberOfChannels src))
                 (replicate (bufferLength src) 0%Q))
              (replicate (bufferLength src) 0%Q))
           (replicate (bufferLength tgt) 0%Q)).
Proof.
  intros Hvs Hvt. unfold applyRhythmicGating.
  destruct (getAmplitudeEnvelope_result st src (998 # 1000) Hvs)
    as (st1 & env & Henv & Hp1 & Hvenv & Hc1 & Hr1 & Hn1 & Hl1 & Hrate1 & Hch1).
  erewrite bind_ok; [|exact Henv].
  erewrite bind_ok; [|apply newOfflineAudioContext_spec, (valid_shape _ _ _ Hvenv)].
  erewrite bind_ok; [|apply createBuffer_spec, (valid_shape _ _ _ Hvenv)].
  set (thr := default (2 # 10) (gateThreshold params)).
  set (news := replicate (numberOfChannels env) (replicate (bufferLength env) 0%Q)).
  assert (Hn : length news = numberOfChannels env) by apply length_replicate.
  set (G := fun c => gateInto thr (channel st1 env c) (replicate (bufferLength env) 0%Q)).
  erewrite bind_ok.
  2:{ rewrite <- Hn.
      apply forEach_fresh_channels with (h0 := heap st1) (G := G); [|reflexivity].
      intros c cur st2 Hc Hcur Hnth Hst2. rewrite Hn in Hc.
      destruct (valid_ref_lt _ _ _ _ Hvenv Hc) as (r & xs & Hr & Hxs & Hl & Hrlt).
      erewrite bind_ok; [|apply getChannelData_ok, Hr].
      erewrite bind_ok.
      2:{ apply getChannelData_ok. cbn. apply lookup_seq. split; [reflexivity | lia]. }
      erewrite bind_ok; [|eapply readArray_old; [exact Hst2 | exact Hrlt]].
      rewrite (modifyArray_fresh (heap st1) cur) by (done || lia).
      rewrite Hnth. unfold news.
      rewrite (nth_lookup_Some _ _ _ _ (lookup_replicate_2 _ _ _ Hc)).
      unfold G, channel. rewrite (nth_lookup_Some _ _ _ _ Hr).
      unfold contents. reflexivity. }
  rewrite Hn. cbn [set_heap heap fftCache randomCalls].
  destruct (fresh_buffer_result audio st1 G (numberOfChannels env) (bufferLength env)
              (sampleRate env)) as (Hp2 & Hvgate & Hch2).
  { apply (valid_shape _ _ _ Hvenv). }
  { intros c _. unfold G. rewrite gateInto_length. apply length_replicate. }
  set (st2 := set_heap (heap st1 ++ (G <$> seq 0 (numberOfChannels env))) st1) in *.
  set (gate := {| numberOfChannels := numberOfChannels env;
                  bufferLength := bufferLength env; sampleRate := sampleRate env;
                  channelData := seq (length (heap st1)) (numberOfChannels env) |}) in *.
  assert (Hvt2 : valid audio st2 tgt).
  { eapply valid_preserved; [exact Hvt|]. eapply preserved_trans; eassumption. }
  destruct (applyEnvelopeToBuffer_result st2 gate tgt Hvgate Hvt2)
    as (st3 & result & Happ & Hp3 & Hvres & Hc3 & Hr3 & Hn3 & Hl3 & Hrate3 & Hch3).
  exists st3, result. split.
  { exact Happ. }
  split_and!; try done.
  - eapply preserved_trans; [|exact Hp3]. eapply preserved_trans; eassumption.
  - rewrite Hc3. exact Hc1.
  - rewrite Hr3. exact Hr1.
  - intros c Hc. rewrite (Hch3 c Hc).
    assert (Hcs : (c mod numberOfChannels src < numberOfChannels src)%nat).
    { apply Nat.mod_upper_bound. destruct Hvs as (_ & ? & _). lia. }
    rewrite (channel_preserved audio st st2 tgt c Hvt) by
      (done || eapply preserved_trans; eassumption).
    change (numberOfChannels gate) with (numberOfChannels env).
    rewrite Hn1. rewrite Hch2 by (rewrite Hn1; exact Hcs).
    unfold G. rewrite Hch1 by exact Hcs. rewrite Hl1. reflexivity.
Qed.
End Results.

(** ** Rhythmic Gating *)

(** C4. For every source, target and parameters, every sample of the
    buffer returned by [applyRhythmicGating] is 0 or the target sample of
    the same channel and index; the result has the shape of the target and
    the inputs are left as they were. *)
Theorem applyRhythmicGating_binary audio st src tgt params :
  valid audio st src → valid audio st tgt →
  ∃ st' result,
    applyRhythmicGating audio src tgt params st = (st', Ok result) ∧
    preserved st st' ∧
    numberOfChannels result = numberOfChannels tgt ∧
    bufferLength result = bufferLength tgt ∧
    (∀ c i, (c < numberOfChannels result)%nat → (i < bufferLength result)%nat →
       (sample st' result c i == 0)%Q ∨ (sample st' result c i == sample st tgt c i)%Q).
Proof.
  intros Hvs Hvt.
  destruct (applyRhythmicGating_result audio st src tgt params Hvs Hvt)
    as (st' & result & Hrun & Hp & Hvres & _ & _ & Hn & Hl & _ & Hch).
  exists st', result. split_and!; try done.
  intros c i Hc Hi. rewrite Hn in Hc. unfold sample. rewrite (Hch c Hc).
  rewrite multiplyInto_at. case_decide; [|left; reflexivity].
  match goal with |- context [gateInto ?thr ?e (replicate ?n 0%Q)] =>
    destruct (gateInto_binary thr e n i) as [Hg|Hg]; rewrite Hg end.
  - left. ring.
  - right. ring.
Qed.

(** validity of a concrete buffer in a concrete state *)
Ltac prove_valid :=
  unfold valid; cbn; split_and!; try reflexivity; try lia;
  repeat (apply Forall_cons; split; [eexists; split; reflexivity|]); apply Forall_nil_2.

Lemma applyRhythmicGating_binary_witness :
  let st := stateOf [[1 # 2; -1 # 4; 0]; [1; 1]]%Q in
  valid exampleAudio st (monoBuffer 3 0) ∧ valid exampleAudio st (monoBuffer 2 1) ∧
  ∃ st' result,
    applyRhythmicGating exampleAudio (monoBuffer 3 0) (monoBuffer 2 1) noParams st
      = (st', Ok result) ∧
    preserved st st' ∧
    numberOfChannels result = 1%nat ∧
    bufferLength result = 2%nat ∧
    (∀ c i, (c < numberOfChannels result)%nat → (i < bufferLength result)%nat →
       (sample st' result c i == 0)%Q
       ∨ (sample st' result c i == sample st (monoBuffer 2 1) c i)%Q).
Proof.
  intros st.
  assert (H1 : valid exampleAudio st (monoBuffer 3 0)) by prove_valid.
  assert (H2 : valid exampleAudio st (monoBuffer 2 1)) by prove_valid.
  split; [exact H1|]. split; [exact H2|].
  exact (applyRhythmicGating_binary exampleAudio st (monoBuffer 3 0) (monoBuffer 2 1)
           noParams H1 H2).
Defined.

Lemma getAmplitudeEnvelope_bounded_witness :
  let st := stateOf [[1 # 2; -1 # 4; 0]]%Q in
  valid exampleAudio st (monoBuffer 3 0) ∧ (0 < 995 # 1000)%Q ∧ (995 # 1000 < 1)%Q ∧
  ∃ st' envelope,
    getAmplitudeEnvelope exampleAudio (monoBuffer 3 0) (995 # 1000) st = (st', Ok envelope) ∧
    valid exampleAudio st' envelope ∧
    numberOfChannels envelope = 1%nat ∧
    bufferLength envelope = 3%nat ∧
    (∀ c i, (c < 1)%nat → (i < 3)%nat → (0 <= sample st' envelope c i <= 1)%Q) ∧
    (∀ c, (c < 1)%nat →
       (∀ i, sample st (monoBuffer 3 0) c i == 0)%Q → ∀ i, (sample st' envelope c i == 0)%Q).
Proof.
  intros st.
  assert (H1 : valid exampleAudio st (monoBuffer 3 0)) by prove_valid.
  assert (H2 : (0 < 995 # 1000)%Q) by reflexivity.
  assert (H3 : (995 # 1000 < 1)%Q) by reflexivity.
  split_and!; try assumption.
  exact (getAmplitudeEnvelope_bounded exampleAudio st (monoBuffer 3 0) (995 # 1000) H1 H2 H3).
Defined.

(** ** Amplitude Mapping *)

Lemma applyAmplitudeMapping_result audio st src tgt :
  valid audio st src → valid audio st tgt →
  ∃ st' result,
    applyAmplitudeMapping audio src tgt st = (st', Ok result) ∧
    preserved st st' ∧ valid audio st' result ∧
    fftCache st' = fftCache st ∧ randomCalls st' = randomCalls st ∧
    numberOfChannels result = numberOfChannels tgt ∧
    bufferLength result = bufferLength tgt ∧
    sampleRate result = sampleRate tgt ∧
    (∀ c, (c < numberOfChannels tgt)%nat →
       channel st' result c =
         multiplyInto (channel st tgt c)
           (envelopeChannel (995 # 1000) (channel st src (c mod numberOfChannels src))
              (replicate (bufferLength src) 0%Q))
           (replicate (bufferLength tgt) 0%Q)).
Proof.
  intros Hvs Hvt. unfold applyAmplitudeMapping.
  destruct (getAmplitudeEnvelope_result audio st src (995 # 1000) Hvs)
    as (st1 & env & Henv & Hp1 & Hvenv & Hc1 & Hr1 & Hn1 & Hl1 & Hrate1 & Hch1).
  erewrite bind_ok; [|exact Henv].
  assert (Hvt1 : valid audio st1 tgt) by (eapply valid_preserved; eassumption).
  destruct (applyEnvelopeToBuffer_result audio st1 env tgt Hvenv Hvt1)
    as (st2 & result & Happ & Hp2 & Hvres & Hc2 & Hr2 & Hn2 & Hl2 & Hrate2 & Hch2).
  exists st2, result. split; [exact Happ|]. split_and!; try done.
  - eapply preserved_trans; eassumption.
  - congruence.
  - congruence.
  - intros c Hc. rewrite (Hch2 c Hc).
    assert (Hcs : (c mod numberOfChannels src < numberOfChannels src)%nat).
    { apply Nat.mod_upper_bound. destruct Hvs as (_ & ? & _). lia. }
    rewrite (channel_preserved audio st st1 tgt c Hvt Hp1 Hc).
    rewrite Hn1, (Hch1 _ Hcs). reflexivity.
Qed.

(** C8 (as amended). [applyAmplitudeMapping] returns a buffer of the
    shape of the target: over the frames that source and target share,
    every sample is the target sample times the normalised envelope
    (smoothing 0.995) of the source channel [c mod numberOfChannels];
    the frames of the target after the last frame of the source are not
    cut off, they are 0. *)
Theorem applyAmplitudeMapping_shape audio st src tgt :
  valid audio st src → valid audio st tgt →
  ∃ st' result,
    applyAmplitudeMapping audio src tgt st = (st', Ok result) ∧
    numberOfChannels result = numberOfChannels tgt ∧
    bufferLength result = bufferLength tgt ∧
    sampleRate result = sampleRate tgt ∧
    (∀ c i, (c < numberOfChannels tgt)%nat → (i < bufferLength tgt)%nat →
       sample st' result c i =
         if decide (i < bufferLength src)%nat
         then (sample st tgt c i
               * at_ (envelopeChannel (995 # 1000) (channel st src (c mod numberOfChannels src))
                        (replicate (bufferLength src) 0%Q)) i)%Q
         else 0%Q).
Proof.
  intros Hvs Hvt.
  destruct (applyAmplitudeMapping_result audio st src tgt Hvs Hvt)
    as (st' & result & Hrun & Hp & Hvres & _ & _ & Hn & Hl & Hrate & Hch).
  exists st', result. split_and!; try done.
  intros c i Hc Hi. unfold sample. rewrite (Hch c Hc), multiplyInto_at.
  rewrite envelopeChannel_length, length_replicate.
  rewrite (valid_channel _ _ _ _ Hvt Hc).
  repeat case_decide; try reflexivity; lia.
Qed.

Lemma applyAmplitudeMapping_shape_witness :
  let st := stateOf [[1; 1]; [1 # 2; -1 # 4; 0]]%Q in
  valid exampleAudio st (monoBuffer 2 0) ∧ valid exampleAudio st (monoBuffer 3 1) ∧
  ∃ st' result,
    applyAmplitudeMapping exampleAudio (monoBuffer 2 0) (monoBuffer 3 1) st = (st', Ok result) ∧
    numberOfChannels result = 1%nat ∧
    bufferLength result = 3%nat ∧
    sampleRate result = 44100%Q ∧
    (∀ c i, (c < 1)%nat → (i < 3)%nat →
       sample st' result c i =
         if decide (i < 2)%nat
         then (sample st (monoBuffer 3 1) c i
               * at_ (envelopeChannel (995 # 1000)
                        (channel st (monoBuffer 2 0) (c mod 1)) (replicate 2 0%Q)) i)%Q
         else 0%Q).
Proof.
  intros st.
  assert (H1 : valid exampleAudio st (monoBuffer 2 0)) by prove_valid.
  assert (H2 : valid exampleAudio st (monoBuffer 3 1)) by prove_valid.
  split; [exact H1|]. split; [exact H2|].
  exact (applyAmplitudeMapping_shape exampleAudio st (monoBuffer 2 0) (monoBuffer 3 1) H1 H2).
Defined.

(** C8 as stated fails: a source of 2 frames and a target of 3 frames give
    a result of 3 frames, the last of them silent. *)
Lemma applyAmplitudeMapping_not_truncated :
  let st := stateOf [[1; 1]; [1 # 2; -1 # 4; 0]]%Q in
  let src := monoBuffer 2 0 in
  let tgt := monoBuffer 3 1 in
  valid exampleAudio st src ∧ valid exampleAudio st tgt ∧
  (bufferLength src < bufferLength tgt)%nat ∧
  ∃ st' result,
    applyAmplitudeMapping exampleAudio src tgt st = (st', Ok result) ∧
    bufferLength result = 3%nat ∧
    bufferLength result ≠ bufferLength src ∧
    Forall2 Qeq (channel st' result 0) [100 # 399; -1 # 4; 0]%Q.
Proof.
  intros st src tgt. split; [prove_valid|]. split; [prove_valid|].
  split; [cbn; lia|].
  eexists _, _. split; [vm_compute; reflexivity|].
  split; [reflexivity|]. split; [cbn; lia|].
  unfold channel, contents. cbn.
  repeat (apply Forall2_cons; split; [vm_compute; reflexivity|]). apply Forall2_nil_2.
Qed.

(** ** Surface Translation *)

Lemma surfaceLoop_length host calls jitter source sorted res :
  length (surfaceLoop host calls jitter source sorted res) = length res.
Proof.
  unfold surfaceLoop.
  apply (fold_left_invariant (fun l => length l = length res)); [reflexivity|].
  intros l i _ H. rewrite length_insert. exact H.
Qed.

Lemma readArray_fresh (h0 cur : list (list Q)) c st :
  heap st = h0 ++ cur →
  readArray (length h0 + c) st = (st, Ok (nth c cur [])).
Proof.
  intros Hst. unfold readArray, contents. rewrite Hst, lookup_app_r by lia.
  replace (length h0 + c - length h0)%nat with c by lia.
  destruct (decide (c < length cur)%nat) as [Hlt|Hge].
  - destruct (lookup_lt_is_Some_2 cur c Hlt) as [x Hx]. rewrite Hx.
    rewrite (nth_lookup_Some _ _ _ _ Hx). reflexivity.
  - rewrite (lookup_ge_None_2 cur c) by lia. rewrite nth_overflow by lia. reflexivity.
Qed.

Lemma applySurfaceTranslationMapping_result host audio st src tgt params :
  valid audio st src → valid audio st tgt →
  ∃ st' result,
    applySurfaceTranslationMapping host audio src tgt params st = (st', Ok result) ∧
    result = {| numberOfChannels := 1; bufferLength := bufferLength src;
                sampleRate := sampleRate src; channelData := [S (length (heap st))] |} ∧
    heap st' = heap st ++
      [sortAscending (channel st tgt 0);
       surfaceLoop host (randomCalls st) (default 0%Q (surfaceJitter params))
         (channel st src 0) (sortAscending (channel st tgt 0))
         (replicate (bufferLength src) 0%Q)].
Proof.
  intros Hvs Hvt.
  assert (Hs0 : (0 < numberOfChannels src)%nat) by (destruct Hvs as (_ & ? & _); lia).
  assert (Ht0 : (0 < numberOfChannels tgt)%nat) by (destruct Hvt as (_ & ? & _); lia).
  destruct (valid_ref_lt _ _ _ _ Hvs Hs0) as (rs & xs & Hrs & Hxs & Hls & Hrslt).
  destruct (valid_ref_lt _ _ _ _ Hvt Ht0) as (rt & xt & Hrt & Hxt & Hlt & Hrtlt).
  assert (Hshape : shapeRejected audio 1 (bufferLength src) (sampleRate src) = false).
  { pose proof (valid_shape audio st src Hvs) as H. unfold shapeRejected in *.
    destruct (numberOfChannels src =? 0)%nat; [discriminate|]. exact H. }
  assert (Hcs : channel st src 0 = xs).
  { unfold channel. rewrite (nth_lookup_Some _ _ _ _ Hrs). apply contents_lookup, Hxs. }
  assert (Hct : channel st tgt 0 = xt).
  { unfold channel. rewrite (nth_lookup_Some _ _ _ _ Hrt). apply contents_lookup, Hxt. }
  rewrite Hcs, Hct.
  unfold applySurfaceTranslationMapping.
  erewrite bind_ok; [|apply getChannelData_ok, Hrs].
  erewrite bind_ok; [|apply getChannelData_ok, Hrt].
  erewrite bind_ok.
  2:{ unfold readArray. rewrite (contents_lookup _ _ _ Hxt). reflexivity. }
  erewrite bind_ok; [|reflexivity].
  erewrite bind_ok.
  2:{ rewrite <- (Nat.add_0_r (length (heap st))).
      apply (modifyArray_fresh (heap st) [xt]); [reflexivity | cbn; lia]. }
  cbn [nth insert list_insert].
  erewrite bind_ok; [|apply createBuffer_spec, Hshape].
  cbn [set_heap heap fftCache randomCalls].
  rewrite <- app_assoc. cbn [app replicate].
  erewrite bind_ok.
  2:{ apply getChannelData_ok. cbn. reflexivity. }
  rewrite length_app. cbn [length].
  erewrite bind_ok.
  2:{ eapply readArray_old; [reflexivity | exact Hrslt]. }
  erewrite bind_ok.
  2:{ replace (length (heap st)) with (length (heap st) + 0)%nat at 1 by lia.
      eapply readArray_fresh. reflexivity. }
  rewrite Hxs. cbn [default nth].
  erewrite bind_ok; [|reflexivity].
  erewrite bind_ok.
  2:{ apply (modifyArray_fresh (heap st) [sortAscending xt; replicate (bufferLength src) 0%Q]);
        [reflexivity | cbn; lia]. }
  cbn. eexists _, _. split; [reflexivity|].
  split; [f_equal; f_equal; lia | reflexivity].
Qed.

(** C9. For every source and target, [applySurfaceTranslationMapping]
    returns a buffer that has one channel, the frame count of the source
    and the sample rate of the source, whatever the shape of the target;
    the returned buffer is a buffer of the host and the inputs are left
    as they were. *)
Theorem applySurfaceTranslationMapping_shape host audio st src tgt params :
  valid audio st src → valid audio st tgt →
  ∃ st' result,
    applySurfaceTranslationMapping host audio src tgt params st = (st', Ok result) ∧
    numberOfChannels result = 1%nat ∧
    bufferLength result = bufferLength src ∧
    sampleRate result = sampleRate src ∧
    length (channel st' result 0) = bufferLength src ∧
    valid audio st' result ∧
    preserved st st'.
Proof.
  intros Hvs Hvt.
  destruct (applySurfaceTranslationMapping_result host audio st src tgt params Hvs Hvt)
    as (st' & result & Hrun & -> & Hheap).
  exists st'. eexists. split; [exact Hrun|].
  assert (Hlook : heap st' !! S (length (heap st)) =
            Some (surfaceLoop host (randomCalls st) (default 0%Q (surfaceJitter params))
                    (channel st src 0) (sortAscending (channel st tgt 0))
                    (replicate (bufferLength src) 0%Q))).
  { rewrite Hheap, lookup_app_r by lia.
    replace (S (length (heap st)) - length (heap st))%nat with 1%nat by lia. reflexivity. }
  split_and!; try reflexivity.
  - unfold channel. cbn [channelData nth]. rewrite (contents_lookup _ _ _ Hlook).
    rewrite surfaceLoop_length. apply length_replicate.
  - destruct Hvs as (_ & _ & Hl & Hr & _). unfold valid. cbn. split_and!; try done; try lia.
    apply Forall_cons. split; [|apply Forall_nil_2].
    eexists. split; [exact Hlook|]. rewrite surfaceLoop_length. apply length_replicate.
  - intros r xs Hr. rewrite Hheap. rewrite lookup_app_l; [exact Hr|].
    eapply lookup_lt_Some, Hr.
Qed.

Lemma applySurfaceTranslationMapping_shape_witness :
  let st := stateOf [[1 # 2; -1 # 4; 0]; [1; 1]; [0; 3]]%Q in
  let tgt := {| numberOfChannels := 2; bufferLength := 2; sampleRate := 48000;
                channelData := [1; 2]%nat |} in
  valid exampleAudio st (monoBuffer 3 0) ∧ valid exampleAudio st tgt ∧
  ∃ st' result,
    applySurfaceTranslationMapping exampleMath exampleAudio (monoBuffer 3 0) tgt noParams st
      = (st', Ok result) ∧
    numberOfChannels result = 1%nat ∧
    bufferLength result = 3%nat ∧
    sampleRate result = 44100%Q ∧
    length (channel st' result 0) = 3%nat ∧
    valid exampleAudio st' result ∧
    preserved st st'.
Proof.
  intros st tgt.
  assert (H1 : valid exampleAudio st (monoBuffer 3 0)) by prove_valid.
  assert (H2 : valid exampleAudio st tgt) by prove_valid.
  split; [exact H1|]. split; [exact H2|].
  exact (applySurfaceTranslationMapping_shape exampleMath exampleAudio st (monoBuffer 3 0) tgt
           noParams H1 H2).
Defined.

(** ** Transients *)

Lemma countUp_lookup fuel : ∀ i step bound k x,
  countUp fuel i step bound !! k = Some x → x = (i + k * step)%nat ∧ (x < bound)%nat.
Proof.
  induction fuel as [|fuel IH]; intros i step bound k x H; [discriminate|].
  cbn [countUp] in H. destruct (Nat.ltb_spec i bound) as [Hlt|Hge]; [|by rewrite lookup_nil in H].
  destruct k as [|k]; cbn in H.
  - inversion H; subst. split; [lia | exact Hlt].
  - destruct (IH _ _ _ _ _ H) as [-> Hb]. split; [lia | exact Hb].
Qed.

Lemma countUp_nonempty fuel step bound :
  (0 < fuel)%nat → (0 < bound)%nat → (0 < length (countUp fuel 0 step bound))%nat.
Proof.
  intros Hf Hb. destruct fuel; [lia|]. cbn [countUp].
  destruct (Nat.ltb_spec 0 bound); [cbn; lia | lia].
Qed.

(** the last chunk starts inside the data *)
Lemma chunkEnergies_last_start host data :
  (0 < length data)%nat →
  (0 < length (chunkEnergies host data))%nat ∧
  ((length (chunkEnergies host data) - 1) * chunkSize < length data)%nat.
Proof.
  intros Hlen. unfold chunkEnergies. rewrite length_fmap.
  pose proof (countUp_nonempty (length data) chunkSize (length data) Hlen Hlen) as Hn.
  split; [exact Hn|].
  destruct (lookup_lt_is_Some_2 (countUp (length data) 0 chunkSize (length data))
              (length (countUp (length data) 0 chunkSize (length data)) - 1)) as [x Hx];
    [lia|].
  destruct (countUp_lookup _ _ _ _ _ _ Hx) as [Hx' Hb]. lia.
Qed.

Section TransientFacts.
Context (host : MathHost).

Lemma pickTransients_invariant (energies : list Q) threshold minSeparation m :
  onsetsInvariant minSeparation m
    (fold_left
       (fun '(transients, lastTransient) i =>
          if Qltb (at_ energies (i - 1) * threshold)%Q (at_ energies i)
          then
            let sampleIndex := (Z.of_nat i * Z.of_nat chunkSize)%Z in
            if (minSeparation <? sampleIndex - lastTransient)%Z
            then (transients ++ [sampleIndex], sampleIndex)
            else (transients, lastTransient)
          else (transients, lastTransient))
       (seq 1 m) ([0%Z], 0%Z)).
Proof.
  induction m as [|m IH].
  - unfold onsetsInvariant. cbn. split_and!; try reflexivity; try lia.
    intros [|i] a b Ha Hb; cbn in *; discriminate.
  - rewrite seq_S, fold_left_app. cbn [fold_left Nat.add].
    destruct (fold_left _ (seq 1 m) _) as [ts lastT].
    destruct IH as (Hhead & Hlast & Hrange & Hadj).
    assert (Hweak : onsetsInvariant minSeparation (S m) (ts, lastT)).
    { unfold onsetsInvariant. split_and!; try done; unfold chunkSize in *; lia. }
    destruct (Qltb _ _); [|exact Hweak].
    destruct (Z.ltb_spec minSeparation (Z.of_nat (S m) * Z.of_nat chunkSize - lastT))
      as [Hsep|Hsep]; [|exact Hweak].
    assert (Hne : (0 < length ts)%nat) by (eapply lookup_lt_Some, Hhead).
    unfold onsetsInvariant. split_and!.
    + rewrite lookup_app_l by exact Hne. exact Hhead.
    + apply last_snoc.
    + unfold chunkSize in *. lia.
    + lia.
    + intros i a b Ha Hb.
      destruct (decide (S i < length ts)%nat) as [Hin|Hout].
      * rewrite lookup_app_l in Ha by lia. rewrite lookup_app_l in Hb by lia. eauto.
      * assert (Hi : S i = length ts).
        { apply lookup_lt_Some in Hb. rewrite length_app in Hb. cbn in Hb. lia. }
        rewrite lookup_app_l in Ha by lia.
        rewrite lookup_app_r in Hb by lia.
        replace (S i - length ts)%nat with 0%nat in Hb by lia. cbn in Hb.
        inversion Hb; subst b.
        assert (Ha' : last ts = Some a).
        { rewrite last_lookup. rewrite <- Ha. f_equal. lia. }
        rewrite Hlast in Ha'. inversion Ha'; subst a.
        unfold chunkSize in *. lia.
Qed.

Lemma adjacent_all (P : Z → Z → Prop) (l : list Z) :
  (∀ a b c, P a b → P b c → P a c) →
  (∀ i a b, l !! i = Some a → l !! S i = Some b → P a b) →
  ∀ i j a b, (i < j)%nat → l !! i = Some a → l !! j = Some b → P a b.
Proof.
  intros Htrans Hadj i j. induction j as [|j IH]; intros a b Hij Ha Hb; [lia|].
  destruct (decide (i = j)) as [->|Hne]; [eauto|].
  destruct (lookup_lt_is_Some_2 l j) as [c Hc]; [apply lookup_lt_Some in Hb; lia|].
  eapply Htrans; [apply (IH a c); [lia | done | done] | eauto].
Qed.
End TransientFacts.

Lemma List_last_Some (l : list Z) x d : last l = Some x → List.last l d = x.
Proof.
  induction l as [|y l IH]; [discriminate|].
  destruct l as [|z l]; cbn in *; [congruence | exact IH].
Qed.

(** C7 (as amended). For every buffer of the host, [detectTransients]
    returns an ascending list that starts with frame 0 and ends with the
    final frame; the list is the onsets of the energy scan, followed by
    the final frame when the last onset is not the final frame; no two
    onsets are closer than [minSeparationMs] converted to sample frames
    ([minSeparationFrames], the floor of the product as the doubles give
    it). The distance of the final frame to the last onset is not
    bounded. *)
Theorem detectTransients_structure host audio st buffer threshold minSeparationMs :
  valid audio st buffer →
  ∃ onsets transients,
    detectTransients host buffer threshold minSeparationMs st = (st, Ok transients) ∧
    (transients = onsets ∨ transients = onsets ++ [Z.of_nat (bufferLength buffer) - 1]) ∧
    transients !! 0%nat = Some 0 ∧
    last transients = Some (Z.of_nat (bufferLength buffer) - 1) ∧
    (∀ i j a b, (i < j)%nat → transients !! i = Some a → transients !! j = Some b → a < b) ∧
    (∀ i j a b, (i < j)%nat → onsets !! i = Some a → onsets !! j = Some b →
       minSeparationFrames (sampleRate buffer) minSeparationMs <= b - a).
Proof.
  intros Hv.
  assert (H0 : (0 < numberOfChannels buffer)%nat) by (destruct Hv as (_ & ? & _); lia).
  assert (Hlen0 : (0 < bufferLength buffer)%nat) by (destruct Hv as (_ & _ & ? & _); lia).
  destruct (valid_ref_lt _ _ _ _ Hv H0) as (r & xs & Hr & Hxs & Hl & _).
  unfold detectTransients.
  erewrite bind_ok; [|apply getChannelData_ok, Hr].
  erewrite bind_ok.
  2:{ unfold readArray. rewrite (contents_lookup _ _ _ Hxs). reflexivity. }
  set (minSep := minSeparationFrames (sampleRate buffer) minSeparationMs).
  pose proof (pickTransients_invariant (chunkEnergies host xs) threshold minSep
                (length (chunkEnergies host xs) - 1)) as Hinv.
  unfold onsetsInvariant in Hinv. unfold pickTransients.
  destruct (fold_left _ (seq 1 _) _) as [ts lastT].
  destruct Hinv as (Hhead & Hlast & Hrange & Hadj).
  destruct (chunkEnergies_last_start host xs) as [Hn Hstart]; [lia|].
  assert (Hbound : lastT <= Z.of_nat (bufferLength buffer) - 1).
  { rewrite <- Hl. unfold chunkSize in *. lia. }
  assert (Hne : (0 < length ts)%nat) by (eapply lookup_lt_Some, Hhead).
  assert (Hsep : ∀ i j a b, (i < j)%nat → ts !! i = Some a → ts !! j = Some b →
                   a < b ∧ minSep < b - a).
  { apply (adjacent_all (fun a b => a < b ∧ minSep < b - a)); [|exact Hadj].
    intros a b c [? ?] [? ?]. lia. }
  exists ts. eexists. split; [reflexivity|].
  unfold withFinalFrame. rewrite (List_last_Some _ _ _ Hlast), Hl.
  destruct (Z.ltb_spec lastT (Z.of_nat (bufferLength buffer) - 1)) as [Hlt|Hge].
  - split_and!.
    + right. reflexivity.
    + rewrite lookup_app_l by exact Hne. exact Hhead.
    + apply last_snoc.
    + intros i j a b Hij Ha Hb.
      destruct (decide (j < length ts)%nat) as [Hj|Hj].
      * rewrite lookup_app_l in Ha by lia. rewrite lookup_app_l in Hb by lia.
        destruct (Hsep i j a b Hij Ha Hb); lia.
      * assert (Hjl : j = length ts).
        { apply lookup_lt_Some in Hb. rewrite length_app in Hb. cbn in Hb. lia. }
        rewrite lookup_app_l in Ha by lia.
        rewrite lookup_app_r in Hb by lia.
        replace (j - length ts)%nat with 0%nat in Hb by lia. cbn in Hb.
        inversion Hb; subst b.
        assert (Hal : a <= lastT).
        { destruct (decide (S i = length ts)) as [Hi|Hi].
          - assert (Ha' : last ts = Some a) by (rewrite last_lookup, <- Ha; f_equal; lia).
            rewrite Hlast in Ha'. inversion Ha'. lia.
          - rewrite last_lookup in Hlast.
            destruct (Hsep i (Nat.pred (length ts)) a lastT); [lia | done | done | lia]. }
        lia.
    + intros i j a b Hij Ha Hb. destruct (Hsep i j a b Hij Ha Hb); lia.
  - split_and!.
    + left. reflexivity.
    + exact Hhead.
    + rewrite Hlast. f_equal. lia.
    + intros i j a b Hij Ha Hb. destruct (Hsep i j a b Hij Ha Hb); lia.
    + intros i j a b Hij Ha Hb. destruct (Hsep i j a b Hij Ha Hb); lia.
Qed.

Lemma detectTransients_structure_witness :
  let st := stateOf [replicate 1000 0%Q] in
  let buffer := monoBuffer 1000 0 in
  valid exampleAudio st buffer ∧
  ∃ onsets transients,
    detectTransients exampleMath buffer (18 # 10) 50 st = (st, Ok transients) ∧
    (transients = onsets ∨ transients = onsets ++ [Z.of_nat (bufferLength buffer) - 1]) ∧
    transients !! 0%nat = Some 0 ∧
    last transients = Some (Z.of_nat (bufferLength buffer) - 1) ∧
    (∀ i j a b, (i < j)%nat → transients !! i = Some a → transients !! j = Some b → a < b) ∧
    (∀ i j a b, (i < j)%nat → onsets !! i = Some a → onsets !! j = Some b →
       minSeparationFrames (sampleRate buffer) 50 <= b - a).
Proof.
  intros st buffer.
  assert (H1 : valid exampleAudio st buffer) by prove_valid.
  split; [exact H1|].
  exact (detectTransients_structure exampleMath exampleAudio st buffer (18 # 10) 50 H1).
Defined.

(** C7 as stated fails: 1000 frames of silence at 44.1 kHz (22 ms) give the
    list [0; 999], whose two entries are 999 frames apart, while 50 ms are
    2205 frames. *)
Lemma detectTransients_final_frame_close :
  let st := stateOf [replicate 1000 0%Q] in
  let buffer := monoBuffer 1000 0 in
  valid exampleAudio st buffer ∧
  detectTransients exampleMath buffer (18 # 10) 50 st = (st, Ok [0; 999]) ∧
  minSeparationFrames (sampleRate buffer) 50 = 2205 ∧
  ¬ (∀ i j a b, (i < j)%nat → [0; 999] !! i = Some a → [0; 999] !! j = Some b →
       minSeparationFrames (sampleRate buffer) 50 <= b - a).
Proof.
  intros st buffer. split; [prove_valid|].
  split; [vm_compute; reflexivity|]. split; [vm_compute; reflexivity|].
  intros H. specialize (H 0%nat 1%nat 0 999 ltac:(lia) eq_refl eq_refl).
  vm_compute in H. apply H. reflexivity.
Qed.

(** ** Silence through the FFT *)

Lemma silent_insert xs i v : silent xs → (v == 0)%Q → silent (<[i := v]> xs).
Proof. intros Hx Hv j. rewrite at_insert. case_decide; [exact Hv | apply Hx]. Qed.

Lemma silent_zeros n : silent (replicate n 0%Q).
Proof. intros i. rewrite at_zeros. reflexivity. Qed.

Lemma silent_take n xs : silent xs → silent (take n xs).
Proof.
  intros Hx i. unfold at_. destruct (decide (i < n)%nat) as [Hi|Hi].
  - destruct (take n xs !! i) as [x|] eqn:E.
    + rewrite (nth_lookup_Some _ _ _ _ E). rewrite lookup_take_lt in E by exact Hi.
      rewrite <- (nth_lookup_Some _ _ 0%Q _ E). apply Hx.
    + rewrite nth_overflow; [reflexivity | apply lookup_ge_None, E].
  - rewrite nth_overflow; [reflexivity | rewrite length_take; lia].
Qed.

Lemma silent_swapAt xs i j : silent xs → silent (swapAt xs i j).
Proof. intros Hx. unfold swapAt. repeat apply silent_insert; try exact Hx; apply Hx. Qed.

Lemma silent_setFrom source dest : silent source → silent dest → silent (setFrom source dest).
Proof.
  intros Hs Hd. unfold setFrom. apply fold_left_invariant; [exact Hd|].
  intros d i _ H. apply silent_insert; [exact H | apply Hs].
Qed.

Lemma silent_bitReversalPermutation fft ri :
  silentPair ri → silentPair (bitReversalPermutation fft ri).
Proof.
  intros H. unfold bitReversalPermutation. apply fold_left_invariant; [exact H|].
  intros [re im] i _ [Hre Him]. cbn in *.
  case_match; split; cbn; try assumption; apply silent_swapAt; assumption.
Qed.

Lemma silent_butterfly fft invert len i j ri :
  silentPair ri → silentPair (butterfly fft invert len i j ri).
Proof.
  destruct ri as [re im]. intros [Hre Him]. cbn in *. unfold butterfly.
  split; cbn [fst snd].
  - repeat apply silent_insert; try exact Hre;
      rewrite ?(Hre (i + j)%nat), ?(Hre (i + j + len / 2)%nat), ?(Him (i + j + len / 2)%nat);
      ring.
  - repeat apply silent_insert; try exact Him;
      rewrite ?(Him (i + j)%nat), ?(Hre (i + j + len / 2)%nat), ?(Him (i + j + len / 2)%nat);
      ring.
Qed.

Lemma silent_cooleyTukey fft invert ri :
  silentPair ri → silentPair (cooleyTukey fft invert ri).
Proof.
  intros H. unfold cooleyTukey. apply fold_left_invariant; [exact H|].
  intros ri1 len _ H1. unfold cooleyTukeyStage. apply fold_left_invariant; [exact H1|].
  intros ri2 i _ H2. apply fold_left_invariant; [exact H2|].
  intros ri3 j _ H3. apply silent_butterfly, H3.
Qed.

Lemma silent_fft_forward fft re im :
  silent re → silent im →
  silentPair (fft_kernel fft false (re, im)).
Proof.
  intros Hre Him. unfold fft_kernel.
  pose proof (silent_cooleyTukey fft false (bitReversalPermutation fft (re, im))) as H.
  destruct (cooleyTukey fft false (bitReversalPermutation fft (re, im))) as [re' im'].
  apply H, silent_bitReversalPermutation. split; assumption.
Qed.

Lemma writeArray_fresh (h0 cur : list (list Q)) c xs st :
  heap st = h0 ++ cur → (c < length cur)%nat →
  writeArray (length h0 + c) xs st = (set_heap (h0 ++ <[c := xs]> cur) st, Ok tt).
Proof.
  intros Hst Hc. unfold writeArray. rewrite Hst, insert_app_r_alt by lia.
  replace (length h0 + c - length h0)%nat with c by lia. reflexivity.
Qed.

Lemma allocArray_fresh (h0 cur : list (list Q)) xs st :
  heap st = h0 ++ cur →
  allocArray xs st = (set_heap (h0 ++ cur ++ [xs]) st, Ok (length h0 + length cur)%nat).
Proof.
  intros Hst. unfold allocArray. rewrite Hst, length_app, <- app_assoc. reflexivity.
Qed.

Lemma fft_call_fresh fft invert (h0 cur : list (list Q)) a b st :
  heap st = h0 ++ cur → (a < length cur)%nat → (b < length cur)%nat →
  fft_call fft (length h0 + a) (length h0 + b) invert st =
    (set_heap (h0 ++ <[b := snd (fft_kernel fft invert (nth a cur [], nth b cur []))]>
                       (<[a := fst (fft_kernel fft invert (nth a cur [], nth b cur []))]> cur)) st,
     Ok tt).
Proof.
  intros Hst Ha Hb. unfold fft_call.
  erewrite bind_ok; [|apply readArray_fresh, Hst].
  erewrite bind_ok; [|apply readArray_fresh, Hst].
  destruct (fft_kernel fft invert (nth a cur [], nth b cur [])) as [re' im']. cbn [fst snd].
  erewrite bind_ok; [|apply writeArray_fresh; [exact Hst | exact Ha]].
  rewrite (writeArray_fresh h0 (<[a := re']> cur));
    [reflexivity | reflexivity | rewrite length_insert; exact Hb].
Qed.

(** ** Peaks of a silent spectrum *)

Section PeakFacts.
Context (host : MathHost).

Lemma Math_sqrt_zero x : (x == 0)%Q → Math_sqrt host x = Msqrt host 0%Q.
Proof. intros H. unfold Math_sqrt. rewrite (Qred_complete _ _ H). reflexivity. Qed.

Lemma binMagnitude_silent rate re im i :
  silent re → silent im → snd (binMagnitude host rate re im i) = Msqrt host 0%Q.
Proof.
  intros Hre Him. cbn. apply Math_sqrt_zero. rewrite (Hre i), (Him i). ring.
Qed.

Lemma findPeaks_flat (magnitudes : list (Q * Q)) m0 :
  (∀ m, m ∈ magnitudes → snd m = m0) → findPeaks magnitudes = [].
Proof.
  intros Hflat. unfold findPeaks. apply fold_left_invariant; [reflexivity|].
  intros peaks i Hi ->. apply elem_of_seq in Hi.
  assert (Hnth : ∀ k, (k < length magnitudes)%nat → snd (nth k magnitudes (0%Q, 0%Q)) = m0).
  { intros k Hk. apply Hflat. destruct (lookup_lt_is_Some_2 magnitudes k Hk) as [m Hm].
    rewrite (nth_lookup_Some _ _ _ _ Hm). eapply list_elem_of_lookup_2, Hm. }
  rewrite (Hnth (i - 1)%nat), (Hnth i) by lia.
  assert (Hfalse : Qltb m0 m0 = false) by (apply Qltb_ge, Qle_refl).
  rewrite Hfalse. reflexivity.
Qed.

Lemma topFrequencies_nil n : topFrequencies n [] = [].
Proof. unfold topFrequencies, sliceTo. cbn. rewrite take_nil. reflexivity. Qed.

Lemma harmonic_peaks_silent rate re im n :
  silent re → silent im →
  topFrequencies n (findPeaks (harmonicMagnitudes host rate re im)) = [].
Proof.
  intros Hre Him. rewrite (findPeaks_flat _ (Msqrt host 0%Q)); [apply topFrequencies_nil|].
  intros m Hm. unfold harmonicMagnitudes in Hm. apply list_elem_of_fmap in Hm as (i & -> & _).
  apply binMagnitude_silent; assumption.
Qed.

Lemma formant_peaks_silent rate re im n :
  silent re → silent im →
  topFrequencies n (findPeaks (formantMagnitudes host rate re im)) = [].
Proof.
  intros Hre Him. rewrite (findPeaks_flat _ (Msqrt host 0%Q)); [apply topFrequencies_nil|].
  intros m Hm. unfold formantMagnitudes in Hm. apply list_elem_of_filter in Hm as [_ Hm].
  apply list_elem_of_fmap in Hm as (i & -> & _).
  apply binMagnitude_silent; assumption.
Qed.
End PeakFacts.

(** ** Soft failure passthrough *)

Lemma fftSize8192_accepted : fft_size_invalid (Z.of_nat fftSize8192) = false.
Proof. vm_compute. reflexivity. Qed.

Section Passthrough.
Context (host : MathHost) (audio : AudioHost).
Local Opaque fftSize8192.

(** the spectrum of a chunk of silence is silence *)
Lemma spectrum_of_silent_chunk fft chunk st1 :
  (chunk < length (heap st1))%nat → silent (contents st1 chunk) →
  ∃ st2 re im,
    (real <- newFloat32Array fftSize8192 ;;
     chunkNow <- readArray chunk ;;
     modifyArray real (setFrom chunkNow) ;;;
     imag <- newFloat32Array fftSize8192 ;;
     fft_call fft real imag false ;;;
     re <- readArray real ;;
     im <- readArray imag ;;
     ret (re, im)) st1 = (st2, Ok (re, im)) ∧
    silent re ∧ silent im ∧ preserved st1 st2.
Proof.
  intros Hchunk Hsilent.
  set (h0 := heap st1).
  set (zeros := replicate fftSize8192 0%Q).
  set (real0 := setFrom (contents st1 chunk) zeros).
  set (out := fft_kernel fft false (real0, zeros)).
  exists (set_heap (h0 ++ [fst out; snd out]) st1), (fst out), (snd out).
  assert (Hout : silentPair out).
  { apply silent_fft_forward; [|apply silent_zeros].
    apply silent_setFrom; [exact Hsilent | apply silent_zeros]. }
  split; [|split; [apply Hout | split; [apply Hout | apply preserved_app; reflexivity]]].
  unfold newFloat32Array.
  erewrite bind_ok.
  2:{ rewrite (allocArray_fresh h0 []) by (rewrite app_nil_r; reflexivity). reflexivity. }
  cbn [app length]. rewrite Nat.add_0_r.
  erewrite bind_ok; [|eapply readArray_old; [reflexivity | exact Hchunk]].
  erewrite bind_ok.
  2:{ rewrite <- (Nat.add_0_r (length h0)).
      apply (modifyArray_fresh h0 [zeros]); [reflexivity | cbn; lia]. }
  cbn [nth insert list_insert].
  erewrite bind_ok.
  2:{ apply (allocArray_fresh h0 [setFrom (default [] (h0 !! chunk)) zeros]). reflexivity. }
  cbn [app length].
  erewrite bind_ok.
  2:{ rewrite <- (Nat.add_0_r (length h0)) at 1.
      apply (fft_call_fresh fft false h0
               [setFrom (default [] (h0 !! chunk)) zeros; zeros]);
        [reflexivity | cbn; lia | cbn; lia]. }
  cbn [nth insert list_insert].
  erewrite bind_ok.
  2:{ rewrite <- (Nat.add_0_r (length h0)) at 1. apply readArray_fresh. reflexivity. }
  erewrite bind_ok.
  2:{ apply readArray_fresh. reflexivity. }
  reflexivity.
Qed.

Lemma spectrumOfChannel0_silent st src :
  valid audio st src → silent (channel st src 0) →
  ∃ st' re im,
    spectrumOfChannel0 host src st = (st', Ok (re, im)) ∧
    silent re ∧ silent im ∧ preserved st st'.
Proof.
  intros Hv Hsilent.
  assert (H0 : (0 < numberOfChannels src)%nat) by (destruct Hv as (_ & ? & _); lia).
  destruct (valid_ref_lt _ _ _ _ Hv H0) as (r & xs & Hr & Hxs & Hl & Hrlt).
  assert (Hch : channel st src 0 = xs).
  { unfold channel. rewrite (nth_lookup_Some _ _ _ _ Hr). apply contents_lookup, Hxs. }
  rewrite Hch in Hsilent.
  destruct (getFFT_returns host (Z.of_nat fftSize8192) st fftSize8192_accepted)
    as (fft & st1 & Hfft & Hheap1 & _).
  assert (Hp1 : preserved st st1) by (intros r' xs' H'; rewrite Hheap1; exact H').
  unfold spectrumOfChannel0.
  erewrite bind_ok; [|exact Hfft].
  erewrite bind_ok; [|apply getChannelData_ok, Hr].
  assert (Hxs1 : heap st1 !! r = Some xs) by (apply Hp1, Hxs).
  erewrite bind_ok.
  2:{ unfold readArray. rewrite (contents_lookup _ _ _ Hxs1). reflexivity. }
  destruct (fftSize8192 <? length xs)%nat.
  - erewrite bind_ok; [|reflexivity].
    destruct (spectrum_of_silent_chunk fft (length (heap st1))
                (set_heap (heap st1 ++ [take fftSize8192 xs]) st1))
      as (st2 & re & im & Hrun & Hre & Him & Hp2).
    + cbn. rewrite length_app. cbn. lia.
    + rewrite contents_set_heap, lookup_app_r by lia. rewrite Nat.sub_diag. cbn.
      apply silent_take, Hsilent.
    + exists st2, re, im. split; [exact Hrun|]. split_and!; try done.
      eapply preserved_trans; [exact Hp1|].
      eapply preserved_trans; [|exact Hp2]. apply preserved_app. reflexivity.
  - erewrite bind_ok; [|reflexivity].
    destruct (spectrum_of_silent_chunk fft r st1) as (st2 & re & im & Hrun & Hre & Him & Hp2).
    + eapply lookup_lt_Some, Hxs1.
    + rewrite (contents_lookup _ _ _ Hxs1). exact Hsilent.
    + exists st2, re, im. split; [exact Hrun|]. split_and!; try done.
      eapply preserved_trans; eassumption.
Qed.

(** C3. With a source whose samples are all 0, [applyHarmonicImprinting]
    and [applyFormantShifting] do not throw and return the target buffer
    itself, whose samples are the ones it had before the call. *)
Theorem silent_source_passthrough st src tgt params :
  valid audio st src → valid audio st tgt →
  (∀ c i, (c < numberOfChannels src)%nat → (sample st src c i == 0)%Q) →
  (∃ st', applyHarmonicImprinting host audio src tgt params st = (st', Ok tgt)
          ∧ preserved st st'
          ∧ ∀ c, (c < numberOfChannels tgt)%nat → channel st' tgt c = channel st tgt c) ∧
  (∃ st', applyFormantShifting host audio src tgt params st = (st', Ok tgt)
          ∧ preserved st st'
          ∧ ∀ c, (c < numberOfChannels tgt)%nat → channel st' tgt c = channel st tgt c).
Proof.
  intros Hvs Hvt Hzero.
  assert (H0 : (0 < numberOfChannels src)%nat) by (destruct Hvs as (_ & ? & _); lia).
  assert (Hsilent : silent (channel st src 0)) by (intros i; apply (Hzero 0%nat i H0)).
  destruct (spectrumOfChannel0_silent st src Hvs Hsilent)
    as (st' & re & im & Hrun & Hre & Him & Hp).
  split; exists st'.
  - split; [|split; [exact Hp | intros c Hc; eapply channel_preserved; eassumption]].
    unfold applyHarmonicImprinting, detectHarmonics.
    erewrite bind_ok.
    2:{ erewrite bind_ok; [|exact Hrun]. reflexivity. }
    rewrite harmonic_peaks_silent by assumption. reflexivity.
  - split; [|split; [exact Hp | intros c Hc; eapply channel_preserved; eassumption]].
    unfold applyFormantShifting, detectFormants.
    erewrite bind_ok.
    2:{ erewrite bind_ok; [|exact Hrun]. reflexivity. }
    rewrite formant_peaks_silent by assumption. reflexivity.
Qed.
End Passthrough.

Lemma silent_source_passthrough_witness :
  let st := stateOf [[0; 0; 0]; [1; 1 # 2]]%Q in
  let src := monoBuffer 3 0 in
  let tgt := monoBuffer 2 1 in
  valid exampleAudio st src ∧ valid exampleAudio st tgt ∧
  (∀ c i, (c < numberOfChannels src)%nat → (sample st src c i == 0)%Q) ∧
  (∃ st', applyHarmonicImprinting exampleMath exampleAudio src tgt noParams st = (st', Ok tgt)
          ∧ preserved st st'
          ∧ ∀ c, (c < numberOfChannels tgt)%nat → channel st' tgt c = channel st tgt c) ∧
  (∃ st', applyFormantShifting exampleMath exampleAudio src tgt noParams st = (st', Ok tgt)
          ∧ preserved st st'
          ∧ ∀ c, (c < numberOfChannels tgt)%nat → channel st' tgt c = channel st tgt c).
Proof.
  intros st src tgt.
  assert (H1 : valid exampleAudio st src) by prove_valid.
  assert (H2 : valid exampleAudio st tgt) by prove_valid.
  assert (H3 : ∀ c i, (c < numberOfChannels src)%nat → (sample st src c i == 0)%Q).
  { intros c i Hc. cbn in Hc. destruct c as [|c]; [|lia].
    unfold sample, channel, contents, at_. cbn.
    destruct i as [|[|[|[|i]]]]; reflexivity. }
  split; [exact H1|]. split; [exact H2|]. split; [exact H3|].
  exact (silent_source_passthrough exampleMath exampleAudio st src tgt noParams H1 H2 H3).
Defined.

(** ** The frame of a call *)

Lemma grows_refl n st : grows n st st.
Proof. split; [reflexivity | eauto]. Qed.

Lemma grows_length n st st' : grows n st st' → (length (heap st) <= length (heap st'))%nat.
Proof.
  intros [_ H]. destruct (decide (length (heap st) = 0)%nat) as [|Hne]; [lia|].
  destruct (lookup_lt_is_Some_2 (heap st) (length (heap st) - 1)) as [xs Hxs]; [lia|].
  destruct (H _ _ Hxs) as (ys & Hys & _). apply lookup_lt_Some in Hys. lia.
Qed.

Lemma grows_trans n st1 st2 st3 :
  grows n st1 st2 → grows n st2 st3 → grows n st1 st3.
Proof.
  intros [H1 H1'] [H2 H2']. split.
  - intros r Hr. rewrite H2, H1 by lia. reflexivity.
  - intros r xs Hxs. destruct (H1' _ _ Hxs) as (ys & Hys & Hl).
    destruct (H2' _ _ Hys) as (zs & Hzs & Hl'). exists zs. split; [exact Hzs | congruence].
Qed.

Lemma grows_preserved st st' : grows (length (heap st)) st st' → preserved st st'.
Proof.
  intros [H _] r xs Hxs. rewrite H; [exact Hxs | eapply lookup_lt_Some, Hxs].
Qed.

Lemma grows_same_heap n st st' : heap st' = heap st → grows n st st'.
Proof. intros H. unfold grows. rewrite H. split; [reflexivity | eauto]. Qed.

Lemma grows_alloc n st xs :
  (n <= length (heap st))%nat →
  grows n st (set_heap (heap st ++ [xs]) st).
Proof.
  intros Hn. split; cbn.
  - intros r Hr. apply lookup_app_l. lia.
  - intros r ys Hys. exists ys. split; [|reflexivity].
    rewrite lookup_app_l; [exact Hys | eapply lookup_lt_Some, Hys].
Qed.

Lemma grows_write n st r xs :
  (n <= r)%nat → length xs = length (contents st r) →
  grows n st (set_heap (<[r := xs]> (heap st)) st).
Proof.
  intros Hr Hlen. split; cbn.
  - intros r' Hr'. apply list_lookup_insert_ne. lia.
  - intros r' ys Hys. destruct (decide (r = r')) as [->|Hne].
    + exists xs. split.
      * apply list_lookup_insert_eq. eapply lookup_lt_Some, Hys.
      * rewrite Hlen. unfold contents. rewrite Hys. reflexivity.
    + exists ys. split; [|reflexivity]. rewrite list_lookup_insert_ne by done. exact Hys.
Qed.

Lemma valid_grows audio n st st' b : valid audio st b → grows n st st' → valid audio st' b.
Proof.
  intros (H1 & H2 & H3 & H4 & H5) [_ Hg]. split_and!; try done.
  eapply Forall_impl; [exact H5|]. intros r (xs & Hxs & Hl).
  destruct (Hg _ _ Hxs) as (ys & Hys & Hl'). exists ys. split; [exact Hys | congruence].
Qed.

(** *** Rules *)

Lemma wp_ret {A} n (a : A) st (Q : State → A → Prop) : Q st a → wp n (ret a) st Q.
Proof. intros H. split; [apply grows_refl | exact H]. Qed.

Lemma wp_throw {A} n msg st (Q : State → A → Prop) : wp n (throw msg) st Q.
Proof. split; [apply grows_refl | exact I]. Qed.

Lemma wp_bind {A B} n (m : M A) (k : A → M B) st (P : State → A → Prop)
    (Q : State → B → Prop) :
  (n <= length (heap st))%nat →
  wp n m st P →
  (∀ st1 a, grows n st st1 → (n <= length (heap st1))%nat → P st1 a → wp n (k a) st1 Q) →
  wp n (bind m k) st Q.
Proof.
  intros Hn [Hg HP] Hk. unfold wp, bind in *.
  destruct (m st) as [st1 [a|e]]; cbn in *.
  - assert (Hn1 : (n <= length (heap st1))%nat) by (pose proof (grows_length _ _ _ Hg); lia).
    destruct (Hk st1 a Hg Hn1 HP) as [Hg2 HQ].
    split; [eapply grows_trans; eassumption | exact HQ].
  - split; [exact Hg | exact I].
Qed.

Lemma wp_conseq {A} n (m : M A) st (P Q : State → A → Prop) :
  wp n m st P → (∀ st1 a, grows n st st1 → P st1 a → Q st1 a) → wp n m st Q.
Proof.
  intros [Hg HP] HPQ. split; [exact Hg|].
  destruct (snd (m st)); [apply HPQ; assumption | exact I].
Qed.

Lemma wp_allocArray n xs st :
  (n <= length (heap st))%nat →
  wp n (allocArray xs) st
    (fun st1 r => (n <= r)%nat ∧ heap st1 !! r = Some xs ∧ (r < length (heap st1))%nat).
Proof.
  intros Hn. split; [apply grows_alloc, Hn|]. cbn. split_and!.
  - exact Hn.
  - rewrite lookup_app_r by lia. rewrite Nat.sub_diag. reflexivity.
  - rewrite length_app. cbn. lia.
Qed.

Lemma wp_readArray n r st :
  wp n (readArray r) st (fun st1 xs => st1 = st ∧ xs = contents st r).
Proof. split; [apply grows_refl | split; reflexivity]. Qed.

Lemma wp_writeArray n r xs st :
  (n <= r)%nat → length xs = length (contents st r) →
  wp n (writeArray r xs) st (fun _ _ => True).
Proof. intros Hr Hl. split; [apply grows_write; assumption | exact I]. Qed.

Lemma wp_modifyArray n r f st :
  (n <= r)%nat → (∀ xs, length (f xs) = length xs) →
  wp n (modifyArray r f) st (fun _ _ => True).
Proof.
  intros Hr Hf. unfold modifyArray, bind, readArray, wp. cbn.
  split; [apply grows_write; [exact Hr | apply Hf] | exact I].
Qed.

Lemma wp_getChannelData n b c st :
  wp n (getChannelData b c) st (fun st1 r => st1 = st ∧ channelData b !! c = Some r).
Proof.
  unfold getChannelData. destruct (channelData b !! c) as [r|].
  - apply wp_ret. split; reflexivity.
  - apply wp_throw.
Qed.

Lemma wp_same_heap {A} n (m : M A) st :
  (∀ st, heap (fst (m st)) = heap st) →
  wp n m st (fun st1 _ => heap st1 = heap st).
Proof.
  intros H. split; [apply grows_same_heap, H|].
  destruct (snd (m st)); [apply H | exact I].
Qed.

Lemma wp_forEach {A} n (l : list A) (body : A → M unit) st :
  (n <= length (heap st))%nat →
  (∀ x st1, grows n st st1 → (n <= length (heap st1))%nat →
     wp n (body x) st1 (fun _ _ => True)) →
  wp n (forEach l body) st (fun _ _ => True).
Proof.
  revert st. induction l as [|x l IH]; intros st Hn Hbody; cbn [forEach].
  - apply wp_ret. exact I.
  - eapply wp_bind; [exact Hn | apply Hbody; [apply grows_refl | exact Hn] |].
    intros st1 [] Hg Hn1 _. apply IH; [exact Hn1|].
    intros y st2 Hg2 Hn2. apply Hbody; [|exact Hn2].
    eapply grows_trans; eassumption.
Qed.

Lemma wp_foldM {A S} n (l : list A) (s : S) (body : S → A → M S) st :
  (n <= length (heap st))%nat →
  (∀ s x st1, grows n st st1 → (n <= length (heap st1))%nat →
     wp n (body s x) st1 (fun _ _ => True)) →
  wp n (foldM l s body) st (fun _ _ => True).
Proof.
  revert s st. induction l as [|x l IH]; intros s st Hn Hbody; cbn [foldM].
  - apply wp_ret. exact I.
  - eapply wp_bind; [exact Hn | apply Hbody; [apply grows_refl | exact Hn] |].
    intros st1 s1 Hg Hn1 _. apply IH; [exact Hn1|].
    intros s2 y st2 Hg2 Hn2. apply Hbody; [|exact Hn2].
    eapply grows_trans; eassumption.
Qed.

Lemma wp_attempt {A} n (m : M A) st (Q : State → A → Prop) :
  wp n m st Q →
  wp n (attempt m) st
    (fun st1 o => match o with Ok a => Q st1 a | Throw _ => True end).
Proof.
  intros [Hg HQ]. unfold wp, attempt in *. destruct (m st) as [st1 o]. cbn in *.
  split; [exact Hg | exact HQ].
Qed.

(** *** The FFT keeps the lengths of its two arrays *)

Lemma swapAt_length xs i j : length (swapAt xs i j) = length xs.
Proof. unfold swapAt. rewrite !length_insert. reflexivity. Qed.

Lemma divideBySize_length size xs : length (divideBySize size xs) = length xs.
Proof.
  unfold divideBySize. apply (fold_left_invariant (fun l => length l = length xs)); [reflexivity|].
  intros l i _ H. rewrite length_insert. exact H.
Qed.

Lemma fft_kernel_length fft invert ri : sameLengths ri (fft_kernel fft invert ri).
Proof.
  unfold fft_kernel.
  assert (H1 : sameLengths ri (bitReversalPermutation fft ri)).
  { unfold bitReversalPermutation. apply fold_left_invariant; [split; reflexivity|].
    intros [re im] i _ [Hre Him]. cbn in *.
    case_match; split; cbn; rewrite ?swapAt_length; assumption. }
  assert (H2 : sameLengths ri (cooleyTukey fft invert (bitReversalPermutation fft ri))).
  { unfold cooleyTukey. apply fold_left_invariant; [exact H1|].
    intros ri1 len _ Hri1. unfold cooleyTukeyStage. apply fold_left_invariant; [exact Hri1|].
    intros ri2 i _ Hri2. apply fold_left_invariant; [exact Hri2|].
    intros [re im] j _ [Hre Him]. unfold butterfly. split; cbn in *;
      rewrite !length_insert; assumption. }
  destruct (cooleyTukey fft invert (bitReversalPermutation fft ri)) as [re im].
  destruct H2 as [Hre Him]. cbn in *.
  destruct invert; split; cbn; rewrite ?divideBySize_length; assumption.
Qed.

Section HostRules.
Context (host : MathHost) (audio : AudioHost).

Lemma grows_app n st more :
  (n <= length (heap st))%nat → grows n st (set_heap (heap st ++ more) st).
Proof.
  intros Hn. split; cbn.
  - intros r Hr. apply lookup_app_l. lia.
  - intros r ys Hys. exists ys. split; [|reflexivity].
    rewrite lookup_app_l; [exact Hys | eapply lookup_lt_Some, Hys].
Qed.

Lemma fresh_seq n base k rate len :
  (n <= base)%nat →
  fresh n {| numberOfChannels := k; bufferLength := len; sampleRate := rate;
             channelData := seq base k |}.
Proof.
  intros H. unfold fresh. cbn. apply Forall_forall. intros r Hr.
  apply elem_of_seq in Hr. lia.
Qed.

Lemma wp_newFloat32Array n k st :
  (n <= length (heap st))%nat →
  wp n (newFloat32Array k) st
    (fun st1 r => (n <= r)%nat ∧ heap st1 !! r = Some (replicate k 0%Q)
                  ∧ (r < length (heap st1))%nat).
Proof. apply wp_allocArray. Qed.

Lemma wp_createBuffer n k len rate st :
  (n <= length (heap st))%nat →
  wp n (createBuffer audio k len rate) st
    (fun st1 b => valid audio st1 b ∧ fresh n b ∧ numberOfChannels b = k
                  ∧ bufferLength b = len ∧ sampleRate b = rate).
Proof.
  intros Hn. destruct (shapeRejected audio k len rate) eqn:Hshape.
  - unfold wp. rewrite createBuffer_rejected by exact Hshape.
    split; [apply grows_refl | exact I].
  - unfold wp. rewrite createBuffer_spec by exact Hshape. cbn [fst snd].
    split; [apply grows_app, Hn|]. split_and!; try reflexivity.
    + apply fresh_buffer_valid; [exact Hshape | apply length_replicate |].
      apply Forall_replicate. apply length_replicate.
    + apply fresh_seq, Hn.
Qed.

Lemma wp_newOfflineAudioContext n k len rate st :
  wp n (newOfflineAudioContext audio k len rate) st
    (fun st1 ctx => st1 = st
                    ∧ shapeRejected audio (ctxChannels ctx) (ctxLength ctx) (ctxSampleRate ctx)
                      = false
                    ∧ ctxChannels ctx = k ∧ ctxLength ctx = len ∧ ctxSampleRate ctx = rate).
Proof.
  unfold newOfflineAudioContext. destruct (shapeRejected audio k len rate) eqn:Hshape.
  - apply wp_throw.
  - apply wp_ret. cbn. split_and!; try reflexivity. exact Hshape.
Qed.

Lemma wp_acquire n b st :
  wp n (acquire b) st (fun st1 _ => st1 = st).
Proof. split; [apply grows_refl | reflexivity]. Qed.

Lemma wp_setConvolverBuffer n ctx b st :
  wp n (setConvolverBuffer ctx b) st (fun st1 _ => st1 = st).
Proof.
  unfold setConvolverBuffer. destruct (convolverAccepts _ _); [apply wp_acquire|].
  split; [apply grows_refl | exact I].
Qed.

Lemma toShape_length k len xs : length (toShape k len xs) = k.
Proof. unfold toShape. rewrite length_fmap. apply length_seq. Qed.

Lemma toShape_channels k len xs : Forall (fun c => length c = len) (toShape k len xs).
Proof.
  unfold toShape. apply Forall_fmap, Forall_forall. intros c _. cbn.
  rewrite length_app, length_take, length_replicate. lia.
Qed.

Lemma renderGainMix_length ctx inputs :
  length (renderGainMix audio ctx inputs) = ctxChannels ctx.
Proof. unfold renderGainMix. rewrite length_fmap. apply length_seq. Qed.

Lemma renderGainMix_channels ctx inputs :
  Forall (fun c => length c = ctxLength ctx) (renderGainMix audio ctx inputs).
Proof.
  unfold renderGainMix. apply Forall_fmap, Forall_forall. intros c _. cbn.
  rewrite length_fmap. apply length_seq.
Qed.

Lemma startRendering_spec ctx graph st :
  ∃ rendered,
    length rendered = ctxChannels ctx ∧
    Forall (fun c => length c = ctxLength ctx) rendered ∧
    (∀ inputs, graph = GainMixGraph inputs → rendered = renderGainMix audio ctx inputs) ∧
    startRendering audio ctx graph st =
      (set_heap (heap st ++ rendered) st,
       Ok {| numberOfChannels := ctxChannels ctx; bufferLength := ctxLength ctx;
             sampleRate := ctxSampleRate ctx;
             channelData := seq (length (heap st)) (ctxChannels ctx) |}).
Proof.
  unfold startRendering.
  set (rendered := match graph with
                   | GainMixGraph inputs => renderGainMix audio ctx inputs
                   | _ => toShape (ctxChannels ctx) (ctxLength ctx)
                            (renderFilterGraph audio (ctxChannels ctx) (ctxLength ctx)
                               (ctxSampleRate ctx) graph)
                   end).
  assert (Hlen : length rendered = ctxChannels ctx).
  { unfold rendered. destruct graph; try apply toShape_length. apply renderGainMix_length. }
  assert (Hch : Forall (fun c => length c = ctxLength ctx) rendered).
  { unfold rendered. destruct graph; try apply toShape_channels. apply renderGainMix_channels. }
  exists rendered. split_and!; try done.
  - intros inputs ->. reflexivity.
  - erewrite bind_ok; [|apply allocChannels_spec, Hlen]. reflexivity.
Qed.

Lemma wp_startRendering n ctx graph st :
  (n <= length (heap st))%nat →
  shapeRejected audio (ctxChannels ctx) (ctxLength ctx) (ctxSampleRate ctx) = false →
  wp n (startRendering audio ctx graph) st
    (fun st1 b => valid audio st1 b ∧ fresh n b).
Proof.
  intros Hn Hshape.
  destruct (startRendering_spec ctx graph st) as (rendered & Hlen & Hch & _ & Hrun).
  unfold wp. rewrite Hrun. cbn [fst snd]. split; [apply grows_app, Hn|]. split.
  - apply fresh_buffer_valid; assumption.
  - apply fresh_seq, Hn.
Qed.

Lemma wp_getFFT n size st :
  wp n (getFFT host size) st (fun st1 _ => heap st1 = heap st).
Proof.
  apply wp_same_heap. intros st0. unfold getFFT.
  destruct (fft_size_invalid size); [reflexivity|].
  destruct (fftCache st0 !! size); reflexivity.
Qed.

Lemma wp_drawRandoms n k st :
  wp n (drawRandoms k) st (fun st1 _ => heap st1 = heap st).
Proof. apply wp_same_heap. reflexivity. Qed.

Lemma wp_fft_call n fft a b invert st :
  (n <= a)%nat → (n <= b)%nat →
  wp n (fft_call fft a b invert) st (fun _ _ => True).
Proof.
  intros Ha Hb. unfold fft_call, bind, readArray, wp.
  pose proof (fft_kernel_length fft invert (contents st a, contents st b)) as [Hre Him].
  destruct (fft_kernel fft invert (contents st a, contents st b)) as [re' im'].
  cbn in *. split; [|exact I].
  pose proof (grows_write n st a re' Ha Hre) as Hg1.
  eapply grows_trans; [exact Hg1|].
  apply (grows_write n (set_heap (<[a := re']> (heap st)) st) b im' Hb).
  rewrite Him. unfold contents in *. cbn.
  destruct (decide (a = b)) as [->|Hne].
  - destruct (heap st !! b) as [xs|] eqn:E.
    + rewrite list_lookup_insert_eq by (eapply lookup_lt_Some, E). cbn in *.
      rewrite <- Hre. reflexivity.
    + rewrite list_insert_ge by (apply lookup_ge_None, E). rewrite E. reflexivity.
  - rewrite list_lookup_insert_ne by done. reflexivity.
Qed.
End HostRules.

(** ** Every operator writes to its own arrays only *)

Lemma fresh_lookup n b c r : fresh n b → channelData b !! c = Some r → (n <= r)%nat.
Proof. intros H Hr. unfold fresh in H. rewrite Forall_lookup in H. eapply H, Hr. Qed.

Section OperatorFrames.
Context (host : MathHost) (audio : AudioHost).

Lemma getAmplitudeEnvelope_frame n buffer s st :
  (n <= length (heap st))%nat →
  wp n (getAmplitudeEnvelope audio buffer s) st
    (fun st' envelope => valid audio st' envelope ∧ fresh n envelope).
Proof.
  intros Hn. unfold getAmplitudeEnvelope.
  eapply wp_bind; [exact Hn | apply wp_newOfflineAudioContext|].
  intros st1 ctx _ Hn1 (-> & _).
  eapply wp_bind; [exact Hn1 | apply wp_createBuffer, Hn1|].
  intros st2 result _ Hn2 (Hvalid & Hfresh & _).
  eapply wp_bind; [exact Hn2 | apply wp_forEach; [exact Hn2|] |].
  - intros c st3 _ Hn3.
    eapply wp_bind; [exact Hn3 | apply wp_getChannelData|].
    intros st4 inputData _ Hn4 (-> & _).
    eapply wp_bind; [exact Hn4 | apply wp_getChannelData|].
    intros st5 outputData _ Hn5 (-> & Hout).
    eapply wp_bind; [exact Hn5 | apply wp_readArray|].
    intros st6 input _ Hn6 (-> & _).
    apply wp_modifyArray; [eapply fresh_lookup; eassumption|].
    intros xs. apply envelopeChannel_length.
  - intros st3 [] Hg3 Hn3 _. apply wp_ret. split; [|exact Hfresh].
    eapply valid_grows; eassumption.
Qed.

Lemma applyEnvelopeToBuffer_frame n envelopeBuffer targetBuffer st :
  (n <= length (heap st))%nat →
  wp n (applyEnvelopeToBuffer audio envelopeBuffer targetBuffer) st
    (fun st' result => valid audio st' result ∧ fresh n result).
Proof.
  intros Hn. unfold applyEnvelopeToBuffer.
  eapply wp_bind; [exact Hn | apply wp_newOfflineAudioContext|].
  intros st1 ctx _ Hn1 (-> & _).
  eapply wp_bind; [exact Hn1 | apply wp_createBuffer, Hn1|].
  intros st2 result _ Hn2 (Hvalid & Hfresh & _).
  eapply wp_bind; [exact Hn2 | apply wp_forEach; [exact Hn2|] |].
  - intros c st3 _ Hn3.
    eapply wp_bind; [exact Hn3 | apply wp_getChannelData|].
    intros st4 targetData _ Hn4 (-> & _).
    eapply wp_bind; [exact Hn4 | apply wp_getChannelData|].
    intros st5 resultData _ Hn5 (-> & Hout).
    eapply wp_bind; [exact Hn5 | apply wp_getChannelData|].
    intros st6 envelopeData _ Hn6 (-> & _).
    eapply wp_bind; [exact Hn6 | apply wp_readArray|].
    intros st7 target _ Hn7 (-> & _).
    eapply wp_bind; [exact Hn7 | apply wp_readArray|].
    intros st8 envelope _ Hn8 (-> & _).
    apply wp_modifyArray; [eapply fresh_lookup; eassumption|].
    intros xs. apply multiplyInto_length.
  - intros st3 [] Hg3 Hn3 _. apply wp_ret. split; [|exact Hfresh].
    eapply valid_grows; eassumption.
Qed.

Lemma applyAmplitudeMapping_frame n sourceBuffer targetBuffer st :
  (n <= length (heap st))%nat →
  wp n (applyAmplitudeMapping audio sourceBuffer targetBuffer) st
    (fun st' result => valid audio st' result).
Proof.
  intros Hn. unfold applyAmplitudeMapping.
  eapply wp_bind; [exact Hn | apply getAmplitudeEnvelope_frame, Hn|].
  intros st1 envelope _ Hn1 _.
  eapply wp_conseq; [apply applyEnvelopeToBuffer_frame, Hn1|].
  intros st2 result _ [H _]. exact H.
Qed.

Lemma applyRhythmicGating_frame n sourceBuffer targetBuffer params st :
  (n <= length (heap st))%nat →
  wp n (applyRhythmicGating audio sourceBuffer targetBuffer params) st
    (fun st' result => valid audio st' result).
Proof.
  intros Hn. unfold applyRhythmicGating.
  eapply wp_bind; [exact Hn | apply getAmplitudeEnvelope_frame, Hn|].
  intros st1 envelope _ Hn1 _.
  eapply wp_bind; [exact Hn1 | apply wp_newOfflineAudioContext|].
  intros st2 ctx _ Hn2 (-> & _).
  eapply wp_bind; [exact Hn2 | apply wp_createBuffer, Hn2|].
  intros st3 gateBuffer _ Hn3 (_ & Hfresh & _).
  eapply wp_bind; [exact Hn3 | apply wp_forEach; [exact Hn3|] |].
  - intros c st4 _ Hn4.
    eapply wp_bind; [exact Hn4 | apply wp_getChannelData|].
    intros st5 envelopeData _ Hn5 (-> & _).
    eapply wp_bind; [exact Hn5 | apply wp_getChannelData|].
    intros st6 gateData _ Hn6 (-> & Hout).
    eapply wp_bind; [exact Hn6 | apply wp_readArray|].
    intros st7 env _ Hn7 (-> & _).
    apply wp_modifyArray; [eapply fresh_lookup; eassumption|].
    intros xs. apply gateInto_length.
  - intros st4 [] _ Hn4 _.
    eapply wp_conseq; [apply applyEnvelopeToBuffer_frame, Hn4|].
    intros st5 result _ [H _]. exact H.
Qed.
End OperatorFrames.

(** *** The loops over local arrays keep the length of the array they fill *)

Ltac fold_keeps_length init :=
  apply (fold_left_invariant (fun l : list Q => length l = length init)); [reflexivity|];
  let l := fresh "l" in let i := fresh "i" in let H := fresh "H" in
  intros l i _ H; rewrite length_insert; exact H.

Lemma setFrom_length source dest : length (setFrom source dest) = length dest.
Proof. unfold setFrom. fold_keeps_length dest. Qed.

Lemma insertBy_length {A} (after : A → A → bool) x l :
  length (insertBy after x l) = S (length l).
Proof.
  induction l as [|y l IH]; [reflexivity|]. cbn. destruct (after x y); cbn; [|reflexivity].
  rewrite IH. reflexivity.
Qed.

Lemma sortBy_length {A} (after : A → A → bool) l : length (sortBy after l) = length l.
Proof.
  induction l as [|x l IH]; [reflexivity|]. cbn. rewrite insertBy_length.
  unfold sortBy in IH. rewrite IH. reflexivity.
Qed.

Lemma sortAscending_length xs : length (sortAscending xs) = length xs.
Proof. apply sortBy_length. Qed.

Lemma ringModLoop_length host base range mix sr frames env target phase result :
  length (snd (ringModLoop host base range mix sr frames env target (phase, result)))
  = length result.
Proof.
  unfold ringModLoop.
  apply (fold_left_invariant (fun p : Q * list Q => length (snd p) = length result));
    [reflexivity|].
  intros [ph res] i _ H. cbn in *. rewrite length_insert. exact H.
Qed.

Section LoopLengths.
Context (host : MathHost).

Lemma hannWindow_length w : length (hannWindow host w) = length w.
Proof. unfold hannWindow. fold_keeps_length w. Qed.

Lemma windowedFrame_length data w i frame : length (windowedFrame data w i frame) = length frame.
Proof. unfold windowedFrame. fold_keeps_length frame. Qed.

Lemma maskReal_length sRe sIm tRe tIm f : length (maskReal host sRe sIm tRe tIm f) = length f.
Proof. unfold maskReal. fold_keeps_length f. Qed.

Lemma maskImag_length sRe sIm tRe tIm f : length (maskImag host sRe sIm tRe tIm f) = length f.
Proof. unfold maskImag. fold_keeps_length f. Qed.

Lemma overlapAdd_length newReal w i res : length (overlapAdd newReal w i res) = length res.
Proof. unfold overlapAdd. fold_keeps_length res. Qed.
End LoopLengths.

Section MoreOperatorFrames.
Context (host : MathHost) (audio : AudioHost).

Lemma applySpectralShaping_frame n sourceBuffer targetBuffer params st :
  (n <= length (heap st))%nat →
  wp n (applySpectralShaping audio sourceBuffer targetBuffer params) st
    (fun st' result => valid audio st' result).
Proof.
  intros Hn. unfold applySpectralShaping.
  eapply wp_bind; [exact Hn | apply wp_newOfflineAudioContext|].
  intros st1 ctx _ Hn1 (-> & Hshape & _).
  eapply wp_bind; [exact Hn1 | apply wp_acquire|].
  intros st2 source _ Hn2 ->.
  eapply wp_bind; [exact Hn2 | apply wp_acquire|].
  intros st3 target _ Hn3 ->.
  eapply wp_conseq; [apply wp_startRendering; [exact Hn3 | exact Hshape]|].
  intros st4 result _ [H _]. exact H.
Qed.

Lemma trimSilence_frame n buffer threshold st :
  (n <= length (heap st))%nat → valid audio st buffer →
  wp n (trimSilence audio buffer threshold) st (fun st' result => valid audio st' result).
Proof.
  intros Hn Hv. unfold trimSilence.
  eapply wp_bind; [exact Hn | apply wp_getChannelData|].
  intros st1 data _ Hn1 (-> & _).
  eapply wp_bind; [exact Hn1 | apply wp_readArray|].
  intros st2 dataNow _ Hn2 (-> & _).
  destruct (firstLoudSample threshold dataNow =? 0)%nat; [apply wp_ret, Hv|].
  eapply wp_bind; [exact Hn2 | apply wp_createBuffer, Hn2|].
  intros st3 newBuffer _ Hn3 (Hvalid & Hfresh & _).
  eapply wp_bind; [exact Hn3 | apply wp_forEach; [exact Hn3|] |].
  - intros i st4 _ Hn4.
    eapply wp_bind; [exact Hn4 | apply wp_getChannelData|].
    intros st5 channel_ _ Hn5 (-> & _).
    eapply wp_bind; [exact Hn5 | apply wp_readArray|].
    intros st6 channelNow _ Hn6 (-> & _).
    eapply wp_bind; [exact Hn6 | apply wp_allocArray, Hn6|].
    intros st7 sliced _ Hn7 _.
    eapply wp_bind; [exact Hn7 | apply wp_readArray|].
    intros st8 slicedNow _ Hn8 (-> & _).
    eapply wp_bind; [exact Hn8 | apply wp_getChannelData|].
    intros st9 dest _ Hn9 (-> & Hdest).
    apply wp_modifyArray; [eapply fresh_lookup; eassumption|].
    intros xs. apply setFrom_length.
  - intros st4 [] Hg4 Hn4 _. apply wp_ret. eapply valid_grows; eassumption.
Qed.

Lemma applyConvolution_frame n sourceBuffer targetBuffer st :
  (n <= length (heap st))%nat →
  wp n (applyConvolution audio sourceBuffer targetBuffer) st
    (fun st' result => valid audio st' result).
Proof.
  intros Hn. unfold applyConvolution.
  eapply wp_bind; [exact Hn | apply wp_newOfflineAudioContext|].
  intros st1 ctx _ Hn1 (-> & Hshape & _).
  eapply wp_bind; [exact Hn1 | apply wp_acquire|].
  intros st2 target _ Hn2 ->.
  eapply wp_bind; [exact Hn2 | apply wp_setConvolverBuffer|].
  intros st3 impulse _ Hn3 ->.
  eapply wp_bind; [exact Hn3 | apply wp_startRendering; [exact Hn3 | exact Hshape]|].
  intros st4 rendered _ Hn4 [Hvalid _].
  apply trimSilence_frame; assumption.
Qed.

Lemma detectTransients_frame n buffer threshold minSeparationMs st :
  wp n (detectTransients host buffer threshold minSeparationMs) st (fun st' _ => st' = st).
Proof.
  unfold detectTransients, wp, bind, getChannelData.
  destruct (channelData buffer !! 0%nat) as [r|]; cbn.
  - destruct (pickTransients _ _ _). cbn. split; [apply grows_refl | reflexivity].
  - split; [apply grows_refl | exact I].
Qed.

Lemma applyTimeScaleWarping_frame n sourceBuffer targetBuffer params st :
  (n <= length (heap st))%nat → valid audio st targetBuffer →
  wp n (applyTimeScaleWarping host audio sourceBuffer targetBuffer params) st
    (fun st' result => valid audio st' result).
Proof.
  intros Hn Hv. unfold applyTimeScaleWarping.
  eapply wp_bind; [exact Hn | apply detectTransients_frame|].
  intros st1 sourceTransients _ Hn1 ->.
  eapply wp_bind; [exact Hn1 | apply detectTransients_frame|].
  intros st2 targetTransients _ Hn2 ->.
  destruct (_ <=? 0)%Z; [apply wp_ret, Hv|].
  eapply wp_bind; [exact Hn2 | apply wp_newOfflineAudioContext|].
  intros st3 ctx _ Hn3 (-> & Hshape & _).
  eapply wp_bind; [exact Hn3 | apply wp_acquire|].
  intros st4 target _ Hn4 ->.
  eapply wp_conseq; [apply wp_startRendering; [exact Hn4 | exact Hshape]|].
  intros st5 result _ [H _]. exact H.
Qed.

Lemma applySurfaceTranslationMapping_frame n sourceBuffer targetBuffer params st :
  (n <= length (heap st))%nat →
  wp n (applySurfaceTranslationMapping host audio sourceBuffer targetBuffer params) st
    (fun st' result => valid audio st' result).
Proof.
  intros Hn. unfold applySurfaceTranslationMapping.
  eapply wp_bind; [exact Hn | apply wp_getChannelData|].
  intros st1 sourceData _ Hn1 (-> & _).
  eapply wp_bind; [exact Hn1 | apply wp_getChannelData|].
  intros st2 targetData _ Hn2 (-> & _).
  eapply wp_bind; [exact Hn2 | apply wp_readArray|].
  intros st3 targetNow _ Hn3 (-> & _).
  eapply wp_bind; [exact Hn3 | apply wp_allocArray, Hn3|].
  intros st4 sortedTargetData _ Hn4 (Hsorted & _).
  eapply wp_bind; [exact Hn4 | apply wp_modifyArray; [exact Hsorted | apply sortAscending_length]|].
  intros st5 [] _ Hn5 _.
  eapply wp_bind; [exact Hn5 | apply wp_createBuffer, Hn5|].
  intros st6 resultBuffer _ Hn6 (Hvalid & Hfresh & _).
  eapply wp_bind; [exact Hn6 | apply wp_getChannelData|].
  intros st7 resultData _ Hn7 (-> & Hres).
  eapply wp_bind; [exact Hn7 | apply wp_readArray|].
  intros st8 source _ Hn8 (-> & _).
  eapply wp_bind; [exact Hn8 | apply wp_readArray|].
  intros st9 sorted _ Hn9 (-> & _).
  eapply wp_bind; [exact Hn9 | apply wp_drawRandoms|].
  intros st10 calls Hg10 Hn10 _.
  eapply wp_bind; [exact Hn10 | apply wp_modifyArray|].
  - eapply fresh_lookup; eassumption.
  - intros xs. apply surfaceLoop_length.
  - intros st11 [] Hg11 Hn11 _. apply wp_ret.
    eapply valid_grows; [|exact Hg11]. eapply valid_grows; eassumption.
Qed.
End MoreOperatorFrames.

Section SpectralOperatorFrames.
Context (host : MathHost) (audio : AudioHost).

Lemma applyFourierMasking_frame n sourceBuffer targetBuffer st :
  (n <= length (heap st))%nat →
  wp n (applyFourierMasking host audio sourceBuffer targetBuffer) st
    (fun st' result => valid audio st' result).
Proof.
  intros Hn. unfold applyFourierMasking.
  eapply wp_bind; [exact Hn | apply wp_getFFT|].
  intros st1 fft _ Hn1 _.
  eapply wp_bind; [exact Hn1 | apply wp_createBuffer, Hn1|].
  intros st2 resultBuffer _ Hn2 (Hvalid & Hfresh & _).
  eapply wp_bind; [exact Hn2 | apply wp_getChannelData|].
  intros st3 resultData _ Hn3 (-> & Hres).
  eapply wp_bind; [exact Hn3 | apply wp_getChannelData|].
  intros st4 sourceData _ Hn4 (-> & _).
  eapply wp_bind; [exact Hn4 | apply wp_getChannelData|].
  intros st5 targetData _ Hn5 (-> & _).
  eapply wp_bind; [exact Hn5 | apply wp_newFloat32Array, Hn5|].
  intros st6 fftWindow Hg6 Hn6 (Hwin & _).
  eapply wp_bind; [exact Hn6 | apply wp_modifyArray; [exact Hwin | apply hannWindow_length]|].
  intros st7 [] Hg7 Hn7 _.
  eapply wp_bind; [exact Hn7 | apply wp_forEach; [exact Hn7|] |].
  - intros i st8 _ Hn8.
    eapply wp_bind; [exact Hn8 | apply wp_newFloat32Array, Hn8|].
    intros st9 sourceReal _ Hn9 (HsR & _).
    eapply wp_bind; [exact Hn9 | apply wp_newFloat32Array, Hn9|].
    intros st10 targetReal _ Hn10 (HtR & _).
    eapply wp_bind; [exact Hn10 | apply wp_readArray|].
    intros st11 source _ Hn11 (-> & _).
    eapply wp_bind; [exact Hn11 | apply wp_readArray|].
    intros st12 target _ Hn12 (-> & _).
    eapply wp_bind; [exact Hn12 | apply wp_readArray|].
    intros st13 window _ Hn13 (-> & _).
    eapply wp_bind;
      [exact Hn13 | apply wp_modifyArray; [exact HsR | intros; apply windowedFrame_length]|].
    intros st14 [] _ Hn14 _.
    eapply wp_bind;
      [exact Hn14 | apply wp_modifyArray; [exact HtR | intros; apply windowedFrame_length]|].
    intros st15 [] _ Hn15 _.
    eapply wp_bind; [exact Hn15 | apply wp_newFloat32Array, Hn15|].
    intros st16 sourceImag _ Hn16 (HsI & _).
    eapply wp_bind; [exact Hn16 | apply wp_newFloat32Array, Hn16|].
    intros st17 targetImag _ Hn17 (HtI & _).
    eapply wp_bind; [exact Hn17 | apply wp_fft_call; assumption|].
    intros st18 [] _ Hn18 _.
    eapply wp_bind; [exact Hn18 | apply wp_fft_call; assumption|].
    intros st19 [] _ Hn19 _.
    eapply wp_bind; [exact Hn19 | apply wp_newFloat32Array, Hn19|].
    intros st20 newReal _ Hn20 (HnR & _).
    eapply wp_bind; [exact Hn20 | apply wp_newFloat32Array, Hn20|].
    intros st21 newImag _ Hn21 (HnI & _).
    eapply wp_bind; [exact Hn21 | apply wp_readArray|].
    intros st22 sRe _ Hn22 (-> & _).
    eapply wp_bind; [exact Hn22 | apply wp_readArray|].
    intros st23 sIm _ Hn23 (-> & _).
    eapply wp_bind; [exact Hn23 | apply wp_readArray|].
    intros st24 tRe _ Hn24 (-> & _).
    eapply wp_bind; [exact Hn24 | apply wp_readArray|].
    intros st25 tIm _ Hn25 (-> & _).
    eapply wp_bind;
      [exact Hn25 | apply wp_modifyArray; [exact HnR | intros; apply maskReal_length]|].
    intros st26 [] _ Hn26 _.
    eapply wp_bind;
      [exact Hn26 | apply wp_modifyArray; [exact HnI | intros; apply maskImag_length]|].
    intros st27 [] _ Hn27 _.
    eapply wp_bind; [exact Hn27 | apply wp_fft_call; assumption|].
    intros st28 [] _ Hn28 _.
    eapply wp_bind; [exact Hn28 | apply wp_readArray|].
    intros st29 nRe _ Hn29 (-> & _).
    apply wp_modifyArray; [eapply fresh_lookup; eassumption|].
    intros xs. apply overlapAdd_length.
  - intros st8 [] Hg8 Hn8 _. apply wp_ret.
    eapply valid_grows; [|exact Hg8]. eapply valid_grows; [|exact Hg7].
    eapply valid_grows; eassumption.
Qed.

Lemma spectrumOfChannel0_frame n buffer st :
  (n <= length (heap st))%nat →
  wp n (spectrumOfChannel0 host buffer) st (fun _ _ => True).
Proof.
  intros Hn. unfold spectrumOfChannel0.
  eapply wp_bind; [exact Hn | apply wp_getFFT|].
  intros st1 fft _ Hn1 _.
  eapply wp_bind; [exact Hn1 | apply wp_getChannelData|].
  intros st2 data _ Hn2 (-> & _).
  eapply wp_bind; [exact Hn2 | apply wp_readArray|].
  intros st3 dataNow _ Hn3 (-> & _).
  eapply wp_bind with (P := fun _ _ => True); [exact Hn3 | |].
  { destruct (_ <? _)%nat.
    - eapply wp_conseq; [apply wp_allocArray, Hn3 | intros; exact I].
    - apply wp_ret. exact I. }
  intros st4 chunk _ Hn4 _.
  eapply wp_bind; [exact Hn4 | apply wp_newFloat32Array, Hn4|].
  intros st5 real _ Hn5 (Hreal & _).
  eapply wp_bind; [exact Hn5 | apply wp_readArray|].
  intros st6 chunkNow _ Hn6 (-> & _).
  eapply wp_bind; [exact Hn6 | apply wp_modifyArray; [exact Hreal | intros; apply setFrom_length]|].
  intros st7 [] _ Hn7 _.
  eapply wp_bind; [exact Hn7 | apply wp_newFloat32Array, Hn7|].
  intros st8 imag _ Hn8 (Himag & _).
  eapply wp_bind; [exact Hn8 | apply wp_fft_call; assumption|].
  intros st9 [] _ Hn9 _.
  eapply wp_bind; [exact Hn9 | apply wp_readArray|].
  intros st10 re _ Hn10 (-> & _).
  eapply wp_bind; [exact Hn10 | apply wp_readArray|].
  intros st11 im _ Hn11 (-> & _).
  apply wp_ret. exact I.
Qed.

Lemma detectHarmonics_frame n buffer numHarmonics rate st :
  (n <= length (heap st))%nat →
  wp n (detectHarmonics host buffer numHarmonics rate) st (fun _ _ => True).
Proof.
  intros Hn. unfold detectHarmonics.
  eapply wp_bind; [exact Hn | apply spectrumOfChannel0_frame, Hn|].
  intros st1 [re im] _ _ _. apply wp_ret. exact I.
Qed.

Lemma detectFormants_frame n buffer numFormants rate st :
  (n <= length (heap st))%nat →
  wp n (detectFormants host buffer numFormants rate) st (fun _ _ => True).
Proof.
  intros Hn. unfold detectFormants.
  eapply wp_bind; [exact Hn | apply spectrumOfChannel0_frame, Hn|].
  intros st1 [re im] _ _ _. apply wp_ret. exact I.
Qed.

Lemma applyHarmonicImprinting_frame n sourceBuffer targetBuffer params st :
  (n <= length (heap st))%nat → valid audio st targetBuffer →
  wp n (applyHarmonicImprinting host audio sourceBuffer targetBuffer params) st
    (fun st' result => valid audio st' result).
Proof.
  intros Hn Hv. unfold applyHarmonicImprinting.
  eapply wp_bind; [exact Hn | apply detectHarmonics_frame, Hn|].
  intros st1 harmonics Hg1 Hn1 _.
  destruct (_ =? 0)%nat; [apply wp_ret; eapply valid_grows; eassumption|].
  eapply wp_bind; [exact Hn1 | apply wp_newOfflineAudioContext|].
  intros st2 ctx _ Hn2 (-> & Hshape & _).
  eapply wp_bind; [exact Hn2 | apply wp_acquire|].
  intros st3 target _ Hn3 ->.
  eapply wp_conseq; [apply wp_startRendering; [exact Hn3 | exact Hshape]|].
  intros st4 result _ [H _]. exact H.
Qed.

Lemma applyFormantShifting_frame n sourceBuffer targetBuffer params st :
  (n <= length (heap st))%nat → valid audio st targetBuffer →
  wp n (applyFormantShifting host audio sourceBuffer targetBuffer params) st
    (fun st' result => valid audio st' result).
Proof.
  intros Hn Hv. unfold applyFormantShifting.
  eapply wp_bind; [exact Hn | apply detectFormants_frame, Hn|].
  intros st1 formants Hg1 Hn1 _.
  destruct (_ =? 0)%nat; [apply wp_ret; eapply valid_grows; eassumption|].
  eapply wp_bind; [exact Hn1 | apply wp_newOfflineAudioContext|].
  intros st2 ctx _ Hn2 (-> & Hshape & _).
  eapply wp_bind; [exact Hn2 | apply wp_acquire|].
  intros st3 target _ Hn3 ->.
  eapply wp_conseq; [apply wp_startRendering; [exact Hn3 | exact Hshape]|].
  intros st4 result _ [H _]. exact H.
Qed.

Lemma applyInterferenceEchoes_frame n sourceBuffer targetBuffer params st :
  (n <= length (heap st))%nat → valid audio st targetBuffer →
  wp n (applyInterferenceEchoes host audio sourceBuffer targetBuffer params) st
    (fun st' result => valid audio st' result).
Proof.
  intros Hn Hv. unfold applyInterferenceEchoes.
  eapply wp_bind; [exact Hn | apply wp_newOfflineAudioContext|].
  intros st1 ctx _ Hn1 (-> & Hshape & _).
  eapply wp_bind; [exact Hn1 | apply detectTransients_frame|].
  intros st2 sourceTransients _ Hn2 ->.
  destruct (_ <=? 1)%nat; [apply wp_ret, Hv|].
  eapply wp_bind; [exact Hn2 | apply wp_acquire|].
  intros st3 target _ Hn3 ->.
  eapply wp_conseq; [apply wp_startRendering; [exact Hn3 | exact Hshape]|].
  intros st4 result _ [H _]. exact H.
Qed.

Lemma applyDynamicRingModulation_frame n sourceBuffer targetBuffer params st :
  (n <= length (heap st))%nat →
  wp n (applyDynamicRingModulation host audio sourceBuffer targetBuffer params) st
    (fun st' result => valid audio st' result).
Proof.
  intros Hn. unfold applyDynamicRingModulation.
  eapply wp_bind; [exact Hn | apply getAmplitudeEnvelope_frame, Hn|].
  intros st1 sourceEnvelope _ Hn1 _.
  eapply wp_bind; [exact Hn1 | apply wp_newOfflineAudioContext|].
  intros st2 ctx _ Hn2 (-> & _).
  eapply wp_bind; [exact Hn2 | apply wp_getChannelData|].
  intros st3 sourceEnvData _ Hn3 (-> & _).
  eapply wp_bind; [exact Hn3 | apply wp_createBuffer, Hn3|].
  intros st4 resultBuffer _ Hn4 (Hvalid & Hfresh & _).
  eapply wp_bind; [exact Hn4 | apply wp_foldM; [exact Hn4|] |].
  - intros phase c st5 _ Hn5.
    eapply wp_bind; [exact Hn5 | apply wp_getChannelData|].
    intros st6 targetData _ Hn6 (-> & _).
    eapply wp_bind; [exact Hn6 | apply wp_getChannelData|].
    intros st7 resultData _ Hn7 (-> & Hres).
    eapply wp_bind; [exact Hn7 | apply wp_readArray|].
    intros st8 envelope _ Hn8 (-> & _).
    eapply wp_bind; [exact Hn8 | apply wp_readArray|].
    intros st9 target _ Hn9 (-> & _).
    eapply wp_bind; [exact Hn9 | apply wp_readArray|].
    intros st10 result _ Hn10 (-> & ->).
    match goal with |- context [ringModLoop ?h ?b ?r ?m ?sr ?f ?e ?t (?ph, ?res)] =>
      pose proof (ringModLoop_length h b r m sr f e t ph res) as Hlen;
      destruct (ringModLoop h b r m sr f e t (ph, res)) as [phase' result'] end.
    cbn in Hlen.
    eapply wp_bind;
      [exact Hn10 | apply wp_writeArray; [eapply fresh_lookup; eassumption | exact Hlen]|].
    intros st11 [] _ _ _. apply wp_ret. exact I.
  - intros st5 s Hg5 Hn5 _. apply wp_ret. eapply valid_grows; eassumption.
Qed.
End SpectralOperatorFrames.

Section MorphFrames.
Context (host : MathHost) (audio : AudioHost).

Lemma run_frame n sourceBuffer targetBuffer params type st :
  (n <= length (heap st))%nat → valid audio st targetBuffer →
  wp n (run host audio sourceBuffer targetBuffer params type) st
    (fun st' result => valid audio st' result).
Proof.
  intros Hn Hv. destruct type; cbn [run].
  - apply applyAmplitudeMapping_frame, Hn.
  - apply applySpectralShaping_frame, Hn.
  - apply applyRhythmicGating_frame, Hn.
  - apply applyConvolution_frame, Hn.
  - apply applyTimeScaleWarping_frame; assumption.
  - apply applySurfaceTranslationMapping_frame, Hn.
  - apply applyFourierMasking_frame, Hn.
  - apply applyHarmonicImprinting_frame; assumption.
  - apply applyInterferenceEchoes_frame; assumption.
  - apply applyFormantShifting_frame; assumption.
  - apply applyDynamicRingModulation_frame, Hn.
  - apply wp_throw.
Qed.

Lemma crossfade_frame n resultA resultB params st :
  (n <= length (heap st))%nat →
  wp n (crossfade audio resultA resultB params) st
    (fun st' result => valid audio st' result).
Proof.
  intros Hn. unfold crossfade.
  eapply wp_bind; [exact Hn | apply wp_newOfflineAudioContext|].
  intros st1 ctx _ Hn1 (-> & Hshape & _).
  eapply wp_bind; [exact Hn1 | apply wp_acquire|].
  intros st2 dataA _ Hn2 ->.
  eapply wp_bind; [exact Hn2 | apply wp_acquire|].
  intros st3 dataB _ Hn3 ->.
  eapply wp_conseq; [apply wp_startRendering; [exact Hn3 | exact Hshape]|].
  intros st4 result _ [H _]. exact H.
Qed.

Lemma applyTransformationMorph_frame n sourceBuffer targetBuffer transformA transformB params st :
  (n <= length (heap st))%nat → valid audio st targetBuffer →
  wp n (applyTransformationMorph host audio sourceBuffer targetBuffer transformA transformB
          params) st
    (fun st' result => valid audio st' result).
Proof.
  intros Hn Hv. unfold applyTransformationMorph.
  eapply wp_bind; [exact Hn | apply wp_attempt, run_frame; assumption|].
  intros st1 outcomeA Hg1 Hn1 _.
  assert (Hv1 : valid audio st1 targetBuffer) by (eapply valid_grows; eassumption).
  eapply wp_bind; [exact Hn1 | apply wp_attempt, run_frame; assumption|].
  intros st2 outcomeB _ Hn2 _.
  destruct outcomeA as [resultA|e]; [|apply wp_throw].
  destruct outcomeB as [resultB|e]; [|apply wp_throw].
  apply crossfade_frame, Hn2.
Qed.

Lemma preserved_inputsUnchanged st st' sourceBuffer targetBuffer :
  valid audio st sourceBuffer → valid audio st targetBuffer → preserved st st' →
  inputsUnchanged st st' sourceBuffer targetBuffer.
Proof.
  intros Hvs Hvt Hp. split; intros c Hc; eapply channel_preserved; eassumption.
Qed.

(** C10. Every transformation operator (the eleven operators that [run]
    dispatches to, and the morph of any two of them) leaves every array
    that existed before the call as it was, whether it returns or throws:
    it only writes to arrays it has allocated itself. In particular the
    samples of all channels of the source and of the target are the ones
    they were before the call. *)
Theorem operators_leave_inputs st sourceBuffer targetBuffer params :
  valid audio st sourceBuffer → valid audio st targetBuffer →
  (∀ type,
     let st' := fst (run host audio sourceBuffer targetBuffer params type st) in
     preserved st st' ∧ inputsUnchanged st st' sourceBuffer targetBuffer) ∧
  (∀ transformA transformB,
     let st' := fst (applyTransformationMorph host audio sourceBuffer targetBuffer
                       transformA transformB params st) in
     preserved st st' ∧ inputsUnchanged st st' sourceBuffer targetBuffer).
Proof.
  intros Hvs Hvt. split.
  - intros type st'.
    destruct (run_frame (length (heap st)) sourceBuffer targetBuffer params type st
                (Nat.le_refl _) Hvt) as [Hg _].
    apply grows_preserved in Hg. split; [exact Hg|].
    apply preserved_inputsUnchanged; assumption.
  - intros transformA transformB st'.
    destruct (applyTransformationMorph_frame (length (heap st)) sourceBuffer targetBuffer
                transformA transformB params st (Nat.le_refl _) Hvt) as [Hg _].
    apply grows_preserved in Hg. split; [exact Hg|].
    apply preserved_inputsUnchanged; assumption.
Qed.
End MorphFrames.

Lemma operators_leave_inputs_witness :
  let st := stateOf [[1 # 2; -1 # 4; 0]; [1; 1]; [0; 3]]%Q in
  let src := monoBuffer 3 0 in
  let tgt := {| numberOfChannels := 2; bufferLength := 2; sampleRate := 44100;
                channelData := [1; 2]%nat |} in
  valid exampleAudio st src ∧ valid exampleAudio st tgt ∧
  (∀ type,
     let st' := fst (run exampleMath exampleAudio src tgt noParams type st) in
     preserved st st' ∧ inputsUnchanged st st' src tgt) ∧
  (∀ transformA transformB,
     let st' := fst (applyTransformationMorph exampleMath exampleAudio src tgt
                       transformA transformB noParams st) in
     preserved st st' ∧ inputsUnchanged st st' src tgt).
Proof.
  intros st src tgt.
  assert (H1 : valid exampleAudio st src) by prove_valid.
  assert (H2 : valid exampleAudio st tgt) by prove_valid.
  split; [exact H1|]. split; [exact H2|].
  exact (operators_leave_inputs exampleMath exampleAudio st src tgt noParams H1 H2).
Defined.

(** ** The morph combinator *)

Section Morph.
Context (host : MathHost) (audio : AudioHost).

Lemma crossfade_spec resultA resultB params st :
  valid audio st resultA → valid audio st resultB →
  let ctx := {| ctxChannels := Nat.min (numberOfChannels resultA) (numberOfChannels resultB);
                ctxLength := Nat.max (bufferLength resultA) (bufferLength resultB);
                ctxSampleRate := sampleRate resultA |} in
  let position := default (5 # 10) (morphPosition params) in
  crossfade audio resultA resultB params st =
    (set_heap (heap st ++
               renderGainMix audio ctx
                 [((1 - position)%Q, snapshot st resultA); (position, snapshot st resultB)]) st,
     Ok {| numberOfChannels := ctxChannels ctx; bufferLength := ctxLength ctx;
           sampleRate := ctxSampleRate ctx;
           channelData := seq (length (heap st)) (ctxChannels ctx) |}).
Proof.
  intros HvA HvB ctx position. unfold crossfade.
  assert (Hshape : shapeRejected audio (ctxChannels ctx) (ctxLength ctx) (ctxSampleRate ctx)
                   = false).
  { destruct HvA as (_ & HA1 & HA2 & HA3 & _). destruct HvB as (_ & HB1 & HB2 & _).
    unfold shapeRejected. cbn. rewrite HA3.
    destruct (Nat.eqb_spec (Nat.min (numberOfChannels resultA) (numberOfChannels resultB)) 0);
      [lia|].
    destruct (Nat.eqb_spec (Nat.max (bufferLength resultA) (bufferLength resultB)) 0);
      [lia | reflexivity]. }
  erewrite bind_ok; [|apply newOfflineAudioContext_spec, Hshape].
  erewrite bind_ok; [|reflexivity].
  erewrite bind_ok; [|reflexivity].
  unfold startRendering.
  erewrite bind_ok; [|apply allocChannels_spec, renderGainMix_length]. reflexivity.
Qed.

(** a buffer played in a context of its own rate and channel count *)
Lemma playedSignal_same ctx st b :
  (dataRate (snapshot st b) == ctxSampleRate ctx)%Q →
  length (channelData b) = ctxChannels ctx →
  playedSignal audio ctx (snapshot st b) = contents st <$> channelData b.
Proof.
  intros Hrate Hch. unfold playedSignal.
  apply Qeq_bool_iff in Hrate. rewrite Hrate. cbn [dataChannels snapshot].
  rewrite length_fmap, Hch, Nat.eqb_refl. reflexivity.
Qed.

Lemma snapshot_channel st b c :
  (c < length (channelData b))%nat →
  nth c (contents st <$> channelData b) [] = channel st b c.
Proof.
  intros Hc. unfold channel.
  destruct (lookup_lt_is_Some_2 (channelData b) c Hc) as [r Hr].
  rewrite (nth_lookup_Some _ _ _ _ Hr).
  apply nth_lookup_Some. rewrite list_lookup_fmap, Hr. reflexivity.
Qed.
End Morph.

Section MorphEndpoints.
Context (host : MathHost) (audio : AudioHost).

Lemma run_result n sourceBuffer targetBuffer params type st st' result :
  (n <= length (heap st))%nat → valid audio st targetBuffer →
  run host audio sourceBuffer targetBuffer params type st = (st', Ok result) →
  grows n st st' ∧ valid audio st' result.
Proof.
  intros Hn Hv Hrun.
  pose proof (run_frame host audio n sourceBuffer targetBuffer params type st Hn Hv) as [Hg HQ].
  rewrite Hrun in Hg, HQ. cbn in Hg, HQ. split; assumption.
Qed.

(** C6 (as amended). When both operators return, the morph returns a
    buffer with the smaller of the two channel counts, the larger of the
    two lengths and the sample rate of the first result. At morph
    position 0, if the first result has no more channels than the second,
    the output is the first result followed by silence up to that length;
    at position 1, if the second result has no more channels than the
    first and the two sample rates agree, the output is the second result
    followed by silence. So the output equals the result of the operator
    alone exactly when, in addition, that result is the longer one. *)
Theorem morph_endpoints st sourceBuffer targetBuffer transformA transformB params
    stA resultA stB resultB :
  valid audio st sourceBuffer → valid audio st targetBuffer →
  run host audio sourceBuffer targetBuffer params transformA st = (stA, Ok resultA) →
  run host audio sourceBuffer targetBuffer params transformB stA = (stB, Ok resultB) →
  ∃ st' result,
    applyTransformationMorph host audio sourceBuffer targetBuffer transformA transformB
      params st = (st', Ok result) ∧
    numberOfChannels result = Nat.min (numberOfChannels resultA) (numberOfChannels resultB) ∧
    bufferLength result = Nat.max (bufferLength resultA) (bufferLength resultB) ∧
    sampleRate result = sampleRate resultA ∧
    ((default (5 # 10) (morphPosition params) == 0)%Q →
     (numberOfChannels resultA <= numberOfChannels resultB)%nat →
     ∀ c i, (c < numberOfChannels result)%nat → (i < bufferLength result)%nat →
       (sample st' result c i ==
          if decide (i < bufferLength resultA)%nat then sample stA resultA c i else 0)%Q) ∧
    ((default (5 # 10) (morphPosition params) == 1)%Q →
     (numberOfChannels resultB <= numberOfChannels resultA)%nat →
     (sampleRate resultB == sampleRate resultA)%Q →
     ∀ c i, (c < numberOfChannels result)%nat → (i < bufferLength result)%nat →
       (sample st' result c i ==
          if decide (i < bufferLength resultB)%nat then sample stB resultB c i else 0)%Q).
Proof.
  intros Hvs Hvt HrunA HrunB.
  destruct (run_result (length (heap st)) _ _ _ _ _ _ _ (Nat.le_refl _) Hvt HrunA)
    as [HgA HvA].
  assert (HvtA : valid audio stA targetBuffer) by (eapply valid_grows; eassumption).
  destruct (run_result (length (heap stA)) _ _ _ _ _ _ _ (Nat.le_refl _) HvtA HrunB)
    as [HgB HvB].
  apply grows_preserved in HgB.
  assert (HvAB : valid audio stB resultA) by (eapply valid_preserved; eassumption).
  set (position := default (5 # 10) (morphPosition params)).
  set (ctx := {| ctxChannels := Nat.min (numberOfChannels resultA) (numberOfChannels resultB);
                 ctxLength := Nat.max (bufferLength resultA) (bufferLength resultB);
                 ctxSampleRate := sampleRate resultA |}).
  set (inputs := [((1 - position)%Q, snapshot stB resultA); (position, snapshot stB resultB)]).
  exists (set_heap (heap stB ++ renderGainMix audio ctx inputs) stB).
  exists {| numberOfChannels := ctxChannels ctx; bufferLength := ctxLength ctx;
            sampleRate := ctxSampleRate ctx;
            channelData := seq (length (heap stB)) (ctxChannels ctx) |}.
  split.
  { unfold applyTransformationMorph.
    erewrite bind_ok; [|unfold attempt; rewrite HrunA; reflexivity].
    erewrite bind_ok; [|unfold attempt; rewrite HrunB; reflexivity].
    apply crossfade_spec; assumption. }
  split; [reflexivity|]. split; [reflexivity|]. split; [reflexivity|].
  assert (Hsample : ∀ c i,
            (c < Nat.min (numberOfChannels resultA) (numberOfChannels resultB))%nat →
            (i < Nat.max (bufferLength resultA) (bufferLength resultB))%nat →
            sample (set_heap (heap stB ++ renderGainMix audio ctx inputs) stB)
              {| numberOfChannels := ctxChannels ctx; bufferLength := ctxLength ctx;
                 sampleRate := ctxSampleRate ctx;
                 channelData := seq (length (heap stB)) (ctxChannels ctx) |} c i
            = gainMixSample audio ctx inputs c i).
  { intros c i Hc Hi. unfold sample. rewrite fresh_channel by exact Hc.
    unfold renderGainMix.
    erewrite (nth_lookup_Some _ c [] _).
    2:{ rewrite list_lookup_fmap, lookup_seq_lt by exact Hc. reflexivity. }
    unfold at_. apply nth_lookup_Some.
    rewrite list_lookup_fmap, lookup_seq_lt by exact Hi. reflexivity. }
  assert (HlenA : length (channelData resultA) = numberOfChannels resultA)
    by (destruct HvA as (H & _); exact H).
  assert (HlenB : length (channelData resultB) = numberOfChannels resultB)
    by (destruct HvB as (H & _); exact H).
  split.
  - intros Hpos Hch c i Hc Hi. cbn in Hc, Hi. rewrite (Hsample c i Hc Hi).
    unfold gainMixSample, inputs. cbn [fold_left].
    rewrite playedSignal_same; [|reflexivity | cbn; lia].
    rewrite snapshot_channel by lia.
    rewrite (channel_preserved audio stA stB resultA c HvA HgB) by lia.
    fold (sample stA resultA c i). rewrite Hpos.
    case_decide as Hi'.
    + ring.
    + unfold sample. rewrite at_overflow; [ring|].
      rewrite (valid_channel audio stA resultA c HvA) by lia. lia.
  - intros Hpos Hch Hrate c i Hc Hi. cbn in Hc, Hi. rewrite (Hsample c i Hc Hi).
    unfold gainMixSample, inputs. cbn [fold_left].
    rewrite (playedSignal_same audio ctx stB resultB); [|exact Hrate | cbn; lia].
    rewrite snapshot_channel by lia.
    fold (sample stB resultB c i). rewrite Hpos.
    case_decide as Hi'.
    + ring.
    + unfold sample. rewrite (at_overflow (channel stB resultB c)); [ring|].
      rewrite (valid_channel audio stB resultB c HvB) by lia. lia.
Qed.
End MorphEndpoints.

Lemma morph_endpoints_witness :
  let st := stateOf [[1 # 2; -1 # 4; 0]; [1; 1]]%Q in
  let src := monoBuffer 3 0 in
  let tgt := monoBuffer 2 1 in
  ∃ stA resultA stB resultB,
    valid exampleAudio st src ∧ valid exampleAudio st tgt ∧
    run exampleMath exampleAudio src tgt (morphAt 0) AMPLITUDE st = (stA, Ok resultA) ∧
    run exampleMath exampleAudio src tgt (morphAt 0) RHYTHMIC stA = (stB, Ok resultB) ∧
    ∃ st' result,
      applyTransformationMorph exampleMath exampleAudio src tgt AMPLITUDE RHYTHMIC
        (morphAt 0) st = (st', Ok result) ∧
      numberOfChannels result = Nat.min (numberOfChannels resultA) (numberOfChannels resultB) ∧
      bufferLength result = Nat.max (bufferLength resultA) (bufferLength resultB) ∧
      sampleRate result = sampleRate resultA ∧
      ((default (5 # 10) (morphPosition (morphAt 0)) == 0)%Q →
       (numberOfChannels resultA <= numberOfChannels resultB)%nat →
       ∀ c i, (c < numberOfChannels result)%nat → (i < bufferLength result)%nat →
         (sample st' result c i ==
            if decide (i < bufferLength resultA)%nat then sample stA resultA c i else 0)%Q) ∧
      ((default (5 # 10) (morphPosition (morphAt 0)) == 1)%Q →
       (numberOfChannels resultB <= numberOfChannels resultA)%nat →
       (sampleRate resultB == sampleRate resultA)%Q →
       ∀ c i, (c < numberOfChannels result)%nat → (i < bufferLength result)%nat →
         (sample st' result c i ==
            if decide (i < bufferLength resultB)%nat then sample stB resultB c i else 0)%Q).
Proof.
  intros st src tgt.
  assert (H1 : valid exampleAudio st src) by prove_valid.
  assert (H2 : valid exampleAudio st tgt) by prove_valid.
  destruct (applyAmplitudeMapping_result exampleAudio st src tgt H1 H2)
    as (stA & resultA & HrunA & HpA & _).
  assert (H1A : valid exampleAudio stA src) by (eapply valid_preserved; eassumption).
  assert (H2A : valid exampleAudio stA tgt) by (eapply valid_preserved; eassumption).
  destruct (applyRhythmicGating_result exampleAudio stA src tgt (morphAt 0) H1A H2A)
    as (stB & resultB & HrunB & _).
  exists stA, resultA, stB, resultB.
  split; [exact H1|]. split; [exact H2|]. split; [exact HrunA|]. split; [exact HrunB|].
  exact (morph_endpoints exampleMath exampleAudio st src tgt AMPLITUDE RHYTHMIC (morphAt 0)
           stA resultA stB resultB H1 H2 HrunA HrunB).
Defined.

(** C6 as stated fails: with a source of 3 frames and a target of 2
    frames, Amplitude Mapping alone returns 2 frames, while its morph at
    position 0 with Surface Translation (which returns 3 frames) returns 3
    frames. *)
Lemma morph_position0_is_longer :
  let st := stateOf [[1 # 2; -1 # 4; 0]; [1; 1]]%Q in
  let src := monoBuffer 3 0 in
  let tgt := monoBuffer 2 1 in
  valid exampleAudio st src ∧ valid exampleAudio st tgt ∧
  ∃ stA resultA st' result,
    run exampleMath exampleAudio src tgt (morphAt 0) AMPLITUDE st = (stA, Ok resultA) ∧
    applyTransformationMorph exampleMath exampleAudio src tgt AMPLITUDE SURFACE_TRANSLATE
      (morphAt 0) st = (st', Ok result) ∧
    bufferLength resultA = 2%nat ∧ length (channel stA resultA 0) = 2%nat ∧
    bufferLength result = 3%nat ∧ length (channel st' result 0) = 3%nat ∧
    bufferLength result ≠ bufferLength resultA.
Proof.
  intros st src tgt. split; [prove_valid|]. split; [prove_valid|].
  eexists _, _, _, _. split; [vm_compute; reflexivity|].
  split; [vm_compute; reflexivity|].
  split_and!; try reflexivity. cbn. lia.
Qed.

(** the store tells a sort of a copy from a sort in place: sorting the
    array of the target itself would change the target *)
Example sort_in_place_is_visible :
  let st := stateOf [[1; 0]]%Q in
  contents (fst (modifyArray 0 sortAscending st)) 0 = [0; 1]%Q ∧
  contents st 0 = [1; 0]%Q.
Proof. split; reflexivity. Qed.

(** ** The transform of [getFFT]

    The loops of the closure returned by [getFFT] (bit-reversal
    permutation, butterflies stage by stage, division by the size) are
    first described sample by sample; the stages are then shown to
    compute the recursive transform [dit] with the twiddle factors that
    the tables of the plan hold, whatever their values. *)

Global Instance Ceq_equiv : Equivalence Ceq.
Proof.
  split.
  - intros a; split; reflexivity.
  - intros a b [H1 H2]; split; symmetry; assumption.
  - intros a b c [H1 H2] [H3 H4]; split; etransitivity; eassumption.
Qed.

Global Instance Cadd_proper : Proper (Ceq ==> Ceq ==> Ceq) Cadd.
Proof. intros a b [H1 H2] c d [H3 H4]. split; cbn; rewrite ?H1, ?H2, ?H3, ?H4; reflexivity. Qed.
Global Instance Csub_proper : Proper (Ceq ==> Ceq ==> Ceq) Csub.
Proof. intros a b [H1 H2] c d [H3 H4]. split; cbn; rewrite ?H1, ?H2, ?H3, ?H4; reflexivity. Qed.
Global Instance Cmul_proper : Proper (Ceq ==> Ceq ==> Ceq) Cmul.
Proof. intros a b [H1 H2] c d [H3 H4]. split; cbn; rewrite ?H1, ?H2, ?H3, ?H4; reflexivity. Qed.
Global Instance Cscale_proper : Proper (Qeq ==> Ceq ==> Ceq) Cscale.
Proof. intros a b H c d [H3 H4]. split; cbn; rewrite ?H, ?H3, ?H4; reflexivity. Qed.

Ltac Cring := split; cbn [fst snd Cadd Csub Cmul Cscale]; ring.

Lemma pow2_pos s : (0 < 2 ^ s)%nat.
Proof. apply Nat.neq_0_lt_0, Nat.pow_nonzero. lia. Qed.

Lemma dit_ext e e' s : ∀ sigma f g k,
  (∀ n, Ceq (e n) (e' n)) → (∀ n, (n < 2 ^ s)%nat → Ceq (f n) (g n)) →
  Ceq (dit e s sigma f k) (dit e' s sigma g k).
Proof.
  induction s as [|s IH]; intros sigma f g k He H.
  - cbn. apply H. cbn. lia.
  - cbn [dit].
    assert (He1 : ∀ n, (n < 2 ^ s)%nat → Ceq (f (2 * n)%nat) (g (2 * n)%nat)).
    { intros n Hn. apply H. rewrite Nat.pow_succ_r'. lia. }
    assert (He2 : ∀ n, (n < 2 ^ s)%nat → Ceq (f (2 * n + 1)%nat) (g (2 * n + 1)%nat)).
    { intros n Hn. apply H. rewrite Nat.pow_succ_r'. lia. }
    destruct (k <? 2 ^ s)%nat.
    + rewrite (IH _ _ _ k He He1), (IH _ _ _ k He He2), (He (k * sigma)%nat). reflexivity.
    + rewrite (IH _ _ _ (k - 2 ^ s)%nat He He1), (IH _ _ _ (k - 2 ^ s)%nat He He2),
        (He ((k - 2 ^ s) * sigma)%nat). reflexivity.
Qed.

Lemma dit_scale e s : ∀ sigma c f k,
  Ceq (dit e s sigma (fun n => Cmul c (f n)) k) (Cmul c (dit e s sigma f k)).
Proof.
  induction s as [|s IH]; intros sigma c f k.
  - reflexivity.
  - cbn [dit]. destruct (_ <? _)%nat; rewrite !IH; Cring.
Qed.

Lemma even_double q : Nat.even (2 * q) = true.
Proof. rewrite Nat.even_mul. reflexivity. Qed.

Lemma even_double_succ q : Nat.even (2 * q + 1) = false.
Proof. rewrite Nat.add_1_r, Nat.even_succ, <- Nat.negb_even, even_double. reflexivity. Qed.

Lemma half_double q : (2 * q / 2 = q)%nat.
Proof. rewrite Nat.mul_comm. apply Nat.div_mul. lia. Qed.

Lemma half_double_succ q : ((2 * q + 1) / 2 = q)%nat.
Proof. symmetry. apply (Nat.div_unique _ _ _ 1%nat); lia. Qed.

Ltac same_index :=
  match goal with
  | |- Ceq ?a ?b => replace a with b; [reflexivity | repeat (f_equal; try lia)]
  end.

Lemma butterfly_length fft invert len i j n ri :
  bothLength n ri → bothLength n (butterfly fft invert len i j ri).
Proof.
  destruct ri as [re im]. intros [Hre Him]. unfold butterfly. split; cbn in *;
    rewrite !length_insert; assumption.
Qed.

Lemma butterfly_at fft invert len i j n ri a :
  bothLength n ri → (0 < len / 2)%nat → (i + j + len / 2 < n)%nat →
  cval (butterfly fft invert len i j ri) a =
    let t := twiddle fft invert (j * (Z.to_nat (plan_size fft) / len))%nat in
    let p := cval ri (i + j + len / 2)%nat in
    let u := cval ri (i + j)%nat in
    if decide (a = i + j)%nat then bfTop u p t
    else if decide (a = i + j + len / 2)%nat then bfBottom u p t
    else cval ri a.
Proof.
  destruct ri as [re im]. intros [Hre Him] Hhalf Hin. cbn in Hre, Him.
  unfold butterfly, cval, twiddle, bfTop, bfBottom. cbn [fst snd].
  rewrite !at_insert, !length_insert, Hre, Him.
  repeat case_decide; try lia; try reflexivity.
Qed.

(** the inner loop [for (j = 0; j < halfLen; j++)] of one block, after
    [J] rounds *)
Lemma block_at fft invert len i n ri J a :
  bothLength n ri → (0 < len / 2)%nat → (i + 2 * (len / 2) <= n)%nat → (J <= len / 2)%nat →
  let step := (Z.to_nat (plan_size fft) / len)%nat in
  let out := fold_left (fun ri j => butterfly fft invert len i j ri) (seq 0 J) ri in
  bothLength n out ∧
  cval out a =
    if decide (i <= a < i + J)%nat
    then bfTop (cval ri a) (cval ri (a + len / 2)%nat) (twiddle fft invert ((a - i) * step)%nat)
    else if decide (i + len / 2 <= a < i + len / 2 + J)%nat
    then bfBottom (cval ri (a - len / 2)%nat) (cval ri a)
           (twiddle fft invert ((a - len / 2 - i) * step)%nat)
    else cval ri a.
Proof.
  intros Hlen Hhalf Hin. revert a. induction J as [|J IH]; intros a HJ step out.
  - subst out. cbn. split; [exact Hlen|]. repeat case_decide; try lia; reflexivity.
  - subst out. rewrite seq_S, fold_left_app. cbn [fold_left Nat.add].
    set (cur := fold_left _ (seq 0 J) ri).
    assert (Hcur : bothLength n cur) by (apply (IH 0%nat); lia).
    split; [apply butterfly_length, Hcur|].
    rewrite (butterfly_at _ _ _ _ _ n) by (assumption || lia). cbn zeta.
    pose proof (λ a, proj2 (IH a ltac:(lia))) as Hat. cbn zeta in Hat. fold cur in Hat.
    rewrite !Hat. fold step.
    repeat case_decide; try lia; try reflexivity.
    + replace (a - i)%nat with J by lia. subst a. reflexivity.
    + subst a. replace (i + J + len / 2 - len / 2)%nat with (i + J)%nat by lia.
      replace (i + J - i)%nat with J by lia. reflexivity.
Qed.

Lemma countUp_from fuel len bound : ∀ i nblocks,
  (0 < len)%nat → (nblocks <= fuel)%nat → (bound = i + nblocks * len)%nat →
  countUp fuel i len bound = map (fun b => (i + b * len)%nat) (seq 0 nblocks).
Proof.
  induction fuel as [|fuel IH]; intros i nblocks Hlen Hf Hb.
  - assert (nblocks = 0)%nat as -> by lia. reflexivity.
  - cbn [countUp]. destruct nblocks as [|nblocks].
    + destruct (Nat.ltb_spec i bound); [lia | reflexivity].
    + destruct (Nat.ltb_spec i bound); [|lia].
      cbn [seq map]. f_equal; [lia|].
      rewrite (IH (i + len)%nat nblocks) by lia.
      rewrite <- seq_shift, map_map. apply map_ext. intros b. lia.
Qed.

Lemma block_index_lt b B len k : (b < B)%nat → (k < len)%nat → (b * len + k < B * len)%nat.
Proof. intros. nia. Qed.

Lemma stage_at fft invert len n nblocks ri :
  bothLength n ri → Z.to_nat (plan_size fft) = n → (n = nblocks * len)%nat →
  (0 < len / 2)%nat → (len = 2 * (len / 2))%nat →
  let step := (n / len)%nat in
  let out := cooleyTukeyStage fft invert len ri in
  bothLength n out ∧
  ∀ b k, (b < nblocks)%nat → (k < len)%nat →
    cval out (b * len + k)%nat =
      if decide (k < len / 2)%nat
      then bfTop (cval ri (b * len + k)%nat) (cval ri (b * len + k + len / 2)%nat)
             (twiddle fft invert (k * step)%nat)
      else bfBottom (cval ri (b * len + k - len / 2)%nat) (cval ri (b * len + k)%nat)
             (twiddle fft invert ((k - len / 2) * step)%nat).
Proof.
  intros Hlen Hsize Hn Hhalf Heven step out. subst out. unfold cooleyTukeyStage.
  rewrite Hsize.
  rewrite (countUp_from n len n 0 nblocks) by (try lia; nia).
  cbn [Nat.add].
  assert (Hinv : ∀ B, (B <= nblocks)%nat →
    let out := fold_left
      (fun ri i => fold_left (fun ri j => butterfly fft invert len i j ri) (seq 0 (len / 2)) ri)
      (map (fun b => (b * len)%nat) (seq 0 B)) ri in
    bothLength n out ∧
    ∀ b k, (k < len)%nat →
      cval out (b * len + k)%nat =
        if decide (b < B)%nat
        then if decide (k < len / 2)%nat
             then bfTop (cval ri (b * len + k)%nat) (cval ri (b * len + k + len / 2)%nat)
                    (twiddle fft invert (k * step)%nat)
             else bfBottom (cval ri (b * len + k - len / 2)%nat) (cval ri (b * len + k)%nat)
                    (twiddle fft invert ((k - len / 2) * step)%nat)
        else cval ri (b * len + k)%nat).
  { induction B as [|B IH]; intros HB out.
    - subst out. cbn. split; [exact Hlen|]. intros b k Hk. case_decide; [lia | reflexivity].
    - subst out. rewrite seq_S, map_app, fold_left_app. cbn [map fold_left Nat.add].
      destruct (IH ltac:(lia)) as [Hcur Hat]. set (cur := fold_left _ _ ri) in *.
      assert (Hblock : (B * len + 2 * (len / 2) <= n)%nat) by nia.
      split; [apply (block_at fft invert len (B * len) n cur (len / 2) 0); (assumption || lia)|].
      intros b k Hk.
      rewrite (proj2 (block_at fft invert len (B * len) n cur (len / 2) (b * len + k)
                  Hcur Hhalf Hblock (Nat.le_refl _))).
      rewrite Hsize. fold step.
      destruct (lt_eq_lt_dec b B) as [[Hlt | ->] | Hgt].
      + pose proof (block_index_lt b B len k Hlt Hk).
        rewrite Hat by exact Hk.
        repeat case_decide; try lia; reflexivity.
      + replace (B * len + k + len / 2)%nat with (B * len + (k + len / 2))%nat by lia.
        replace (B * len + k - len / 2 - B * len)%nat with (k - len / 2)%nat by lia.
        replace (B * len + k - B * len)%nat with k by lia.
        repeat case_decide; try lia.
        * rewrite !Hat by lia. repeat case_decide; try lia. reflexivity.
        * replace (B * len + k - len / 2)%nat with (B * len + (k - len / 2))%nat by lia.
          rewrite !Hat by lia. repeat case_decide; try lia. reflexivity.
      + assert (B * len + len <= b * len)%nat by nia.
        rewrite Hat by exact Hk.
        repeat case_decide; try lia; reflexivity. }
  destruct (Hinv nblocks (Nat.le_refl _)) as [Hout Hat].
  split; [exact Hout|]. intros b k Hb Hk. rewrite Hat by exact Hk.
  case_decide; [reflexivity | lia].
Qed.

Lemma swapAt_at xs i j a :
  (i < length xs)%nat → (j < length xs)%nat →
  at_ (swapAt xs i j) a =
    if decide (a = j) then at_ xs i else if decide (a = i) then at_ xs j else at_ xs a.
Proof.
  intros Hi Hj. unfold swapAt. rewrite !at_insert, !length_insert.
  repeat case_decide; try lia; try reflexivity; subst; reflexivity.
Qed.

Lemma bitReversalPermutation_at fft n ri :
  bothLength n ri → Z.to_nat (plan_size fft) = n →
  (∀ i, (i < n)%nat → (reversed fft i < n)%nat ∧ reversed fft (reversed fft i) = i) →
  let out := bitReversalPermutation fft ri in
  bothLength n out ∧ ∀ a, (a < n)%nat → cval out a = cval ri (reversed fft a).
Proof.
  intros Hlen Hsize Hrev out. subst out. unfold bitReversalPermutation. rewrite Hsize.
  assert (Hinv : ∀ I, (I <= n)%nat →
    let out := fold_left
      (fun '(real, imag) i =>
         let j := Z.to_nat (nth i (bitReverse fft) 0) in
         if (i <? j)%nat then (swapAt real i j, swapAt imag i j) else (real, imag))
      (seq 0 I) ri in
    bothLength n out ∧
    ∀ a, (a < n)%nat →
      cval out a = if decide (a < I ∨ reversed fft a < I)%nat
                   then cval ri (reversed fft a) else cval ri a).
  { induction I as [|I IH]; intros HI out.
    - subst out. cbn. split; [exact Hlen|]. intros a Ha. case_decide; [lia | reflexivity].
    - subst out. rewrite seq_S, fold_left_app. cbn [fold_left Nat.add].
      destruct (IH ltac:(lia)) as [Hcur Hat]. set (cur := fold_left _ _ ri) in *.
      destruct cur as [re im] eqn:Ecur. destruct Hcur as [Hre Him]. cbn in Hre, Him.
      fold (reversed fft I).
      destruct (Hrev I ltac:(lia)) as [HrI HrrI].
      destruct (Nat.ltb_spec I (reversed fft I)) as [Hlt | Hge].
      + split; [split; cbn; rewrite swapAt_length; assumption|].
        intros a Ha.
        assert (Hswap : cval (swapAt re I (reversed fft I), swapAt im I (reversed fft I)) a =
                  if decide (a = reversed fft I) then cval (re, im) I
                  else if decide (a = I) then cval (re, im) (reversed fft I)
                  else cval (re, im) a).
        { unfold cval. cbn [fst snd]. rewrite !swapAt_at by lia.
          repeat case_decide; reflexivity. }
        rewrite Hswap. destruct (Hrev a Ha) as [Hra Hrra].
        destruct (decide (a = reversed fft I)) as [-> | HaJ].
        { rewrite Hat by lia. rewrite HrrI.
          repeat case_decide; try lia; reflexivity. }
        destruct (decide (a = I)) as [-> | HaI].
        { rewrite Hat by lia. rewrite HrrI.
          repeat case_decide; try lia; reflexivity. }
        rewrite Hat by exact Ha.
        assert (reversed fft a ≠ I) by (intros E; rewrite <- E, Hrra in HaJ; lia).
        repeat case_decide; try lia; reflexivity.
      + split; [split; assumption|].
        intros a Ha. rewrite Hat by exact Ha. destruct (Hrev a Ha) as [Hra Hrra].
        destruct (decide (a = I)) as [-> | HaI].
        { repeat case_decide; try lia; try reflexivity.
          assert (reversed fft I = I) as -> by lia. reflexivity. }
        assert (reversed fft a = I → (a < I)%nat).
        { intros E. rewrite <- E, Hrra in Hge. lia. }
        repeat case_decide; try lia; reflexivity. }
  destruct (Hinv n (Nat.le_refl _)) as [Hout Hat].
  split; [exact Hout|]. intros a Ha. rewrite Hat by exact Ha.
  case_decide; [reflexivity | lia].
Qed.

Lemma bfTop_eq u p t : Ceq (bfTop u p t) (Cadd u (Cmul t p)).
Proof. split; cbn; ring. Qed.

Lemma bfBottom_eq u p t : Ceq (bfBottom u p t) (Csub u (Cmul t p)).
Proof. split; cbn; ring. Qed.

Lemma doublings_pow2 L : ∀ fuel a,
  (a <= L + 1)%nat → (L + 1 - a <= fuel)%nat →
  doublings fuel (2 ^ a) (2 ^ L) = map (fun s => (2 ^ s)%nat) (seq a (L + 1 - a)).
Proof.
  induction fuel as [|fuel IH]; intros a Ha Hf.
  - replace (L + 1 - a)%nat with 0%nat by lia. reflexivity.
  - cbn [doublings]. destruct (Nat.leb_spec (2 ^ a) (2 ^ L)) as [Hle | Hgt].
    + assert (a <= L)%nat by (apply (Nat.pow_le_mono_r_iff 2); [lia | exact Hle]).
      replace (L + 1 - a)%nat with (S (L + 1 - S a)) by lia. cbn [seq map]. f_equal.
      replace (2 ^ a * 2)%nat with (2 ^ S a)%nat by (rewrite Nat.pow_succ_r'; lia).
      apply IH; lia.
    + assert (L < a)%nat by (apply (Nat.pow_lt_mono_r_iff 2); [lia | exact Hgt]).
      replace (L + 1 - a)%nat with 0%nat by lia. reflexivity.
Qed.

Lemma bitrev_even w b : bitrev (S w) (2 * b) = bitrev w b.
Proof.
  cbn [bitrev]. rewrite half_double.
  replace ((2 * b) mod 2)%nat with 0%nat; [lia|].
  symmetry. rewrite Nat.mul_comm. apply Nat.Div0.mod_mul.
Qed.

Lemma bitrev_odd w b : bitrev (S w) (2 * b + 1) = (bitrev w b + 2 ^ w)%nat.
Proof.
  cbn [bitrev]. rewrite half_double_succ.
  replace ((2 * b + 1) mod 2)%nat with 1%nat; [lia|].
  apply (Nat.mod_unique _ _ b); lia.
Qed.

Global Instance bfTop_proper : Proper (Ceq ==> Ceq ==> Ceq ==> Ceq) bfTop.
Proof.
  intros a b [H1 H2] c d [H3 H4] t t' [H5 H6]. split; cbn;
    rewrite ?H1, ?H2, ?H3, ?H4, ?H5, ?H6; reflexivity.
Qed.

Global Instance bfBottom_proper : Proper (Ceq ==> Ceq ==> Ceq ==> Ceq) bfBottom.
Proof.
  intros a b [H1 H2] c d [H3 H4] t t' [H5 H6]. split; cbn;
    rewrite ?H1, ?H2, ?H3, ?H4, ?H5, ?H6; reflexivity.
Qed.

Lemma pow2_split S r : (2 ^ (S + r) = 2 ^ r * 2 ^ S)%nat.
Proof. rewrite Nat.pow_add_r. lia. Qed.

(** the stages of the loop [for (len = 2; len <= size; len <<= 1)] turn
    the bit-reversed input into the transform [dit] of the input *)
Lemma cooleyTukey_dit fft invert L e x ri0 :
  Z.to_nat (plan_size fft) = (2 ^ L)%nat → bothLength (2 ^ L) ri0 →
  (∀ k, (k < 2 ^ L)%nat → Ceq (twiddle fft invert k) (e k)) →
  (∀ b, (b < 2 ^ L)%nat → Ceq (cval ri0 b) (x (bitrev L b))) →
  let out := cooleyTukey fft invert ri0 in
  bothLength (2 ^ L) out ∧ ∀ k, (k < 2 ^ L)%nat → Ceq (cval out k) (dit e L 1 x k).
Proof.
  intros Hsize Hlen Htw Hin out. subst out. unfold cooleyTukey. rewrite Hsize.
  assert (HL : (L < 2 ^ L)%nat) by (apply Nat.pow_gt_lin_r; lia).
  change (doublings (2 ^ L) 2 (2 ^ L)) with (doublings (2 ^ L) (2 ^ 1) (2 ^ L)).
  rewrite (doublings_pow2 L (2 ^ L) 1) by lia.
  replace (L + 1 - 1)%nat with L by lia.
  assert (Hinv : ∀ S r, (S + r = L)%nat →
    let out := fold_left (fun ri len => cooleyTukeyStage fft invert len ri)
                 (map (fun s => (2 ^ s)%nat) (seq 1 S)) ri0 in
    bothLength (2 ^ L) out ∧
    ∀ b k, (b < 2 ^ r)%nat → (k < 2 ^ S)%nat →
      Ceq (cval out (b * 2 ^ S + k)%nat)
          (dit e S (2 ^ r) (fun n => x (bitrev r b + n * 2 ^ r)%nat) k)).
  { induction S as [|S IH]; intros r Hr out.
    - subst out. cbn [seq map fold_left dit]. split; [exact Hlen|].
      intros b k Hb Hk. cbn in Hk. assert (k = 0)%nat as -> by lia.
      replace (b * 2 ^ 0 + 0)%nat with b by (cbn; lia).
      replace (bitrev r b + 0 * 2 ^ r)%nat with (bitrev r b) by lia.
      cbn in Hr. subst r. apply Hin, Hb.
    - subst out. rewrite seq_S, map_app, fold_left_app. cbn [map fold_left].
      destruct (IH (Datatypes.S r) ltac:(lia)) as [Hcur Hat].
      set (cur := fold_left _ _ ri0) in *.
      replace (1 + S)%nat with (Datatypes.S S) by lia.
      pose proof (pow2_pos S) as HposS. pose proof (pow2_pos r) as Hposr.
      assert (HpowS : (2 ^ Datatypes.S S = 2 * 2 ^ S)%nat) by apply Nat.pow_succ_r'.
      assert (Hpowr : (2 ^ Datatypes.S r = 2 * 2 ^ r)%nat) by apply Nat.pow_succ_r'.
      assert (Hhalf : (2 ^ Datatypes.S S / 2 = 2 ^ S)%nat) by (rewrite HpowS; apply half_double).
      assert (Hn : (2 ^ L = 2 ^ r * 2 ^ Datatypes.S S)%nat) by (rewrite <- Hr; apply pow2_split).
      assert (Hstep : (2 ^ L / 2 ^ Datatypes.S S = 2 ^ r)%nat).
      { rewrite Hn. apply Nat.div_mul. lia. }
      destruct (stage_at fft invert (2 ^ Datatypes.S S) (2 ^ L) (2 ^ r) cur Hcur Hsize Hn
                  ltac:(lia) ltac:(lia)) as [Hout Hstage].
      split; [exact Hout|]. intros b k Hb Hk.
      rewrite (Hstage b k Hb Hk), Hhalf, Hstep.
      cbn [dit].
      replace (b * 2 ^ Datatypes.S S + k)%nat with ((2 * b) * 2 ^ S + k)%nat by lia.
      destruct (Nat.ltb_spec k (2 ^ S)) as [Hlt | Hge]; case_decide; try lia.
      + replace (2 * b * 2 ^ S + k + 2 ^ S)%nat with ((2 * b + 1) * 2 ^ S + k)%nat by lia.
        rewrite bfTop_eq, !Hat by lia.
        rewrite (Htw (k * 2 ^ r)%nat) by nia.
        apply Cadd_proper; [|apply Cmul_proper; [reflexivity|]];
          rewrite <- Hpowr; apply dit_ext; try reflexivity; intros n Hn'.
        * rewrite bitrev_even. same_index.
        * rewrite bitrev_odd. same_index.
      + replace (2 * b * 2 ^ S + k - 2 ^ S)%nat with ((2 * b) * 2 ^ S + (k - 2 ^ S))%nat by lia.
        replace (2 * b * 2 ^ S + k)%nat with ((2 * b + 1) * 2 ^ S + (k - 2 ^ S))%nat by lia.
        rewrite bfBottom_eq, !Hat by lia.
        rewrite (Htw ((k - 2 ^ S) * 2 ^ r)%nat) by nia.
        apply Csub_proper; [|apply Cmul_proper; [reflexivity|]];
          rewrite <- Hpowr; apply dit_ext; try reflexivity; intros n Hn'.
        * rewrite bitrev_even. same_index.
        * rewrite bitrev_odd. same_index. }
  destruct (Hinv L 0%nat ltac:(lia)) as [Hout Hat].
  split; [exact Hout|]. intros k Hk.
  specialize (Hat 0%nat k ltac:(cbn; lia) Hk).
  replace (0 * 2 ^ L + k)%nat with k in Hat by lia.
  rewrite Hat. apply dit_ext; [reflexivity|]. intros n Hn. cbn. same_index.
Qed.

Lemma bitrev_lt w : ∀ b, (bitrev w b < 2 ^ w)%nat.
Proof.
  induction w as [|w IH]; intros b; [cbn; lia|].
  cbn [bitrev]. rewrite Nat.pow_succ_r'.
  pose proof (IH (b / 2)%nat). pose proof (Nat.mod_upper_bound b 2 ltac:(lia)).
  assert (b mod 2 * 2 ^ w <= 2 ^ w)%nat by nia. lia.
Qed.

Lemma bitrev_top w : ∀ a p, (a < 2 ^ w)%nat → (p < 2)%nat →
  bitrev (S w) (a + p * 2 ^ w) = (2 * bitrev w a + p)%nat.
Proof.
  induction w as [|w IH]; intros a p Ha Hp.
  - cbn in Ha. assert (a = 0)%nat as -> by lia.
    assert (p = 0 ∨ p = 1)%nat as [-> | ->] by lia; reflexivity.
  - rewrite Nat.pow_succ_r' in Ha.
    destruct (Nat.Even_or_Odd a) as [[a' ->] | [a' ->]].
    + replace (2 * a' + p * 2 ^ S w)%nat with (2 * (a' + p * 2 ^ w))%nat
        by (rewrite Nat.pow_succ_r'; lia).
      rewrite bitrev_even, (bitrev_even w a'), IH by lia. lia.
    + replace (2 * a' + 1 + p * 2 ^ S w)%nat with (2 * (a' + p * 2 ^ w) + 1)%nat
        by (rewrite Nat.pow_succ_r'; lia).
      rewrite bitrev_odd, (bitrev_odd w a'), IH by lia. rewrite Nat.pow_succ_r'. lia.
Qed.

Lemma bitrev_involutive w : ∀ b, (b < 2 ^ w)%nat → bitrev w (bitrev w b) = b.
Proof.
  induction w as [|w IH]; intros b Hb; [cbn in *; lia|].
  rewrite Nat.pow_succ_r' in Hb.
  destruct (Nat.Even_or_Odd b) as [[b' ->] | [b' ->]].
  - rewrite bitrev_even. pose proof (bitrev_lt w b').
    replace (bitrev w b') with (bitrev w b' + 0 * 2 ^ w)%nat at 1 by lia.
    rewrite bitrev_top, IH by lia. lia.
  - rewrite bitrev_odd. pose proof (bitrev_lt w b').
    replace (bitrev w b' + 2 ^ w)%nat with (bitrev w b' + 1 * 2 ^ w)%nat by lia.
    rewrite bitrev_top, IH by lia. lia.
Qed.

Lemma divideBySize_at size xs i :
  at_ (divideBySize size xs) i =
    if decide ((i < size)%nat ∧ (i < length xs)%nat)
    then (at_ xs i / inject_Z (Z.of_nat size))%Q else at_ xs i.
Proof.
  change (divideBySize size xs)
    with (updateEach (fun _ v => (v / inject_Z (Z.of_nat size))%Q) size xs).
  apply updateEach_at.
Qed.

(** what the closure returned by [getFFT] computes, for a plan of size
    [2 ^ L] whose bit-reversal table is the bit reversal on [L] bits *)
Lemma fft_kernel_dit fft invert L e x ri :
  Z.to_nat (plan_size fft) = (2 ^ L)%nat → bothLength (2 ^ L) ri →
  (∀ i, (i < 2 ^ L)%nat → reversed fft i = bitrev L i) →
  (∀ k, (k < 2 ^ L)%nat → Ceq (twiddle fft invert k) (e k)) →
  (∀ b, (b < 2 ^ L)%nat → Ceq (cval ri b) (x b)) →
  let out := fft_kernel fft invert ri in
  bothLength (2 ^ L) out ∧
  ∀ k, (k < 2 ^ L)%nat →
    Ceq (cval out k)
      (if invert then Cscale (/ inject_Z (Z.of_nat (2 ^ L))) (dit e L 1 x k)
       else dit e L 1 x k).
Proof.
  intros Hsize Hlen Hrev Htw Hin out. subst out. unfold fft_kernel.
  destruct (bitReversalPermutation_at fft (2 ^ L) ri Hlen Hsize) as [Hlen0 Hat0].
  { intros i Hi. rewrite Hrev by exact Hi. pose proof (bitrev_lt L i).
    split; [assumption|]. rewrite Hrev by assumption. apply bitrev_involutive, Hi. }
  destruct (cooleyTukey_dit fft invert L e x (bitReversalPermutation fft ri) Hsize Hlen0 Htw)
    as [Hlen1 Hat1].
  { intros b Hb. rewrite Hat0, Hrev by exact Hb. apply Hin, bitrev_lt. }
  destruct (cooleyTukey fft invert (bitReversalPermutation fft ri)) as [re im].
  destruct Hlen1 as [Hre Him]. cbn in Hre, Him. rewrite Hsize.
  destruct invert.
  - split; [split; cbn; rewrite divideBySize_length; assumption|].
    intros k Hk. specialize (Hat1 k Hk). destruct Hat1 as [H1 H2]. cbn in H1, H2.
    unfold cval. cbn [fst snd]. rewrite !divideBySize_at.
    repeat case_decide; try lia.
    split; cbn [fst snd Cscale]; rewrite ?H1, ?H2; unfold Qdiv; ring.
  - split; [split; assumption|]. exact Hat1.
Qed.

Lemma pow2_to_nat k : Z.to_nat (2 ^ Z.of_nat k) = (2 ^ k)%nat.
Proof. rewrite <- (Nat2Z.id (2 ^ k)). f_equal. rewrite Nat2Z.inj_pow. reflexivity. Qed.

Lemma reversed_table fft k i :
  bitReverse fft = (fun i => Z.of_nat (bitrev k i)) <$> seq 0 (2 ^ k) →
  (i < 2 ^ k)%nat → reversed fft i = bitrev k i.
Proof.
  intros E Hi. unfold reversed. rewrite E.
  rewrite (nth_lookup_Some _ _ _ (Z.of_nat (bitrev k i))); [apply Nat2Z.id|].
  rewrite list_lookup_fmap, lookup_seq_lt by exact Hi. reflexivity.
Qed.

(** for the sizes 2, 4, ..., 1024 the table [bitReverse] built by
    [getFFT] is the bit reversal *)
Lemma bitReverse_buildFFT host k :
  (1 <= k <= 10)%nat →
  bitReverse (buildFFT host (2 ^ Z.of_nat k)) =
    (fun i => Z.of_nat (bitrev k i)) <$> seq 0 (2 ^ k).
Proof.
  intros Hk. unfold buildFFT. cbn [bitReverse].
  assert (k = 1 ∨ k = 2 ∨ k = 3 ∨ k = 4 ∨ k = 5 ∨ k = 6 ∨ k = 7 ∨ k = 8 ∨ k = 9 ∨ k = 10)%nat
    as [-> | [-> | [-> | [-> | [-> | [-> | [-> | [-> | [-> | ->]]]]]]]]] by lia;
    vm_compute; reflexivity.
Qed.

(** * Further properties of the code *)

(** ** [constants.ts]: the defaults *)

Lemma getDefaultParams_value :
  getDefaultParams =
    {| gateThreshold := Some (2 # 10); spectralMix := Some 1; transientSensitivity := Some (18 # 10);
       surfaceJitter := Some 0; numHarmonics := Some 12; harmonicQ := Some 30;
       interferenceFeedback := Some (5 # 10); interferenceMix := Some (5 # 10);
       numFormants := Some 4; formantQ := Some 20; formantMix := Some (7 # 10);
       ringModBaseFreq := Some 100; ringModRange := Some 1000; ringModMix := Some (5 # 10);
       morphPosition := Some (5 # 10) |}%Q.
Proof. reflexivity. Qed.

(** X1. [getDefaultParams] defines every parameter, and the value it gives
    is the fallback the operators use when the parameter is missing: an
    operator, or a morph of two operators, run with the defaults behaves
    exactly as run with no parameters at all. *)
Theorem default_params_are_fallbacks host audio sourceBuffer targetBuffer :
  (∀ key, ∃ value, getParam key getDefaultParams = Some value) ∧
  (∀ type,
     run host audio sourceBuffer targetBuffer getDefaultParams type =
     run host audio sourceBuffer targetBuffer noParams type) ∧
  (∀ transformA transformB,
     applyTransformationMorph host audio sourceBuffer targetBuffer transformA transformB
       getDefaultParams =
     applyTransformationMorph host audio sourceBuffer targetBuffer transformA transformB
       noParams).
Proof.
  rewrite getDefaultParams_value. split_and!.
  - intros []; eexists; reflexivity.
  - intros []; reflexivity.
  - intros A B. unfold applyTransformationMorph.
    assert (Hrun : ∀ type,
      run host audio sourceBuffer targetBuffer
        {| gateThreshold := Some (2 # 10); spectralMix := Some 1;
           transientSensitivity := Some (18 # 10); surfaceJitter := Some 0;
           numHarmonics := Some 12; harmonicQ := Some 30;
           interferenceFeedback := Some (5 # 10); interferenceMix := Some (5 # 10);
           numFormants := Some 4; formantQ := Some 20; formantMix := Some (7 # 10);
           ringModBaseFreq := Some 100; ringModRange := Some 1000; ringModMix := Some (5 # 10);
           morphPosition := Some (5 # 10) |}%Q type =
      run host audio sourceBuffer targetBuffer noParams type) by (intros []; reflexivity).
    rewrite !Hrun. reflexivity.
Qed.

(** ** The cache of [getFFT] *)

Lemma cacheExtends_refl host c : cacheExtends host c c.
Proof. intros size. left. reflexivity. Qed.

Lemma cacheExtends_trans host c1 c2 c3 :
  cacheExtends host c1 c2 → cacheExtends host c2 c3 → cacheExtends host c1 c3.
Proof.
  intros H12 H23 size. destruct (H12 size) as [E12 | (N1 & S2 & Hs)], (H23 size) as [E23 | (N2 & S3 & Hs')].
  - left. congruence.
  - right. split_and!; [congruence | exact S3 | exact Hs'].
  - right. split_and!; [exact N1 | congruence | exact Hs].
  - congruence.
Qed.

Lemma keepsCache_same {A} host (m : M A) :
  (∀ st, fftCache (fst (m st)) = fftCache st) → keepsCache host m.
Proof. intros H st. rewrite H. apply cacheExtends_refl. Qed.

Lemma keepsCache_ret {A} host (a : A) : keepsCache host (ret a).
Proof. apply keepsCache_same. reflexivity. Qed.

Lemma keepsCache_throw {A} host msg : keepsCache host (@throw A msg).
Proof. apply keepsCache_same. reflexivity. Qed.

Lemma keepsCache_bind {A B} host (m : M A) (k : A → M B) :
  keepsCache host m → (∀ a, keepsCache host (k a)) → keepsCache host (bind m k).
Proof.
  intros Hm Hk st. unfold bind. specialize (Hm st). destruct (m st) as [st1 [a | e]]; cbn in *.
  - eapply cacheExtends_trans; [exact Hm | apply Hk].
  - exact Hm.
Qed.

Lemma keepsCache_attempt {A} host (m : M A) : keepsCache host m → keepsCache host (attempt m).
Proof. intros Hm st. unfold attempt. specialize (Hm st). destruct (m st). exact Hm. Qed.

Lemma keepsCache_forEach {A} host (l : list A) (body : A → M unit) :
  (∀ x, keepsCache host (body x)) → keepsCache host (forEach l body).
Proof.
  intros Hbody. induction l as [|x l IH]; cbn [forEach].
  - apply keepsCache_ret.
  - apply keepsCache_bind; [apply Hbody | intros _; exact IH].
Qed.

Lemma keepsCache_foldM {A S} host (l : list A) (body : S → A → M S) :
  (∀ s x, keepsCache host (body s x)) → ∀ s, keepsCache host (foldM l s body).
Proof.
  intros Hbody. induction l as [|x l IH]; intros s; cbn [foldM].
  - apply keepsCache_ret.
  - apply keepsCache_bind; [apply Hbody | intros s'; apply IH].
Qed.

Lemma keepsCache_allocChannels host n : ∀ xs, keepsCache host (allocChannels n xs).
Proof.
  induction n as [|n IH]; intros xs; cbn [allocChannels].
  - apply keepsCache_ret.
  - apply keepsCache_bind; [apply keepsCache_same; reflexivity|]. intros r.
    apply keepsCache_bind; [apply IH|]. intros rs. apply keepsCache_ret.
Qed.

Lemma keepsCache_getFFT host size :
  size = 2048 ∨ size = 8192 → keepsCache host (getFFT host size).
Proof.
  intros Hsize st. unfold getFFT. destruct (fft_size_invalid size); [apply cacheExtends_refl|].
  destruct (fftCache st !! size) as [fft|] eqn:E; [apply cacheExtends_refl|].
  cbn. intros other. destruct (decide (other = size)) as [-> | Hne].
  - right. rewrite lookup_insert_eq. auto.
  - left. apply lookup_insert_ne. congruence.
Qed.

(** one step of a proof that a computation extends the cache *)
Ltac keeps_step :=
  match goal with
  | |- keepsCache _ (ret _) => apply keepsCache_ret
  | |- keepsCache _ (throw _) => apply keepsCache_throw
  | |- keepsCache _ (bind _ _) => apply keepsCache_bind; [| intros ? ]
  | |- keepsCache _ (forEach _ _) => apply keepsCache_forEach; intros ?
  | |- keepsCache _ (foldM _ _ _) => apply keepsCache_foldM; intros ? ?
  | |- keepsCache _ (attempt _) => apply keepsCache_attempt
  | |- keepsCache _ (allocChannels _ _) => apply keepsCache_allocChannels
  | |- keepsCache _ (getFFT _ _) =>
      apply keepsCache_getFFT; (left; reflexivity) || (right; reflexivity)
  | |- keepsCache _ (if ?b then _ else _) => destruct b
  | |- keepsCache _ (match ?x with _ => _ end) => destruct x
  | |- keepsCache _ (allocArray _) => apply keepsCache_same; intros ?; reflexivity
  | |- keepsCache _ (newFloat32Array _) => apply keepsCache_same; intros ?; reflexivity
  | |- keepsCache _ (readArray _) => apply keepsCache_same; intros ?; reflexivity
  | |- keepsCache _ (writeArray _ _) => apply keepsCache_same; intros ?; reflexivity
  | |- keepsCache _ (drawRandoms _) => apply keepsCache_same; intros ?; reflexivity
  | |- keepsCache _ (acquire _) => apply keepsCache_same; intros ?; reflexivity
  | |- keepsCache _ (setConvolverBuffer _ _) => unfold setConvolverBuffer
  end.

Ltac keeps := repeat keeps_step.

Lemma keepsCache_getChannelData host b c : keepsCache host (getChannelData b c).
Proof. unfold getChannelData. keeps. Qed.

Lemma keepsCache_modifyArray host r f : keepsCache host (modifyArray r f).
Proof. unfold modifyArray. keeps. Qed.

Lemma keepsCache_createBuffer host audio n len rate : keepsCache host (createBuffer audio n len rate).
Proof. unfold createBuffer. keeps. Qed.

Lemma keepsCache_newOfflineAudioContext host audio n len rate :
  keepsCache host (newOfflineAudioContext audio n len rate).
Proof. unfold newOfflineAudioContext. keeps. Qed.

Lemma keepsCache_startRendering host audio ctx graph :
  keepsCache host (startRendering audio ctx graph).
Proof. unfold startRendering. keeps. Qed.

Lemma keepsCache_fft_call host fft re im invert : keepsCache host (fft_call fft re im invert).
Proof. unfold fft_call. keeps. Qed.

Ltac keeps_op :=
  repeat match goal with
  | |- keepsCache _ (getChannelData _ _) => apply keepsCache_getChannelData
  | |- keepsCache _ (modifyArray _ _) => apply keepsCache_modifyArray
  | |- keepsCache _ (createBuffer _ _ _ _) => apply keepsCache_createBuffer
  | |- keepsCache _ (newOfflineAudioContext _ _ _ _) => apply keepsCache_newOfflineAudioContext
  | |- keepsCache _ (startRendering _ _ _) => apply keepsCache_startRendering
  | |- keepsCache _ (fft_call _ _ _ _) => apply keepsCache_fft_call
  | _ => keeps_step
  end.

Section CacheOfOperators.
Context (host : MathHost) (audio : AudioHost).

Lemma keepsCache_getAmplitudeEnvelope b s : keepsCache host (getAmplitudeEnvelope audio b s).
Proof. unfold getAmplitudeEnvelope. keeps_op. Qed.

Lemma keepsCache_applyEnvelopeToBuffer e t : keepsCache host (applyEnvelopeToBuffer audio e t).
Proof. unfold applyEnvelopeToBuffer. keeps_op. Qed.

Lemma keepsCache_detectTransients b thr ms : keepsCache host (detectTransients host b thr ms).
Proof. unfold detectTransients. keeps_op. Qed.

Lemma keepsCache_spectrumOfChannel0 b : keepsCache host (spectrumOfChannel0 host b).
Proof. unfold spectrumOfChannel0. keeps_op. Qed.

Lemma keepsCache_trimSilence b thr : keepsCache host (trimSilence audio b thr).
Proof. unfold trimSilence. keeps_op. Qed.

Lemma keepsCache_run sourceBuffer targetBuffer params type :
  keepsCache host (run host audio sourceBuffer targetBuffer params type).
Proof.
  destruct type; cbn [run].
  - unfold applyAmplitudeMapping.
    apply keepsCache_bind; [apply keepsCache_getAmplitudeEnvelope | intros ?].
    apply keepsCache_applyEnvelopeToBuffer.
  - unfold applySpectralShaping. keeps_op.
  - unfold applyRhythmicGating.
    apply keepsCache_bind; [apply keepsCache_getAmplitudeEnvelope | intros ?].
    keeps_op. apply keepsCache_applyEnvelopeToBuffer.
  - unfold applyConvolution. keeps_op. apply keepsCache_trimSilence.
  - unfold applyTimeScaleWarping.
    apply keepsCache_bind; [apply keepsCache_detectTransients | intros ?].
    apply keepsCache_bind; [apply keepsCache_detectTransients | intros ?].
    keeps_op.
  - unfold applySurfaceTranslationMapping. keeps_op.
  - unfold applyFourierMasking. keeps_op.
  - unfold applyHarmonicImprinting, detectHarmonics.
    apply keepsCache_bind; [|intros ?; keeps_op].
    apply keepsCache_bind; [apply keepsCache_spectrumOfChannel0 | intros ?; keeps_op].
  - unfold applyInterferenceEchoes.
    apply keepsCache_bind; [apply keepsCache_newOfflineAudioContext | intros ?].
    apply keepsCache_bind; [apply keepsCache_detectTransients | intros ?].
    keeps_op.
  - unfold applyFormantShifting, detectFormants.
    apply keepsCache_bind; [|intros ?; keeps_op].
    apply keepsCache_bind; [apply keepsCache_spectrumOfChannel0 | intros ?; keeps_op].
  - unfold applyDynamicRingModulation.
    apply keepsCache_bind; [apply keepsCache_getAmplitudeEnvelope | intros ?].
    keeps_op.
  - apply keepsCache_throw.
Qed.

Lemma keepsCache_applyTransformationMorph sourceBuffer targetBuffer transformA transformB params :
  keepsCache host
    (applyTransformationMorph host audio sourceBuffer targetBuffer transformA transformB params).
Proof.
  unfold applyTransformationMorph.
  apply keepsCache_bind; [apply keepsCache_attempt, keepsCache_run | intros outcomeA].
  apply keepsCache_bind; [apply keepsCache_attempt, keepsCache_run | intros outcomeB].
  destruct outcomeA, outcomeB; try apply keepsCache_throw.
  unfold crossfade. keeps_op.
Qed.
End CacheOfOperators.

Lemma cacheBuilt_extends host st st' :
  cacheBuilt host st → cacheExtends host (fftCache st) (fftCache st') → cacheBuilt host st'.
Proof.
  intros Hb He size fft Hfft. destruct (He size) as [E | (_ & E & _)].
  - apply Hb. rewrite <- E. exact Hfft.
  - congruence.
Qed.

(** X2. [getFFT] memoizes: a call that throws leaves the state as it was;
    a call that returns leaves the arrays alone, changes the cache at most
    at [size], where it then holds the returned plan, and a second call
    returns the same plan without changing anything. *)
Theorem getFFT_memoizes host size st :
  match getFFT host size st with
  | (st1, Ok fft) =>
      heap st1 = heap st ∧ randomCalls st1 = randomCalls st ∧
      fftCache st1 !! size = Some fft ∧
      (∀ other, other ≠ size → fftCache st1 !! other = fftCache st !! other) ∧
      (∀ cached, fftCache st !! size = Some cached → fft = cached ∧ st1 = st) ∧
      getFFT host size st1 = (st1, Ok fft)
  | (st1, Throw _) => st1 = st
  end.
Proof.
  unfold getFFT. destruct (fft_size_invalid size) eqn:Hinv; [reflexivity|].
  destruct (fftCache st !! size) as [cached|] eqn:E.
  - split_and!; try reflexivity; try assumption.
    + intros c Hc. split; congruence.
    + rewrite E. reflexivity.
  - cbn. rewrite lookup_insert_eq. split_and!; try reflexivity.
    + intros other Hne. apply lookup_insert_ne. congruence.
    + intros c Hc. discriminate Hc.
Qed.

(** X3. The operators use the cache for two sizes only. Whatever the
    inputs and whether it returns or throws, an operator or a morph leaves
    every cached plan in place and adds at most the plans that [getFFT]
    builds for the sizes 2048 and 8192; so a cache that holds only plans
    built by [getFFT] still does afterwards. *)
Theorem operators_extend_cache host audio sourceBuffer targetBuffer params st :
  cacheBuilt host st →
  (∀ type,
     let st' := fst (run host audio sourceBuffer targetBuffer params type st) in
     cacheExtends host (fftCache st) (fftCache st') ∧ cacheBuilt host st') ∧
  (∀ transformA transformB,
     let st' := fst (applyTransformationMorph host audio sourceBuffer targetBuffer
                       transformA transformB params st) in
     cacheExtends host (fftCache st) (fftCache st') ∧ cacheBuilt host st').
Proof.
  intros Hbuilt. split.
  - intros type st'.
    pose proof (keepsCache_run host audio sourceBuffer targetBuffer params type st) as H.
    split; [exact H | eapply cacheBuilt_extends; eassumption].
  - intros A B st'.
    pose proof (keepsCache_applyTransformationMorph host audio sourceBuffer targetBuffer
                  A B params st) as H.
    split; [exact H | eapply cacheBuilt_extends; eassumption].
Qed.

Lemma operators_extend_cache_witness :
  let st := stateOf [[1; 2]; [3; 4]]%Q in
  let st' := fst (run exampleMath exampleAudio (monoBuffer 2 0) (monoBuffer 2 1) noParams
                    FOURIER_MASKING st) in
  cacheExtends exampleMath (fftCache st) (fftCache st') ∧ cacheBuilt exampleMath st'.
Proof.
  intros st st'.
  apply (operators_extend_cache exampleMath exampleAudio (monoBuffer 2 0) (monoBuffer 2 1)
           noParams st).
  intros size fft H. discriminate H.
Defined.

(** ** Amplitude Mapping and Rhythmic Gating *)

Lemma envelope_sample_bounded s input n i t :
  (0 < s)%Q → (s < 1)%Q →
  (Qabs (t * at_ (envelopeChannel s input (replicate n 0%Q)) i) <= Qabs t)%Q.
Proof.
  intros Hs0 Hs1. pose proof (envelopeChannel_bounded s input n i Hs0 Hs1) as [H0 H1].
  set (e := at_ _ i) in *. rewrite Qabs_Qmult, (Qabs_pos e) by exact H0.
  pose proof (Qabs_nonneg t). set (a := Qabs t) in *. nra.
Qed.

(** X4. Amplitude Mapping never amplifies: every sample of the result is
    at most as large, in absolute value, as the target sample at the same
    place; and a silent source gives a silent result. *)
Theorem amplitude_mapping_attenuates audio st sourceBuffer targetBuffer :
  valid audio st sourceBuffer → valid audio st targetBuffer →
  ∃ st' result,
    applyAmplitudeMapping audio sourceBuffer targetBuffer st = (st', Ok result) ∧
    (∀ c i, (c < numberOfChannels targetBuffer)%nat → (i < bufferLength targetBuffer)%nat →
       (Qabs (sample st' result c i) <= Qabs (sample st targetBuffer c i))%Q) ∧
    ((∀ c i, (c < numberOfChannels sourceBuffer)%nat → (sample st sourceBuffer c i == 0)%Q) →
     ∀ c i, (c < numberOfChannels targetBuffer)%nat → (i < bufferLength targetBuffer)%nat →
       (sample st' result c i == 0)%Q).
Proof.
  intros Hsrc Htgt.
  destruct (applyAmplitudeMapping_result audio st sourceBuffer targetBuffer Hsrc Htgt)
    as (st' & result & Hrun & _ & _ & _ & _ & _ & _ & _ & Hch).
  exists st', result. split; [exact Hrun|].
  assert (Hmod : ∀ c, (c mod numberOfChannels sourceBuffer < numberOfChannels sourceBuffer)%nat).
  { intros c. apply Nat.mod_upper_bound. destruct Hsrc as (_ & ? & _). lia. }
  split.
  - intros c i Hc Hi. unfold sample. rewrite (Hch c Hc), multiplyInto_at.
    case_decide; [|change (Qabs 0) with 0%Q; apply Qabs_nonneg].
    apply envelope_sample_bounded; reflexivity.
  - intros Hsilent c i Hc Hi. unfold sample. rewrite (Hch c Hc), multiplyInto_at.
    case_decide; [|reflexivity].
    rewrite envelopeChannel_silence; [ring|].
    intros j. apply (Hsilent (c mod numberOfChannels sourceBuffer)%nat j (Hmod c)).
Qed.

Lemma amplitude_mapping_attenuates_witness :
  let st := stateOf [[1 # 2; -1 # 4; 0]; [1; 1]]%Q in
  ∃ st' result,
    applyAmplitudeMapping exampleAudio (monoBuffer 3 0) (monoBuffer 2 1) st = (st', Ok result) ∧
    (∀ c i, (c < 1)%nat → (i < 2)%nat →
       (Qabs (sample st' result c i) <= Qabs (sample st (monoBuffer 2 1) c i))%Q) ∧
    ((∀ c i, (c < 1)%nat → (sample st (monoBuffer 3 0) c i == 0)%Q) →
     ∀ c i, (c < 1)%nat → (i < 2)%nat → (sample st' result c i == 0)%Q).
Proof.
  intros st.
  apply (amplitude_mapping_attenuates exampleAudio st (monoBuffer 3 0) (monoBuffer 2 1));
    prove_valid.
Defined.

(** X5. The gate threshold at its edges. With a threshold of 1 or more
    the gate never opens and the result is silent; with a negative
    threshold it is open throughout the source, so the result is the
    target over the frames the source has and silence after them; with a
    threshold of 0 or more a silent source keeps the gate closed. *)
Theorem gating_threshold_edges audio st sourceBuffer targetBuffer params :
  valid audio st sourceBuffer → valid audio st targetBuffer →
  let threshold := default (2 # 10)%Q (gateThreshold params) in
  ∃ st' result,
    applyRhythmicGating audio sourceBuffer targetBuffer params st = (st', Ok result) ∧
    ((1 <= threshold)%Q →
     ∀ c i, (c < numberOfChannels targetBuffer)%nat → (i < bufferLength targetBuffer)%nat →
       (sample st' result c i == 0)%Q) ∧
    ((threshold < 0)%Q →
     ∀ c i, (c < numberOfChannels targetBuffer)%nat → (i < bufferLength targetBuffer)%nat →
       (sample st' result c i ==
          if decide (i < bufferLength sourceBuffer)%nat
          then sample st targetBuffer c i else 0)%Q) ∧
    ((0 <= threshold)%Q →
     (∀ c i, (c < numberOfChannels sourceBuffer)%nat → (sample st sourceBuffer c i == 0)%Q) →
     ∀ c i, (c < numberOfChannels targetBuffer)%nat → (i < bufferLength targetBuffer)%nat →
       (sample st' result c i == 0)%Q).
Proof.
  intros Hsrc Htgt threshold.
  destruct (applyRhythmicGating_result audio st sourceBuffer targetBuffer params Hsrc Htgt)
    as (st' & result & Hrun & _ & _ & _ & _ & _ & _ & _ & Hch).
  exists st', result. split; [exact Hrun|].
  assert (Hmod : ∀ c, (c mod numberOfChannels sourceBuffer < numberOfChannels sourceBuffer)%nat).
  { intros c. apply Nat.mod_upper_bound. destruct Hsrc as (_ & ? & _). lia. }
  assert (Hsample : ∀ c i, (c < numberOfChannels targetBuffer)%nat →
            (i < bufferLength targetBuffer)%nat →
            sample st' result c i =
              if decide (i < bufferLength sourceBuffer)%nat
              then (sample st targetBuffer c i *
                    (if Qltb threshold
                          (at_ (envelopeChannel (998 # 1000)
                                  (channel st sourceBuffer (c mod numberOfChannels sourceBuffer))
                                  (replicate (bufferLength sourceBuffer) 0%Q)) i)
                     then 1 else 0))%Q
              else 0%Q).
  { intros c i Hc Hi. unfold sample. rewrite (Hch c Hc), multiplyInto_at, gateInto_at.
    rewrite gateInto_length, envelopeChannel_length, !length_replicate.
    rewrite (valid_channel audio st targetBuffer c Htgt Hc).
    repeat case_decide; try lia; reflexivity. }
  split_and!.
  - intros Hthr c i Hc Hi. rewrite (Hsample c i Hc Hi). case_decide; [|reflexivity].
    pose proof (envelopeChannel_bounded (998 # 1000)
                  (channel st sourceBuffer (c mod numberOfChannels sourceBuffer))
                  (bufferLength sourceBuffer) i ltac:(reflexivity) ltac:(reflexivity)) as [_ H1].
    destruct (Qltb threshold _) eqn:E; [|ring]. apply Qltb_lt in E. lra.
  - intros Hthr c i Hc Hi. rewrite (Hsample c i Hc Hi). case_decide; [|reflexivity].
    pose proof (envelopeChannel_bounded (998 # 1000)
                  (channel st sourceBuffer (c mod numberOfChannels sourceBuffer))
                  (bufferLength sourceBuffer) i ltac:(reflexivity) ltac:(reflexivity)) as [H0 _].
    destruct (Qltb threshold _) eqn:E; [ring|]. apply Qltb_ge in E. lra.
  - intros Hthr Hsilent c i Hc Hi. rewrite (Hsample c i Hc Hi). case_decide; [|reflexivity].
    destruct (Qltb threshold _) eqn:E; [|ring]. apply Qltb_lt in E.
    rewrite envelopeChannel_silence in E; [lra|].
    intros j. apply (Hsilent (c mod numberOfChannels sourceBuffer)%nat j (Hmod c)).
Qed.

Lemma gating_threshold_edges_witness :
  let st := stateOf [[1 # 2; -1 # 4; 0]; [1; 1]]%Q in
  let params := setParam KgateThreshold (-1) noParams in
  ∃ st' result,
    applyRhythmicGating exampleAudio (monoBuffer 3 0) (monoBuffer 2 1) params st
      = (st', Ok result) ∧
    ∀ c i, (c < 1)%nat → (i < 2)%nat →
      (sample st' result c i ==
         if decide (i < 3)%nat then sample st (monoBuffer 2 1) c i else 0)%Q.
Proof.
  intros st params.
  destruct (gating_threshold_edges exampleAudio st (monoBuffer 3 0) (monoBuffer 2 1) params)
    as (st' & result & Hrun & _ & Hopen & _); [prove_valid | prove_valid |].
  exists st', result. split; [exact Hrun|]. apply Hopen. reflexivity.
Defined.

(** ** The amplitude envelope *)

Lemma followEnvelope_at s input out i :
  at_ (followEnvelope s input out) i =
    if decide ((i < length input)%nat ∧ (i < length out)%nat)
    then followerAfter s input (S i) else at_ out i.
Proof.
  unfold followEnvelope. generalize (length input) as n. intros n.
  assert (H : ∀ n, let p := fold_left
              (fun '(lastValue, out) i =>
                 let absValue := Qabs (at_ input i) in
                 let lastValue := (s * lastValue + (1 - s) * absValue)%Q in
                 (lastValue, <[i := lastValue]> out)) (seq 0 n) (0%Q, out) in
            fst p = followerAfter s input n ∧ length (snd p) = length out ∧
            ∀ i, at_ (snd p) i =
                 if decide ((i < n)%nat ∧ (i < length out)%nat)
                 then followerAfter s input (S i) else at_ out i).
  { clear n i. induction n as [|n IH]; intros p.
    - subst p. cbn. split_and!; try reflexivity.
    - subst p. rewrite seq_S, fold_left_app. cbn [fold_left Nat.add].
      destruct (fold_left _ (seq 0 n) (0%Q, out)) as [lastValue o]. cbn in IH.
      destruct IH as (Hl & Hlen & Hat). cbn. subst lastValue.
      split_and!; [reflexivity | rewrite length_insert; exact Hlen |].
      intros i. rewrite at_insert, Hat, Hlen.
      repeat case_decide; try lia; try reflexivity.
      destruct H as [-> _]. reflexivity. }
  apply (H n).
Qed.

Lemma followerAfter_nonneg s input k :
  (0 <= s)%Q → (s <= 1)%Q → (0 <= followerAfter s input k)%Q.
Proof.
  intros Hs0 Hs1. induction k as [|k IH]; cbn [followerAfter]; [lra|].
  pose proof (Qabs_nonneg (at_ input k)). nra.
Qed.

Lemma followerAfter_positive s input k :
  (0 <= s)%Q → (s < 1)%Q → ¬ (at_ input k == 0)%Q → (0 < followerAfter s input (S k))%Q.
Proof.
  intros Hs0 Hs1 Hk. cbn [followerAfter].
  pose proof (followerAfter_nonneg s input k Hs0 ltac:(lra)).
  assert (0 < Qabs (at_ input k))%Q.
  { destruct (Qlt_le_dec (at_ input k) 0) as [Hneg | Hpos].
    - rewrite Qabs_neg by lra. lra.
    - rewrite Qabs_pos by exact Hpos.
      destruct (Qle_lt_or_eq _ _ Hpos) as [Hlt | Heq]; [exact Hlt|].
      exfalso. apply Hk. symmetry. exact Heq. }
  nra.
Qed.

(** the peak of an array is 0 or one of its entries *)
Lemma peakOf_attained out :
  peakOf out = 0%Q ∨ ∃ i, (i < length out)%nat ∧ at_ out i = peakOf out.
Proof.
  unfold peakOf. generalize (length out) as n. intros n.
  induction n as [|n IH]; [left; reflexivity|].
  rewrite seq_S, fold_left_app. cbn [fold_left Nat.add].
  set (m := fold_left _ (seq 0 n) 0%Q) in *.
  destruct (Qltb m (at_ out n)); [right; exists n; split; [lia | reflexivity]|].
  destruct IH as [E | (i & Hi & E)]; [left; exact E | right; exists i; split; [lia | exact E]].
Qed.

Lemma envelopeChannel_peak s input n j :
  (0 < s)%Q → (s < 1)%Q → (j < length input)%nat → (j < n)%nat → ¬ (at_ input j == 0)%Q →
  ∃ i, (i < n)%nat ∧ (at_ (envelopeChannel s input (replicate n 0%Q)) i == 1)%Q.
Proof.
  intros Hs0 Hs1 Hj Hjn Hx. unfold envelopeChannel.
  set (out := followEnvelope s input (replicate n 0%Q)).
  assert (Hlen : length out = n) by (unfold out; rewrite followEnvelope_length, length_replicate; reflexivity).
  assert (Hpos : (0 < at_ out j)%Q).
  { unfold out. rewrite followEnvelope_at, length_replicate.
    case_decide; [|lia]. apply followerAfter_positive; [lra | exact Hs1 | exact Hx]. }
  pose proof (peakOf_upper out j ltac:(lia)) as Hup.
  destruct (peakOf_attained out) as [E | (i & Hi & E)]; [rewrite E in Hup; lra|].
  exists i. split; [lia|]. rewrite normalizeBy_at.
  destruct (Qltb 0 (peakOf out)) eqn:Hp; [|apply Qltb_ge in Hp; lra].
  case_decide; [|lia]. rewrite E. field. lra.
Qed.

(** X6. The envelope is normalized to its peak: in every channel of the
    input that is not silent, the envelope reaches exactly 1 at some frame
    (and, by the bound on the envelope, nowhere exceeds it). *)
Theorem envelope_reaches_one audio st buffer smoothing c j :
  valid audio st buffer → (0 < smoothing)%Q → (smoothing < 1)%Q →
  (c < numberOfChannels buffer)%nat → (j < bufferLength buffer)%nat →
  ¬ (sample st buffer c j == 0)%Q →
  ∃ st' envelope,
    getAmplitudeEnvelope audio buffer smoothing st = (st', Ok envelope) ∧
    (∃ i, (i < bufferLength buffer)%nat ∧ (sample st' envelope c i == 1)%Q) ∧
    (∀ i, (sample st' envelope c i <= 1)%Q).
Proof.
  intros Hvalid Hs0 Hs1 Hc Hj Hx.
  destruct (getAmplitudeEnvelope_result audio st buffer smoothing Hvalid)
    as (st' & envelope & Hrun & _ & _ & _ & _ & _ & _ & _ & Hch).
  exists st', envelope. split; [exact Hrun|]. unfold sample. rewrite (Hch c Hc). split.
  - apply (envelopeChannel_peak smoothing (channel st buffer c) (bufferLength buffer) j);
      try assumption.
    rewrite (valid_channel audio st buffer c Hvalid Hc). exact Hj.
  - intros i. apply envelopeChannel_bounded; assumption.
Qed.

Lemma envelope_reaches_one_witness :
  let st := stateOf [[1 # 2; -1 # 4; 0]]%Q in
  ∃ st' envelope,
    getAmplitudeEnvelope exampleAudio (monoBuffer 3 0) (995 # 1000) st = (st', Ok envelope) ∧
    (∃ i, (i < 3)%nat ∧ (sample st' envelope 0 i == 1)%Q) ∧
    (∀ i, (sample st' envelope 0 i <= 1)%Q).
Proof.
  intros st.
  apply (envelope_reaches_one exampleAudio st (monoBuffer 3 0) (995 # 1000) 0 1);
    try prove_valid; try reflexivity; try (cbn; lia).
  intros H. discriminate H.
Defined.

(** ** Surface Translation *)

Lemma surfaceLoop_at host calls jitter source sorted res i :
  at_ (surfaceLoop host calls jitter source sorted res) i =
    if decide ((i < length source)%nat ∧ (i < length res)%nat)
    then at_ sorted (Z.to_nat (surfaceIndex host calls jitter source
                                 (Z.of_nat (length sorted)) i))
    else at_ res i.
Proof.
  change (surfaceLoop host calls jitter source sorted res)
    with (updateEach (fun i _ => at_ sorted (Z.to_nat (surfaceIndex host calls jitter source
                                                       (Z.of_nat (length sorted)) i)))
            (length source) res).
  apply updateEach_at.
Qed.

Lemma surfaceIndex_range host calls jitter source len i :
  0 < len → 0 <= surfaceIndex host calls jitter source len i < len.
Proof. intros Hlen. unfold surfaceIndex. lia. Qed.

Lemma insertBy_perm {A} (after : A → A → bool) x l : insertBy after x l ≡ₚ x :: l.
Proof.
  induction l as [|y l IH]; cbn [insertBy]; [reflexivity|].
  destruct (after x y); [|reflexivity].
  rewrite IH. apply perm_swap.
Qed.

Lemma sortBy_perm {A} (after : A → A → bool) l : sortBy after l ≡ₚ l.
Proof.
  unfold sortBy. induction l as [|x l IH]; cbn [fold_right]; [reflexivity|].
  rewrite insertBy_perm, IH. reflexivity.
Qed.

Lemma at_elem_of (l : list Q) i : (i < length l)%nat → at_ l i ∈ l.
Proof.
  intros Hi. destruct (lookup_lt_is_Some_2 l i Hi) as [x Hx].
  unfold at_. rewrite (nth_lookup_Some _ _ _ _ Hx). eapply list_elem_of_lookup_2, Hx.
Qed.

Lemma insertBy_ascending x l :
  ascending l → ascending (insertBy (fun a b => Qltb b a) x l).
Proof.
  induction l as [|y l IH]; intros Hl; cbn [insertBy].
  - split; [intros z Hz; inversion Hz | exact I].
  - destruct Hl as [Hy Hl]. destruct (Qltb y x) eqn:E.
    + apply Qltb_lt in E. split; [|apply IH, Hl].
      intros z Hz. rewrite insertBy_perm in Hz.
      apply elem_of_cons in Hz as [-> | Hz]; [lra | apply Hy, Hz].
    + apply Qltb_ge in E. split; [|split; assumption].
      intros z Hz. apply elem_of_cons in Hz as [-> | Hz]; [exact E|].
      specialize (Hy z Hz). lra.
Qed.

Lemma sortAscending_ascending l : ascending (sortAscending l).
Proof.
  unfold sortAscending, sortBy. induction l as [|x l IH]; cbn [fold_right]; [exact I|].
  apply insertBy_ascending, IH.
Qed.

Lemma ascending_at l : ascending l →
  ∀ a b, (a <= b)%nat → (b < length l)%nat → (at_ l a <= at_ l b)%Q.
Proof.
  induction l as [|x l IH]; intros Hl a b Hab Hb; [cbn in Hb; lia|].
  destruct Hl as [Hx Hl]. destruct a as [|a], b as [|b]; try lia.
  - apply Qle_refl.
  - change (at_ (x :: l) 0) with x. change (at_ (x :: l) (S b)) with (at_ l b).
    apply Hx, at_elem_of. cbn in Hb. lia.
  - change (at_ (x :: l) (S a)) with (at_ l a). change (at_ (x :: l) (S b)) with (at_ l b).
    apply IH; [exact Hl | lia | cbn in Hb; lia].
Qed.

Lemma surface_result_channel host audio st src tgt params st' result :
  valid audio st src → valid audio st tgt →
  result = {| numberOfChannels := 1; bufferLength := bufferLength src;
              sampleRate := sampleRate src; channelData := [S (length (heap st))] |} →
  heap st' = heap st ++
    [sortAscending (channel st tgt 0);
     surfaceLoop host (randomCalls st) (default 0%Q (surfaceJitter params))
       (channel st src 0) (sortAscending (channel st tgt 0))
       (replicate (bufferLength src) 0%Q)] →
  ∀ i, (i < bufferLength src)%nat →
    sample st' result 0 i =
      at_ (sortAscending (channel st tgt 0))
        (Z.to_nat (surfaceIndex host (randomCalls st) (default 0%Q (surfaceJitter params))
                     (channel st src 0) (Z.of_nat (bufferLength tgt)) i)).
Proof.
  intros Hsrc Htgt -> Hheap i Hi. unfold sample.
  set (loop := surfaceLoop _ _ _ _ _ _) in Hheap.
  assert (Hc : channel st' {| numberOfChannels := 1; bufferLength := bufferLength src;
                              sampleRate := sampleRate src;
                              channelData := [S (length (heap st))] |} 0 = loop).
  { unfold channel, contents. cbn [channelData nth]. rewrite Hheap, lookup_app_r by lia.
    replace (S (length (heap st)) - length (heap st))%nat with 1%nat by lia. reflexivity. }
  rewrite Hc. unfold loop. rewrite surfaceLoop_at, length_replicate.
  pose proof (valid_channel audio st src 0 Hsrc ltac:(destruct Hsrc as (_ & ? & _); lia)) as Hls.
  pose proof (valid_channel audio st tgt 0 Htgt ltac:(destruct Htgt as (_ & ? & _); lia)) as Hlt.
  rewrite Hls. case_decide; [|lia].
  unfold sortAscending. rewrite (Permutation_length (sortBy_perm _ _)), Hlt. reflexivity.
Qed.

(** X8. Surface Translation re-sequences the target: every sample of the
    result is one of the samples of channel 0 of the target, whatever the
    jitter and the random numbers. *)
Theorem surface_translation_resequences host audio st sourceBuffer targetBuffer params :
  valid audio st sourceBuffer → valid audio st targetBuffer →
  ∃ st' result,
    applySurfaceTranslationMapping host audio sourceBuffer targetBuffer params st
      = (st', Ok result) ∧
    ∀ i, (i < bufferLength sourceBuffer)%nat →
      sample st' result 0 i ∈ channel st targetBuffer 0.
Proof.
  intros Hsrc Htgt.
  destruct (applySurfaceTranslationMapping_result host audio st sourceBuffer targetBuffer params
              Hsrc Htgt) as (st' & result & Hrun & Hres & Hheap).
  exists st', result. split; [exact Hrun|]. intros i Hi.
  rewrite (surface_result_channel host audio st sourceBuffer targetBuffer params st' result
             Hsrc Htgt Hres Hheap i Hi).
  pose proof (valid_channel audio st targetBuffer 0 Htgt
                ltac:(destruct Htgt as (_ & ? & _); lia)) as Hlt.
  assert (0 < bufferLength targetBuffer)%nat by (destruct Htgt as (_ & _ & ? & _); lia).
  pose proof (surfaceIndex_range host (randomCalls st) (default 0%Q (surfaceJitter params))
                (channel st sourceBuffer 0) (Z.of_nat (bufferLength targetBuffer)) i
                ltac:(lia)) as Hrange.
  apply (elem_of_Permutation_proper _ _ _ (sortBy_perm (fun a b => Qltb b a) _)).
  apply at_elem_of. unfold sortAscending.
  rewrite (Permutation_length (sortBy_perm _ _)), Hlt. lia.
Qed.

Lemma surface_translation_resequences_witness :
  let st := stateOf [[1 # 2; -1 # 4; 0]; [3; 1]]%Q in
  ∃ st' result,
    applySurfaceTranslationMapping exampleMath exampleAudio (monoBuffer 3 0) (monoBuffer 2 1)
      noParams st = (st', Ok result) ∧
    ∀ i, (i < 3)%nat → sample st' result 0 i ∈ channel st (monoBuffer 2 1) 0.
Proof.
  intros st.
  apply (surface_translation_resequences exampleMath exampleAudio st (monoBuffer 3 0)
           (monoBuffer 2 1) noParams); prove_valid.
Defined.

Lemma Qfloor_half b : Qfloor (inject_Z b + (1 # 2)) = b.
Proof.
  assert (Hle : (inject_Z b <= inject_Z b + (1 # 2))%Q) by lra.
  assert (Hlt : (inject_Z b + (1 # 2) < inject_Z (b + 1))%Q).
  { rewrite inject_Z_plus. change (inject_Z 1) with 1%Q. lra. }
  pose proof (Qfloor_resp_le _ _ Hle) as H1. rewrite Qfloor_Z in H1.
  pose proof (Qfloor_le (inject_Z b + (1 # 2))) as H2.
  assert (H3 : (inject_Z (Qfloor (inject_Z b + (1 # 2))) < inject_Z (b + 1))%Q) by lra.
  rewrite <- Zlt_Qlt in H3. lia.
Qed.

Lemma surfaceIndex_no_jitter host calls jitter source len i :
  (jitter == 0)%Q →
  surfaceIndex host calls jitter source len i =
    Z.max 0 (Z.min (len - 1) (Qfloor ((at_ source i + 1) / 2 * inject_Z (len - 1)))).
Proof.
  intros Hj. unfold surfaceIndex, js_round. cbv zeta.
  set (base := Qfloor (_ * inject_Z (len - 1))).
  assert (E : (inject_Z base + (Mrandom host (calls + i) - (1 # 2))
                 * (jitter * inject_Z len * (5 # 100)) + (1 # 2)
               == inject_Z base + (1 # 2))%Q) by (rewrite Hj; ring).
  rewrite (Qfloor_comp _ _ E), Qfloor_half. reflexivity.
Qed.

Lemma surfaceIndex_monotone host calls jitter source len i j :
  (jitter == 0)%Q → 0 < len → (at_ source i <= at_ source j)%Q →
  surfaceIndex host calls jitter source len i <= surfaceIndex host calls jitter source len j.
Proof.
  intros Hj Hlen Hij. rewrite !surfaceIndex_no_jitter by exact Hj.
  assert (Hn : (0 <= inject_Z (len - 1))%Q).
  { change 0%Q with (inject_Z 0). rewrite <- Zle_Qle. lia. }
  assert (Hle : ((at_ source i + 1) / 2 * inject_Z (len - 1) <=
                 (at_ source j + 1) / 2 * inject_Z (len - 1))%Q).
  { apply Qmult_le_compat_r; [|exact Hn]. unfold Qdiv. apply Qmult_le_compat_r; [lra | discriminate]. }
  apply Qfloor_resp_le in Hle. lia.
Qed.

Lemma surfaceIndex_top host calls jitter source len i :
  (jitter == 0)%Q → 0 < len → (1 <= at_ source i)%Q →
  surfaceIndex host calls jitter source len i = len - 1.
Proof.
  intros Hj Hlen Hs. rewrite surfaceIndex_no_jitter by exact Hj.
  assert (Hn : (0 <= inject_Z (len - 1))%Q).
  { change 0%Q with (inject_Z 0). rewrite <- Zle_Qle. lia. }
  assert (Hle : (inject_Z (len - 1) <= (at_ source i + 1) / 2 * inject_Z (len - 1))%Q).
  { set (n := inject_Z (len - 1)) in *.
    setoid_replace ((at_ source i + 1) / 2 * n)%Q with (n + (at_ source i - 1) / 2 * n)%Q
      using relation Qeq by field.
    assert (0 <= (at_ source i - 1) / 2 * n)%Q by (apply Qmult_le_0_compat; [unfold Qdiv; apply Qmult_le_0_compat; [lra | discriminate] | lra]). lra. }
  apply Qfloor_resp_le in Hle. rewrite Qfloor_Z in Hle. lia.
Qed.

Lemma surfaceIndex_bottom host calls jitter source len i :
  (jitter == 0)%Q → 0 < len → (at_ source i <= -1)%Q →
  surfaceIndex host calls jitter source len i = 0.
Proof.
  intros Hj Hlen Hs. rewrite surfaceIndex_no_jitter by exact Hj.
  assert (Hn : (0 <= inject_Z (len - 1))%Q).
  { change 0%Q with (inject_Z 0). rewrite <- Zle_Qle. lia. }
  assert (Hle : ((at_ source i + 1) / 2 * inject_Z (len - 1) <= inject_Z 0)%Q).
  { set (n := inject_Z (len - 1)) in *. change (inject_Z 0) with 0%Q.
    setoid_replace ((at_ source i + 1) / 2 * n)%Q with (- ((- at_ source i - 1) / 2 * n))%Q
      using relation Qeq by field.
    assert (0 <= (- at_ source i - 1) / 2 * n)%Q by (apply Qmult_le_0_compat; [unfold Qdiv; apply Qmult_le_0_compat; [lra | discriminate] | lra]). lra. }
  apply Qfloor_resp_le in Hle. rewrite Qfloor_Z in Hle. lia.
Qed.

(** X9. Without jitter Surface Translation follows the shape of the
    source: a frame whose source sample is at most that of another frame
    gets a result sample that is at most that of the other frame; a source
    sample of 1 or more gets the largest sample of the target's channel 0,
    and one of -1 or less the smallest. *)
Theorem surface_translation_follows_source host audio st sourceBuffer targetBuffer params :
  valid audio st sourceBuffer → valid audio st targetBuffer →
  (default 0 (surfaceJitter params) == 0)%Q →
  ∃ st' result,
    applySurfaceTranslationMapping host audio sourceBuffer targetBuffer params st
      = (st', Ok result) ∧
    (∀ i j, (i < bufferLength sourceBuffer)%nat → (j < bufferLength sourceBuffer)%nat →
       (sample st sourceBuffer 0 i <= sample st sourceBuffer 0 j)%Q →
       (sample st' result 0 i <= sample st' result 0 j)%Q) ∧
    (∀ i y, (i < bufferLength sourceBuffer)%nat → (1 <= sample st sourceBuffer 0 i)%Q →
       y ∈ channel st targetBuffer 0 → (y <= sample st' result 0 i)%Q) ∧
    (∀ i y, (i < bufferLength sourceBuffer)%nat → (sample st sourceBuffer 0 i <= -1)%Q →
       y ∈ channel st targetBuffer 0 → (sample st' result 0 i <= y)%Q).
Proof.
  intros Hsrc Htgt Hjitter.
  destruct (applySurfaceTranslationMapping_result host audio st sourceBuffer targetBuffer params
              Hsrc Htgt) as (st' & result & Hrun & Hres & Hheap).
  exists st', result. split; [exact Hrun|].
  pose proof (surface_result_channel host audio st sourceBuffer targetBuffer params st' result
                Hsrc Htgt Hres Hheap) as Hsample.
  pose proof (valid_channel audio st targetBuffer 0 Htgt
                ltac:(destruct Htgt as (_ & ? & _); lia)) as Hlt.
  assert (Hpos : (0 < bufferLength targetBuffer)%nat) by (destruct Htgt as (_ & _ & ? & _); lia).
  set (sorted := sortAscending (channel st targetBuffer 0)) in *.
  assert (Hsorted : ascending sorted) by apply sortAscending_ascending.
  assert (Hlen : length sorted = bufferLength targetBuffer).
  { unfold sorted, sortAscending. rewrite (Permutation_length (sortBy_perm _ _)). exact Hlt. }
  assert (Hidx : ∀ y, y ∈ channel st targetBuffer 0 →
            ∃ k, (k < length sorted)%nat ∧ at_ sorted k = y).
  { intros y Hy.
    apply (elem_of_Permutation_proper _ _ _ (sortBy_perm (fun a b => Qltb b a) _)) in Hy.
    apply list_elem_of_lookup_1 in Hy as [k Hk]. exists k.
    split; [eapply lookup_lt_Some, Hk | apply nth_lookup_Some, Hk]. }
  split_and!.
  - intros i j Hi Hj Hle. rewrite (Hsample i Hi), (Hsample j Hj).
    pose proof (surfaceIndex_range host (randomCalls st) (default 0%Q (surfaceJitter params))
                  (channel st sourceBuffer 0) (Z.of_nat (bufferLength targetBuffer)) j
                  ltac:(lia)).
    pose proof (surfaceIndex_range host (randomCalls st) (default 0%Q (surfaceJitter params))
                  (channel st sourceBuffer 0) (Z.of_nat (bufferLength targetBuffer)) i
                  ltac:(lia)).
    pose proof (surfaceIndex_monotone host (randomCalls st) _ (channel st sourceBuffer 0)
                  (Z.of_nat (bufferLength targetBuffer)) i j Hjitter ltac:(lia) Hle).
    apply ascending_at; [exact Hsorted | lia | lia].
  - intros i y Hi Hs Hy. rewrite (Hsample i Hi).
    rewrite (surfaceIndex_top host (randomCalls st) _ (channel st sourceBuffer 0)
               (Z.of_nat (bufferLength targetBuffer)) i Hjitter ltac:(lia) Hs).
    destruct (Hidx y Hy) as (k & Hk & <-).
    apply ascending_at; [exact Hsorted | lia | lia].
  - intros i y Hi Hs Hy. rewrite (Hsample i Hi).
    rewrite (surfaceIndex_bottom host (randomCalls st) _ (channel st sourceBuffer 0)
               (Z.of_nat (bufferLength targetBuffer)) i Hjitter ltac:(lia) Hs).
    destruct (Hidx y Hy) as (k & Hk & <-).
    apply ascending_at; [exact Hsorted | lia | lia].
Qed.

Lemma surface_translation_follows_source_witness :
  let st := stateOf [[1 # 2; -1 # 4; 0]; [3; 1]]%Q in
  ∃ st' result,
    applySurfaceTranslationMapping exampleMath exampleAudio (monoBuffer 3 0) (monoBuffer 2 1)
      noParams st = (st', Ok result) ∧
    ∀ i j, (i < 3)%nat → (j < 3)%nat →
      (sample st (monoBuffer 3 0) 0 i <= sample st (monoBuffer 3 0) 0 j)%Q →
      (sample st' result 0 i <= sample st' result 0 j)%Q.
Proof.
  intros st.
  destruct (surface_translation_follows_source exampleMath exampleAudio st (monoBuffer 3 0)
              (monoBuffer 2 1) noParams) as (st' & result & Hrun & Hmono & _);
    [prove_valid | prove_valid | reflexivity |].
  exists st', result. split; [exact Hrun | exact Hmono].
Defined.

(** ** Trimming of leading silence *)

Lemma setFrom_at source dest i :
  at_ (setFrom source dest) i =
    if decide ((i < length source)%nat ∧ (i < length dest)%nat) then at_ source i
    else at_ dest i.
Proof. exact (updateEach_at (fun j _ => at_ source j) (length source) dest i). Qed.

Lemma setFrom_same_length source dest :
  length source = length dest → setFrom source dest = source.
Proof.
  intros Hlen. apply (nth_ext _ _ 0%Q 0%Q); [rewrite setFrom_length; lia|].
  intros i Hi. rewrite setFrom_length in Hi.
  change (at_ (setFrom source dest) i = at_ source i).
  rewrite setFrom_at. case_decide; [reflexivity | lia].
Qed.

Lemma head_filter_seq (P : nat → Prop) `{∀ x, Decision (P x)} n : ∀ a,
  match head (filter P (seq a n)) with
  | Some x => (a <= x < a + n)%nat ∧ P x ∧ ∀ j, (a <= j < x)%nat → ¬ P j
  | None => ∀ j, (a <= j < a + n)%nat → ¬ P j
  end.
Proof.
  induction n as [|n IH]; intros a; cbn [seq].
  - cbn. intros j Hj. lia.
  - rewrite filter_cons. destruct (decide (P a)) as [Ha|Ha].
    + cbn. split_and!; [lia | lia | exact Ha | intros j Hj; lia].
    + specialize (IH (S a)). destruct (head (filter P (seq (S a) n))) as [x|].
      * destruct IH as (Hx & HP & Hbefore). split_and!; [lia | lia | exact HP |].
        intros j Hj. destruct (decide (j = a)) as [->|]; [exact Ha | apply Hbefore; lia].
      * intros j Hj. destruct (decide (j = a)) as [->|]; [exact Ha | apply IH; lia].
Qed.

(** the index [trimSilence] finds: 0, or that of the first loud sample *)
Lemma firstLoudSample_spec threshold data :
  let first := firstLoudSample threshold data in
  (∀ j, (j < first)%nat → (Qabs (at_ data j) <= threshold)%Q) ∧
  (first ≠ 0%nat → (first < length data)%nat ∧ (threshold < Qabs (at_ data first))%Q) ∧
  (first = 0%nat → (threshold < Qabs (at_ data 0))%Q ∨
                    ∀ j, (j < length data)%nat → (Qabs (at_ data j) <= threshold)%Q).
Proof.
  cbv zeta. unfold firstLoudSample.
  pose proof (head_filter_seq (fun i => Qltb threshold (Qabs (at_ data i)) = true)
                (length data) 0) as H.
  destruct (head _) as [x|]; cbn [default from_option id].
  - destruct H as (Hx & HP & Hbefore). split_and!.
    + intros j Hj. apply Qltb_ge. specialize (Hbefore j ltac:(lia)).
      destruct (Qltb threshold (Qabs (at_ data j))); [contradiction | reflexivity].
    + intros _. split; [lia | apply Qltb_lt, HP].
    + intros ->. left. apply Qltb_lt, HP.
  - split_and!; [intros j Hj; lia | intros Hne; contradiction |].
    intros _. right. intros j Hj.
    apply Qltb_ge. specialize (H j ltac:(lia)).
    destruct (Qltb threshold (Qabs (at_ data j))); [contradiction | reflexivity].
Qed.

(** a loop that returns, with an invariant indexed by the iteration *)
Lemma forEach_total {A} (I : nat → State → Prop) (body : A → M unit) (l : list A) : ∀ st,
  I 0%nat st →
  (∀ k x s, l !! k = Some x → I k s → ∃ s', body x s = (s', Ok tt) ∧ I (S k) s') →
  ∃ st', forEach l body st = (st', Ok tt) ∧ I (length l) st'.
Proof.
  revert I. induction l as [|x l IH]; intros I st H0 Hstep; cbn [forEach length].
  - exists st. split; [reflexivity | exact H0].
  - destruct (Hstep 0%nat x st eq_refl H0) as (s1 & Hrun1 & H1).
    destruct (IH (fun k => I (S k)) s1 H1) as (st' & Hrun & HI).
    { intros k y s Hy Hk. apply (Hstep (S k) y s Hy Hk). }
    exists st'. split; [|exact HI]. unfold bind. rewrite Hrun1. exact Hrun.
Qed.

Lemma trimSilence_result audio st buffer threshold :
  valid audio st buffer →
  let first := firstLoudSample threshold (channel st buffer 0) in
  ∃ st' result,
    trimSilence audio buffer threshold st = (st', Ok result) ∧
    (first = 0%nat → st' = st ∧ result = buffer) ∧
    (first ≠ 0%nat →
       preserved st st' ∧ valid audio st' result ∧
       numberOfChannels result = numberOfChannels buffer ∧
       sampleRate result = sampleRate buffer ∧
       bufferLength result = (bufferLength buffer - first)%nat ∧
       ∀ c, (c < numberOfChannels buffer)%nat →
         channel st' result c = drop first (channel st buffer c)).
Proof.
  intros Hv first. pose proof Hv as (Hnch & Hpos & Hlen & Hrate & Hall).
  destruct (lookup_lt_is_Some_2 (channelData buffer) 0 ltac:(lia)) as [r0 Hr0].
  assert (Hch0 : channel st buffer 0 = contents st r0).
  { unfold channel. rewrite (nth_lookup_Some _ _ _ _ Hr0). reflexivity. }
  unfold trimSilence.
  erewrite bind_ok; [|apply getChannelData_ok, Hr0].
  erewrite bind_ok; [|reflexivity].
  rewrite <- Hch0. fold first.
  destruct (Nat.eqb_spec first 0) as [H0|Hne].
  { exists st, buffer. split_and!; [reflexivity | done | intros; contradiction]. }
  destruct (firstLoudSample_spec threshold (channel st buffer 0)) as (_ & Hloud & _).
  fold first in Hloud. destruct (Hloud Hne) as [Hfirst _].
  rewrite (valid_channel audio st buffer 0 Hv ltac:(lia)) in Hfirst.
  set (newLength := (bufferLength buffer - first)%nat).
  set (nch := numberOfChannels buffer) in *.
  assert (Hshape : shapeRejected audio nch newLength (sampleRate buffer) = false).
  { unfold shapeRejected. rewrite Hrate.
    destruct (Nat.eqb_spec nch 0); [lia|].
    destruct (Nat.eqb_spec newLength 0); [unfold newLength in *; lia | reflexivity]. }
  erewrite bind_ok; [|apply createBuffer_spec, Hshape].
  set (h0 := heap st).
  set (newBuffer := {| numberOfChannels := nch; bufferLength := newLength;
                       sampleRate := sampleRate buffer;
                       channelData := seq (length h0) nch |}).
  set (G := fun c => drop first (channel st buffer c)).
  pose (I := fun (k : nat) (s : State) =>
    fftCache s = fftCache st ∧ randomCalls s = randomCalls st ∧
    ∃ slices, length slices = k ∧
      heap s = h0 ++ ((fun c => if decide (c < k)%nat then G c else replicate newLength 0%Q)
                        <$> seq 0 nch) ++ slices).
  destruct (forEach_total I
    (fun i => channel_ <- getChannelData buffer i ;;
              channelNow <- readArray channel_ ;;
              sliced <- allocArray (drop first channelNow) ;;
              slicedNow <- readArray sliced ;;
              dest <- getChannelData newBuffer i ;;
              modifyArray dest (setFrom slicedNow))
    (seq 0 nch)
    (set_heap (h0 ++ replicate nch (replicate newLength 0%Q)) st))
    as (st' & Hrun & (Hcache & Hrand & slices & Hslices & Hheap)).
  { split_and!; [reflexivity | reflexivity |]. exists []. split; [reflexivity|].
    cbn [heap set_heap]. rewrite app_nil_r. f_equal.
    apply list_eq. intros c. rewrite list_lookup_fmap.
    destruct (decide (c < nch)%nat) as [Hc|Hc].
    - rewrite lookup_replicate_2, lookup_seq_lt by lia. cbn. reflexivity.
    - rewrite (lookup_ge_None_2 (replicate _ _)) by (rewrite length_replicate; lia).
      rewrite lookup_seq_ge by lia. reflexivity. }
  { intros k x s Hx (Hc & Hr & sl & Hsl & Hs).
    apply lookup_seq in Hx as [Hx Hk]. cbn in Hx, Hk. subst x.
    destruct (lookup_lt_is_Some_2 (channelData buffer) k ltac:(lia)) as [r Hr'].
    rewrite Forall_lookup in Hall. destruct (Hall _ _ Hr') as (xs & Hxs & Hxl).
    assert (Hrlt : (r < length h0)%nat) by (eapply lookup_lt_Some, Hxs).
    assert (Hchk : channel st buffer k = xs).
    { unfold channel, contents. rewrite (nth_lookup_Some _ _ _ _ Hr'), Hxs. reflexivity. }
    set (news := (fun c => if decide (c < k)%nat then G c else replicate newLength 0%Q)
                   <$> seq 0 nch) in *.
    assert (Hnews : length news = nch) by (unfold news; rewrite length_fmap, length_seq; done).
    eexists. split.
    - erewrite bind_ok; [|apply getChannelData_ok, Hr'].
      erewrite bind_ok.
      2:{ unfold readArray, contents. rewrite Hs, lookup_app_l by lia.
          fold h0 in Hxs. rewrite Hxs. reflexivity. }
      cbn [default from_option id].
      erewrite bind_ok; [|reflexivity].
      erewrite bind_ok.
      2:{ unfold readArray, contents. cbn [heap set_heap].
          rewrite lookup_app_r by lia. rewrite Nat.sub_diag. reflexivity. }
      cbn [default from_option id].
      erewrite bind_ok.
      2:{ apply getChannelData_ok. cbn [channelData newBuffer]. apply lookup_seq. split; [reflexivity | lia]. }
      unfold modifyArray. erewrite bind_ok; [|reflexivity]. unfold writeArray.
      reflexivity.
    - cbn [heap set_heap fftCache randomCalls]. split_and!; [exact Hc | exact Hr |].
      exists (sl ++ [drop first xs]). split; [rewrite length_app; cbn; lia|].
      unfold contents. cbn [heap set_heap]. rewrite Hs.
      rewrite <- !app_assoc.
      rewrite insert_app_r_alt by lia.
      replace (length h0 + k - length h0)%nat with k by lia.
      f_equal.
      rewrite (lookup_app_r h0) by lia.
      replace (length h0 + k - length h0)%nat with k by lia.
      rewrite insert_app_l by lia.
      rewrite lookup_app_l by lia.
      rewrite !app_assoc. f_equal. f_equal.
      cbn [lookup list_lookup default from_option id].
      apply list_eq. intros c.
      destruct (decide (c = k)) as [->|Hck].
      + rewrite list_lookup_insert_eq by lia.
        rewrite list_lookup_fmap, lookup_seq_lt by lia. cbn.
        case_decide; [|lia]. f_equal.
        unfold news. rewrite list_lookup_fmap, lookup_seq_lt by lia. cbn.
        case_decide; [lia|]. cbn.
        unfold G. rewrite Hchk. apply setFrom_same_length.
        rewrite length_drop, length_replicate. unfold newLength. lia.
      + rewrite list_lookup_insert_ne by done. unfold news.
        rewrite !list_lookup_fmap. destruct (seq 0 nch !! c) as [c'|] eqn:Ec; [|reflexivity].
        apply lookup_seq in Ec as [-> _]. cbn. f_equal.
        repeat case_decide; try reflexivity; lia. }
  rewrite length_seq in Hheap, Hslices.
  exists st', newBuffer. split.
  { unfold bind at 1. fold h0. fold newBuffer. rewrite Hrun. reflexivity. }
  split; [intros; contradiction|]. intros _.
  assert (Hnews : (fun c => if decide (c < nch)%nat then G c else replicate newLength 0%Q)
                    <$> seq 0 nch = G <$> seq 0 nch).
  { apply list_fmap_ext. intros i c Hc. apply lookup_seq in Hc as [-> Hc].
    case_decide; [reflexivity | lia]. }
  rewrite Hnews in Hheap.
  assert (HG : ∀ c, (c < nch)%nat → length (G c) = newLength).
  { intros c Hc. unfold G. rewrite length_drop, (valid_channel audio st buffer c Hv Hc).
    reflexivity. }
  split_and!; try reflexivity.
  - intros r xs Hxs. rewrite Hheap. rewrite lookup_app_l; [exact Hxs|].
    eapply lookup_lt_Some, Hxs.
  - unfold valid. cbn. unfold shapeRejected in Hshape.
    apply orb_false_iff in Hshape as [Hshape _].
    apply orb_false_iff in Hshape as [Hn0 Hl0].
    apply Nat.eqb_neq in Hn0, Hl0.
    split_and!; [apply length_seq | lia | lia | exact Hrate |].
    apply Forall_forall. intros r Hr. apply elem_of_seq in Hr.
    exists (G (r - length h0)%nat). split; [|apply HG; lia].
    rewrite Hheap, lookup_app_r by lia. rewrite lookup_app_l by (rewrite length_fmap, length_seq; lia).
    rewrite list_lookup_fmap, lookup_seq_lt by lia. reflexivity.
  - intros c Hc. unfold channel, contents. cbn [channelData newBuffer].
    rewrite (nth_lookup_Some _ _ _ (length h0 + c)%nat) by (apply lookup_seq; lia).
    rewrite Hheap, lookup_app_r by lia.
    replace (length h0 + c - length h0)%nat with c by lia.
    rewrite lookup_app_l by (rewrite length_fmap, length_seq; lia).
    rewrite list_lookup_fmap, lookup_seq_lt by lia. reflexivity.
Qed.

Lemma at_drop (l : list Q) n i : at_ (drop n l) i = at_ l (n + i).
Proof. unfold at_. rewrite !nth_lookup, lookup_drop. reflexivity. Qed.

Lemma firstLoudSample_loud_start threshold data :
  (threshold < Qabs (at_ data 0))%Q → firstLoudSample threshold data = 0%nat.
Proof.
  intros Hloud.
  destruct (firstLoudSample_spec threshold data) as (Hquiet & _ & _).
  destruct (decide (firstLoudSample threshold data = 0%nat)) as [|Hne]; [assumption|].
  specialize (Hquiet 0%nat ltac:(lia)). lra.
Qed.

(** X10. [trimSilence] cuts all channels at one frame: it always returns;
    the cut is at the first frame whose channel-0 sample exceeds the
    threshold in absolute value, every channel of the result holds the
    samples of the buffer from that frame on, and the shape is otherwise
    kept.  When the first sample is loud, or none is, the buffer itself is
    returned and nothing is allocated: a buffer without a loud sample is
    not emptied.  Trimming the result again gives the result itself and
    changes nothing. *)
Theorem trimSilence_cuts_leading_silence audio st buffer threshold :
  valid audio st buffer →
  ∃ st' result first,
    trimSilence audio buffer threshold st = (st', Ok result) ∧
    (first < bufferLength buffer)%nat ∧
    (∀ j, (j < first)%nat → (Qabs (sample st buffer 0 j) <= threshold)%Q) ∧
    (first ≠ 0%nat → (threshold < Qabs (sample st buffer 0 first))%Q) ∧
    (first = 0%nat → result = buffer ∧ st' = st) ∧
    valid audio st' result ∧ preserved st st' ∧
    numberOfChannels result = numberOfChannels buffer ∧
    sampleRate result = sampleRate buffer ∧
    bufferLength result = (bufferLength buffer - first)%nat ∧
    (∀ c i, (c < numberOfChannels buffer)%nat →
       sample st' result c i = sample st buffer c (first + i)) ∧
    trimSilence audio result threshold st' = (st', Ok result).
Proof.
  intros Hv.
  destruct (trimSilence_result audio st buffer threshold Hv)
    as (st' & result & Hrun & Hzero & Hcut).
  destruct (firstLoudSample_spec threshold (channel st buffer 0)) as (Hquiet & Hloud & _).
  set (first := firstLoudSample threshold (channel st buffer 0)) in *.
  exists st', result, first.
  destruct (decide (first = 0%nat)) as [H0|Hne].
  - destruct (Hzero H0) as [-> ->].
    split_and!; try done.
    all: try (intros; lia).
    all: try (destruct Hv as (_ & _ & ? & _); lia).
    + intros r xs Hxs. exact Hxs.
    + intros c i _. rewrite H0. reflexivity.
  - destruct (Hcut Hne) as (Hpres & Hvalid & Hnch & Hrate & Hlen & Hch).
    destruct (Hloud Hne) as [Hlt Hfirst].
    rewrite (valid_channel audio st buffer 0 Hv ltac:(destruct Hv as (_ & ? & _); lia)) in Hlt.
    split_and!; try done.
    + intros c i Hc. unfold sample. rewrite (Hch c Hc). apply at_drop.
    + destruct (trimSilence_result audio st' result threshold Hvalid)
        as (st2 & result2 & Hrun2 & Hzero2 & _).
      rewrite Hrun2.
      destruct Hzero2 as [-> ->]; [|reflexivity].
      apply firstLoudSample_loud_start.
      rewrite (Hch 0%nat ltac:(destruct Hv as (_ & ? & _); lia)), at_drop, Nat.add_0_r.
      exact Hfirst.
Qed.

Lemma trimSilence_cuts_leading_silence_witness :
  let st := stateOf [[0; 1 # 1000; 1 # 2; -1 # 4]; [1; 2; 3; 4]]%Q in
  let buffer := {| numberOfChannels := 2; bufferLength := 4; sampleRate := 44100;
                   channelData := [0; 1]%nat |} in
  ∃ st' result first,
    trimSilence exampleAudio buffer (5 # 1000) st = (st', Ok result) ∧
    (first < 4)%nat ∧
    (∀ j, (j < first)%nat → (Qabs (sample st buffer 0 j) <= 5 # 1000)%Q) ∧
    (first ≠ 0%nat → (5 # 1000 < Qabs (sample st buffer 0 first))%Q) ∧
    (first = 0%nat → result = buffer ∧ st' = st) ∧
    valid exampleAudio st' result ∧ preserved st st' ∧
    numberOfChannels result = 2%nat ∧
    sampleRate result = 44100%Q ∧
    bufferLength result = (4 - first)%nat ∧
    (∀ c i, (c < 2)%nat → sample st' result c i = sample st buffer c (first + i)) ∧
    trimSilence exampleAudio result (5 # 1000) st' = (st', Ok result).
Proof.
  intros st buffer.
  apply (trimSilence_cuts_leading_silence exampleAudio st buffer (5 # 1000)). prove_valid.
Defined.

(** *** Convolution Morphing

    The convolver refuses the source, or the operator renders and trims. *)

Lemma applyConvolution_rejected audio st sourceBuffer targetBuffer :
  valid audio st sourceBuffer → valid audio st targetBuffer →
  convolverAccepts (sampleRate targetBuffer) sourceBuffer = false →
  applyConvolution audio sourceBuffer targetBuffer st = (st, Throw "NotSupportedError").
Proof.
  intros Hsrc Htgt Hrejects.
  pose proof Hsrc as (_ & _ & Hslen & _). pose proof Htgt as (_ & Hnch & Htlen & Hrate & _).
  set (newLength := (bufferLength sourceBuffer + bufferLength targetBuffer - 1)%nat).
  assert (Hshape : shapeRejected audio (numberOfChannels targetBuffer) newLength
                     (sampleRate targetBuffer) = false).
  { unfold shapeRejected. rewrite Hrate.
    destruct (Nat.eqb_spec (numberOfChannels targetBuffer) 0); [lia|].
    destruct (Nat.eqb_spec newLength 0); [unfold newLength in *; lia | reflexivity]. }
  unfold applyConvolution. fold newLength.
  erewrite bind_ok; [|apply newOfflineAudioContext_spec, Hshape].
  erewrite bind_ok; [|reflexivity].
  unfold bind, setConvolverBuffer. cbn [ctxSampleRate]. rewrite Hrejects. reflexivity.
Qed.

Lemma applyConvolution_result audio st sourceBuffer targetBuffer :
  valid audio st sourceBuffer → valid audio st targetBuffer →
  convolverAccepts (sampleRate targetBuffer) sourceBuffer = true →
  ∃ st' result,
    applyConvolution audio sourceBuffer targetBuffer st = (st', Ok result) ∧
    valid audio st' result ∧ preserved st st' ∧
    numberOfChannels result = numberOfChannels targetBuffer ∧
    sampleRate result = sampleRate targetBuffer ∧
    (1 <= bufferLength result <= bufferLength sourceBuffer + bufferLength targetBuffer - 1)%nat ∧
    ((5 # 1000 < Qabs (sample st' result 0 0))%Q ∨
     (bufferLength result = (bufferLength sourceBuffer + bufferLength targetBuffer - 1)%nat ∧
      ∀ i, (Qabs (sample st' result 0 i) <= 5 # 1000)%Q)).
Proof.
  intros Hsrc Htgt Haccepts.
  pose proof Hsrc as (_ & _ & Hslen & _). pose proof Htgt as (_ & Hnch & Htlen & Hrate & _).
  set (newLength := (bufferLength sourceBuffer + bufferLength targetBuffer - 1)%nat).
  assert (Hshape : shapeRejected audio (numberOfChannels targetBuffer) newLength
                     (sampleRate targetBuffer) = false).
  { unfold shapeRejected. rewrite Hrate.
    destruct (Nat.eqb_spec (numberOfChannels targetBuffer) 0); [lia|].
    destruct (Nat.eqb_spec newLength 0); [unfold newLength in *; lia | reflexivity]. }
  unfold applyConvolution. fold newLength.
  erewrite bind_ok; [|apply newOfflineAudioContext_spec, Hshape].
  erewrite bind_ok; [|reflexivity].
  erewrite bind_ok;
    [|unfold setConvolverBuffer; cbn [ctxSampleRate]; rewrite Haccepts; reflexivity].
  match goal with |- context [startRendering audio ?ctx ?g] =>
    destruct (startRendering_spec audio ctx g st) as (rendered & Hrl & Hrall & _ & Hrender)
  end.
  cbn [ctxChannels ctxLength ctxSampleRate] in *.
  erewrite bind_ok; [|exact Hrender].
  set (st1 := set_heap (heap st ++ rendered) st) in *.
  set (renderedBuffer := {| numberOfChannels := numberOfChannels targetBuffer;
                            bufferLength := newLength;
                            sampleRate := sampleRate targetBuffer;
                            channelData := seq (length (heap st))
                                             (numberOfChannels targetBuffer) |}) in *.
  assert (Hrv : valid audio st1 renderedBuffer).
  { apply fresh_buffer_valid; assumption. }
  assert (Hp1 : preserved st st1) by (apply preserved_app; reflexivity).
  destruct (trimSilence_result audio st1 renderedBuffer (5 # 1000) Hrv)
    as (st' & result & Hrun & Hzero & Hcut).
  destruct (firstLoudSample_spec (5 # 1000) (channel st1 renderedBuffer 0))
    as (_ & Hloud & Hnone).
  set (first := firstLoudSample (5 # 1000) (channel st1 renderedBuffer 0)) in *.
  exists st', result. split; [exact Hrun|].
  destruct (decide (first = 0%nat)) as [H0|Hne].
  - destruct (Hzero H0) as [-> ->]. split_and!; try done.
    all: try (unfold renderedBuffer, newLength; cbn [bufferLength]; lia).
    destruct (Hnone H0) as [Hl|Hq]; [left; exact Hl|]. right. split; [reflexivity|].
    intros i. unfold sample.
    destruct (decide (i < length (channel st1 renderedBuffer 0))%nat) as [Hi|Hi].
    + apply Hq, Hi.
    + rewrite at_overflow by lia. discriminate.
  - destruct (Hcut Hne) as (Hpres & Hvalid & Hn & Hr & Hlen & Hch).
    destruct (Hloud Hne) as [Hlt Hfirst].
    rewrite (valid_channel audio st1 renderedBuffer 0 Hrv Hnch) in Hlt.
    cbn [bufferLength numberOfChannels sampleRate renderedBuffer] in *.
    split_and!; try done.
    + eapply preserved_trans; eassumption.
    + lia.
    + lia.
    + left. unfold sample. rewrite (Hch 0%nat Hnch), at_drop, Nat.add_0_r. exact Hfirst.
Qed.

(** X11. Convolution Morphing on valid buffers.  The convolver of the
    host takes the source as its impulse response only if the source has
    1, 2 or 4 channels and the sample rate of the target: with any other
    source the operator throws [NotSupportedError] and leaves the store as
    it was.  With such a source it returns; its result has the channel
    count and the rate of the target and between 1 and (source length +
    target length - 1) frames; either its first channel-0 sample exceeds
    0.005 in absolute value, or nothing was trimmed: the result has the
    full length and channel 0 nowhere exceeds 0.005. *)
Theorem convolution_result_is_trimmed audio st sourceBuffer targetBuffer :
  valid audio st sourceBuffer → valid audio st targetBuffer →
  (convolverAccepts (sampleRate targetBuffer) sourceBuffer = true ↔
     ((numberOfChannels sourceBuffer = 1 ∨ numberOfChannels sourceBuffer = 2
       ∨ numberOfChannels sourceBuffer = 4)%nat
      ∧ (sampleRate sourceBuffer == sampleRate targetBuffer)%Q)) ∧
  (convolverAccepts (sampleRate targetBuffer) sourceBuffer = false →
     applyConvolution audio sourceBuffer targetBuffer st = (st, Throw "NotSupportedError")) ∧
  (convolverAccepts (sampleRate targetBuffer) sourceBuffer = true →
   ∃ st' result,
     applyConvolution audio sourceBuffer targetBuffer st = (st', Ok result) ∧
     valid audio st' result ∧ preserved st st' ∧
     numberOfChannels result = numberOfChannels targetBuffer ∧
     sampleRate result = sampleRate targetBuffer ∧
     (1 <= bufferLength result
        <= bufferLength sourceBuffer + bufferLength targetBuffer - 1)%nat ∧
     ((5 # 1000 < Qabs (sample st' result 0 0))%Q ∨
      (bufferLength result = (bufferLength sourceBuffer + bufferLength targetBuffer - 1)%nat ∧
       ∀ i, (Qabs (sample st' result 0 i) <= 5 # 1000)%Q))).
Proof.
  intros Hsrc Htgt. split_and!.
  - unfold convolverAccepts.
    rewrite andb_true_iff, !orb_true_iff, !Nat.eqb_eq, Qeq_bool_iff. tauto.
  - apply applyConvolution_rejected; assumption.
  - apply applyConvolution_result; assumption.
Qed.

Lemma convolution_result_is_trimmed_witness :
  let st := stateOf [[1 # 2; -1 # 4; 0]; [1; 1]]%Q in
  ∃ st' result,
    applyConvolution exampleAudio (monoBuffer 3 0) (monoBuffer 2 1) st = (st', Ok result) ∧
    valid exampleAudio st' result ∧ preserved st st' ∧
    numberOfChannels result = 1%nat ∧
    sampleRate result = 44100%Q ∧
    (1 <= bufferLength result <= 3 + 2 - 1)%nat ∧
    ((5 # 1000 < Qabs (sample st' result 0 0))%Q ∨
     (bufferLength result = (3 + 2 - 1)%nat ∧
      ∀ i, (Qabs (sample st' result 0 i) <= 5 # 1000)%Q)).
Proof.
  intros st.
  destruct (convolution_result_is_trimmed exampleAudio st (monoBuffer 3 0) (monoBuffer 2 1))
    as (_ & _ & Hreturns); [prove_valid | prove_valid |].
  apply Hreturns. reflexivity.
Defined.

(** a source of three channels, and a source at another rate than the
    target, are refused *)
Example convolution_refuses_source :
  let st := stateOf [[1; 0]; [0; 1]; [1; 1]; [1; 1]]%Q in
  let threeChannels := {| numberOfChannels := 3; bufferLength := 2; sampleRate := 44100;
                          channelData := [0; 1; 2]%nat |} in
  let otherRate := {| numberOfChannels := 1; bufferLength := 2; sampleRate := 48000;
                      channelData := [0]%nat |} in
  applyConvolution exampleAudio threeChannels (monoBuffer 2 3) st
    = (st, Throw "NotSupportedError") ∧
  applyConvolution exampleAudio otherRate (monoBuffer 2 3) st
    = (st, Throw "NotSupportedError").
Proof. split; vm_compute; reflexivity. Qed.

(** ** Dynamic Ring Modulation *)

(** a loop with a carried value that returns, with an invariant indexed
    by the iteration *)
Lemma foldM_total {A T} (I : nat → T → State → Prop) (body : T → A → M T) (l : list A) :
  ∀ s st,
  I 0%nat s st →
  (∀ k x s st, l !! k = Some x → I k s st →
     ∃ s' st', body s x st = (st', Ok s') ∧ I (S k) s' st') →
  ∃ s' st', foldM l s body st = (st', Ok s') ∧ I (length l) s' st'.
Proof.
  revert I. induction l as [|x l IH]; intros I s st H0 Hstep; cbn [foldM length].
  - exists s, st. split; [reflexivity | exact H0].
  - destruct (Hstep 0%nat x s st eq_refl H0) as (s1 & st1 & Hrun1 & H1).
    destruct (IH (fun k => I (S k)) s1 st1 H1) as (s' & st' & Hrun & HI).
    { intros k y s2 st2 Hy Hk. apply (Hstep (S k) y s2 st2 Hy Hk). }
    exists s', st'. split; [|exact HI]. unfold bind. rewrite Hrun1. exact Hrun.
Qed.

(** every sample the inner loop writes is the target sample, mixed with
    its product by a value of the sine *)
Lemma ringModLoop_at host base range mix sr env target frames : ∀ phase res i,
  let out := snd (ringModLoop host base range mix sr frames env target (phase, res)) in
  ((i < frames)%nat ∧ (i < length res)%nat →
     ∃ ph, at_ out i = (at_ target i * Math_sin host ph * mix + at_ target i * (1 - mix))%Q) ∧
  (¬ ((i < frames)%nat ∧ (i < length res)%nat) → at_ out i = at_ res i).
Proof.
  induction frames as [|n IH]; intros phase res i; cbv zeta.
  - cbn. split; [lia | reflexivity].
  - unfold ringModLoop. rewrite seq_S, fold_left_app. cbn [fold_left Nat.add].
    fold (ringModLoop host base range mix sr n env target (phase, res)).
    pose proof (ringModLoop_length host base range mix sr n env target phase res) as Hlen.
    specialize (IH phase res i). cbv zeta in IH.
    destruct (ringModLoop host base range mix sr n env target (phase, res)) as [ph r].
    cbn [snd] in *. rewrite at_insert, Hlen. destruct IH as [IHin IHout].
    split.
    + intros [Hi Hr]. case_decide as Hd.
      * destruct Hd as [<- _]. eexists. reflexivity.
      * apply IHin. lia.
    + intros Hno. case_decide as Hd; [lia|]. apply IHout. lia.
Qed.

Lemma ring_mix_dry t m mix : (mix == 0)%Q → (t * m * mix + t * (1 - mix) == t)%Q.
Proof. intros ->. ring. Qed.

Lemma ring_mix_bounded t m mix :
  (0 <= mix)%Q → (mix <= 1)%Q → (-1 <= m)%Q → (m <= 1)%Q →
  (Qabs (t * m * mix + t * (1 - mix)) <= Qabs t)%Q.
Proof.
  intros H0 H1 Hm0 Hm1.
  setoid_replace (t * m * mix + t * (1 - mix))%Q with (t * (m * mix + (1 - mix)))%Q
    using relation Qeq by ring.
  rewrite Qabs_Qmult.
  assert (Hf : (Qabs (m * mix + (1 - mix)) <= 1)%Q).
  { apply Qabs_Qle_condition. split; nra. }
  pose proof (Qabs_nonneg t). set (a := Qabs t) in *.
  set (f := Qabs _) in *. nra.
Qed.

Lemma applyDynamicRingModulation_result host audio st sourceBuffer targetBuffer params :
  valid audio st sourceBuffer → valid audio st targetBuffer →
  ∃ st' result,
    applyDynamicRingModulation host audio sourceBuffer targetBuffer params st
      = (st', Ok result) ∧
    preserved st st' ∧ valid audio st' result ∧
    numberOfChannels result = numberOfChannels targetBuffer ∧
    bufferLength result = bufferLength targetBuffer ∧
    sampleRate result = sampleRate targetBuffer ∧
    ∀ c i, (c < numberOfChannels targetBuffer)%nat → (i < bufferLength targetBuffer)%nat →
      ∃ ph, sample st' result c i =
              (sample st targetBuffer c i * Math_sin host ph
                 * default (5 # 10) (ringModMix params)
               + sample st targetBuffer c i * (1 - default (5 # 10) (ringModMix params)))%Q.
Proof.
  intros Hsrc Htgt.
  destruct (getAmplitudeEnvelope_result audio st sourceBuffer (99 # 100) Hsrc)
    as (st1 & envelope & Henv & Hp1 & Hvenv & _ & _ & _ & _ & _ & _).
  pose proof (valid_preserved audio st st1 targetBuffer Htgt Hp1) as Htgt1.
  pose proof Htgt as (Hcd & Hnch & Hlen & Hrate & Hall).
  pose proof (valid_shape audio st targetBuffer Htgt) as Hshape.
  destruct (lookup_lt_is_Some_2 (channelData envelope) 0
              ltac:(destruct Hvenv as (-> & ? & _); lia)) as [envRef HenvRef].
  unfold applyDynamicRingModulation.
  erewrite bind_ok; [|exact Henv].
  erewrite bind_ok; [|apply newOfflineAudioContext_spec, Hshape].
  erewrite bind_ok; [|apply getChannelData_ok, HenvRef].
  erewrite bind_ok; [|apply createBuffer_spec, Hshape].
  cbn [ctxSampleRate].
  set (nch := numberOfChannels targetBuffer) in *.
  set (len := bufferLength targetBuffer) in *.
  set (mix := default (5 # 10) (ringModMix params)).
  set (h1 := heap st1).
  set (resultBuffer := {| numberOfChannels := nch; bufferLength := len;
                          sampleRate := sampleRate targetBuffer;
                          channelData := seq (length h1) nch |}).
  pose (mixed := fun (c : nat) (xs : list Q) =>
    length xs = len ∧
    ∀ i, (i < len)%nat →
      ∃ ph, at_ xs i = (sample st targetBuffer c i * Math_sin host ph * mix
                        + sample st targetBuffer c i * (1 - mix))%Q).
  pose (I := fun (k : nat) (_ : Q) (s : State) =>
    ∃ cur, heap s = h1 ++ cur ∧ length cur = nch ∧
      (∀ c, (k <= c < nch)%nat → cur !! c = Some (replicate len 0%Q)) ∧
      (∀ c, (c < k)%nat → (c < nch)%nat → ∃ xs, cur !! c = Some xs ∧ mixed c xs)).
  match goal with |- context [foldM (seq 0 nch) 0%Q ?body] =>
    destruct (foldM_total I body (seq 0 nch) 0%Q
                (set_heap (h1 ++ replicate nch (replicate len 0%Q)) st1))
      as (phase & st' & Hrun & (cur & Hheap & Hcur & _ & Hdone))
  end.
  { exists (replicate nch (replicate len 0%Q)). split_and!.
    - reflexivity.
    - apply length_replicate.
    - intros c Hc. apply lookup_replicate_2. lia.
    - intros c Hc. lia. }
  { intros k x phase s Hx (cur & Hs & Hcur & Hrest & Hdone).
    apply lookup_seq in Hx as [Hx Hk]. cbn in Hx, Hk. subst x.
    destruct (lookup_lt_is_Some_2 (channelData targetBuffer) k ltac:(lia)) as [r Hr].
    pose proof Htgt1 as (_ & _ & _ & _ & Hall1).
    rewrite Forall_lookup in Hall, Hall1.
    destruct (Hall _ _ Hr) as (xs & Hxs & Hxl).
    assert (Hxs1 : h1 !! r = Some xs) by (apply Hp1, Hxs).
    assert (Hrlt : (r < length h1)%nat) by (eapply lookup_lt_Some, Hxs1).
    assert (Hchk : channel st targetBuffer k = xs).
    { unfold channel, contents. rewrite (nth_lookup_Some _ _ _ _ Hr), Hxs. reflexivity. }
    erewrite bind_ok; [|apply getChannelData_ok, Hr].
    erewrite bind_ok.
    2:{ apply getChannelData_ok. cbn [channelData resultBuffer].
        apply lookup_seq. split; [reflexivity | lia]. }
    erewrite bind_ok; [|reflexivity].
    erewrite bind_ok; [|reflexivity].
    erewrite bind_ok; [|reflexivity].
    assert (Htarget : contents s r = xs).
    { unfold contents. rewrite Hs, lookup_app_l by lia. rewrite Hxs1. reflexivity. }
    assert (Hres : contents s (length h1 + k) = replicate len 0%Q).
    { unfold contents. rewrite Hs, lookup_app_r by lia.
      replace (length h1 + k - length h1)%nat with k by lia.
      rewrite (Hrest k) by lia. reflexivity. }
    rewrite Htarget, Hres.
    pose proof (ringModLoop_length host (default 100%Q (ringModBaseFreq params))
                  (default 1000%Q (ringModRange params)) mix (sampleRate targetBuffer) len
                  (contents s envRef) xs phase (replicate len 0%Q)) as Hlen'.
    pose proof (fun i => ringModLoop_at host (default 100%Q (ringModBaseFreq params))
                  (default 1000%Q (ringModRange params)) mix (sampleRate targetBuffer)
                  (contents s envRef) xs len phase (replicate len 0%Q) i) as Hat.
    cbv zeta in Hat.
    destruct (ringModLoop _ _ _ _ _ _ _ _ _) as [phase' result'].
    cbn [snd] in *. rewrite length_replicate in Hlen'.
    erewrite bind_ok; [|reflexivity].
    exists phase'. eexists. split; [reflexivity|].
    exists (<[k := result']> cur). cbn [heap set_heap]. split_and!.
    - rewrite Hs, insert_app_r_alt by lia. do 2 f_equal. lia.
    - rewrite length_insert. exact Hcur.
    - intros c Hc. rewrite list_lookup_insert_ne by lia. apply Hrest. lia.
    - intros c Hc Hcn. destruct (decide (c = k)) as [->|Hck].
      + exists result'. split; [apply list_lookup_insert_eq; lia|].
        split; [exact Hlen'|]. intros i Hi.
        destruct (Hat i) as [Hin _].
        destruct Hin as [ph Hph]; [rewrite length_replicate; lia|].
        exists ph. rewrite Hph. unfold sample. rewrite Hchk. reflexivity.
      + rewrite list_lookup_insert_ne by done. apply Hdone; [lia | exact Hcn]. }
  rewrite length_seq in Hdone.
  exists st', resultBuffer. split.
  { unfold bind at 1. fold h1. rewrite Hrun. reflexivity. }
  assert (Hchan : ∀ c, (c < nch)%nat → ∃ xs, heap st' !! (length h1 + c)%nat = Some xs ∧
                                            mixed c xs).
  { intros c Hc. destruct (Hdone c Hc Hc) as (xs & Hxs & Hm). exists xs. split; [|exact Hm].
    rewrite Hheap, lookup_app_r by lia.
    replace (length h1 + c - length h1)%nat with c by lia. exact Hxs. }
  split_and!; try reflexivity.
  - intros r xs Hxs. apply Hp1 in Hxs. rewrite Hheap. rewrite lookup_app_l; [exact Hxs|].
    eapply lookup_lt_Some, Hxs.
  - unfold valid. cbn. split_and!; [apply length_seq | exact Hnch | exact Hlen | exact Hrate |].
    apply Forall_forall. intros r Hr. apply elem_of_seq in Hr.
    destruct (Hchan (r - length h1)%nat ltac:(lia)) as (xs & Hxs & Hxl & _).
    exists xs. split; [|exact Hxl].
    replace (length h1 + (r - length h1))%nat with r in Hxs by lia. exact Hxs.
  - intros c i Hc Hi. destruct (Hchan c Hc) as (xs & Hxs & _ & Hm).
    destruct (Hm i Hi) as [ph Hph]. exists ph. rewrite <- Hph.
    unfold sample, channel, contents. cbn [channelData resultBuffer].
    rewrite (nth_lookup_Some _ _ _ (length h1 + c)%nat) by (apply lookup_seq; lia).
    rewrite Hxs. reflexivity.
Qed.

(** X12. Dynamic Ring Modulation on valid buffers returns a buffer of the
    shape of the target.  With [ringModMix] 0 the result is the target,
    sample for sample, whatever the source; with [ringModMix] between 0 and
    1 and a sine that stays within [-1, 1], no sample of the result is
    larger in absolute value than the target sample at the same place. *)
Theorem ring_modulation_mix host audio st sourceBuffer targetBuffer params :
  valid audio st sourceBuffer → valid audio st targetBuffer →
  ∃ st' result,
    applyDynamicRingModulation host audio sourceBuffer targetBuffer params st
      = (st', Ok result) ∧
    valid audio st' result ∧
    numberOfChannels result = numberOfChannels targetBuffer ∧
    bufferLength result = bufferLength targetBuffer ∧
    sampleRate result = sampleRate targetBuffer ∧
    ((default (5 # 10) (ringModMix params) == 0)%Q →
       ∀ c i, (c < numberOfChannels targetBuffer)%nat → (i < bufferLength targetBuffer)%nat →
         (sample st' result c i == sample st targetBuffer c i)%Q) ∧
    ((0 <= default (5 # 10) (ringModMix params))%Q →
     (default (5 # 10) (ringModMix params) <= 1)%Q →
     (∀ x, (-1 <= Msin host x)%Q ∧ (Msin host x <= 1)%Q) →
       ∀ c i, (c < numberOfChannels targetBuffer)%nat → (i < bufferLength targetBuffer)%nat →
         (Qabs (sample st' result c i) <= Qabs (sample st targetBuffer c i))%Q).
Proof.
  intros Hsrc Htgt.
  destruct (applyDynamicRingModulation_result host audio st sourceBuffer targetBuffer params
              Hsrc Htgt) as (st' & result & Hrun & _ & Hvalid & Hn & Hl & Hr & Hsample).
  exists st', result. split_and!; try done.
  - intros Hmix c i Hc Hi. destruct (Hsample c i Hc Hi) as [ph ->].
    apply ring_mix_dry, Hmix.
  - intros H0 H1 Hsin c i Hc Hi. destruct (Hsample c i Hc Hi) as [ph ->].
    apply ring_mix_bounded; [exact H0 | exact H1 | apply Hsin | apply Hsin].
Qed.

Lemma ring_modulation_mix_witness :
  let st := stateOf [[1 # 2; -1 # 4; 0]; [1; -1]]%Q in
  let params := setParam KringModMix 0%Q noParams in
  ∃ st' result,
    applyDynamicRingModulation exampleMath exampleAudio (monoBuffer 3 0) (monoBuffer 2 1)
      params st = (st', Ok result) ∧
    ∀ c i, (c < 1)%nat → (i < 2)%nat →
      (sample st' result c i == sample st (monoBuffer 2 1) c i)%Q.
Proof.
  intros st params.
  destruct (ring_modulation_mix exampleMath exampleAudio st (monoBuffer 3 0) (monoBuffer 2 1)
              params) as (st' & result & Hrun & _ & _ & _ & _ & Hdry & _);
    [prove_valid | prove_valid |].
  exists st', result. split; [exact Hrun|]. apply Hdry. reflexivity.
Defined.

(** ** Which runs throw on buffers of the host *)

Lemma returns_ret {A} (a : A) (P : A → Prop) : P a → returnsWith (ret a) P.
Proof. intros H st. exists st, a. split; [reflexivity | exact H]. Qed.

Lemma returns_bind {A B} (m : M A) (k : A → M B) (P : A → Prop) (Q : B → Prop) :
  returnsWith m P → (∀ a, P a → returnsWith (k a) Q) → returnsWith (bind m k) Q.
Proof.
  intros Hm Hk st. destruct (Hm st) as (st1 & a & Hrun & Ha).
  destruct (Hk a Ha st1) as (st2 & b & Hrun2 & Hb).
  exists st2, b. split; [|exact Hb]. unfold bind. rewrite Hrun. exact Hrun2.
Qed.

Lemma returns_always {A} (m : M A) :
  (∀ st, ∃ st' a, m st = (st', Ok a)) → returnsWith m (fun _ => True).
Proof. intros H st. destruct (H st) as (st' & a & Hrun). exists st', a. split; done. Qed.

Lemma returns_forEach {A} (l : list A) (body : A → M unit) :
  (∀ x, returnsWith (body x) (fun _ => True)) →
  returnsWith (forEach l body) (fun _ => True).
Proof.
  intros Hbody. induction l as [|x l IH]; cbn [forEach].
  - apply returns_ret. exact I.
  - eapply returns_bind; [apply Hbody|]. intros _ _. exact IH.
Qed.

Lemma returns_getChannelData b c r :
  channelData b !! c = Some r → returnsWith (getChannelData b c) (fun _ => True).
Proof.
  intros H st. exists st, r. split; [apply getChannelData_ok, H | exact I].
Qed.

Lemma returns_fft_call fft a b invert :
  returnsWith (fft_call fft a b invert) (fun _ => True).
Proof.
  apply returns_always. intros st. unfold fft_call, bind, readArray, writeArray.
  destruct (fft_kernel fft invert (contents st a, contents st b)). eauto.
Qed.

Lemma returns_getFFT host size :
  fft_size_invalid size = false → returnsWith (getFFT host size) (fun _ => True).
Proof.
  intros H. apply returns_always. intros st.
  destruct (getFFT_returns host size st H) as (fft & st' & Hrun & _). eauto.
Qed.

Lemma returns_createBuffer audio nch len rate :
  shapeRejected audio nch len rate = false →
  returnsWith (createBuffer audio nch len rate)
    (fun b => ∀ c, (c < nch)%nat → is_Some (channelData b !! c)).
Proof.
  intros H st. eexists _, _. split; [apply createBuffer_spec, H|].
  intros c Hc. cbn. apply lookup_lt_is_Some_2. rewrite length_seq. exact Hc.
Qed.

Ltac returns_simple :=
  first
    [ apply returns_fft_call
    | apply returns_always; intros ?; unfold newFloat32Array, allocArray, readArray,
        modifyArray, writeArray, bind; eauto ].

Ltac returns_step :=
  lazymatch goal with
  | |- returnsWith (bind _ _) _ => eapply returns_bind; [|intros ? ?]
  | |- returnsWith (ret _) _ => apply returns_ret; exact I
  end.

Lemma fftSize2048_accepted : fft_size_invalid (Z.of_nat fftSize2048) = false.
Proof. vm_compute. reflexivity. Qed.

Lemma applyFourierMasking_returns host audio sourceBuffer targetBuffer rs rt :
  channelData sourceBuffer !! 0%nat = Some rs →
  channelData targetBuffer !! 0%nat = Some rt →
  shapeRejected audio 1
    (Nat.min (bufferLength sourceBuffer) (bufferLength targetBuffer))
    (sampleRate sourceBuffer) = false →
  returnsWith (applyFourierMasking host audio sourceBuffer targetBuffer) (fun _ => True).
Proof.
  intros Hs Ht Hshape. unfold applyFourierMasking.
  eapply returns_bind; [apply returns_getFFT, fftSize2048_accepted|]. intros fft _.
  eapply returns_bind; [apply returns_createBuffer, Hshape|]. intros resultBuffer Hres.
  destruct (Hres 0%nat ltac:(lia)) as [rr Hrr].
  eapply returns_bind; [apply (returns_getChannelData _ _ _ Hrr)|]. intros resultData _.
  eapply returns_bind; [apply (returns_getChannelData _ _ _ Hs)|]. intros sourceData _.
  eapply returns_bind; [apply (returns_getChannelData _ _ _ Ht)|]. intros targetData _.
  eapply returns_bind; [returns_simple|]. intros fftWindow _.
  eapply returns_bind; [returns_simple|]. intros _ _.
  eapply returns_bind; [|intros; apply returns_ret; exact I].
  apply returns_forEach. intros i.
  repeat (eapply returns_bind; [returns_simple | intros ? _]).
  returns_simple.
Qed.

Lemma spectrumOfChannel0_returns host buffer r :
  channelData buffer !! 0%nat = Some r →
  returnsWith (spectrumOfChannel0 host buffer) (fun _ => True).
Proof.
  intros Hr. unfold spectrumOfChannel0.
  eapply returns_bind; [apply returns_getFFT, fftSize8192_accepted|]. intros fft _.
  eapply returns_bind; [apply (returns_getChannelData _ _ _ Hr)|]. intros data _.
  eapply returns_bind; [returns_simple|]. intros dataNow _.
  eapply returns_bind.
  { instantiate (1 := fun _ => True).
    destruct (fftSize8192 <? length dataNow)%nat; [returns_simple | apply returns_ret; exact I]. }
  intros chunk _.
  repeat (eapply returns_bind; [returns_simple | intros ? _]).
  apply returns_ret. exact I.
Qed.

Lemma detectHarmonics_returns host buffer n rate r :
  channelData buffer !! 0%nat = Some r →
  returnsWith (detectHarmonics host buffer n rate) (fun _ => True).
Proof.
  intros Hr. unfold detectHarmonics.
  eapply returns_bind; [apply (spectrumOfChannel0_returns host buffer r Hr)|].
  intros [re im] _. apply returns_ret. exact I.
Qed.

Lemma detectFormants_returns host buffer n rate r :
  channelData buffer !! 0%nat = Some r →
  returnsWith (detectFormants host buffer n rate) (fun _ => True).
Proof.
  intros Hr. unfold detectFormants.
  eapply returns_bind; [apply (spectrumOfChannel0_returns host buffer r Hr)|].
  intros [re im] _. apply returns_ret. exact I.
Qed.

Lemma returns_startRendering audio ctx graph :
  returnsWith (startRendering audio ctx graph) (fun _ => True).
Proof.
  apply returns_always. intros st.
  destruct (startRendering_spec audio ctx graph st) as (rendered & _ & _ & _ & Hrun). eauto.
Qed.

Lemma returns_newOfflineAudioContext audio nch len rate :
  shapeRejected audio nch len rate = false →
  returnsWith (newOfflineAudioContext audio nch len rate) (fun _ => True).
Proof.
  intros H. apply returns_always. intros st. eexists _, _.
  apply newOfflineAudioContext_spec, H.
Qed.

Lemma valid_channel0 audio st b : valid audio st b → is_Some (channelData b !! 0%nat).
Proof. intros (Hl & Hn & _). apply lookup_lt_is_Some_2. lia. Qed.

(** the onsets found in a buffer of the host: ascending from frame 0 to
    the final frame *)
Lemma detectTransients_result host audio st buffer threshold minSeparationMs :
  valid audio st buffer →
  ∃ transients,
    detectTransients host buffer threshold minSeparationMs st = (st, Ok transients) ∧
    transients !! 0%nat = Some 0 ∧
    last transients = Some (Z.of_nat (bufferLength buffer) - 1) ∧
    (∀ i a b, transients !! i = Some a → transients !! S i = Some b → a < b).
Proof.
  intros Hv.
  assert (H0 : (0 < numberOfChannels buffer)%nat) by (destruct Hv as (_ & ? & _); lia).
  assert (Hlen0 : (0 < bufferLength buffer)%nat) by (destruct Hv as (_ & _ & ? & _); lia).
  destruct (valid_ref_lt _ _ _ _ Hv H0) as (r & xs & Hr & Hxs & Hl & _).
  unfold detectTransients.
  erewrite bind_ok; [|apply getChannelData_ok, Hr].
  erewrite bind_ok.
  2:{ unfold readArray. rewrite (contents_lookup _ _ _ Hxs). reflexivity. }
  set (minSep := minSeparationFrames (sampleRate buffer) minSeparationMs).
  pose proof (pickTransients_invariant (chunkEnergies host xs) threshold minSep
                (length (chunkEnergies host xs) - 1)) as Hinv.
  unfold onsetsInvariant in Hinv. unfold pickTransients.
  destruct (fold_left _ (seq 1 _) _) as [ts lastT].
  destruct Hinv as (Hhead & Hlast & Hrange & Hadj).
  destruct (chunkEnergies_last_start host xs) as [Hn Hstart]; [lia|].
  assert (Hbound : lastT <= Z.of_nat (bufferLength buffer) - 1).
  { rewrite <- Hl. unfold chunkSize in *. lia. }
  assert (Hne : (0 < length ts)%nat) by (eapply lookup_lt_Some, Hhead).
  eexists. split; [reflexivity|].
  unfold withFinalFrame. rewrite (List_last_Some _ _ _ Hlast), Hl.
  destruct (Z.ltb_spec lastT (Z.of_nat (bufferLength buffer) - 1)) as [Hlt|Hge].
  - split_and!.
    + rewrite lookup_app_l by exact Hne. exact Hhead.
    + apply last_snoc.
    + intros i a b Ha Hb.
      destruct (decide (S i < length ts)%nat) as [Hj|Hj].
      * rewrite lookup_app_l in Ha by lia. rewrite lookup_app_l in Hb by lia.
        apply (Hadj i a b Ha Hb).
      * assert (Hjl : S i = length ts).
        { apply lookup_lt_Some in Hb. rewrite length_app in Hb. cbn in Hb. lia. }
        rewrite lookup_app_l in Ha by lia.
        rewrite lookup_app_r in Hb by lia.
        replace (S i - length ts)%nat with 0%nat in Hb by lia. cbn in Hb.
        inversion Hb; subst b.
        assert (Ha' : last ts = Some a) by (rewrite last_lookup, <- Ha; f_equal; lia).
        rewrite Hlast in Ha'. inversion Ha'. lia.
  - split_and!.
    + exact Hhead.
    + rewrite Hlast. f_equal. lia.
    + intros i a b Ha Hb. apply (Hadj i a b Ha Hb).
Qed.

Lemma Qceiling_pos x : (0 < x)%Q → 0 < Qceiling x.
Proof.
  intros Hx. pose proof (Qle_ceiling x) as H.
  assert (H' : (inject_Z 0 < inject_Z (Qceiling x))%Q) by (change (inject_Z 0) with 0%Q; lra).
  rewrite <- Zlt_Qlt in H'. exact H'.
Qed.

(** the durations of the source segments add up to a positive time *)
Lemma segment_durations_positive (transients : list Z) (rate : Q) n :
  (0 < rate)%Q → (0 < n)%nat → (n < length transients)%nat →
  (∀ i a b, transients !! i = Some a → transients !! S i = Some b → a < b) →
  (0 < fold_left
         (fun total i =>
            let sourceDuration :=
              double (inject_Z (nth (i + 1) transients 0%Z - nth i transients 0%Z) / rate) in
            double (total + sourceDuration))
         (seq 0 n) 0%Q)%Q.
Proof.
  intros Hrate Hn Hlen Hadj.
  assert (Hstep : ∀ i, (S i < length transients)%nat →
            (0 < double (inject_Z (nth (i + 1) transients 0%Z - nth i transients 0%Z)
                         / rate))%Q).
  { intros i Hi.
    destruct (lookup_lt_is_Some_2 transients i ltac:(lia)) as [a Ha].
    destruct (lookup_lt_is_Some_2 transients (S i) Hi) as [b Hb].
    replace (i + 1)%nat with (S i) by lia.
    rewrite (nth_lookup_Some _ _ _ _ Ha), (nth_lookup_Some _ _ _ _ Hb).
    pose proof (Hadj i a b Ha Hb) as Hab.
    apply double_pos, Qlt_shift_div_l; [exact Hrate|].
    setoid_replace (0 * rate)%Q with (inject_Z 0) using relation Qeq by ring.
    rewrite <- Zlt_Qlt. lia. }
  destruct n as [|n]; [lia|].
  cbv zeta.
  assert (Hgen : ∀ m, (S m < length transients)%nat →
            (0 < fold_left
                   (fun total i =>
                      double
                        (total
                         + double (inject_Z (nth (i + 1) transients 0%Z
                                             - nth i transients 0%Z) / rate)))
                   (seq 0 (S m)) 0%Q)%Q).
  { induction m as [|m IH]; intros Hm.
    - cbn [seq fold_left]. pose proof (Hstep 0%nat Hm). apply double_pos. lra.
    - rewrite seq_S, fold_left_app. cbn [fold_left]. rewrite Nat.add_0_l.
      pose proof (IH ltac:(lia)). pose proof (Hstep (S m) Hm). apply double_pos. lra. }
  apply Hgen. exact Hlen.
Qed.

(** *** Following one array through a run *)

Lemma tracks_bind_keep {A B} n0 (m : M A) (k : A → M B) (P : A → Prop)
    (R : list Q → list Q → B → Prop) :
  tracks n0 m (fun xs ys a => ys = xs ∧ P a) →
  (∀ a, P a → tracks n0 (k a) R) →
  tracks n0 (bind m k) R.
Proof.
  intros Hm Hk s xs Hxs.
  destruct (Hm s xs Hxs) as (s1 & a & ys & Hrun & Hys & -> & Ha).
  destruct (Hk a Ha s1 xs Hys) as (s2 & b & zs & Hrun2 & Hzs & HR).
  exists s2, b, zs. split; [|split; assumption].
  unfold bind. rewrite Hrun. exact Hrun2.
Qed.

Lemma tracks_allocArray n0 v :
  tracks n0 (allocArray v) (fun xs ys r => ys = xs ∧ (n0 < r)%nat).
Proof.
  intros s xs Hxs. pose proof (lookup_lt_Some _ _ _ Hxs) as Hlt.
  eexists _, _, xs. split; [reflexivity|]. cbn. split; [|split; [reflexivity | exact Hlt]].
  rewrite lookup_app_l by exact Hlt. exact Hxs.
Qed.

Lemma tracks_readArray n0 r :
  tracks n0 (readArray r) (fun xs ys _ => ys = xs ∧ True).
Proof. intros s xs Hxs. eexists _, _, xs. split; [reflexivity|]. done. Qed.

Lemma tracks_modifyArray_other n0 r f :
  n0 ≠ r → tracks n0 (modifyArray r f) (fun xs ys _ => ys = xs ∧ True).
Proof.
  intros Hne s xs Hxs. eexists _, _, xs. split; [reflexivity|]. cbn.
  split; [|done]. rewrite list_lookup_insert_ne by congruence.
  exact Hxs.
Qed.

Lemma tracks_modifyArray_self n0 f :
  tracks n0 (modifyArray n0 f) (fun xs ys _ => ys = f xs).
Proof.
  intros s xs Hxs. eexists _, _, (f xs). split; [reflexivity|]. cbn.
  split; [|reflexivity].
  unfold contents. rewrite Hxs. apply list_lookup_insert_eq. eapply lookup_lt_Some, Hxs.
Qed.

Lemma tracks_fft_call n0 fft a b invert :
  n0 ≠ a → n0 ≠ b → tracks n0 (fft_call fft a b invert) (fun xs ys _ => ys = xs ∧ True).
Proof.
  intros Ha Hb s xs Hxs. unfold fft_call, bind, readArray, writeArray.
  destruct (fft_kernel fft invert (contents s a, contents s b)) as [re im].
  eexists _, _, xs. split; [reflexivity|]. cbn. split; [|done].
  rewrite !list_lookup_insert_ne by congruence.
  exact Hxs.
Qed.

(** a window of the overlap-add leaves the frames outside of it alone *)
Lemma overlapAdd_outside newReal fftWindow i resultData j :
  (j < i)%nat ∨ (i + fftSize2048 <= j)%nat →
  at_ (overlapAdd newReal fftWindow i resultData) j = at_ resultData j.
Proof.
  intros Hj. unfold overlapAdd.
  apply (fold_left_invariant (fun res => at_ res j = at_ resultData j)); [reflexivity|].
  intros res k Hk IH. apply elem_of_seq in Hk.
  rewrite at_insert. case_decide as Hd; [lia | exact IH].
Qed.

Lemma hopSize_value : hopSize = 512%nat.
Proof. reflexivity. Qed.

Lemma fftSize2048_value : fftSize2048 = 2048%nat.
Proof. reflexivity. Qed.

Lemma applyFourierMasking_result host audio st sourceBuffer targetBuffer :
  valid audio st sourceBuffer → valid audio st targetBuffer →
  ∃ st' result,
    applyFourierMasking host audio sourceBuffer targetBuffer st = (st', Ok result) ∧
    numberOfChannels result = 1%nat ∧
    bufferLength result = Nat.min (bufferLength sourceBuffer) (bufferLength targetBuffer) ∧
    sampleRate result = sampleRate sourceBuffer ∧
    ((Nat.min (bufferLength sourceBuffer) (bufferLength targetBuffer) < fftSize2048)%nat →
     ∀ i, sample st' result 0 i = 0%Q) ∧
    (∀ i, (2048 + 512 * ((Nat.min (bufferLength sourceBuffer) (bufferLength targetBuffer)
                          - 2048) / 512) <= i)%nat →
       sample st' result 0 i = 0%Q).
Proof.
  intros Hsrc Htgt.
  destruct (valid_channel0 audio st sourceBuffer Hsrc) as [rs Hcs].
  destruct (valid_channel0 audio st targetBuffer Htgt) as [rt Hct].
  pose proof Hsrc as (_ & _ & Hslen & Hrate & _). pose proof Htgt as (_ & _ & Htlen & _).
  set (len := Nat.min (bufferLength sourceBuffer) (bufferLength targetBuffer)).
  assert (Hshape : shapeRejected audio 1 len (sampleRate sourceBuffer) = false).
  { unfold shapeRejected. rewrite Hrate. cbn.
    destruct (Nat.eqb_spec len 0); [unfold len in *; lia | reflexivity]. }
  destruct (getFFT_returns host (Z.of_nat fftSize2048) st fftSize2048_accepted)
    as (fft & st1 & Hfft & Hheap1 & _).
  unfold applyFourierMasking. fold len.
  erewrite bind_ok; [|exact Hfft].
  erewrite bind_ok; [|apply createBuffer_spec, Hshape].
  set (n0 := length (heap st1)).
  set (resultBuffer := {| numberOfChannels := 1; bufferLength := len;
                          sampleRate := sampleRate sourceBuffer;
                          channelData := seq n0 1 |}).
  erewrite bind_ok; [|apply getChannelData_ok; reflexivity].
  erewrite bind_ok; [|apply getChannelData_ok, Hcs].
  erewrite bind_ok; [|apply getChannelData_ok, Hct].
  erewrite bind_ok; [|reflexivity].
  erewrite bind_ok; [|reflexivity].
  match goal with |- context [forEach ?l ?body] =>
    set (windows := l); set (frame := body) end.
  match goal with |- ∃ st' result, bind _ _ ?s = _ ∧ _ => set (st4 := s) end.
  assert (Hn0 : heap st4 !! n0 = Some (replicate len 0%Q)).
  { unfold st4, readArray, contents. cbn.
    rewrite list_lookup_insert_ne by (rewrite length_app; cbn; lia).
    rewrite lookup_app_l by (rewrite length_app; cbn; lia).
    rewrite lookup_app_r by lia. fold n0. rewrite Nat.sub_diag. reflexivity. }
  assert (Hframe : ∀ i, tracks n0 (frame i)
            (fun xs ys _ => ∃ newReal window, ys = overlapAdd newReal window i xs)).
  { intros i. unfold frame, newFloat32Array.
    eapply tracks_bind_keep; [apply tracks_allocArray|]. intros sourceReal HsourceReal.
    eapply tracks_bind_keep; [apply tracks_allocArray|]. intros targetReal HtargetReal.
    eapply tracks_bind_keep; [apply tracks_readArray|]. intros source _.
    eapply tracks_bind_keep; [apply tracks_readArray|]. intros target _.
    eapply tracks_bind_keep; [apply tracks_readArray|]. intros window _.
    eapply tracks_bind_keep; [apply tracks_modifyArray_other; lia|]. intros _ _.
    eapply tracks_bind_keep; [apply tracks_modifyArray_other; lia|]. intros _ _.
    eapply tracks_bind_keep; [apply tracks_allocArray|]. intros sourceImag HsourceImag.
    eapply tracks_bind_keep; [apply tracks_allocArray|]. intros targetImag HtargetImag.
    eapply tracks_bind_keep; [apply tracks_fft_call; lia|]. intros _ _.
    eapply tracks_bind_keep; [apply tracks_fft_call; lia|]. intros _ _.
    eapply tracks_bind_keep; [apply tracks_allocArray|]. intros newReal HnewReal.
    eapply tracks_bind_keep; [apply tracks_allocArray|]. intros newImag HnewImag.
    eapply tracks_bind_keep; [apply tracks_readArray|]. intros sRe _.
    eapply tracks_bind_keep; [apply tracks_readArray|]. intros sIm _.
    eapply tracks_bind_keep; [apply tracks_readArray|]. intros tRe _.
    eapply tracks_bind_keep; [apply tracks_readArray|]. intros tIm _.
    eapply tracks_bind_keep; [apply tracks_modifyArray_other; lia|]. intros _ _.
    eapply tracks_bind_keep; [apply tracks_modifyArray_other; lia|]. intros _ _.
    eapply tracks_bind_keep; [apply tracks_fft_call; lia|]. intros _ _.
    eapply tracks_bind_keep; [apply tracks_readArray|]. intros nRe _.
    intros s xs Hxs.
    destruct (tracks_modifyArray_self n0 (overlapAdd nRe window i) s xs Hxs)
      as (s' & a & ys & Hrun & Hys & ->).
    exists s', a, (overlapAdd nRe window i xs). split; [exact Hrun|]. split; [exact Hys|].
    eauto. }
  destruct (forEach_total
    (fun k s => ∃ xs, heap s !! n0 = Some xs ∧
                      ∀ j, (512 * k + 1536 <= j)%nat → at_ xs j = 0%Q)
    frame windows st4) as (st5 & Hloop & (xs5 & Hxs5 & Hzero5)).
  { exists (replicate len 0%Q). split; [exact Hn0|]. intros j _. apply at_zeros. }
  { intros k x s Hx (xs & Hxs & Hzero).
    destruct (countUp_lookup _ _ _ _ _ _ Hx) as [-> _].
    destruct (Hframe (0 + k * hopSize)%nat s xs Hxs) as (s' & [] & ys & Hrun & Hys & nRe & w & ->).
    exists s'. split; [exact Hrun|]. exists (overlapAdd nRe w (0 + k * hopSize) xs).
    split; [exact Hys|]. intros j Hj.
    rewrite overlapAdd_outside by (rewrite hopSize_value, fftSize2048_value; lia).
    apply Hzero. lia. }
  exists st5, resultBuffer. split.
  { unfold bind at 1. rewrite Hloop. reflexivity. }
  split; [reflexivity|]. split; [reflexivity|]. split; [reflexivity|].
  split.
  2:{ intros i Hi. unfold sample, channel, contents. cbn [channelData resultBuffer seq nth].
      rewrite Hxs5. apply Hzero5.
      destruct (decide (length windows = 0%nat)) as [Hw|Hw]; [rewrite Hw; lia|].
      destruct (lookup_lt_is_Some_2 windows (length windows - 1) ltac:(lia)) as [x Hx].
      destruct (countUp_lookup _ _ _ _ _ _ Hx) as [Hxv Hxb].
      rewrite hopSize_value in Hxv. rewrite fftSize2048_value in Hxb.
      pose proof (Nat.div_mod_eq (len - 2048) 512) as Hdiv.
      pose proof (Nat.mod_upper_bound (len - 2048) 512 ltac:(lia)) as Hmod.
      set (q := ((len - 2048) / 512)%nat) in *.
      set (n := length windows) in *.
      clearbody q n. clear -Hi Hw Hxv Hxb Hdiv Hmod. lia. }
  intros Hshort.
  assert (Hnone : windows = []).
  { unfold windows. replace (len + 1 - fftSize2048)%nat with 0%nat by lia.
    destruct len; reflexivity. }
  rewrite Hnone in Hloop. cbn in Hloop. inversion Hloop; subst st5.
  intros i. unfold sample, channel, contents. cbn [channelData resultBuffer seq nth].
  rewrite Hn0. apply at_zeros.
Qed.

Lemma run_returns host audio st sourceBuffer targetBuffer params type :
  valid audio st sourceBuffer → valid audio st targetBuffer →
  (0 < sampleRate sourceBuffer)%Q → (0 < sampleRate targetBuffer)%Q →
  type ≠ TRANSFORMATION_MORPH →
  hostAccepts type sourceBuffer targetBuffer = true →
  ∃ st' result,
    run host audio sourceBuffer targetBuffer params type st = (st', Ok result) ∧
    numberOfChannels result =
      (if returnsMono type then 1%nat else numberOfChannels targetBuffer) ∧
    sampleRate result =
      (if returnsMono type then sampleRate sourceBuffer else sampleRate targetBuffer).
Proof.
  intros Hsrc Htgt Hrs Hrt Htype Haccepts.
  pose proof (valid_shape audio st targetBuffer Htgt) as Hshape.
  destruct (valid_channel0 audio st sourceBuffer Hsrc) as [rs Hcs].
  destruct (valid_channel0 audio st targetBuffer Htgt) as [rt Hct].
  destruct type; cbn [run returnsMono hostAccepts] in *; try contradiction.
  - destruct (applyAmplitudeMapping_result audio st sourceBuffer targetBuffer Hsrc Htgt)
      as (st' & result & Hrun & _ & _ & _ & _ & Hn & _ & Hr & _). eauto.
  - unfold applySpectralShaping.
    erewrite bind_ok; [|apply newOfflineAudioContext_spec, Hshape].
    erewrite bind_ok; [|reflexivity]. erewrite bind_ok; [|reflexivity].
    match goal with |- context [startRendering audio ?ctx ?g] =>
      destruct (startRendering_spec audio ctx g st) as (rendered & _ & _ & _ & Hrender) end.
    eexists _, _. split; [exact Hrender|]. split; reflexivity.
  - destruct (applyRhythmicGating_result audio st sourceBuffer targetBuffer params Hsrc Htgt)
      as (st' & result & Hrun & _ & _ & _ & _ & Hn & _ & Hr & _). eauto.
  - destruct (applyConvolution_result audio st sourceBuffer targetBuffer Hsrc Htgt Haccepts)
      as (st' & result & Hrun & _ & _ & Hn & Hr & _). eauto.
  - unfold applyTimeScaleWarping.
    destruct (detectTransients_result host audio st sourceBuffer
                (default (18 # 10) (transientSensitivity params)) 50 Hsrc)
      as (ts & Hts & _ & _ & Hinc).
    destruct (detectTransients_result host audio st targetBuffer
                (default (18 # 10) (transientSensitivity params)) 50 Htgt)
      as (tt & Htt & _).
    erewrite bind_ok; [|exact Hts]. erewrite bind_ok; [|exact Htt].
    destruct (Z.leb_spec (Z.min (Z.of_nat (length ts)) (Z.of_nat (length tt)) - 1) 0)
      as [Hle|Hgt]; [eexists _, _; split; [reflexivity | split; reflexivity]|].
    set (numSegments := Z.min (Z.of_nat (length ts)) (Z.of_nat (length tt)) - 1) in *.
    set (totalDuration := fold_left _ (seq 0 (Z.to_nat numSegments)) 0%Q).
    assert (Htotal : (0 < totalDuration)%Q).
    { apply segment_durations_positive; [exact Hrs | lia | lia | exact Hinc]. }
    assert (Hshape' : shapeRejected audio (numberOfChannels targetBuffer)
                        (Z.to_nat (Qceiling (double (totalDuration * sampleRate targetBuffer))))
                        (sampleRate targetBuffer) = false).
    { pose proof Htgt as (_ & Hnch & _ & Hrate & _).
      unfold shapeRejected. rewrite Hrate.
      destruct (Nat.eqb_spec (numberOfChannels targetBuffer) 0); [lia|].
      assert (0 < Qceiling (double (totalDuration * sampleRate targetBuffer))).
      { apply Qceiling_pos, double_pos. apply Qmult_lt_0_compat; assumption. }
      destruct (Nat.eqb_spec
                  (Z.to_nat (Qceiling (double (totalDuration * sampleRate targetBuffer)))) 0);
        [lia | reflexivity]. }
    erewrite bind_ok; [|apply newOfflineAudioContext_spec, Hshape'].
    erewrite bind_ok; [|reflexivity].
    match goal with |- context [startRendering audio ?ctx ?g] =>
      destruct (startRendering_spec audio ctx g st) as (rendered & _ & _ & _ & Hrender) end.
    eexists _, _. split; [exact Hrender|]. split; reflexivity.
  - destruct (applySurfaceTranslationMapping_result host audio st sourceBuffer targetBuffer
                params Hsrc Htgt) as (st' & result & Hrun & -> & _).
    eexists _, _. split; [exact Hrun|]. split; reflexivity.
  - destruct (applyFourierMasking_result host audio st sourceBuffer targetBuffer Hsrc Htgt)
      as (st' & result & Hrun & Hn & _ & Hr & _). eauto.
  - unfold applyHarmonicImprinting.
    destruct (detectHarmonics_returns host sourceBuffer
                (default 12%Q (numHarmonics params)) (sampleRate targetBuffer) rs Hcs st)
      as (st1 & harmonics & Hrun & _).
    erewrite bind_ok; [|exact Hrun].
    destruct (length harmonics =? 0)%nat;
      [eexists _, _; split; [reflexivity | split; reflexivity]|].
    erewrite bind_ok; [|apply newOfflineAudioContext_spec, Hshape].
    erewrite bind_ok; [|reflexivity].
    match goal with |- context [startRendering audio ?ctx ?g] =>
      destruct (startRendering_spec audio ctx g st1) as (rendered & _ & _ & _ & Hrender) end.
    eexists _, _. split; [exact Hrender|]. split; reflexivity.
  - unfold applyInterferenceEchoes.
    assert (Hshape' : shapeRejected audio (numberOfChannels targetBuffer)
              (Z.to_nat (js_trunc (double (inject_Z (Z.of_nat (bufferLength targetBuffer))
                                           + double (sampleRate targetBuffer * 4)))))
              (sampleRate targetBuffer) = false).
    { pose proof Htgt as (_ & Hnch & Hlen & Hrate & _).
      unfold shapeRejected. rewrite Hrate.
      destruct (Nat.eqb_spec (numberOfChannels targetBuffer) 0); [lia|].
      set (x := double (inject_Z (Z.of_nat (bufferLength targetBuffer))
                        + double (sampleRate targetBuffer * 4))).
      assert (Hx : (inject_Z 1 <= x)%Q).
      { unfold x. change (inject_Z 1) with 1%Q. apply double_ge_1.
        assert (inject_Z 1 <= inject_Z (Z.of_nat (bufferLength targetBuffer)))%Q
          by (rewrite <- Zle_Qle; lia).
        pose proof (double_nonneg (sampleRate targetBuffer * 4) ltac:(lra)).
        change (inject_Z 1) with 1%Q in *. lra. }
      assert (Hfloor : 1 <= js_trunc x).
      { unfold js_trunc.
        assert (H0x : Qle_bool 0 x = true).
        { apply Qle_bool_iff. change (inject_Z 1) with 1%Q in Hx. lra. }
        rewrite H0x. apply Qfloor_resp_le in Hx. rewrite Qfloor_Z in Hx. exact Hx. }
      destruct (Nat.eqb_spec (Z.to_nat (js_trunc x)) 0); [lia | reflexivity]. }
    erewrite bind_ok; [|apply newOfflineAudioContext_spec, Hshape'].
    destruct (detectTransients_result host audio st sourceBuffer (18 # 10) 50 Hsrc)
      as (ts & Hts & _).
    erewrite bind_ok; [|exact Hts].
    destruct (length ts <=? 1)%nat;
      [eexists _, _; split; [reflexivity | split; reflexivity]|].
    erewrite bind_ok; [|reflexivity].
    match goal with |- context [startRendering audio ?ctx ?g] =>
      destruct (startRendering_spec audio ctx g st) as (rendered & _ & _ & _ & Hrender) end.
    eexists _, _. split; [exact Hrender|]. split; reflexivity.
  - unfold applyFormantShifting.
    destruct (detectFormants_returns host sourceBuffer
                (default 4%Q (numFormants params)) (sampleRate targetBuffer) rs Hcs st)
      as (st1 & formants & Hrun & _).
    erewrite bind_ok; [|exact Hrun].
    destruct (length formants =? 0)%nat;
      [eexists _, _; split; [reflexivity | split; reflexivity]|].
    erewrite bind_ok; [|apply newOfflineAudioContext_spec, Hshape].
    erewrite bind_ok; [|reflexivity].
    match goal with |- context [startRendering audio ?ctx ?g] =>
      destruct (startRendering_spec audio ctx g st1) as (rendered & _ & _ & _ & Hrender) end.
    eexists _, _. split; [exact Hrender|]. split; reflexivity.
  - destruct (applyDynamicRingModulation_result host audio st sourceBuffer targetBuffer params
                Hsrc Htgt) as (st' & result & Hrun & _ & _ & Hn & _ & Hr & _). eauto.
Qed.

Lemma run_returns_valid host audio st sourceBuffer targetBuffer params type :
  valid audio st sourceBuffer → valid audio st targetBuffer →
  (0 < sampleRate sourceBuffer)%Q → (0 < sampleRate targetBuffer)%Q →
  type ≠ TRANSFORMATION_MORPH →
  hostAccepts type sourceBuffer targetBuffer = true →
  ∃ st' result,
    run host audio sourceBuffer targetBuffer params type st = (st', Ok result) ∧
    valid audio st' result ∧ preserved st st'.
Proof.
  intros Hsrc Htgt Hrs Hrt Htype Haccepts.
  destruct (run_returns host audio st sourceBuffer targetBuffer params type
              Hsrc Htgt Hrs Hrt Htype Haccepts) as (st' & result & Hrun & _).
  exists st', result. split; [exact Hrun|].
  destruct (run_result host audio (length (heap st)) sourceBuffer targetBuffer params type
              st st' result ltac:(lia) Htgt Hrun) as [Hg Hv].
  split; [exact Hv | apply grows_preserved, Hg].
Qed.

(** the only refusal is the convolver's *)
Lemma run_rejected host audio st sourceBuffer targetBuffer params type :
  valid audio st sourceBuffer → valid audio st targetBuffer →
  hostAccepts type sourceBuffer targetBuffer = false →
  type = CONVOLUTION ∧
  run host audio sourceBuffer targetBuffer params type st = (st, Throw "NotSupportedError").
Proof.
  intros Hsrc Htgt Hrejects. destruct type; cbn [hostAccepts] in Hrejects; try discriminate.
  split; [reflexivity|]. cbn [run]. apply applyConvolution_rejected; assumption.
Qed.

(** X13. Which runs throw on buffers of the host.  For valid source and
    target buffers with positive sample rates, the only operator that
    throws is Convolution Morphing, and it throws only when the convolver
    of the host refuses the source (a channel count other than 1, 2 and
    4, or a sample rate other than the target's): then it throws
    [NotSupportedError] and leaves the store as it was.  Every other run
    of a transformation type other than Transformation Morphing returns a
    valid buffer and keeps every array that existed before; a morph of
    two such runs returns a valid buffer too, and a morph of two
    operators with a refused Convolution Morphing among them throws
    [NotSupportedError].  A morph that is given Transformation Morphing
    itself as one of its two operators throws. *)
Theorem operators_return_unless_refused host audio st sourceBuffer targetBuffer params :
  valid audio st sourceBuffer → valid audio st targetBuffer →
  (0 < sampleRate sourceBuffer)%Q → (0 < sampleRate targetBuffer)%Q →
  (∀ type, type ≠ TRANSFORMATION_MORPH →
     hostAccepts type sourceBuffer targetBuffer = true →
     ∃ st' result,
       run host audio sourceBuffer targetBuffer params type st = (st', Ok result) ∧
       valid audio st' result ∧ preserved st st') ∧
  (∀ type, hostAccepts type sourceBuffer targetBuffer = false →
     type = CONVOLUTION ∧
     run host audio sourceBuffer targetBuffer params type st
       = (st, Throw "NotSupportedError")) ∧
  (∀ transformA transformB,
     transformA ≠ TRANSFORMATION_MORPH → transformB ≠ TRANSFORMATION_MORPH →
     hostAccepts transformA sourceBuffer targetBuffer = true →
     hostAccepts transformB sourceBuffer targetBuffer = true →
     ∃ st' result,
       applyTransformationMorph host audio sourceBuffer targetBuffer transformA transformB
         params st = (st', Ok result) ∧
       valid audio st' result ∧ preserved st st') ∧
  (∀ transformA transformB,
     transformA ≠ TRANSFORMATION_MORPH → transformB ≠ TRANSFORMATION_MORPH →
     hostAccepts transformA sourceBuffer targetBuffer = false
     ∨ hostAccepts transformB sourceBuffer targetBuffer = false →
     ∃ st',
       applyTransformationMorph host audio sourceBuffer targetBuffer transformA transformB
         params st = (st', Throw "NotSupportedError")) ∧
  (∀ transformA transformB,
     transformA = TRANSFORMATION_MORPH ∨ transformB = TRANSFORMATION_MORPH →
     ∃ st' message,
       applyTransformationMorph host audio sourceBuffer targetBuffer transformA transformB
         params st = (st', Throw message)).
Proof.
  intros Hsrc Htgt Hrs Hrt. split_and!.
  - intros type Htype Haccepts. apply run_returns_valid; assumption.
  - intros type Hrejects. apply run_rejected; assumption.
  - intros transformA transformB HA HB HaccA HaccB.
    destruct (run_returns_valid host audio st sourceBuffer targetBuffer params transformA
                Hsrc Htgt Hrs Hrt HA HaccA) as (stA & resultA & HrunA & HvA & HpA).
    destruct (run_returns_valid host audio stA sourceBuffer targetBuffer params transformB
                (valid_preserved audio st stA _ Hsrc HpA)
                (valid_preserved audio st stA _ Htgt HpA) Hrs Hrt HB HaccB)
      as (stB & resultB & HrunB & HvB & HpB).
    pose proof (valid_preserved audio stA stB _ HvA HpB) as HvA'.
    unfold applyTransformationMorph, attempt.
    unfold bind at 1. rewrite HrunA. unfold bind at 1. rewrite HrunB.
    pose proof (crossfade_spec audio resultA resultB params stB HvA' HvB) as Hcross.
    cbv zeta in Hcross. eexists _, _. split; [exact Hcross|].
    split.
    + apply fresh_buffer_valid.
      * destruct HvA' as (_ & HA1 & HA2 & HA3 & _). destruct HvB as (_ & HB1 & HB2 & _).
        unfold shapeRejected. cbn. rewrite HA3.
        destruct (Nat.eqb_spec (Nat.min (numberOfChannels resultA) (numberOfChannels resultB))
                    0); [lia|].
        destruct (Nat.eqb_spec (Nat.max (bufferLength resultA) (bufferLength resultB)) 0);
          [lia | reflexivity].
      * apply renderGainMix_length.
      * apply renderGainMix_channels.
    + eapply preserved_trans; [exact HpA|]. eapply preserved_trans; [exact HpB|].
      apply preserved_app. reflexivity.
  - intros transformA transformB HA HB Hrejects.
    unfold applyTransformationMorph, attempt.
    destruct (hostAccepts transformA sourceBuffer targetBuffer) eqn:HaccA.
    + destruct Hrejects as [Hr|HaccB]; [discriminate|].
      destruct (run_returns_valid host audio st sourceBuffer targetBuffer params transformA
                  Hsrc Htgt Hrs Hrt HA HaccA) as (stA & resultA & HrunA & HvA & HpA).
      destruct (run_rejected host audio stA sourceBuffer targetBuffer params transformB
                  (valid_preserved audio st stA _ Hsrc HpA)
                  (valid_preserved audio st stA _ Htgt HpA) HaccB) as [_ HrunB].
      unfold bind at 1. rewrite HrunA. unfold bind at 1. rewrite HrunB.
      exists stA. reflexivity.
    + destruct (run_rejected host audio st sourceBuffer targetBuffer params transformA
                  Hsrc Htgt HaccA) as [_ HrunA].
      unfold bind at 1. rewrite HrunA. unfold bind at 1.
      destruct (run host audio sourceBuffer targetBuffer params transformB st)
        as [stB oB]. exists stB. reflexivity.
  - intros transformA transformB Hmorph.
    unfold applyTransformationMorph, attempt, bind.
    destruct (run host audio sourceBuffer targetBuffer params transformA st)
      as [stA [resultA|eA]] eqn:HA.
    + destruct Hmorph as [->| ->]; [cbn in HA; discriminate|].
      cbn [run]. unfold throw. eauto.
    + destruct (run host audio sourceBuffer targetBuffer params transformB stA)
        as [stB oB]. unfold throw. eauto.
Qed.

Lemma operators_return_unless_refused_witness :
  let st := stateOf [[1 # 2; -1 # 4; 0]; [1; 1]; [0; 3]]%Q in
  let src := monoBuffer 3 0 in
  let tgt := {| numberOfChannels := 2; bufferLength := 2; sampleRate := 44100;
                channelData := [1; 2]%nat |} in
  ∃ st' result,
    applyTransformationMorph exampleMath exampleAudio src tgt TIME_WARP CONVOLUTION
      noParams st = (st', Ok result) ∧
    valid exampleAudio st' result ∧ preserved st st'.
Proof.
  intros st src tgt.
  destruct (operators_return_unless_refused exampleMath exampleAudio st src tgt noParams)
    as (_ & _ & Hmorph & _); [prove_valid | prove_valid | reflexivity | reflexivity |].
  apply Hmorph; try discriminate; reflexivity.
Defined.

(** ** The morph as a blend *)

(** X14. When the two operators of a morph return buffers with the same
    channel count and the same sample rate, the morph is their linear
    blend: each sample of the output is (1 - morphPosition) times the
    sample of the first result plus morphPosition times the sample of the
    second, a result counting as silent after its last frame.  With a
    position between 0 and 1 no output sample is larger in absolute value
    than the larger of the two. *)
Theorem morph_is_linear_blend host audio st sourceBuffer targetBuffer transformA transformB
    params stA resultA stB resultB :
  valid audio st sourceBuffer → valid audio st targetBuffer →
  run host audio sourceBuffer targetBuffer params transformA st = (stA, Ok resultA) →
  run host audio sourceBuffer targetBuffer params transformB stA = (stB, Ok resultB) →
  numberOfChannels resultA = numberOfChannels resultB →
  (sampleRate resultB == sampleRate resultA)%Q →
  let position := default (5 # 10) (morphPosition params) in
  ∃ st' result,
    applyTransformationMorph host audio sourceBuffer targetBuffer transformA transformB
      params st = (st', Ok result) ∧
    numberOfChannels result = numberOfChannels resultA ∧
    bufferLength result = Nat.max (bufferLength resultA) (bufferLength resultB) ∧
    (∀ c i, (c < numberOfChannels result)%nat → (i < bufferLength result)%nat →
       (sample st' result c i ==
          (1 - position) * sample stA resultA c i + position * sample stB resultB c i)%Q) ∧
    ((0 <= position)%Q → (position <= 1)%Q →
     ∀ c i, (c < numberOfChannels result)%nat → (i < bufferLength result)%nat →
       (Qabs (sample st' result c i) <=
          Qabs (sample stA resultA c i) ∨
        Qabs (sample st' result c i) <= Qabs (sample stB resultB c i))%Q).
Proof.
  intros Hvs Hvt HrunA HrunB Hnch Hrate position.
  destruct (run_result host audio (length (heap st)) _ _ _ _ _ _ _ (Nat.le_refl _) Hvt HrunA)
    as [HgA HvA].
  assert (HvtA : valid audio stA targetBuffer) by (eapply valid_grows; eassumption).
  destruct (run_result host audio (length (heap stA)) _ _ _ _ _ _ _ (Nat.le_refl _) HvtA HrunB)
    as [HgB HvB].
  apply grows_preserved in HgB.
  assert (HvAB : valid audio stB resultA) by (eapply valid_preserved; eassumption).
  set (ctx := {| ctxChannels := Nat.min (numberOfChannels resultA) (numberOfChannels resultB);
                 ctxLength := Nat.max (bufferLength resultA) (bufferLength resultB);
                 ctxSampleRate := sampleRate resultA |}).
  set (inputs := [((1 - position)%Q, snapshot stB resultA); (position, snapshot stB resultB)]).
  set (st' := set_heap (heap stB ++ renderGainMix audio ctx inputs) stB).
  set (result := {| numberOfChannels := ctxChannels ctx; bufferLength := ctxLength ctx;
                    sampleRate := ctxSampleRate ctx;
                    channelData := seq (length (heap stB)) (ctxChannels ctx) |}).
  assert (HlenA : length (channelData resultA) = numberOfChannels resultA)
    by (destruct HvA as (H & _); exact H).
  assert (HlenB : length (channelData resultB) = numberOfChannels resultB)
    by (destruct HvB as (H & _); exact H).
  assert (Hblend : ∀ c i, (c < numberOfChannels result)%nat → (i < bufferLength result)%nat →
            (sample st' result c i ==
               (1 - position) * sample stA resultA c i + position * sample stB resultB c i)%Q).
  { intros c i Hc Hi. cbn in Hc, Hi.
    assert (Hs : sample st' result c i = gainMixSample audio ctx inputs c i).
    { unfold sample, st', result. rewrite fresh_channel by exact Hc.
      unfold renderGainMix.
      erewrite (nth_lookup_Some _ c [] _).
      2:{ rewrite list_lookup_fmap, lookup_seq_lt by exact Hc. reflexivity. }
      unfold at_. apply nth_lookup_Some.
      rewrite list_lookup_fmap, lookup_seq_lt by exact Hi. reflexivity. }
    rewrite Hs. unfold gainMixSample, inputs. cbn [fold_left].
    rewrite (playedSignal_same audio ctx stB resultA); [|reflexivity | cbn; lia].
    rewrite (playedSignal_same audio ctx stB resultB); [|exact Hrate | cbn; lia].
    rewrite !snapshot_channel by lia.
    rewrite (channel_preserved audio stA stB resultA c HvA HgB) by lia.
    fold (sample stA resultA c i). fold (sample stB resultB c i). ring. }
  exists st', result. split.
  { unfold applyTransformationMorph.
    erewrite bind_ok; [|unfold attempt; rewrite HrunA; reflexivity].
    erewrite bind_ok; [|unfold attempt; rewrite HrunB; reflexivity].
    apply crossfade_spec; assumption. }
  split_and!.
  - cbn. lia.
  - reflexivity.
  - exact Hblend.
  - intros H0 H1 c i Hc Hi. rewrite (Hblend c i Hc Hi).
    set (a := sample stA resultA c i). set (b := sample stB resultB c i).
    destruct (Qlt_le_dec (Qabs a) (Qabs b)) as [Hab|Hba].
    + right. apply Qabs_Qle_condition.
      pose proof (Qabs_Qle_condition a (Qabs a)) as [Ha _].
      pose proof (Qabs_Qle_condition b (Qabs b)) as [Hb _].
      specialize (Ha ltac:(lra)). specialize (Hb ltac:(lra)).
      set (x := Qabs a) in *. set (y := Qabs b) in *. split; nra.
    + left. apply Qabs_Qle_condition.
      pose proof (Qabs_Qle_condition a (Qabs a)) as [Ha _].
      pose proof (Qabs_Qle_condition b (Qabs b)) as [Hb _].
      specialize (Ha ltac:(lra)). specialize (Hb ltac:(lra)).
      set (x := Qabs a) in *. set (y := Qabs b) in *. split; nra.
Qed.

Lemma morph_is_linear_blend_witness :
  let st := stateOf [[1 # 2; -1 # 4; 0]; [1; 1]]%Q in
  let src := monoBuffer 3 0 in
  let tgt := monoBuffer 2 1 in
  ∃ stA resultA stB resultB,
    run exampleMath exampleAudio src tgt noParams AMPLITUDE st = (stA, Ok resultA) ∧
    run exampleMath exampleAudio src tgt noParams RHYTHMIC stA = (stB, Ok resultB) ∧
    ∃ st' result,
      applyTransformationMorph exampleMath exampleAudio src tgt AMPLITUDE RHYTHMIC
        noParams st = (st', Ok result) ∧
      ∀ c i, (c < numberOfChannels result)%nat → (i < bufferLength result)%nat →
        (sample st' result c i ==
           (1 - (5 # 10)) * sample stA resultA c i + (5 # 10) * sample stB resultB c i)%Q.
Proof.
  intros st src tgt.
  assert (H1 : valid exampleAudio st src) by prove_valid.
  assert (H2 : valid exampleAudio st tgt) by prove_valid.
  destruct (applyAmplitudeMapping_result exampleAudio st src tgt H1 H2)
    as (stA & resultA & HrunA & HpA & _ & _ & _ & HnA & _ & HrA & _).
  assert (H1A : valid exampleAudio stA src) by (eapply valid_preserved; eassumption).
  assert (H2A : valid exampleAudio stA tgt) by (eapply valid_preserved; eassumption).
  destruct (applyRhythmicGating_result exampleAudio stA src tgt noParams H1A H2A)
    as (stB & resultB & HrunB & _ & _ & _ & _ & HnB & _ & HrB & _).
  exists stA, resultA, stB, resultB.
  split; [exact HrunA|]. split; [exact HrunB|].
  destruct (morph_is_linear_blend exampleMath exampleAudio st src tgt AMPLITUDE RHYTHMIC
              noParams stA resultA stB resultB H1 H2 HrunA HrunB)
    as (st' & result & Hrun & _ & _ & Hblend & _).
  - rewrite HnA, HnB. reflexivity.
  - rewrite HrA, HrB. reflexivity.
  - exists st', result. split; [exact Hrun | exact Hblend].
Defined.

(** ** The detected frequencies *)

Lemma findPeaks_subset (magnitudes : list (Q * Q)) p :
  p ∈ findPeaks magnitudes → p ∈ magnitudes.
Proof.
  unfold findPeaks.
  apply (fold_left_invariant (fun peaks => p ∈ peaks → p ∈ magnitudes)).
  - intros H. apply elem_of_nil in H. contradiction.
  - intros peaks i Hi IH. apply elem_of_seq in Hi.
    destruct (_ && _); [|exact IH].
    intros H. apply elem_of_app in H as [H|H]; [apply IH, H|].
    apply list_elem_of_singleton in H. subst p.
    destruct (lookup_lt_is_Some_2 magnitudes i ltac:(lia)) as [x Hx].
    rewrite (nth_lookup_Some _ _ _ _ Hx). eapply list_elem_of_lookup_2, Hx.
Qed.

Lemma topFrequencies_subset n (peaks : list (Q * Q)) f :
  f ∈ topFrequencies n peaks → ∃ p, p ∈ peaks ∧ fst p = f.
Proof.
  unfold topFrequencies, sliceTo. intros H.
  apply list_elem_of_fmap in H as (p & -> & Hp). exists p. split; [|reflexivity].
  apply elem_of_take in Hp as (i & Hp & _). apply list_elem_of_lookup_2 in Hp.
  apply (elem_of_Permutation_proper _ _ _
           (sortBy_perm (fun a b : Q * Q => Qltb (snd a) (snd b)) peaks)). exact Hp.
Qed.

Lemma topFrequencies_length n (peaks : list (Q * Q)) :
  (0 <= n)%Q → (length (topFrequencies n peaks) <= Z.to_nat (Qfloor n))%nat.
Proof.
  intros Hn. unfold topFrequencies, sliceTo, js_trunc.
  assert (H0 : Qle_bool 0 n = true) by (apply Qle_bool_iff, Hn). rewrite H0.
  assert (Hf : 0 <= Qfloor n).
  { apply Qfloor_resp_le in Hn. exact Hn. }
  rewrite length_fmap, length_take.
  destruct (Z.ltb_spec (Qfloor n) 0); lia.
Qed.

Lemma filter_all {A} (P : A → Prop) `{∀ x, Decision (P x)} (l : list A) :
  Forall P l → filter P l = l.
Proof.
  induction 1 as [|x l Hx _ IH]; [reflexivity|].
  rewrite filter_cons. destruct (decide (P x)); [|contradiction]. rewrite IH. reflexivity.
Qed.

Lemma fftSize8192_value : Z.of_nat fftSize8192 = 8192.
Proof. vm_compute. reflexivity. Qed.

Lemma half_bins : Z.of_nat (fftSize8192 / 2 - 1) = 4095.
Proof. vm_compute. reflexivity. Qed.

(** the frequency of a bin below the middle of the spectrum *)
Lemma bin_frequency_range host rate real imag (p : Q * Q) :
  (0 < rate)%Q →
  p ∈ binMagnitude host rate real imag <$> seq 1 (fftSize8192 / 2 - 1) →
  (0 < fst p)%Q ∧ (fst p < rate / 2)%Q.
Proof.
  intros Hrate Hp. apply list_elem_of_fmap in Hp as (i & -> & Hi).
  apply elem_of_seq in Hi. pose proof half_bins as Hbins.
  unfold binMagnitude. cbn [fst]. rewrite fftSize8192_value.
  assert (H1 : (inject_Z 1 <= inject_Z (Z.of_nat i))%Q) by (rewrite <- Zle_Qle; lia).
  assert (H2 : (inject_Z (Z.of_nat i) <= inject_Z 4095)%Q) by (rewrite <- Zle_Qle; lia).
  set (q := inject_Z (Z.of_nat i)) in *.
  change (inject_Z 1) with 1%Q in H1. change (inject_Z 4095) with 4095%Q in H2.
  unfold Qdiv. change (/ inject_Z 8192)%Q with (1 # 8192)%Q. change (/ 2)%Q with (1 # 2)%Q.
  split; nra.
Qed.

Lemma audibleFrequencies_all rate (frequencies : list Q) :
  (∀ f, f ∈ frequencies → (0 < f)%Q ∧ (f < rate / 2)%Q) →
  audibleFrequencies rate frequencies = frequencies.
Proof.
  intros H. unfold audibleFrequencies. apply filter_all, Forall_forall.
  intros f Hf. destruct (H f Hf) as [H0 H1].
  apply andb_true_iff. split; apply Qltb_lt; assumption.
Qed.

(** X15. The frequencies [detectHarmonics] and [detectFormants] return
    lie strictly between 0 and half of the rate they are given (formants
    in [300, 5000] as well), and there are at most [n] of them for a
    requested number [n >= 0]; both calls return on every buffer of the
    host.  So the check [freq > 0 && freq < sampleRate / 2] of Harmonic
    Imprinting and Formant Shifting never drops a detected frequency. *)
Theorem detected_frequencies_in_band host audio st buffer n rate :
  valid audio st buffer → (0 < rate)%Q → (0 <= n)%Q →
  (∃ st' harmonics,
     detectHarmonics host buffer n rate st = (st', Ok harmonics) ∧
     (length harmonics <= Z.to_nat (Qfloor n))%nat ∧
     (∀ f, f ∈ harmonics → (0 < f)%Q ∧ (f < rate / 2)%Q) ∧
     audibleFrequencies rate harmonics = harmonics) ∧
  (∃ st' formants,
     detectFormants host buffer n rate st = (st', Ok formants) ∧
     (length formants <= Z.to_nat (Qfloor n))%nat ∧
     (∀ f, f ∈ formants →
        (0 < f)%Q ∧ (f < rate / 2)%Q ∧ (300 <= f)%Q ∧ (f <= 5000)%Q) ∧
     audibleFrequencies rate formants = formants).
Proof.
  intros Hv Hrate Hn. destruct (valid_channel0 audio st buffer Hv) as [r Hr].
  destruct (spectrumOfChannel0_returns host buffer r Hr st) as (st' & [re im] & Hrun & _).
  split.
  - assert (Hband : ∀ f,
              f ∈ topFrequencies n (findPeaks (harmonicMagnitudes host rate re im)) →
              (0 < f)%Q ∧ (f < rate / 2)%Q).
    { intros f Hf. apply topFrequencies_subset in Hf as (p & Hp & <-).
      apply findPeaks_subset in Hp.
      apply (bin_frequency_range host rate re im p Hrate Hp). }
    exists st', (topFrequencies n (findPeaks (harmonicMagnitudes host rate re im))).
    split_and!.
    + unfold detectHarmonics. erewrite bind_ok; [|exact Hrun]. reflexivity.
    + apply topFrequencies_length, Hn.
    + exact Hband.
    + apply audibleFrequencies_all, Hband.
  - assert (Hband : ∀ f,
              f ∈ topFrequencies n (findPeaks (formantMagnitudes host rate re im)) →
              (0 < f)%Q ∧ (f < rate / 2)%Q ∧ (300 <= f)%Q ∧ (f <= 5000)%Q).
    { intros f Hf. apply topFrequencies_subset in Hf as (p & Hp & <-).
      apply findPeaks_subset in Hp. unfold formantMagnitudes in Hp.
      apply list_elem_of_filter in Hp as [Hrange Hp].
      apply andb_true_iff in Hrange as [Hlo Hhi].
      apply Qle_bool_iff in Hlo, Hhi.
      destruct (bin_frequency_range host rate re im p Hrate Hp) as [H0 H1].
      split_and!; assumption. }
    exists st', (topFrequencies n (findPeaks (formantMagnitudes host rate re im))).
    split_and!.
    + unfold detectFormants. erewrite bind_ok; [|exact Hrun]. reflexivity.
    + apply topFrequencies_length, Hn.
    + exact Hband.
    + apply audibleFrequencies_all. intros f Hf. destruct (Hband f Hf) as (? & ? & _).
      split; assumption.
Qed.

Lemma detected_frequencies_in_band_witness :
  let st := stateOf [[1 # 2; -1 # 4; 0]]%Q in
  ∃ st' harmonics,
    detectHarmonics exampleMath (monoBuffer 3 0) 12 44100 st = (st', Ok harmonics) ∧
    (length harmonics <= 12)%nat ∧
    (∀ f, f ∈ harmonics → (0 < f)%Q ∧ (f < 44100 / 2)%Q) ∧
    audibleFrequencies 44100 harmonics = harmonics.
Proof.
  intros st.
  destruct (detected_frequencies_in_band exampleMath exampleAudio st (monoBuffer 3 0) 12 44100)
    as [H _]; [prove_valid | reflexivity | discriminate |].
  exact H.
Defined.

(** ** Operators driven by the transients of the source *)

Lemma pickTransients_grid (energies : list Q) threshold minSeparation m :
  let state :=
    fold_left
      (fun '(transients, lastTransient) i =>
         if Qltb (at_ energies (i - 1) * threshold)%Q (at_ energies i)
         then
           let sampleIndex := (Z.of_nat i * Z.of_nat chunkSize)%Z in
           if (minSeparation <? sampleIndex - lastTransient)%Z
           then (transients ++ [sampleIndex], sampleIndex)
           else (transients, lastTransient)
         else (transients, lastTransient))
      (seq 1 m) ([0%Z], 0%Z) in
  Forall (fun t => ∃ c, t = Z.of_nat c * Z.of_nat chunkSize ∧ (c <= m)%nat) (fst state) ∧
  (length (fst state) <= S m)%nat.
Proof.
  induction m as [|m IH]; cbv zeta.
  - cbn [seq fold_left fst]. split; [|cbn; lia].
    apply Forall_cons. split; [exists 0%nat; split; [reflexivity | lia] | apply Forall_nil_2].
  - rewrite seq_S, fold_left_app. cbn [fold_left Nat.add].
    cbv zeta in IH. destruct (fold_left _ (seq 1 m) _) as [ts lastT].
    cbn [fst] in IH. destruct IH as [Hgrid Hcount].
    assert (Hweak : Forall (fun t => ∃ c, t = Z.of_nat c * Z.of_nat chunkSize ∧ (c <= S m)%nat)
                      ts).
    { eapply Forall_impl; [exact Hgrid|]. intros t (c & -> & Hc). exists c. split; [done | lia]. }
    destruct (Qltb _ _); [|cbn [fst]; split; [exact Hweak | lia]].
    destruct (_ <? _)%Z; [|cbn [fst]; split; [exact Hweak | lia]].
    cbn [fst]. split.
    + apply Forall_app. split; [exact Hweak|].
      apply Forall_cons. split; [exists (S m); split; [reflexivity | lia] | apply Forall_nil_2].
    + rewrite length_app. cbn. lia.
Qed.

(** a buffer of [n] chunks gives at most [n + 1] transients *)
Lemma detectTransients_count host audio st buffer threshold minSeparationMs :
  valid audio st buffer →
  ∃ transients,
    detectTransients host buffer threshold minSeparationMs st = (st, Ok transients) ∧
    Z.of_nat (length transients) <= (Z.of_nat (bufferLength buffer) + 511) / 512 + 1.
Proof.
  intros Hv.
  assert (H0 : (0 < numberOfChannels buffer)%nat) by (destruct Hv as (_ & ? & _); lia).
  assert (Hlen0 : (0 < bufferLength buffer)%nat) by (destruct Hv as (_ & _ & ? & _); lia).
  destruct (valid_ref_lt _ _ _ _ Hv H0) as (r & xs & Hr & Hxs & Hl & _).
  unfold detectTransients.
  erewrite bind_ok; [|apply getChannelData_ok, Hr].
  erewrite bind_ok.
  2:{ unfold readArray. rewrite (contents_lookup _ _ _ Hxs). reflexivity. }
  set (minSep := minSeparationFrames (sampleRate buffer) minSeparationMs).
  pose proof (pickTransients_grid (chunkEnergies host xs) threshold minSep
                (length (chunkEnergies host xs) - 1)) as Hgrid.
  cbv zeta in Hgrid. unfold pickTransients.
  destruct (fold_left _ (seq 1 _) _) as [ts lastT]. cbn [fst] in Hgrid.
  destruct Hgrid as [_ Hcount].
  destruct (chunkEnergies_last_start host xs) as [Hn Hstart]; [lia|].
  set (chunks := length (chunkEnergies host xs)) in *.
  assert (Hchunks : Z.of_nat chunks <= (Z.of_nat (bufferLength buffer) + 511) / 512).
  { apply Z.div_le_lower_bound; [lia|]. unfold chunkSize in *. lia. }
  eexists. split; [reflexivity|].
  unfold withFinalFrame. destruct (_ <? _)%Z; [rewrite length_app; cbn [length]|]; lia.
Qed.

(** a list of transients has one entry exactly for a buffer of one frame *)
Lemma transients_count (transients : list Z) len :
  (0 < len)%nat →
  transients !! 0%nat = Some 0 →
  last transients = Some (Z.of_nat len - 1) →
  (∀ i a b, transients !! i = Some a → transients !! S i = Some b → a < b) →
  (len = 1%nat → length transients = 1%nat) ∧ ((1 < len)%nat → (1 < length transients)%nat).
Proof.
  intros Hlen Hhead Hlast Hadj.
  assert (Hne : (0 < length transients)%nat) by (eapply lookup_lt_Some, Hhead).
  rewrite last_lookup in Hlast.
  split.
  - intros ->. destruct (decide (length transients = 1%nat)) as [|Hn]; [assumption|].
    assert (Htrans : ∀ a b c : Z, a < b → b < c → a < c) by (intros; lia).
    pose proof (adjacent_all (fun a b => a < b) transients Htrans Hadj
                  0%nat (Nat.pred (length transients)) 0 (Z.of_nat 1 - 1) ltac:(lia)
                  Hhead Hlast) as Habs. cbv beta in Habs. lia.
  - intros Hgt. destruct (decide (length transients = 1%nat)) as [Hn|Hn]; [|lia].
    rewrite Hn in Hlast. cbn in Hlast. rewrite Hhead in Hlast. inversion Hlast. lia.
Qed.

(** *** The duration that Time Scale Warping sums in doubles *)

Lemma unitRoundoff_range : (0 < unitRoundoff)%Q ∧ (unitRoundoff <= 1)%Q.
Proof. split; vm_compute; [reflexivity | discriminate]. Qed.

Lemma double_near x :
  (0 <= x)%Q →
  (x * (1 - unitRoundoff) <= double x)%Q ∧ (double x <= x * (1 + unitRoundoff))%Q.
Proof.
  intros Hx. pose proof (roundToBits_error 53 x) as Herr.
  rewrite (Qabs_pos x) in Herr by exact Hx.
  apply Qabs_Qle_condition in Herr. unfold double, unitRoundoff.
  change (- (53))%Z with (-53)%Z in Herr. destruct Herr as [Hlo Hhi]. split; lra.
Qed.

Lemma accumulate_upper (S q T F T' A u : Q) :
  (0 <= S)%Q → (0 <= q)%Q → (0 <= u)%Q → (u <= A)%Q → (A <= 1)%Q →
  (T <= S * (1 + A))%Q → (F <= q * (1 + u))%Q → (0 <= T + F)%Q →
  (T' <= (T + F) * (1 + u))%Q →
  (T' <= (S + q) * (1 + (A + 2 * u)))%Q.
Proof.
  intros HS Hq Hu HuA HA HT HF HTF HT'.
  assert (P1 : (0 <= q * (A - u))%Q) by (apply Qmult_le_0_compat; lra).
  assert (H1 : (T + F <= (S + q) * (1 + A))%Q) by lra.
  assert (P2 : (0 <= ((S + q) * (1 + A) - (T + F)) * (1 + u))%Q)
    by (apply Qmult_le_0_compat; lra).
  assert (P3 : (0 <= (S + q) * u * (1 - A))%Q)
    by (repeat apply Qmult_le_0_compat; lra).
  lra.
Qed.

Lemma accumulate_lower (S q T F T' B u : Q) :
  (0 <= S)%Q → (0 <= q)%Q → (0 <= u)%Q → (u <= 1)%Q → (u <= B)%Q → (B <= 1)%Q →
  (S * (1 - B) <= T)%Q → (q * (1 - u) <= F)%Q →
  ((T + F) * (1 - u) <= T')%Q →
  ((S + q) * (1 - (B + u)) <= T')%Q.
Proof.
  intros HS Hq Hu Hu1 HuB HB HT HF HT'.
  assert (P1 : (0 <= q * (B - u))%Q) by (apply Qmult_le_0_compat; lra).
  assert (H1 : ((S + q) * (1 - B) <= T + F)%Q) by lra.
  assert (P2 : (0 <= ((T + F) - (S + q) * (1 - B)) * (1 - u))%Q)
    by (apply Qmult_le_0_compat; lra).
  assert (P3 : (0 <= (S + q) * B * u)%Q)
    by (repeat apply Qmult_le_0_compat; lra).
  lra.
Qed.

Lemma inject_Z_ge1 z : 1 <= z → (1 <= inject_Z z)%Q.
Proof. intros H. change 1%Q with (inject_Z 1). rewrite <- Zle_Qle. exact H. Qed.

(** the rounded sum of the segment durations, against the exact one *)
Lemma warp_duration_near (ts : list Z) (rate : Q) n :
  (0 < rate)%Q → (n < length ts)%nat →
  (∀ i a b, ts !! i = Some a → ts !! S i = Some b → a < b) →
  (inject_Z (2 * (Z.of_nat n + 1)) * unitRoundoff <= 1)%Q →
  let total :=
    fold_left
      (fun total i =>
         double (total + double (inject_Z (nth (i + 1) ts 0%Z - nth i ts 0%Z) / rate)))
      (seq 0 n) 0%Q in
  let exact := (inject_Z (nth n ts 0%Z - nth 0 ts 0%Z) / rate)%Q in
  (0 <= exact)%Q ∧
  (exact * (1 - inject_Z (Z.of_nat n + 1) * unitRoundoff) <= total)%Q ∧
  (total <= exact * (1 + inject_Z (2 * (Z.of_nat n + 1)) * unitRoundoff))%Q.
Proof.
  intros Hrate. destruct unitRoundoff_range as [Hu0 Hu1].
  induction n as [|n IH]; intros Hlen Hadj Hsmall; cbv zeta.
  - cbn [seq fold_left]. rewrite Z.sub_diag.
    assert (E : (inject_Z 0 / rate == 0)%Q) by (unfold Qdiv; change (inject_Z 0) with 0%Q; ring).
    rewrite E. split_and!; lra.
  - assert (Hn1 : (1 <= inject_Z (Z.of_nat n + 1))%Q) by (apply inject_Z_ge1; lia).
    assert (EA : (inject_Z (2 * (Z.of_nat (S n) + 1)) == inject_Z (2 * (Z.of_nat n + 1)) + 2)%Q).
    { replace (2 * (Z.of_nat (S n) + 1)) with (2 * (Z.of_nat n + 1) + 2) by lia.
      rewrite inject_Z_plus. reflexivity. }
    assert (EB : (inject_Z (Z.of_nat (S n) + 1) == inject_Z (Z.of_nat n + 1) + 1)%Q).
    { replace (Z.of_nat (S n) + 1) with (Z.of_nat n + 1 + 1) by lia.
      rewrite inject_Z_plus. reflexivity. }
    assert (E2 : (inject_Z (2 * (Z.of_nat n + 1)) == 2 * inject_Z (Z.of_nat n + 1))%Q).
    { rewrite inject_Z_mult. reflexivity. }
    rewrite EA in Hsmall.
    set (A := (inject_Z (2 * (Z.of_nat n + 1)) * unitRoundoff)%Q) in *.
    set (B := (inject_Z (Z.of_nat n + 1) * unitRoundoff)%Q) in *.
    assert (HAB : (A == 2 * B)%Q) by (unfold A, B; rewrite E2; ring).
    assert (HuB : (unitRoundoff <= B)%Q).
    { unfold B. assert (0 <= (inject_Z (Z.of_nat n + 1) - 1) * unitRoundoff)%Q
        by (apply Qmult_le_0_compat; lra). lra. }
    assert (HA1 : (A + 2 * unitRoundoff <= 1)%Q).
    { unfold A. lra. }
    destruct (IH ltac:(lia) Hadj ltac:(fold A; lra)) as (HS & Hlo & Hhi).
    cbv zeta in HS, Hlo, Hhi. fold A in Hhi. fold B in Hlo.
    rewrite seq_S, fold_left_app. cbn [fold_left]. rewrite Nat.add_0_l.
    set (T := fold_left _ (seq 0 n) 0%Q) in *.
    destruct (lookup_lt_is_Some_2 ts n ltac:(lia)) as [a Ha].
    destruct (lookup_lt_is_Some_2 ts (S n) Hlen) as [b Hb].
    destruct (lookup_lt_is_Some_2 ts 0%nat ltac:(lia)) as [t0 Ht0].
    pose proof (Hadj n a b Ha Hb) as Hab.
    replace (n + 1)%nat with (S n) by lia.
    rewrite (nth_lookup_Some _ _ _ _ Ha), (nth_lookup_Some _ _ _ _ Hb),
      (nth_lookup_Some _ _ _ _ Ht0) in *.
    set (S0 := (inject_Z (a - t0) / rate)%Q) in *.
    set (q := (inject_Z (b - a) / rate)%Q).
    assert (Hq : (0 < q)%Q).
    { unfold q. apply Qlt_shift_div_l; [exact Hrate|].
      setoid_replace (0 * rate)%Q with (inject_Z 0) using relation Qeq by ring.
      rewrite <- Zlt_Qlt. lia. }
    assert (Hexact : (inject_Z (b - t0) / rate == S0 + q)%Q).
    { unfold S0, q. unfold Zminus. rewrite !inject_Z_plus, !inject_Z_opp. field. lra. }
    destruct (double_near q ltac:(lra)) as [HFlo HFhi].
    assert (HT0 : (0 <= T)%Q).
    { assert (0 <= S0 * (1 - B))%Q by (apply Qmult_le_0_compat; lra). lra. }
    assert (HF0 : (0 <= double q)%Q) by (apply double_nonneg; lra).
    destruct (double_near (T + double q) ltac:(lra)) as [HT'lo HT'hi].
    rewrite Hexact, EA, EB.
    split; [lra|]. split.
    + setoid_replace ((inject_Z (Z.of_nat n + 1) + 1) * unitRoundoff)%Q
        with (B + unitRoundoff)%Q using relation Qeq by (unfold B; ring).
      apply (accumulate_lower S0 q T (double q)); try assumption; lra.
    + setoid_replace ((inject_Z (2 * (Z.of_nat n + 1)) + 2) * unitRoundoff)%Q
        with (A + 2 * unitRoundoff)%Q using relation Qeq by (unfold A; ring).
      apply (accumulate_upper S0 q T (double q)); try assumption; lra.
Qed.

(** a product within rounding of the integer [t] has the ceiling [t] or [t + 1] *)
Lemma ceiling_near (t : Z) (P C : Q) :
  0 <= t → (0 <= C)%Q → (inject_Z t * C < 1)%Q →
  (inject_Z t * (1 - C) <= P)%Q → (P <= inject_Z t * (1 + C))%Q →
  Qceiling P = t ∨ Qceiling P = t + 1.
Proof.
  intros Ht HC Hsmall Hlo Hhi.
  assert (H1 : t - 1 < Qceiling P).
  { rewrite Zlt_Qlt. pose proof (Qle_ceiling P) as Hc.
    unfold Zminus. rewrite inject_Z_plus, inject_Z_opp. change (inject_Z 1) with 1%Q. lra. }
  assert (H2 : Qceiling P <= t + 1).
  { rewrite <- (Qceiling_Z (t + 1)). apply Qceiling_resp_le.
    rewrite inject_Z_plus. change (inject_Z 1) with 1%Q. lra. }
  lia.
Qed.

Lemma small_product z : z < 2 ^ 53 → (inject_Z z * unitRoundoff < 1)%Q.
Proof.
  intros Hz. change unitRoundoff with (1 # 9007199254740992)%Q.
  unfold Qlt, Qmult, inject_Z. cbn [Qnum Qden]. change (2 ^ 53) with 9007199254740992 in Hz. lia.
Qed.

(** the length Time Scale Warping asks for when it plays [n] segments at
    the rate of the source: the frame of the last transient it uses, or
    one more *)
Lemma warp_length_near (ts : list Z) (sourceRate targetRate : Q) n :
  (0 < sourceRate)%Q → (sourceRate == targetRate)%Q →
  (n < length ts)%nat → ts !! 0%nat = Some 0 →
  (∀ i a b, ts !! i = Some a → ts !! S i = Some b → a < b) →
  0 <= nth n ts 0 → 2 * (Z.of_nat n + 2) * (nth n ts 0 + 1) < 2 ^ 53 →
  let total :=
    fold_left
      (fun total i =>
         double (total + double (inject_Z (nth (i + 1) ts 0%Z - nth i ts 0%Z) / sourceRate)))
      (seq 0 n) 0%Q in
  Qceiling (double (total * targetRate)) = nth n ts 0 ∨
  Qceiling (double (total * targetRate)) = nth n ts 0 + 1.
Proof.
  intros Hrate Hrates Hlen Hhead Hadj Ht Hbound total.
  destruct unitRoundoff_range as [Hu0 Hu1].
  set (t := nth n ts 0) in *.
  assert (Hsmall1 : (inject_Z (2 * (Z.of_nat n + 1)) * unitRoundoff <= 1)%Q).
  { apply Qlt_le_weak, small_product. nia. }
  destruct (warp_duration_near ts sourceRate n Hrate Hlen Hadj Hsmall1) as (HS & Hlo & Hhi).
  cbv zeta in HS, Hlo, Hhi. fold total in Hlo, Hhi. fold t in HS, Hlo, Hhi.
  rewrite (nth_lookup_Some _ _ _ _ Hhead), Z.sub_0_r in HS, Hlo, Hhi.
  set (A := (inject_Z (2 * (Z.of_nat n + 1)) * unitRoundoff)%Q) in *.
  set (B := (inject_Z (Z.of_nat n + 1) * unitRoundoff)%Q) in *.
  assert (HAB : (A == 2 * B)%Q) by (unfold A, B; rewrite inject_Z_mult; ring).
  assert (HB0 : (0 <= B)%Q).
  { unfold B. apply Qmult_le_0_compat; [|lra].
    change 0%Q with (inject_Z 0). rewrite <- Zle_Qle. lia. }
  set (C := (inject_Z (2 * (Z.of_nat n + 2)) * unitRoundoff)%Q).
  assert (HC : (C == A + 2 * unitRoundoff)%Q).
  { unfold C, A. replace (2 * (Z.of_nat n + 2)) with (2 * (Z.of_nat n + 1) + 2) by lia.
    rewrite inject_Z_plus. change (inject_Z 2) with 2%Q. ring. }
  assert (HtC : (inject_Z t * C < 1)%Q).
  { unfold C. rewrite Qmult_assoc, <- inject_Z_mult. apply small_product. nia. }
  assert (Ht0 : (0 <= inject_Z t)%Q).
  { change 0%Q with (inject_Z 0). rewrite <- Zle_Qle. exact Ht. }
  set (x := (total * targetRate)%Q).
  assert (Hx : (x == total * sourceRate)%Q) by (unfold x; rewrite Hrates; reflexivity).
  assert (Hscale : (inject_Z t / sourceRate * sourceRate == inject_Z t)%Q) by (field; lra).
  assert (Hxlo : (inject_Z t * (1 - B) <= x)%Q).
  { rewrite Hx, <- Hscale.
    assert (0 <= (total - inject_Z t / sourceRate * (1 - B)) * sourceRate)%Q
      by (apply Qmult_le_0_compat; lra).
    lra. }
  assert (Hxhi : (x <= inject_Z t * (1 + A))%Q).
  { rewrite Hx, <- Hscale.
    assert (0 <= (inject_Z t / sourceRate * (1 + A) - total) * sourceRate)%Q
      by (apply Qmult_le_0_compat; lra).
    lra. }
  assert (HB1 : (B <= 1)%Q).
  { assert (0 <= A)%Q by lra. lra. }
  assert (Hx0 : (0 <= x)%Q).
  { assert (0 <= inject_Z t * (1 - B))%Q by (apply Qmult_le_0_compat; lra). lra. }
  destruct (double_near x Hx0) as [Hdlo Hdhi].
  assert (HtCeq : (inject_Z t * C
                   == 2 * (inject_Z t * B) + 2 * (inject_Z t * unitRoundoff))%Q)
    by (rewrite HC, HAB; ring).
  assert (HtAeq : (inject_Z t * A == 2 * (inject_Z t * B))%Q) by (rewrite HAB; ring).
  assert (HtB : (0 <= inject_Z t * B)%Q) by (apply Qmult_le_0_compat; lra).
  assert (Htu : (0 <= inject_Z t * unitRoundoff)%Q) by (apply Qmult_le_0_compat; lra).
  apply (ceiling_near t (double x) C); try assumption.
  - lra.
  - assert (0 <= (x - inject_Z t * (1 - B)) * (1 - unitRoundoff))%Q
      by (apply Qmult_le_0_compat; lra).
    assert (0 <= inject_Z t * B * unitRoundoff)%Q
      by (apply Qmult_le_0_compat; [apply Qmult_le_0_compat|]; lra).
    assert (0 <= inject_Z t * (B + unitRoundoff))%Q by (apply Qmult_le_0_compat; lra).
    lra.
  - assert (0 <= (inject_Z t * (1 + A) - x) * (1 + unitRoundoff))%Q
      by (apply Qmult_le_0_compat; lra).
    assert (0 <= inject_Z t * unitRoundoff * (1 - A))%Q
      by (apply Qmult_le_0_compat; [apply Qmult_le_0_compat|]; lra).
    lra.
Qed.

(** X16. The two operators driven by the transients of the source, on
    valid buffers with positive rates.  Interference Echoes returns the
    target itself for a source of one frame; otherwise it returns a buffer
    with the channels and rate of the target that is 4 seconds longer than
    the target: the frame count is the sum [length + sampleRate * 4] of
    the doubles, which for a whole sample rate is the target length plus
    4 times the rate.  Time Scale Warping returns the target itself when the
    source or the target has one frame; otherwise its result has the
    channels and the rate of the target and at least one frame.  It sums
    the durations of the source segments in doubles and rounds the frame
    count up: when the rates agree and the source has no more transients
    than the target (and at most 2^30 frames), the result has one frame
    less than the source or as many frames as the source. *)
Theorem transient_operators_shape host audio st sourceBuffer targetBuffer params :
  valid audio st sourceBuffer → valid audio st targetBuffer →
  (0 < sampleRate sourceBuffer)%Q → (0 < sampleRate targetBuffer)%Q →
  (∃ st' result,
     applyInterferenceEchoes host audio sourceBuffer targetBuffer params st
       = (st', Ok result) ∧
     (bufferLength sourceBuffer = 1%nat → result = targetBuffer ∧ st' = st) ∧
     ((1 < bufferLength sourceBuffer)%nat →
        numberOfChannels result = numberOfChannels targetBuffer ∧
        sampleRate result = sampleRate targetBuffer ∧
        bufferLength result =
          Z.to_nat (Qfloor (double (inject_Z (Z.of_nat (bufferLength targetBuffer))
                                    + double (sampleRate targetBuffer * 4)))) ∧
        (∀ rate : Z,
           (sampleRate targetBuffer == inject_Z rate)%Q →
           Z.of_nat (bufferLength targetBuffer) + 4 * rate < 2 ^ 53 →
           Z.of_nat (bufferLength result) = Z.of_nat (bufferLength targetBuffer) + 4 * rate))) ∧
  (∃ st' result sourceTransients targetTransients,
     detectTransients host sourceBuffer (default (18 # 10) (transientSensitivity params)) 50 st
       = (st, Ok sourceTransients) ∧
     detectTransients host targetBuffer (default (18 # 10) (transientSensitivity params)) 50 st
       = (st, Ok targetTransients) ∧
     applyTimeScaleWarping host audio sourceBuffer targetBuffer params st = (st', Ok result) ∧
     (bufferLength sourceBuffer = 1%nat ∨ bufferLength targetBuffer = 1%nat →
        result = targetBuffer ∧ st' = st) ∧
     ((1 < bufferLength sourceBuffer)%nat → (1 < bufferLength targetBuffer)%nat →
        numberOfChannels result = numberOfChannels targetBuffer ∧
        sampleRate result = sampleRate targetBuffer ∧
        (1 <= bufferLength result)%nat ∧
        ((length sourceTransients <= length targetTransients)%nat →
         (sampleRate sourceBuffer == sampleRate targetBuffer)%Q →
         Z.of_nat (bufferLength sourceBuffer) <= 2 ^ 30 →
         bufferLength result = (bufferLength sourceBuffer - 1)%nat ∨
         bufferLength result = bufferLength sourceBuffer))).
Proof.
  intros Hsrc Htgt Hrs Hrt.
  pose proof (valid_shape audio st targetBuffer Htgt) as Hshape.
  pose proof Hsrc as (_ & _ & Hslen & _).
  pose proof Htgt as (_ & Hnch & Htlen & Hrate & _).
  split.
  - unfold applyInterferenceEchoes.
    set (x := double (inject_Z (Z.of_nat (bufferLength targetBuffer))
                      + double (sampleRate targetBuffer * 4))).
    assert (Hx : (inject_Z 1 <= x)%Q).
    { unfold x. change (inject_Z 1) with 1%Q. apply double_ge_1.
      assert (inject_Z 1 <= inject_Z (Z.of_nat (bufferLength targetBuffer)))%Q
        by (rewrite <- Zle_Qle; lia).
      pose proof (double_nonneg (sampleRate targetBuffer * 4) ltac:(lra)).
      change (inject_Z 1) with 1%Q in *. lra. }
    assert (Hwhole : ∀ rate : Z,
              (sampleRate targetBuffer == inject_Z rate)%Q →
              Z.of_nat (bufferLength targetBuffer) + 4 * rate < 2 ^ 53 →
              Qfloor x = Z.of_nat (bufferLength targetBuffer) + 4 * rate).
    { intros rate Hr Hsmall.
      assert (Hr0 : 0 < rate).
      { rewrite Hr in Hrt. change 0%Q with (inject_Z 0) in Hrt.
        rewrite <- Zlt_Qlt in Hrt. exact Hrt. }
      assert (E1 : (sampleRate targetBuffer * 4 == inject_Z (4 * rate))%Q).
      { rewrite Hr, inject_Z_mult. change (inject_Z 4) with 4%Q. ring. }
      assert (E2 : (double (sampleRate targetBuffer * 4) == inject_Z (4 * rate))%Q).
      { rewrite (double_comp _ _ E1). apply double_Z. lia. }
      assert (E3 : (inject_Z (Z.of_nat (bufferLength targetBuffer))
                    + double (sampleRate targetBuffer * 4)
                    == inject_Z (Z.of_nat (bufferLength targetBuffer) + 4 * rate))%Q).
      { rewrite E2, <- inject_Z_plus. reflexivity. }
      assert (E4 : (x == inject_Z (Z.of_nat (bufferLength targetBuffer) + 4 * rate))%Q).
      { unfold x. rewrite (double_comp _ _ E3). apply double_Z. lia. }
      rewrite (Qfloor_comp _ _ E4). apply Qfloor_Z. }
    assert (Htrunc : js_trunc x = Qfloor x).
    { unfold js_trunc.
      assert (H0x : Qle_bool 0 x = true).
      { apply Qle_bool_iff. change (inject_Z 1) with 1%Q in Hx. lra. }
      rewrite H0x. reflexivity. }
    assert (Hfloor : 1 <= Qfloor x).
    { apply Qfloor_resp_le in Hx. rewrite Qfloor_Z in Hx. exact Hx. }
    assert (Hshape' : shapeRejected audio (numberOfChannels targetBuffer)
              (Z.to_nat (js_trunc x)) (sampleRate targetBuffer) = false).
    { unfold shapeRejected. rewrite Hrate, Htrunc.
      destruct (Nat.eqb_spec (numberOfChannels targetBuffer) 0); [lia|].
      destruct (Nat.eqb_spec (Z.to_nat (Qfloor x)) 0); [lia | reflexivity]. }
    erewrite bind_ok; [|apply newOfflineAudioContext_spec, Hshape'].
    destruct (detectTransients_result host audio st sourceBuffer (18 # 10) 50 Hsrc)
      as (ts & Hts & Hhead & Hlast & Hinc).
    erewrite bind_ok; [|exact Hts].
    destruct (transients_count ts (bufferLength sourceBuffer) Hslen Hhead Hlast Hinc)
      as [Hone Hmore].
    destruct (Nat.leb_spec (length ts) 1) as [Hle|Hgt].
    + eexists _, _. split; [reflexivity|]. split; [done|]. intros H. specialize (Hmore H). lia.
    + erewrite bind_ok; [|reflexivity].
      match goal with |- context [startRendering audio ?ctx ?g] =>
        destruct (startRendering_spec audio ctx g st) as (rendered & _ & _ & _ & Hrender) end.
      eexists _, _. split; [exact Hrender|]. split.
      * intros H. specialize (Hone H). lia.
      * intros _. cbn [numberOfChannels sampleRate bufferLength ctxChannels ctxLength
                       ctxSampleRate].
        rewrite Htrunc. split_and!; try reflexivity.
        intros rate Hr Hsmall. rewrite (Hwhole rate Hr Hsmall) in *. lia.
  - destruct (detectTransients_result host audio st sourceBuffer
                (default (18 # 10) (transientSensitivity params)) 50 Hsrc)
      as (ts & Hts & Hhead & Hlast & Hinc).
    destruct (detectTransients_result host audio st targetBuffer
                (default (18 # 10) (transientSensitivity params)) 50 Htgt)
      as (tt & Htt & Hhead' & Hlast' & Hinc').
    destruct (transients_count ts (bufferLength sourceBuffer) Hslen Hhead Hlast Hinc)
      as [Hone Hmore].
    destruct (transients_count tt (bufferLength targetBuffer) Htlen Hhead' Hlast' Hinc')
      as [Hone' Hmore'].
    unfold applyTimeScaleWarping.
    erewrite bind_ok; [|exact Hts]. erewrite bind_ok; [|exact Htt].
    destruct (Z.leb_spec (Z.min (Z.of_nat (length ts)) (Z.of_nat (length tt)) - 1) 0)
      as [Hle|Hgt].
    { exists st, targetBuffer, ts, tt. split_and!; try done.
      intros H1 H2. specialize (Hmore H1). specialize (Hmore' H2). lia. }
    set (numSegments := Z.min (Z.of_nat (length ts)) (Z.of_nat (length tt)) - 1) in *.
    set (totalDuration := fold_left _ (seq 0 (Z.to_nat numSegments)) 0%Q).
    assert (Hn : Z.to_nat numSegments = (Nat.min (length ts) (length tt) - 1)%nat)
      by (unfold numSegments; lia).
    assert (Htotal : (0 < totalDuration)%Q).
    { apply segment_durations_positive; [exact Hrs | lia | lia | exact Hinc]. }
    set (frames := Qceiling (double (totalDuration * sampleRate targetBuffer))).
    assert (Hceil : 0 < frames).
    { apply Qceiling_pos, double_pos. apply Qmult_lt_0_compat; assumption. }
    assert (Hshape' : shapeRejected audio (numberOfChannels targetBuffer)
                        (Z.to_nat frames) (sampleRate targetBuffer) = false).
    { unfold shapeRejected. rewrite Hrate.
      destruct (Nat.eqb_spec (numberOfChannels targetBuffer) 0); [lia|].
      destruct (Nat.eqb_spec (Z.to_nat frames) 0); [lia | reflexivity]. }
    erewrite bind_ok; [|apply newOfflineAudioContext_spec, Hshape'].
    erewrite bind_ok; [|reflexivity].
    match goal with |- context [startRendering audio ?ctx ?g] =>
      destruct (startRendering_spec audio ctx g st) as (rendered & _ & _ & _ & Hrender) end.
    eexists _, _, ts, tt. split; [exact Hts|]. split; [exact Htt|].
    split; [exact Hrender|]. split.
    { intros [H|H]; [specialize (Hone H) | specialize (Hone' H)]; lia. }
    intros _ _. cbn [numberOfChannels sampleRate bufferLength ctxChannels ctxLength
                     ctxSampleRate].
    split; [reflexivity|]. split; [reflexivity|]. split; [lia|].
    intros Hcount Hrates Hsize.
    destruct (detectTransients_count host audio st sourceBuffer
                (default (18 # 10) (transientSensitivity params)) 50 Hsrc)
      as (ts' & Hts' & Hmany).
    rewrite Hts in Hts'. inversion Hts'; subst ts'.
    assert (Hend : nth (Z.to_nat numSegments) ts 0 = Z.of_nat (bufferLength sourceBuffer) - 1).
    { rewrite Hn. replace (Nat.min (length ts) (length tt) - 1)%nat
        with (Nat.pred (length ts)) by lia.
      rewrite last_lookup in Hlast. apply (nth_lookup_Some _ _ _ _ Hlast). }
    change (2 ^ 30) with 1073741824 in Hsize.
    assert (Hchunks : (Z.of_nat (bufferLength sourceBuffer) + 511) / 512 < 2097153).
    { apply Z.div_lt_upper_bound; lia. }
    destruct (warp_length_near ts (sampleRate sourceBuffer) (sampleRate targetBuffer)
                (Z.to_nat numSegments) Hrs Hrates ltac:(lia) Hhead Hinc) as [Hexact|Hmore1].
    { rewrite Hend. lia. }
    { rewrite Hend. change (2 ^ 53) with 9007199254740992.
      assert (Hsegs : 2 * (Z.of_nat (Z.to_nat numSegments) + 2) <= 4194308) by lia.
      assert (0 <= 2 * (Z.of_nat (Z.to_nat numSegments) + 2)) by lia.
      replace (Z.of_nat (bufferLength sourceBuffer) - 1 + 1)
        with (Z.of_nat (bufferLength sourceBuffer)) by lia.
      apply Z.le_lt_trans with (4194308 * 1073741824); [|reflexivity].
      apply Z.mul_le_mono_nonneg; lia. }
    + left. fold totalDuration in Hexact. fold frames in Hexact. lia.
    + right. fold totalDuration in Hmore1. fold frames in Hmore1. lia.
Qed.

Lemma transient_operators_shape_witness :
  let st := stateOf [[1 # 2; -1 # 4; 0]; [1; 1]]%Q in
  ∃ st' result,
    applyInterferenceEchoes exampleMath exampleAudio (monoBuffer 3 0) (monoBuffer 2 1)
      noParams st = (st', Ok result) ∧
    numberOfChannels result = 1%nat ∧
    Z.of_nat (bufferLength result) = 2 + 4 * 44100.
Proof.
  intros st.
  destruct (transient_operators_shape exampleMath exampleAudio st (monoBuffer 3 0)
              (monoBuffer 2 1) noParams) as [(st' & result & Hrun & _ & Hlong) _];
    [prove_valid | prove_valid | reflexivity | reflexivity |].
  exists st', result. split; [exact Hrun|].
  destruct Hlong as (Hn & _ & _ & Hwhole); [cbn; lia|].
  split; [exact Hn|]. apply (Hwhole 44100); [reflexivity | vm_compute; reflexivity].
Defined.

(** a source of 14 frames at 44.1 kHz: its duration times the rate is
    [13.000000000000002] in doubles, and the result has 14 frames *)
Example timeWarp_rounds_up :
  let st := stateOf [replicate 14 (1 # 2); replicate 14 (1 # 4)]%Q in
  ∃ st' result,
    applyTimeScaleWarping exampleMath exampleAudio (monoBuffer 14 0) (monoBuffer 14 1)
      noParams st = (st', Ok result) ∧
    bufferLength result = 14%nat.
Proof. intros st. eexists _, _. split; [vm_compute; reflexivity | reflexivity]. Qed.

(** ** Fourier Masking on short inputs *)

(** X17. Fourier Masking returns, for all valid buffers, a mono buffer at
    the rate of the source with as many frames as the shorter input has,
    whatever the channel count and rate of the target.  It never writes
    past its last complete window of 2048 frames: with [L] the length of
    the shorter input, the result is silent from frame
    2048 + 512 * floor ((L - 2048) / 512) on, and when [L] is below 2048
    no window fits and the whole result is silent. *)
Theorem fourier_masking_short_input host audio st sourceBuffer targetBuffer :
  valid audio st sourceBuffer → valid audio st targetBuffer →
  ∃ st' result,
    applyFourierMasking host audio sourceBuffer targetBuffer st = (st', Ok result) ∧
    numberOfChannels result = 1%nat ∧
    bufferLength result = Nat.min (bufferLength sourceBuffer) (bufferLength targetBuffer) ∧
    sampleRate result = sampleRate sourceBuffer ∧
    ((Nat.min (bufferLength sourceBuffer) (bufferLength targetBuffer) < fftSize2048)%nat →
     ∀ i, sample st' result 0 i = 0%Q) ∧
    (∀ i, (2048 + 512 * ((Nat.min (bufferLength sourceBuffer) (bufferLength targetBuffer)
                          - 2048) / 512) <= i)%nat →
       sample st' result 0 i = 0%Q).
Proof.
  intros Hsrc Htgt.
  destruct (applyFourierMasking_result host audio st sourceBuffer targetBuffer Hsrc Htgt)
    as (st' & result & Hrun & Hchannels & Hlength & Hrate & Hsilent & Htail).
  exists st', result. split_and!; assumption.
Qed.

Lemma fourier_masking_short_input_witness :
  let st := stateOf [[1 # 2; -1 # 4; 0]; [1; 1]; [0; 3]]%Q in
  let tgt := {| numberOfChannels := 2; bufferLength := 2; sampleRate := 48000;
                channelData := [1; 2]%nat |} in
  ∃ st' result,
    applyFourierMasking exampleMath exampleAudio (monoBuffer 3 0) tgt st = (st', Ok result) ∧
    numberOfChannels result = 1%nat ∧
    bufferLength result = 2%nat ∧
    sampleRate result = 44100%Q ∧
    ∀ i, sample st' result 0 i = 0%Q.
Proof.
  intros st tgt.
  destruct (fourier_masking_short_input exampleMath exampleAudio st (monoBuffer 3 0) tgt)
    as (st' & result & Hrun & Hn & Hl & Hr & Hsilent & _); [prove_valid | prove_valid |].
  exists st', result. split_and!; try assumption.
  apply Hsilent. vm_compute. lia.
Defined.

(** ** The live processor *)

(** the inner loop, with an invariant of the follower and a relation
    between each target sample and the sample written for it *)
Lemma processChannel_inv tp (Inv : EnvelopeFollower → Prop) (Post : Q → Q → Prop)
    sourceChannel targetChannel :
  (∀ i follower t, Inv follower →
     Inv (fst (processSample tp follower (at_ sourceChannel i) t)) ∧
     Post t (snd (processSample tp follower (at_ sourceChannel i) t))) →
  ∀ follower outputChannel, Inv follower →
    let r := processChannel tp sourceChannel targetChannel (follower, outputChannel) in
    Inv (fst r) ∧ length (snd r) = length outputChannel ∧
    ∀ i, (i < length outputChannel)%nat → Post (at_ targetChannel i) (at_ (snd r) i).
Proof.
  intros Hsample follower outputChannel Hinv. cbv zeta. unfold processChannel. cbn [snd].
  assert (Hgen : ∀ n, (n <= length outputChannel)%nat →
    let r := fold_left
      (fun '(follower, outputChannel) i =>
         let sourceSample := at_ sourceChannel i in
         let targetSample := at_ targetChannel i in
         let '(follower', processedSample) :=
           processSample tp follower sourceSample targetSample in
         (follower', <[i := processedSample]> outputChannel))
      (seq 0 n) (follower, outputChannel) in
    Inv (fst r) ∧ length (snd r) = length outputChannel ∧
    ∀ i, (i < n)%nat → Post (at_ targetChannel i) (at_ (snd r) i)).
  { induction n as [|n IH]; intros Hn; cbv zeta.
    - cbn. split_and!; [exact Hinv | reflexivity | intros i Hi; lia].
    - rewrite seq_S, fold_left_app. cbn [fold_left Nat.add].
      specialize (IH ltac:(lia)). cbv zeta in IH.
      destruct (fold_left _ (seq 0 n) (follower, outputChannel)) as [f out].
      cbn [fst snd] in IH. destruct IH as (Hf & Hlen & Hpost).
      destruct (Hsample n f (at_ targetChannel n) Hf) as [Hf' Hv].
      destruct (processSample tp f (at_ sourceChannel n) (at_ targetChannel n)) as [f' v].
      cbn [fst snd] in *. split_and!.
      + exact Hf'.
      + rewrite length_insert. exact Hlen.
      + intros i Hi. rewrite at_insert. case_decide as Hd.
        * destruct Hd as [<- _]. exact Hv.
        * apply Hpost. lia. }
  apply (Hgen (length outputChannel)). lia.
Qed.

(** the outer loop: when input 1 has a channel for every channel of the
    output, every channel of the output is processed and nothing throws *)
Lemma processChannels_inv tp (Inv : EnvelopeFollower → Prop) (Post : Q → Q → Prop)
    sourceChannel targetInput :
  (∀ i follower t, Inv follower →
     Inv (fst (processSample tp follower (at_ sourceChannel i) t)) ∧
     Post t (snd (processSample tp follower (at_ sourceChannel i) t))) →
  ∀ n a follower output,
    (a + n <= length output)%nat → (a + n <= length targetInput)%nat → Inv follower →
    ∃ follower' output',
      processChannels tp sourceChannel targetInput (seq a n) (follower, output)
        = ((follower', output'), Ok tt) ∧
      Inv follower' ∧ length output' = length output ∧
      (∀ c, (c < a)%nat ∨ (a + n <= c)%nat → nth c output' [] = nth c output []) ∧
      (∀ c, (a <= c < a + n)%nat →
         length (nth c output' []) = length (nth c output []) ∧
         ∀ i, (i < length (nth c output []))%nat →
           Post (at_ (nth c targetInput []) i) (at_ (nth c output' []) i)).
Proof.
  intros Hsample. induction n as [|n IH]; intros a follower output Hout Htgt Hinv.
  - exists follower, output. cbn. split_and!; try done. intros c Hc. lia.
  - cbn [seq processChannels fst snd].
    destruct (lookup_lt_is_Some_2 targetInput a ltac:(lia)) as [targetChannel Ht].
    rewrite Ht.
    pose proof (processChannel_inv tp Inv Post sourceChannel targetChannel Hsample
                  follower (nth a output []) Hinv) as Hch.
    cbv zeta in Hch.
    destruct (processChannel tp sourceChannel targetChannel (follower, nth a output []))
      as [f1 ch1].
    cbn [fst snd] in Hch. destruct Hch as (Hf1 & Hlen1 & Hpost1).
    destruct (IH (S a) f1 (<[a := ch1]> output)) as (f' & out' & Hrun & Hf' & Hlen' & Hkeep & Hdone).
    { rewrite length_insert. lia. }
    { lia. }
    { exact Hf1. }
    exists f', out'. split; [exact Hrun|]. rewrite length_insert in Hlen'.
    assert (Hnth : ∀ c, nth c (<[a := ch1]> output) [] =
                        if decide (c = a) then ch1 else nth c output []).
    { intros c. case_decide as Hc.
      - subst c. apply nth_lookup_Some, list_lookup_insert_eq. lia.
      - rewrite !nth_lookup, list_lookup_insert_ne by done. reflexivity. }
    split_and!; try done.
    + intros c Hc. rewrite Hkeep by lia. rewrite Hnth. case_decide; [lia | reflexivity].
    + intros c Hc. destruct (decide (c = a)) as [->|Hne].
      * rewrite Hkeep by lia. rewrite Hnth. case_decide; [|lia].
        split; [exact Hlen1|]. intros i Hi.
        rewrite (nth_lookup_Some _ _ _ _ Ht). apply Hpost1, Hi.
      * destruct (Hdone c ltac:(lia)) as [Hl Hp]. rewrite Hnth in Hl, Hp.
        case_decide; [lia|]. split; assumption.
Qed.

Lemma process_result tp (Inv : EnvelopeFollower → Prop) (Post : Q → Q → Prop)
    sourceInput targetInput output :
  (0 < length sourceInput)%nat → (0 < length (nth 0 sourceInput []))%nat →
  (0 < length (nth 0 targetInput []))%nat →
  (length output <= length targetInput)%nat → (0 < length targetInput)%nat →
  (∀ i follower t, Inv follower →
     Inv (fst (processSample tp follower (at_ (nth 0 sourceInput []) i) t)) ∧
     Post t (snd (processSample tp follower (at_ (nth 0 sourceInput []) i) t))) →
  Inv (tpEnvelopeFollower tp) →
  ∃ tp' output',
    process tp sourceInput targetInput output = ((tp', output'), Ok true) ∧
    tpTransformation tp' = tpTransformation tp ∧ tpParams tp' = tpParams tp ∧
    tpGateThreshold tp' = tpGateThreshold tp ∧
    Inv (tpEnvelopeFollower tp') ∧ length output' = length output ∧
    ∀ c, (c < length output)%nat →
      length (nth c output' []) = length (nth c output []) ∧
      ∀ i, (i < length (nth c output []))%nat →
        Post (at_ (nth c targetInput []) i) (at_ (nth c output' []) i).
Proof.
  intros Hs Hs0 Ht0 Hout Ht Hsample Hinv. unfold process.
  destruct (Nat.eqb_spec (length sourceInput) 0); [lia|].
  destruct (Nat.eqb_spec (length targetInput) 0); [lia|].
  destruct (Nat.eqb_spec (length (nth 0 sourceInput [])) 0); [lia|].
  destruct (Nat.eqb_spec (length (nth 0 targetInput [])) 0); [lia|].
  cbn [orb].
  destruct (processChannels_inv tp Inv Post (nth 0 sourceInput []) targetInput Hsample
              (length output) 0 (tpEnvelopeFollower tp) output)
    as (f' & out' & Hrun & Hf' & Hlen & _ & Hdone); [lia | lia | exact Hinv |].
  rewrite Hrun. eexists _, _. split; [reflexivity|]. cbn.
  split_and!; try done. intros c Hc. apply Hdone. lia.
Qed.

(** X18. The live processor, [process] on one block.  With an input
    that has no channel or whose first channel is empty the call does
    nothing and returns true.  Otherwise, when input 1 has a channel for
    every output channel, the call returns true and fills every output
    channel: for every transformation other than Amplitude Mapping and
    Rhythmic Gating with the target samples themselves, leaving the
    processor as it was; for Rhythmic Gating with, at each place, the
    target sample or 0. *)
Theorem live_process_passthrough tp sourceInput targetInput output :
  (length sourceInput = 0%nat ∨ length targetInput = 0%nat ∨
   length (nth 0 sourceInput []) = 0%nat ∨ length (nth 0 targetInput []) = 0%nat →
   process tp sourceInput targetInput output = ((tp, output), Ok true)) ∧
  ((0 < length sourceInput)%nat → (0 < length (nth 0 sourceInput []))%nat →
   (0 < length (nth 0 targetInput []))%nat → (length output <= length targetInput)%nat →
   ∃ tp' output',
     process tp sourceInput targetInput output = ((tp', output'), Ok true) ∧
     length output' = length output ∧
     (∀ c, (c < length output)%nat → length (nth c output' []) = length (nth c output [])) ∧
     (tpTransformation tp ≠ AMPLITUDE → tpTransformation tp ≠ RHYTHMIC →
        tp' = tp ∧
        ∀ c i, (c < length output)%nat → (i < length (nth c output []))%nat →
          at_ (nth c output' []) i = at_ (nth c targetInput []) i) ∧
     (tpTransformation tp = RHYTHMIC →
        ∀ c i, (c < length output)%nat → (i < length (nth c output []))%nat →
          (at_ (nth c output' []) i == at_ (nth c targetInput []) i)%Q ∨
          (at_ (nth c output' []) i == 0)%Q)).
Proof.
  split.
  - intros H. unfold process.
    destruct (Nat.eqb_spec (length sourceInput) 0); [reflexivity|].
    destruct (Nat.eqb_spec (length targetInput) 0); [reflexivity|].
    destruct (Nat.eqb_spec (length (nth 0 sourceInput [])) 0); [reflexivity|].
    destruct (Nat.eqb_spec (length (nth 0 targetInput [])) 0); [reflexivity|].
    lia.
  - intros Hs Hs0 Ht0 Hout.
    assert (Ht : (0 < length targetInput)%nat).
    { destruct targetInput; [cbn in Ht0; lia | cbn; lia]. }
    pose (Post := fun (follower0 : EnvelopeFollower) (t v : Q) =>
      (tpTransformation tp ≠ AMPLITUDE → tpTransformation tp ≠ RHYTHMIC → v = t) ∧
      (tpTransformation tp = RHYTHMIC → (v == t)%Q ∨ (v == 0)%Q)).
    pose (Inv := fun (follower : EnvelopeFollower) =>
      tpTransformation tp ≠ AMPLITUDE → tpTransformation tp ≠ RHYTHMIC →
      follower = tpEnvelopeFollower tp).
    destruct (process_result tp Inv (Post (tpEnvelopeFollower tp)) sourceInput targetInput
                output Hs Hs0 Ht0 Hout Ht)
      as (tp' & output' & Hrun & Htr & Hpa & Hth & Hinv & Hlen & Hdone).
    { intros i follower t Hf. unfold Inv, Post, processSample.
      destruct (tpTransformation tp) eqn:E; cbn [fst snd EnvelopeFollower_process];
        try (split; [exact Hf | split; [reflexivity | discriminate]]).
      - split; [intros H; contradiction | split; [intros H; contradiction | discriminate]].
      - split; [intros _ H; contradiction|]. split; [intros _ H; contradiction|].
        intros _. destruct (Qltb _ _); [left | right]; ring. }
    { intros _ _. reflexivity. }
    exists tp', output'. split; [exact Hrun|]. split; [exact Hlen|].
    split; [intros c Hc; apply (Hdone c Hc)|]. split.
    + intros HA HR. split.
      * destruct tp, tp'. cbn in *. subst. f_equal. apply Hinv; assumption.
      * intros c i Hc Hi. destruct (Hdone c Hc) as [_ Hp].
        destruct (Hp i Hi) as [Hpass _]. apply Hpass; assumption.
    + intros HR c i Hc Hi. destruct (Hdone c Hc) as [_ Hp].
      destruct (Hp i Hi) as [_ Hgate]. apply Hgate, HR.
Qed.

Lemma live_process_passthrough_witness :
  let tp := newTransformProcessor SPECTRAL noParams in
  ∃ tp' output',
    process tp [[1 # 2; 1 # 4]]%Q [[1; 2]; [3; 4]]%Q [[0; 0]; [0; 0]]%Q
      = ((tp', output'), Ok true) ∧
    tp' = tp ∧
    ∀ c i, (c < 2)%nat → (i < 2)%nat →
      at_ (nth c output' []) i = at_ (nth c [[1; 2]; [3; 4]]%Q []) i.
Proof.
  intros tp.
  destruct (live_process_passthrough tp [[1 # 2; 1 # 4]]%Q [[1; 2]; [3; 4]]%Q
              [[0; 0]; [0; 0]]%Q) as [_ H].
  destruct H as (tp' & output' & Hrun & _ & _ & Hpass & _); [cbn; lia ..|].
  destruct Hpass as [Htp Hsame]; [discriminate | discriminate |].
  exists tp', output'. split; [exact Hrun|]. split; [exact Htp|].
  intros c i Hc Hi. apply Hsame; [exact Hc|].
  destruct c as [|[|c]]; [exact Hi | exact Hi | lia].
Defined.

(** the follower computes in doubles: after one sample of 1 its value
    is [1.0 - 0.998], that is [0.0020000000000000018]; it is above the
    double 0.002, and the gate of a processor with that threshold lets
    the target sample through *)
Example live_gate_follows_doubles :
  let params := setParam KgateThreshold (2 # 1000) noParams in
  snd (fst (process (newTransformProcessor RHYTHMIC params) [[1]]%Q [[1 # 3]]%Q [[0]]%Q))
  = [[(1 # 3) * 1]]%Q.
Proof. vm_compute. reflexivity. Qed.





(** ** The WAV encoder *)

Lemma js_trunc_Z z : js_trunc (inject_Z z) = z.
Proof.
  unfold js_trunc. destruct (Qle_bool 0 (inject_Z z)); [apply Qfloor_Z | apply Qceiling_Z].
Qed.

Lemma littleEndian_length n data : length (littleEndian n data) = n.
Proof. unfold littleEndian. rewrite length_fmap. apply length_seq. Qed.

Lemma littleEndian_bytes n data : Forall (fun b => 0 <= b < 256) (littleEndian n data).
Proof.
  unfold littleEndian. apply Forall_fmap, Forall_forall. intros k _. cbn.
  apply Z.mod_pos_bound. lia.
Qed.

(** a write at the end of what has been written so far *)
Lemma setBytes_append (written : list Z) (bytes : list Z) n :
  (length bytes <= n)%nat →
  setBytes (written ++ replicate n 0) (length written) bytes =
    Ok ((written ++ bytes) ++ replicate (n - length bytes) 0).
Proof.
  intros Hn. unfold setBytes. rewrite length_app, length_replicate.
  destruct (Nat.leb_spec (length written + length bytes) (length written + n)); [|lia].
  rewrite take_app_length.
  rewrite drop_app_ge by lia.
  replace (length written + length bytes - length written)%nat with (length bytes) by lia.
  rewrite drop_replicate, <- app_assoc. reflexivity.
Qed.

Lemma setUint32_append written n data :
  (4 <= n)%nat →
  setUint32 data (written ++ replicate n 0, length written) =
    Ok ((written ++ littleEndian 4 (ToUint32 (js_trunc data))) ++ replicate (n - 4) 0,
        length (written ++ littleEndian 4 (ToUint32 (js_trunc data)))).
Proof.
  intros Hn. unfold setUint32, DataView_setUint32. cbn [fst snd].
  rewrite setBytes_append by (rewrite littleEndian_length; lia).
  cbn [andThen]. rewrite !length_app, !littleEndian_length. reflexivity.
Qed.

Lemma setUint16_append written n data :
  (2 <= n)%nat →
  setUint16 data (written ++ replicate n 0, length written) =
    Ok ((written ++ littleEndian 2 (ToUint16 (js_trunc data))) ++ replicate (n - 2) 0,
        length (written ++ littleEndian 2 (ToUint16 (js_trunc data)))).
Proof.
  intros Hn. unfold setUint16, DataView_setUint16. cbn [fst snd].
  rewrite setBytes_append by (rewrite littleEndian_length; lia).
  cbn [andThen]. rewrite !length_app, !littleEndian_length. reflexivity.
Qed.

Lemma headerBytes_length numOfChan length_ rate :
  length (headerBytes numOfChan length_ rate) = 44%nat.
Proof. unfold headerBytes. rewrite !length_app, !littleEndian_length. reflexivity. Qed.

Lemma writeHeader_result numOfChan length_ rate n :
  length_ = (n + 44)%nat →
  writeHeader numOfChan length_ rate (replicate length_ 0, 0%nat) =
    Ok (headerBytes numOfChan length_ rate ++ replicate n 0, 44%nat).
Proof.
  intros Hlen. unfold writeHeader.
  change (replicate length_ 0, 0%nat) with (([] : list Z) ++ replicate length_ 0, length ([] : list Z)).
  repeat first
    [ rewrite setUint32_append by lia; cbn [andThen]
    | rewrite setUint16_append by lia; cbn [andThen] ].
  cbn [snd]. rewrite !length_app, !littleEndian_length. cbn [length Nat.add].
  rewrite !js_trunc_Z.
  replace (js_trunc 16) with 16 by reflexivity.
  replace (js_trunc 1) with 1 by reflexivity.
  unfold headerBytes. rewrite <- !app_assoc. cbn [app].
  replace (Z.of_nat length_ - Z.of_nat 40 - 4) with (Z.of_nat length_ - 44) by lia.
  replace (length_ - 4 - 4 - 4 - 4 - 4 - 2 - 2 - 4 - 4 - 2 - 2 - 4 - 4)%nat with n by lia.
  reflexivity.
Qed.

Lemma frameBytes_length channels numOfChan offset :
  length (frameBytes channels numOfChan offset) = (2 * numOfChan)%nat.
Proof.
  unfold frameBytes. induction numOfChan as [|k IH]; [reflexivity|].
  rewrite seq_S, fmap_app, concat_app, length_app, IH.
  cbn [fmap list_fmap concat]. rewrite app_nil_r.
  unfold sampleBytes. rewrite littleEndian_length. lia.
Qed.

Lemma writeFrame_result channels numOfChan offset written n :
  (2 * numOfChan <= n)%nat →
  writeFrame channels numOfChan offset (Ok (written ++ replicate n 0, length written)) =
    Ok ((written ++ frameBytes channels numOfChan offset) ++ replicate (n - 2 * numOfChan) 0,
        length (written ++ frameBytes channels numOfChan offset)).
Proof.
  unfold writeFrame. induction numOfChan as [|k IH]; intros Hn.
  - cbn. unfold frameBytes. cbn. rewrite !app_nil_r, Nat.sub_0_r. reflexivity.
  - rewrite seq_S, fold_left_app, IH by lia. cbn [fold_left andThen fst snd Nat.add].
    unfold DataView_setInt16. rewrite js_trunc_Z.
    rewrite setBytes_append by (rewrite littleEndian_length; lia).
    cbn [andThen]. unfold frameBytes at 3 4. rewrite seq_S, fmap_app, concat_app.
    cbn [fmap list_fmap concat Nat.add]. rewrite app_nil_r.
    fold (frameBytes channels k offset). fold (sampleBytes channels offset k).
    assert (Hs : length (sampleBytes channels offset k) = 2%nat)
      by (unfold sampleBytes; apply littleEndian_length).
    rewrite !app_assoc, !length_app, Hs.
    replace (n - 2 * k - 2)%nat with (n - 2 * S k)%nat by lia. reflexivity.
Qed.

Lemma concat_empty_frames channels offset k :
  concat (frameBytes channels 0 <$> seq offset k) = [].
Proof.
  revert offset. induction k as [|k IH]; intros offset; [reflexivity|].
  cbn. apply IH.
Qed.

Lemma andThen_Ok {A B} (a : A) (k : A → outcome B) : andThen (Ok a) k = k a.
Proof. reflexivity. Qed.

Lemma writeFrames_S fuel channels numOfChan length_ w offset :
  writeFrames (S fuel) channels numOfChan length_ w offset =
    if (snd w <? length_)%nat
    then andThen (writeFrame channels numOfChan offset (Ok w))
                 (fun w => writeFrames fuel channels numOfChan length_ w (offset + 1)%nat)
    else Ok w.
Proof. reflexivity. Qed.

Lemma writeFrames_result channels numOfChan k : ∀ written offset length_,
  length_ = (length written + 2 * numOfChan * k)%nat →
  writeFrames (S k) channels numOfChan length_
    (written ++ replicate (2 * numOfChan * k) 0, length written) offset =
    Ok (written ++ concat (frameBytes channels numOfChan <$> seq offset k), length_).
Proof.
  induction k as [|k IH]; intros written offset length_ Hlen.
  - rewrite writeFrames_S. cbn [snd]. rewrite Nat.mul_0_r in *.
    destruct (Nat.ltb_spec (length written) length_); [lia|].
    cbn. rewrite !app_nil_r. f_equal. f_equal. lia.
  - rewrite writeFrames_S. cbn [snd].
    destruct (Nat.ltb_spec (length written) length_) as [Hlt|Hge].
    + rewrite writeFrame_result by nia. rewrite andThen_Ok.
      replace (2 * numOfChan * S k - 2 * numOfChan)%nat with (2 * numOfChan * k)%nat by nia.
      rewrite (IH _ _ length_) by (rewrite length_app, frameBytes_length; nia).
      cbn [seq fmap list_fmap concat]. rewrite <- app_assoc.
      replace (offset + 1)%nat with (S offset) by lia. reflexivity.
    + assert (numOfChan = 0)%nat by nia. subst numOfChan.
      cbn [Nat.mul replicate]. rewrite concat_empty_frames, !app_nil_r.
      f_equal. f_equal. lia.
Qed.

Lemma writeFrames_from channels numOfChan k written pos offset length_ :
  pos = length written → length_ = (pos + 2 * numOfChan * k)%nat →
  writeFrames (S k) channels numOfChan length_
    (written ++ replicate (2 * numOfChan * k) 0, pos) offset =
    Ok (written ++ concat (frameBytes channels numOfChan <$> seq offset k), length_).
Proof. intros -> ->. apply writeFrames_result. reflexivity. Qed.

Lemma collect_channels buffer st :
  foldM (seq 0 (length (channelData buffer))) []
    (fun channels i => channel <- getChannelData buffer i ;; ret (channels ++ [channel])) st
  = (st, Ok (channelData buffer)).
Proof.
  destruct (foldM_total
    (fun k (channels : list nat) s => s = st ∧ channels = take k (channelData buffer))
    (fun channels i => channel <- getChannelData buffer i ;; ret (channels ++ [channel]))
    (seq 0 (length (channelData buffer))) [] st) as (channels & st' & Hrun & -> & ->).
  { split; reflexivity. }
  { intros k x channels s Hx [-> ->]. apply lookup_seq in Hx as [Hx Hk]. cbn in Hx. subst x.
    destruct (lookup_lt_is_Some_2 (channelData buffer) k Hk) as [r Hr].
    eexists _, _. split.
    - erewrite bind_ok; [|apply getChannelData_ok, Hr]. reflexivity.
    - split; [reflexivity|]. symmetry. apply take_S_r, Hr. }
  rewrite Hrun, length_seq, take_ge by lia. reflexivity.
Qed.

(** what [bufferToWav] returns for a buffer of the host: the header,
    then the frames in order, each with its channels in order *)
Lemma bufferToWav_result audio st buffer :
  valid audio st buffer →
  bufferToWav buffer st =
    (st, Ok (headerBytes (numberOfChannels buffer)
               (bufferLength buffer * numberOfChannels buffer * 2 + 44) (sampleRate buffer)
             ++ concat (frameBytes (contents st <$> channelData buffer)
                          (numberOfChannels buffer) <$> seq 0 (bufferLength buffer)))).
Proof.
  intros (Hcd & _). unfold bufferToWav.
  rewrite (writeHeader_result _ _ _ (bufferLength buffer * numberOfChannels buffer * 2))
    by reflexivity.
  rewrite <- Hcd at 1. erewrite bind_ok; [|apply collect_channels].
  erewrite bind_ok; [|reflexivity].
  pose proof (headerBytes_length (numberOfChannels buffer)
                (bufferLength buffer * numberOfChannels buffer * 2 + 44)
                (sampleRate buffer)) as Hh.
  replace (bufferLength buffer * numberOfChannels buffer * 2)%nat
    with (2 * numberOfChannels buffer * bufferLength buffer)%nat by nia.
  rewrite (writeFrames_from _ _ _ _ 44%nat) by (rewrite ?headerBytes_length; lia).
  reflexivity.
Qed.

Lemma littleEndianValue_2 x : littleEndianValue (littleEndian 2 x) = x mod 2 ^ 16.
Proof.
  unfold littleEndian, littleEndianValue. cbn [seq fmap list_fmap fold_right].
  change (8 * Z.of_nat 0) with 0. change (8 * Z.of_nat 1) with 8.
  change (2 ^ 0) with 1. change (2 ^ 8) with 256. change (2 ^ 16) with (256 * 256).
  rewrite Z.div_1_r, Z.rem_mul_r by lia. lia.
Qed.

Lemma littleEndianValue_4 x : littleEndianValue (littleEndian 4 x) = x mod 2 ^ 32.
Proof.
  unfold littleEndian, littleEndianValue. cbn [seq fmap list_fmap fold_right].
  change (8 * Z.of_nat 0) with 0. change (8 * Z.of_nat 1) with 8.
  change (8 * Z.of_nat 2) with 16. change (8 * Z.of_nat 3) with 24.
  change (2 ^ 0) with 1. change (2 ^ 8) with 256.
  change (2 ^ 16) with (256 * 256). change (2 ^ 24) with (256 * (256 * 256)).
  change (2 ^ 32) with (256 * (256 * (256 * 256))).
  rewrite Z.div_1_r.
  rewrite (Z.rem_mul_r x 256 (256 * (256 * 256))) by lia.
  rewrite (Z.rem_mul_r (x / 256) 256 (256 * 256)) by lia.
  rewrite (Z.rem_mul_r (x / 256 / 256) 256 256) by lia.
  rewrite !Z.div_div by lia.
  change (256 * 256 * 256) with (256 * (256 * 256)). lia.
Qed.

Lemma bytesAt_skip (a l : list Z) k n :
  (length a <= k)%nat → bytesAt (a ++ l) k n = bytesAt l (k - length a) n.
Proof. intros H. unfold bytesAt. rewrite drop_app_ge by exact H. reflexivity. Qed.

Lemma bytesAt_here (a l : list Z) n : length a = n → bytesAt (a ++ l) 0 n = a.
Proof. intros <-. unfold bytesAt. rewrite drop_0. apply take_app_length. Qed.

Lemma bytesAt_app_l (a l : list Z) k n :
  (k + n <= length a)%nat → bytesAt (a ++ l) k n = bytesAt a k n.
Proof.
  intros H. unfold bytesAt. rewrite drop_app_le by lia.
  rewrite take_app_le by (rewrite length_drop; lia). reflexivity.
Qed.

Lemma bytesAt_within (l : list Z) a m k n :
  (k + n <= m)%nat → bytesAt (bytesAt l a m) k n = bytesAt l (a + k) n.
Proof.
  intros H. unfold bytesAt.
  replace m with (k + (m - k))%nat at 1 by lia.
  rewrite <- take_drop_commute, drop_drop, take_take.
  replace (n `min` (m - k))%nat with n by lia. reflexivity.
Qed.

Lemma concat_blocks_length (g : nat → list Z) m n :
  (∀ j, length (g j) = m) → length (concat (g <$> seq 0 n)) = (n * m)%nat.
Proof.
  intros Hg. induction n as [|n IH]; [reflexivity|].
  rewrite seq_S, fmap_app, concat_app, length_app, IH. cbn. rewrite app_nil_r, Hg. lia.
Qed.

(** block [i] of a list made of blocks of [m] bytes *)
Lemma bytesAt_concat (g : nat → list Z) m n i :
  (∀ j, length (g j) = m) → (i < n)%nat →
  bytesAt (concat (g <$> seq 0 n)) (i * m) m = g i.
Proof.
  intros Hg. induction n as [|n IH]; intros Hi; [lia|].
  rewrite seq_S, fmap_app, concat_app. cbn [fmap list_fmap concat Nat.add].
  rewrite app_nil_r.
  pose proof (concat_blocks_length g m n Hg) as Hlen.
  destruct (decide (i = n)) as [->|Hne].
  - rewrite bytesAt_skip by lia. rewrite Hlen, Nat.sub_diag.
    rewrite <- (app_nil_r (g n)) at 1. apply bytesAt_here, Hg.
  - rewrite bytesAt_app_l by nia. apply IH. lia.
Qed.

Lemma bytesAt_all (a : list Z) n : length a = n → bytesAt a 0 n = a.
Proof. intros <-. unfold bytesAt. rewrite drop_0. apply firstn_all. Qed.

Ltac header_field :=
  unfold headerBytes; rewrite <- ?app_assoc;
  repeat (rewrite bytesAt_skip by (rewrite littleEndian_length; lia);
          rewrite littleEndian_length; cbn [Nat.sub]);
  lazymatch goal with
  | |- context [bytesAt (?a ++ ?l) 0 ?n] =>
      rewrite (bytesAt_here a l n) by apply littleEndian_length
  | |- context [bytesAt ?a 0 ?n] =>
      rewrite (bytesAt_all a n) by apply littleEndian_length
  end.

(** X21. [bufferToWav] never writes out of bounds: for every buffer of
    the host it returns 44 + 2 * channels * frames bytes and leaves the
    store alone.  The bytes start with a well-formed header: the tags
    RIFF, WAVE, fmt and data at offsets 0, 8, 12 and 36, format 1 (PCM),
    16 bits per sample, and, read as little-endian numbers, the channel
    count, the truncated sample rate, the byte rate, the block size
    2 * channels, the file size less 8 and the size of the sample data
    (fields of 16 bits modulo 2^16, fields of 32 bits modulo 2^32). *)
Theorem wav_header_fields audio st buffer :
  valid audio st buffer →
  ∃ bytes,
    bufferToWav buffer st = (st, Ok bytes) ∧
    length bytes = (44 + 2 * numberOfChannels buffer * bufferLength buffer)%nat ∧
    Forall (fun b => 0 <= b < 256) bytes ∧
    bytesAt bytes 0 4 = [0x52; 0x49; 0x46; 0x46] ∧
    littleEndianValue (bytesAt bytes 4 4) = (Z.of_nat (length bytes) - 8) mod 2 ^ 32 ∧
    bytesAt bytes 8 4 = [0x57; 0x41; 0x56; 0x45] ∧
    bytesAt bytes 12 4 = [0x66; 0x6d; 0x74; 0x20] ∧
    littleEndianValue (bytesAt bytes 16 4) = 16 ∧
    littleEndianValue (bytesAt bytes 20 2) = 1 ∧
    littleEndianValue (bytesAt bytes 22 2) = Z.of_nat (numberOfChannels buffer) mod 2 ^ 16 ∧
    littleEndianValue (bytesAt bytes 24 4) = js_trunc (sampleRate buffer) mod 2 ^ 32 ∧
    littleEndianValue (bytesAt bytes 28 4) =
      js_trunc (sampleRate buffer * 2 * inject_Z (Z.of_nat (numberOfChannels buffer)))
        mod 2 ^ 32 ∧
    littleEndianValue (bytesAt bytes 32 2) =
      (Z.of_nat (numberOfChannels buffer) * 2) mod 2 ^ 16 ∧
    littleEndianValue (bytesAt bytes 34 2) = 16 ∧
    bytesAt bytes 36 4 = [0x64; 0x61; 0x74; 0x61] ∧
    littleEndianValue (bytesAt bytes 40 4) = (Z.of_nat (length bytes) - 44) mod 2 ^ 32.
Proof.
  intros Hv. eexists. split; [apply (bufferToWav_result audio), Hv|].
  set (nch := numberOfChannels buffer). set (len := bufferLength buffer).
  set (data := contents st <$> channelData buffer).
  set (samples := concat (frameBytes data nch <$> seq 0 len)).
  assert (Hsamples : length samples = (len * (2 * nch))%nat).
  { apply concat_blocks_length. intros j. apply frameBytes_length. }
  assert (Hlen : length (headerBytes nch (len * nch * 2 + 44) (sampleRate buffer) ++ samples)
                 = (44 + 2 * nch * len)%nat).
  { rewrite length_app, headerBytes_length, Hsamples. lia. }
  rewrite Hlen.
  assert (Hfield : ∀ k n, (k + n <= 44)%nat →
            bytesAt (headerBytes nch (len * nch * 2 + 44) (sampleRate buffer) ++ samples) k n
            = bytesAt (headerBytes nch (len * nch * 2 + 44) (sampleRate buffer)) k n).
  { intros k n Hk. apply bytesAt_app_l. rewrite headerBytes_length. exact Hk. }
  rewrite !Hfield by lia.
  split; [reflexivity|]. split.
  { apply Forall_app. split.
    - unfold headerBytes. repeat (apply Forall_app; split); apply littleEndian_bytes.
    - apply Forall_concat, Forall_fmap, Forall_forall. intros f _. cbn.
      unfold frameBytes. apply Forall_concat, Forall_fmap, Forall_forall. intros c _.
      apply littleEndian_bytes. }
  split_and!.
  - header_field. reflexivity.
  - header_field. rewrite littleEndianValue_4. unfold ToUint32. rewrite Z.mod_mod by lia.
    f_equal. lia.
  - header_field. reflexivity.
  - header_field. reflexivity.
  - header_field. reflexivity.
  - header_field. reflexivity.
  - header_field. rewrite littleEndianValue_2. unfold ToUint16. apply Z.mod_mod. lia.
  - header_field. rewrite littleEndianValue_4. unfold ToUint32. apply Z.mod_mod. lia.
  - header_field. rewrite littleEndianValue_4. unfold ToUint32. apply Z.mod_mod. lia.
  - header_field. rewrite littleEndianValue_2. unfold ToUint16. apply Z.mod_mod. lia.
  - header_field. reflexivity.
  - header_field. reflexivity.
  - header_field. rewrite littleEndianValue_4. unfold ToUint32. rewrite Z.mod_mod by lia.
    f_equal. lia.
Qed.

Lemma wav_header_fields_witness :
  let st := stateOf [[1 # 2; -1 # 4; 0]; [1; -1; 0]]%Q in
  let buffer := {| numberOfChannels := 2; bufferLength := 3; sampleRate := 44100;
                   channelData := [0; 1]%nat |} in
  ∃ bytes,
    bufferToWav buffer st = (st, Ok bytes) ∧
    length bytes = 56%nat ∧
    littleEndianValue (bytesAt bytes 24 4) = 44100 ∧
    littleEndianValue (bytesAt bytes 40 4) = 12.
Proof.
  intros st buffer.
  destruct (wav_header_fields exampleAudio st buffer)
    as (bytes & Hrun & Hlen & _ & _ & _ & _ & _ & _ & _ & _ & Hrate & _ & _ & _ & _ & Hdata);
    [prove_valid|].
  exists bytes. split; [exact Hrun|]. split; [exact Hlen|].
  split; [exact Hrate|]. rewrite Hdata, Hlen. reflexivity.
Defined.

Lemma js_trunc_mono x y : (x <= y)%Q → js_trunc x <= js_trunc y.
Proof.
  intros Hxy. unfold js_trunc.
  destruct (Qle_bool 0 x) eqn:Ex, (Qle_bool 0 y) eqn:Ey.
  - apply Qfloor_resp_le, Hxy.
  - apply Qle_bool_iff in Ex.
    assert (¬ (0 <= y)%Q) by (intros H; apply Qle_bool_iff in H; congruence). lra.
  - assert (Hx : ¬ (0 <= x)%Q) by (intros H; apply Qle_bool_iff in H; congruence).
    apply Qle_bool_iff in Ey.
    assert (H1 : Qceiling x <= Qceiling 0) by (apply Qceiling_resp_le; lra).
    assert (H2 : Qfloor 0 <= Qfloor y) by (apply Qfloor_resp_le, Ey).
    change (Qceiling 0) with 0 in H1. change (Qfloor 0) with 0 in H2. lia.
  - apply Qceiling_resp_le, Hxy.
Qed.

(** the clamp [Math.max (-1, Math.min (1, x))] *)
Lemma clamp_range x :
  (-1 <= Math_max (-1) (Math_min 1 x))%Q ∧ (Math_max (-1) (Math_min 1 x) <= 1)%Q ∧
  ((x <= -1)%Q → (Math_max (-1) (Math_min 1 x) == -1)%Q) ∧
  ((1 <= x)%Q → (Math_max (-1) (Math_min 1 x) == 1)%Q) ∧
  ((-1 <= x)%Q → (x <= 1)%Q → (Math_max (-1) (Math_min 1 x) == x)%Q).
Proof.
  unfold Math_max, Math_min.
  destruct (Qltb x 1) eqn:E1.
  - apply Qltb_lt in E1. destruct (Qltb (-1) x) eqn:E2.
    + apply Qltb_lt in E2. split_and!; intros; lra.
    + apply Qltb_ge in E2. split_and!; intros; lra.
  - apply Qltb_ge in E1. destruct (Qltb (-1) 1) eqn:E2.
    + split_and!; intros; lra.
    + apply Qltb_ge in E2. lra.
Qed.

Lemma clamp_mono x y :
  (x <= y)%Q → (Math_max (-1) (Math_min 1 x) <= Math_max (-1) (Math_min 1 y))%Q.
Proof.
  intros Hxy.
  destruct (clamp_range x) as (Hx0 & Hx1 & Hxlo & Hxhi & Hxin).
  destruct (clamp_range y) as (Hy0 & Hy1 & Hylo & Hyhi & Hyin).
  destruct (Qlt_le_dec x (-1)) as [Hx|Hx].
  - rewrite Hxlo by lra. exact Hy0.
  - destruct (Qlt_le_dec 1 y) as [Hy|Hy].
    + rewrite (Hyhi ltac:(lra)). exact Hx1.
    + destruct (Qlt_le_dec 1 x) as [Hx'|Hx']; [lra|].
      rewrite Hxin, Hyin by lra. exact Hxy.
Qed.

Lemma js_or_zero z : -2 ^ 31 <= z < 2 ^ 31 → js_or z 0 = z.
Proof.
  intros Hz. unfold js_or. rewrite (ToInt32_small z Hz).
  change (ToInt32 0) with 0. apply Z.lor_0_r.
Qed.

(** the scaled sample that is truncated *)
Lemma scaled_range s :
  (-1 <= s)%Q → (s <= 1)%Q →
  (inject_Z (-32768) <= (if Qltb ((5 # 10) + s) 0 then s * 32768 else s * 32767))%Q ∧
  ((if Qltb ((5 # 10) + s) 0 then s * 32768 else s * 32767) <= inject_Z 32767)%Q.
Proof.
  intros H0 H1. change (inject_Z (-32768)) with (-32768)%Q.
  change (inject_Z 32767) with 32767%Q.
  destruct (Qltb _ _) eqn:E.
  - apply Qltb_lt in E. split; lra.
  - apply Qltb_ge in E. split; lra.
Qed.

Lemma quantize_range x : -32768 <= quantize x <= 32767.
Proof.
  unfold quantize. cbv zeta.
  destruct (clamp_range x) as (H0 & H1 & _).
  set (s := Math_max (-1) (Math_min 1 x)) in *.
  destruct (scaled_range s H0 H1) as [Hlo Hhi].
  apply js_trunc_mono in Hlo, Hhi. rewrite js_trunc_Z in Hlo, Hhi.
  rewrite js_or_zero by lia. lia.
Qed.

Lemma quantize_trunc x :
  quantize x =
    js_trunc (if Qltb ((5 # 10) + Math_max (-1) (Math_min 1 x)) 0
              then Math_max (-1) (Math_min 1 x) * 32768
              else Math_max (-1) (Math_min 1 x) * 32767)%Q.
Proof.
  pose proof (quantize_range x) as Hr. unfold quantize in *. cbv zeta in *.
  destruct (clamp_range x) as (H0 & H1 & _).
  set (s := Math_max (-1) (Math_min 1 x)) in *.
  destruct (scaled_range s H0 H1) as [Hlo Hhi].
  apply js_trunc_mono in Hlo, Hhi. rewrite js_trunc_Z in Hlo, Hhi.
  apply js_or_zero. lia.
Qed.

Lemma js_trunc_comp x y : (x == y)%Q → js_trunc x = js_trunc y.
Proof.
  intros H. apply Z.le_antisymm; apply js_trunc_mono; rewrite H; apply Qle_refl.
Qed.

(** X22. The 16-bit quantisation of [bufferToWav].  Every sample is
    mapped into the range of a signed 16-bit number, and the mapping is
    monotone: a larger sample never gets a smaller code.  Samples of 1 or
    more get 32767, samples of -1 or less get -32768, and 0 gets 0; a
    sample and its code have the same sign, and the code is truncated
    towards 0, never rounded away from it: it is at most 32768 times the
    sample in absolute value. *)
Theorem wav_quantization :
  (∀ x, -32768 <= quantize x <= 32767) ∧
  (∀ x y, (x <= y)%Q → quantize x <= quantize y) ∧
  (∀ x, (1 <= x)%Q → quantize x = 32767) ∧
  (∀ x, (x <= -1)%Q → quantize x = -32768) ∧
  (∀ x, (x == 0)%Q → quantize x = 0) ∧
  (∀ x, (0 <= x)%Q → 0 <= quantize x ∧ (inject_Z (quantize x) <= 32768 * x)%Q) ∧
  (∀ x, (x <= 0)%Q → quantize x <= 0 ∧ (32768 * x <= inject_Z (quantize x))%Q).
Proof.
  split_and!.
  - apply quantize_range.
  - intros x y Hxy. rewrite !quantize_trunc. apply js_trunc_mono.
    pose proof (clamp_mono x y Hxy) as Hs.
    set (s := Math_max (-1) (Math_min 1 x)) in *.
    set (t := Math_max (-1) (Math_min 1 y)) in *.
    destruct (Qltb ((5 # 10) + s) 0) eqn:Es, (Qltb ((5 # 10) + t) 0) eqn:Et;
      try apply Qltb_lt in Es; try apply Qltb_ge in Es;
      try apply Qltb_lt in Et; try apply Qltb_ge in Et; lra.
  - intros x Hx. rewrite quantize_trunc.
    destruct (clamp_range x) as (_ & _ & _ & Hhi & _). specialize (Hhi Hx).
    set (s := Math_max (-1) (Math_min 1 x)) in *.
    assert (E : Qltb ((5 # 10) + s) 0 = false) by (apply Qltb_ge; lra).
    rewrite E. rewrite (js_trunc_comp (s * 32767) (inject_Z 32767)).
    + apply js_trunc_Z.
    + rewrite Hhi. reflexivity.
  - intros x Hx. rewrite quantize_trunc.
    destruct (clamp_range x) as (_ & _ & Hlo & _). specialize (Hlo Hx).
    set (s := Math_max (-1) (Math_min 1 x)) in *.
    assert (E : Qltb ((5 # 10) + s) 0 = true) by (apply Qltb_lt; lra).
    rewrite E. rewrite (js_trunc_comp (s * 32768) (inject_Z (-32768))).
    + apply js_trunc_Z.
    + rewrite Hlo. reflexivity.
  - intros x Hx. rewrite quantize_trunc.
    destruct (clamp_range x) as (_ & _ & _ & _ & Hin). specialize (Hin ltac:(lra) ltac:(lra)).
    set (s := Math_max (-1) (Math_min 1 x)) in *.
    assert (E : Qltb ((5 # 10) + s) 0 = false) by (apply Qltb_ge; lra).
    rewrite E. rewrite (js_trunc_comp (s * 32767) (inject_Z 0)).
    + apply js_trunc_Z.
    + rewrite Hin, Hx. reflexivity.
  - intros x Hx. rewrite quantize_trunc.
    destruct (clamp_range x) as (H0 & H1 & _ & Hhi & Hin).
    assert (Hsx : (0 <= Math_max (-1) (Math_min 1 x))%Q ∧
                  (Math_max (-1) (Math_min 1 x) <= x)%Q).
    { destruct (Qlt_le_dec 1 x) as [Hgt|Hle].
      - rewrite (Hhi ltac:(lra)). split; lra.
      - rewrite (Hin ltac:(lra) Hle). split; lra. }
    set (s := Math_max (-1) (Math_min 1 x)) in *. destruct Hsx as [Hs0 Hsx].
    assert (E : Qltb ((5 # 10) + s) 0 = false) by (apply Qltb_ge; lra).
    rewrite E. unfold js_trunc.
    assert (Hpos : Qle_bool 0 (s * 32767) = true) by (apply Qle_bool_iff; lra).
    rewrite Hpos. split.
    + assert (H : Qfloor 0 <= Qfloor (s * 32767)) by (apply Qfloor_resp_le; lra).
      exact H.
    + pose proof (Qfloor_le (s * 32767)). lra.
  - intros x Hx. rewrite quantize_trunc.
    destruct (clamp_range x) as (H0 & H1 & Hlo & _ & Hin).
    assert (Hsx : (Math_max (-1) (Math_min 1 x) <= 0)%Q ∧
                  (x <= Math_max (-1) (Math_min 1 x))%Q).
    { destruct (Qlt_le_dec x (-1)) as [Hlt|Hge].
      - rewrite (Hlo ltac:(lra)). split; lra.
      - rewrite (Hin Hge ltac:(lra)). split; lra. }
    set (s := Math_max (-1) (Math_min 1 x)) in *. destruct Hsx as [Hs0 Hsx].
    set (v := (if Qltb ((5 # 10) + s) 0 then s * 32768 else s * 32767)%Q).
    assert (Hv : (v <= 0)%Q ∧ (32768 * x <= v)%Q).
    { unfold v. destruct (Qltb _ _); split; lra. }
    destruct Hv as [Hv0 Hvx].
    pose proof (js_trunc_mono v 0 Hv0) as Hle. change (js_trunc 0) with 0 in Hle.
    split; [exact Hle|].
    assert (Hvt : (v <= inject_Z (js_trunc v))%Q).
    { unfold js_trunc. destruct (Qle_bool 0 v) eqn:E.
      - apply Qle_bool_iff in E.
        assert (Hv : (v == 0)%Q) by lra.
        rewrite (Qfloor_comp _ _ Hv). change (inject_Z (Qfloor 0)) with 0%Q. lra.
      - apply Qle_ceiling. }
    lra.
Qed.

Lemma ToInt16_small z : -2 ^ 15 <= z < 2 ^ 15 → ToInt16 z = z.
Proof. intros Hz. unfold ToInt16. rewrite Z.mod_small by lia. lia. Qed.

Lemma ToInt16_decode z : -2 ^ 15 <= z < 2 ^ 15 → ToInt16 (z mod 2 ^ 16) = z.
Proof.
  intros Hz. unfold ToInt16. rewrite Zplus_mod_idemp_l.
  rewrite Z.mod_small by lia. lia.
Qed.

(** X23. [bufferToWav] interleaves the channels: for every buffer of the
    host, the two bytes at offset 44 + 2 * (frame * channels + channel)
    are the little-endian two's complement code of the sample at that
    frame and channel, so reading them as a signed 16-bit number gives
    the quantised sample. *)
Theorem wav_samples_interleaved audio st buffer :
  valid audio st buffer →
  ∃ bytes,
    bufferToWav buffer st = (st, Ok bytes) ∧
    ∀ frame c, (frame < bufferLength buffer)%nat → (c < numberOfChannels buffer)%nat →
      bytesAt bytes (44 + 2 * (frame * numberOfChannels buffer + c)) 2 =
        littleEndian 2 (quantize (sample st buffer c frame)) ∧
      ToInt16 (littleEndianValue
                 (bytesAt bytes (44 + 2 * (frame * numberOfChannels buffer + c)) 2)) =
        quantize (sample st buffer c frame).
Proof.
  intros Hv. eexists. split; [apply (bufferToWav_result audio), Hv|].
  intros frame c Hf Hc.
  set (nch := numberOfChannels buffer) in *. set (len := bufferLength buffer) in *.
  set (data := contents st <$> channelData buffer).
  pose proof (quantize_range (sample st buffer c frame)) as Hq.
  assert (Hbytes :
    bytesAt (headerBytes nch (len * nch * 2 + 44) (sampleRate buffer)
             ++ concat (frameBytes data nch <$> seq 0 len))
      (44 + 2 * (frame * nch + c)) 2 =
    littleEndian 2 (quantize (sample st buffer c frame))).
  { rewrite bytesAt_skip by (rewrite headerBytes_length; lia).
    rewrite headerBytes_length.
    replace (44 + 2 * (frame * nch + c) - 44)%nat with (frame * (2 * nch) + c * 2)%nat by lia.
    rewrite <- (bytesAt_within _ _ (2 * nch)) by lia.
    rewrite bytesAt_concat by (try (intros; apply frameBytes_length); lia).
    unfold frameBytes.
    replace (c * 2)%nat with (c * 2 + 0)%nat by lia.
    rewrite <- (bytesAt_within _ _ 2) by lia.
    rewrite bytesAt_concat;
      [|intros; unfold sampleBytes; apply littleEndian_length | exact Hc].
    unfold sampleBytes. rewrite bytesAt_all by apply littleEndian_length.
    unfold data. rewrite snapshot_channel by (destruct Hv as (-> & _); exact Hc).
    fold (sample st buffer c frame).
    rewrite ToInt16_small by lia. reflexivity. }
  split; [exact Hbytes|].
  rewrite Hbytes, littleEndianValue_2. apply ToInt16_decode. lia.
Qed.

Lemma wav_samples_interleaved_witness :
  let st := stateOf [[1 # 2; -1 # 4; 0]; [1; -1; 0]]%Q in
  let buffer := {| numberOfChannels := 2; bufferLength := 3; sampleRate := 44100;
                   channelData := [0; 1]%nat |} in
  ∃ bytes,
    bufferToWav buffer st = (st, Ok bytes) ∧
    ToInt16 (littleEndianValue (bytesAt bytes (44 + 2 * (1 * 2 + 1)) 2)) = -32768.
Proof.
  intros st buffer.
  destruct (wav_samples_interleaved exampleAudio st buffer) as (bytes & Hrun & Hsample);
    [prove_valid|].
  exists bytes. split; [exact Hrun|].
  destruct (Hsample 1%nat 1%nat) as [_ Hdecode]; [cbn; lia | cbn; lia |].
  exact Hdecode.
Defined.

(** ** Linearity of the transform *)

Lemma dit_add e s : ∀ sigma f g k,
  Ceq (dit e s sigma (fun n => Cadd (f n) (g n)) k)
      (Cadd (dit e s sigma f k) (dit e s sigma g k)).
Proof.
  induction s as [|s IH]; intros sigma f g k.
  - reflexivity.
  - cbn [dit]. destruct (_ <? _)%nat; rewrite !IH; Cring.
Qed.

(** X24. The transform of [getFFT] is linear, for the sizes 2 to 1024,
    whatever the sine and cosine of the host and in both directions: if
    every sample of [z] is [a] times the sample of [x] plus [b] times the
    sample of [y], real and imaginary part alike, the same holds for
    their transforms (in exact arithmetic). *)
Theorem fft_is_linear host k invert (a b : Q) (x y z : list Q * list Q) :
  (1 <= k <= 10)%nat →
  bothLength (2 ^ k) x → bothLength (2 ^ k) y → bothLength (2 ^ k) z →
  (∀ j, (j < 2 ^ k)%nat →
     (at_ (fst z) j == a * at_ (fst x) j + b * at_ (fst y) j)%Q ∧
     (at_ (snd z) j == a * at_ (snd x) j + b * at_ (snd y) j)%Q) →
  let fft := buildFFT host (2 ^ Z.of_nat k) in
  ∀ j, (j < 2 ^ k)%nat →
    (at_ (fst (fft_kernel fft invert z)) j ==
       a * at_ (fst (fft_kernel fft invert x)) j
       + b * at_ (fst (fft_kernel fft invert y)) j)%Q ∧
    (at_ (snd (fft_kernel fft invert z)) j ==
       a * at_ (snd (fft_kernel fft invert x)) j
       + b * at_ (snd (fft_kernel fft invert y)) j)%Q.
Proof.
  intros Hk Hx Hy Hz Hcomb fft j Hj.
  set (e := twiddle fft invert).
  assert (Hsize : Z.to_nat (plan_size fft) = (2 ^ k)%nat) by apply pow2_to_nat.
  assert (Hrev : ∀ i, (i < 2 ^ k)%nat → reversed fft i = bitrev k i).
  { intros i Hi. apply reversed_table; [apply bitReverse_buildFFT, Hk | exact Hi]. }
  assert (Htw : ∀ n, (n < 2 ^ k)%nat → Ceq (twiddle fft invert n) (e n))
    by (intros; reflexivity).
  set (X := fun n => Cadd (Cmul (a, 0%Q) (cval x n)) (Cmul (b, 0%Q) (cval y n))).
  destruct (fft_kernel_dit fft invert k e (cval x) x Hsize Hx Hrev Htw
              (fun n _ => reflexivity _)) as [_ Hox].
  destruct (fft_kernel_dit fft invert k e (cval y) y Hsize Hy Hrev Htw
              (fun n _ => reflexivity _)) as [_ Hoy].
  destruct (fft_kernel_dit fft invert k e X z Hsize Hz Hrev Htw) as [_ Hoz].
  { intros n Hn. destruct (Hcomb n Hn) as [Hre Him]. unfold X, cval.
    split; cbn [fst snd Cadd Cmul]; [rewrite Hre | rewrite Him]; ring. }
  specialize (Hox j Hj). specialize (Hoy j Hj). specialize (Hoz j Hj).
  assert (Hdit : Ceq (dit e k 1 X j)
                     (Cadd (Cmul (a, 0%Q) (dit e k 1 (cval x) j))
                           (Cmul (b, 0%Q) (dit e k 1 (cval y) j)))).
  { unfold X. rewrite dit_add, !dit_scale. reflexivity. }
  destruct invert.
  - rewrite Hdit in Hoz.
    destruct Hox as [Hx1 Hx2], Hoy as [Hy1 Hy2], Hoz as [Hz1 Hz2].
    unfold cval in *. cbn [fst snd Cadd Cmul Cscale] in *.
    split; [rewrite Hz1, Hx1, Hy1 | rewrite Hz2, Hx2, Hy2]; ring.
  - rewrite Hdit in Hoz.
    destruct Hox as [Hx1 Hx2], Hoy as [Hy1 Hy2], Hoz as [Hz1 Hz2].
    unfold cval in *. cbn [fst snd Cadd Cmul] in *.
    split; [rewrite Hz1, Hx1, Hy1 | rewrite Hz2, Hx2, Hy2]; ring.
Qed.

Lemma fft_is_linear_witness :
  let x := ([1; 2]%Q, [0; 1]%Q) in
  let y := ([3; -1]%Q, [1; 1]%Q) in
  let z := ([2 * 1 + 5 * 3; 2 * 2 + 5 * -1]%Q, [2 * 0 + 5 * 1; 2 * 1 + 5 * 1]%Q) in
  let fft := buildFFT exampleMath (2 ^ Z.of_nat 1) in
  (at_ (fst (fft_kernel fft false z)) 1 ==
     2 * at_ (fst (fft_kernel fft false x)) 1
     + 5 * at_ (fst (fft_kernel fft false y)) 1)%Q ∧
  (at_ (snd (fft_kernel fft false z)) 1 ==
     2 * at_ (snd (fft_kernel fft false x)) 1
     + 5 * at_ (snd (fft_kernel fft false y)) 1)%Q.
Proof.
  intros x y z.
  apply (fft_is_linear exampleMath 1 false 2 5 x y z); try (split; reflexivity);
    [lia | | cbn; lia].
  intros [|[|j]] Hj; cbn in Hj; try lia; split; reflexivity.
Defined.

(** ** Channels and rate of the results *)

Lemma run_returns_shape host audio st sourceBuffer targetBuffer params type :
  valid audio st sourceBuffer → valid audio st targetBuffer →
  (0 < sampleRate sourceBuffer)%Q → (0 < sampleRate targetBuffer)%Q →
  type ≠ TRANSFORMATION_MORPH →
  hostAccepts type sourceBuffer targetBuffer = true →
  ∃ st' result,
    run host audio sourceBuffer targetBuffer params type st = (st', Ok result) ∧
    valid audio st' result ∧ preserved st st' ∧
    numberOfChannels result =
      (if returnsMono type then 1%nat else numberOfChannels targetBuffer) ∧
    sampleRate result =
      (if returnsMono type then sampleRate sourceBuffer else sampleRate targetBuffer).
Proof.
  intros Hsrc Htgt Hrs Hrt Htype Haccepts.
  destruct (run_returns host audio st sourceBuffer targetBuffer params type
              Hsrc Htgt Hrs Hrt Htype Haccepts) as (st' & result & Hrun & Hn & Hr).
  destruct (run_returns_valid host audio st sourceBuffer targetBuffer params type
              Hsrc Htgt Hrs Hrt Htype Haccepts) as (st2 & result2 & Hrun2 & Hv & Hp).
  rewrite Hrun in Hrun2. inversion Hrun2; subst st2 result2.
  exists st', result. split_and!; assumption.
Qed.

(** X25. Which shape the results have, on valid buffers with positive
    rates, where the operator returns (Convolution Morphing returns when
    the convolver of the host accepts the source, the others always).
    Surface Translation and Fourier Masking return one channel at the
    sample rate of the source; each of the other nine operators returns
    the channel count and the sample rate of the target.  A morph is mono
    as soon as one of its two operators is one of those two, and it takes
    its sample rate from its first operator alone. *)
Theorem result_channels_and_rate host audio st sourceBuffer targetBuffer params :
  valid audio st sourceBuffer → valid audio st targetBuffer →
  (0 < sampleRate sourceBuffer)%Q → (0 < sampleRate targetBuffer)%Q →
  (∀ type, type ≠ TRANSFORMATION_MORPH →
     hostAccepts type sourceBuffer targetBuffer = true →
     ∃ st' result,
       run host audio sourceBuffer targetBuffer params type st = (st', Ok result) ∧
       numberOfChannels result =
         (if returnsMono type then 1%nat else numberOfChannels targetBuffer) ∧
       sampleRate result =
         (if returnsMono type then sampleRate sourceBuffer else sampleRate targetBuffer)) ∧
  (∀ transformA transformB,
     transformA ≠ TRANSFORMATION_MORPH → transformB ≠ TRANSFORMATION_MORPH →
     hostAccepts transformA sourceBuffer targetBuffer = true →
     hostAccepts transformB sourceBuffer targetBuffer = true →
     ∃ st' result,
       applyTransformationMorph host audio sourceBuffer targetBuffer transformA transformB
         params st = (st', Ok result) ∧
       numberOfChannels result =
         (if returnsMono transformA || returnsMono transformB then 1%nat
          else numberOfChannels targetBuffer) ∧
       sampleRate result =
         (if returnsMono transformA then sampleRate sourceBuffer
          else sampleRate targetBuffer)).
Proof.
  intros Hsrc Htgt Hrs Hrt. split.
  - intros type Htype Haccepts.
    destruct (run_returns host audio st sourceBuffer targetBuffer params type
                Hsrc Htgt Hrs Hrt Htype Haccepts) as (st' & result & H). eauto.
  - intros transformA transformB HA HB HaccA HaccB.
    destruct (run_returns_shape host audio st sourceBuffer targetBuffer params transformA
                Hsrc Htgt Hrs Hrt HA HaccA) as (stA & resultA & HrunA & HvA & HpA & HnA & HrA).
    destruct (run_returns_shape host audio stA sourceBuffer targetBuffer params transformB
                (valid_preserved audio st stA _ Hsrc HpA)
                (valid_preserved audio st stA _ Htgt HpA) Hrs Hrt HB HaccB)
      as (stB & resultB & HrunB & HvB & HpB & HnB & HrB).
    pose proof (valid_preserved audio stA stB _ HvA HpB) as HvA'.
    unfold applyTransformationMorph, attempt.
    unfold bind at 1. rewrite HrunA. unfold bind at 1. rewrite HrunB.
    pose proof (crossfade_spec audio resultA resultB params stB HvA' HvB) as Hcross.
    cbv zeta in Hcross. eexists _, _. split; [exact Hcross|].
    cbn [numberOfChannels sampleRate ctxChannels ctxSampleRate].
    rewrite HnA, HnB, HrA.
    pose proof Htgt as (_ & Hnch & _).
    split; [|reflexivity].
    destruct (returnsMono transformA), (returnsMono transformB); cbn [orb]; lia.
Qed.

Lemma result_channels_and_rate_witness :
  let st := stateOf [[1 # 2; -1 # 4; 0]; [1; 1]; [0; 3]]%Q in
  let src := monoBuffer 3 0 in
  let tgt := {| numberOfChannels := 2; bufferLength := 2; sampleRate := 48000;
                channelData := [1; 2]%nat |} in
  ∃ st' result,
    applyTransformationMorph exampleMath exampleAudio src tgt SURFACE_TRANSLATE AMPLITUDE
      noParams st = (st', Ok result) ∧
    numberOfChannels result = 1%nat ∧ sampleRate result = 44100%Q.
Proof.
  intros st src tgt.
  destruct (result_channels_and_rate exampleMath exampleAudio st src tgt noParams)
    as [_ Hmorph]; [prove_valid | prove_valid | reflexivity | reflexivity |].
  apply (Hmorph SURFACE_TRANSLATE AMPLITUDE); try discriminate; reflexivity.
Defined.

(** ** The grid of the onsets *)

(** X26. The onsets [detectTransients] reports lie on a grid: every
    entry of the returned list is a multiple of the chunk size 512 inside
    the buffer, or it is the final frame; and a buffer of [n] chunks gives
    at most [n + 1] entries. *)
Theorem transients_on_chunk_grid host audio st buffer threshold minSeparationMs :
  valid audio st buffer →
  ∃ transients,
    detectTransients host buffer threshold minSeparationMs st = (st, Ok transients) ∧
    (∀ t, t ∈ transients →
       (t mod 512 = 0 ∧ 0 <= t < Z.of_nat (bufferLength buffer)) ∨
       t = Z.of_nat (bufferLength buffer) - 1) ∧
    (Z.of_nat (length transients) <= (Z.of_nat (bufferLength buffer) + 511) / 512 + 1).
Proof.
  intros Hv.
  assert (H0 : (0 < numberOfChannels buffer)%nat) by (destruct Hv as (_ & ? & _); lia).
  assert (Hlen0 : (0 < bufferLength buffer)%nat) by (destruct Hv as (_ & _ & ? & _); lia).
  destruct (valid_ref_lt _ _ _ _ Hv H0) as (r & xs & Hr & Hxs & Hl & _).
  unfold detectTransients.
  erewrite bind_ok; [|apply getChannelData_ok, Hr].
  erewrite bind_ok.
  2:{ unfold readArray. rewrite (contents_lookup _ _ _ Hxs). reflexivity. }
  set (minSep := minSeparationFrames (sampleRate buffer) minSeparationMs).
  pose proof (pickTransients_grid (chunkEnergies host xs) threshold minSep
                (length (chunkEnergies host xs) - 1)) as Hgrid.
  cbv zeta in Hgrid. unfold pickTransients.
  destruct (fold_left _ (seq 1 _) _) as [ts lastT]. cbn [fst] in Hgrid.
  destruct Hgrid as [Hgrid Hcount].
  destruct (chunkEnergies_last_start host xs) as [Hn Hstart]; [lia|].
  set (chunks := length (chunkEnergies host xs)) in *.
  assert (Hchunks : Z.of_nat chunks <= (Z.of_nat (bufferLength buffer) + 511) / 512).
  { apply Z.div_le_lower_bound; [lia|]. unfold chunkSize in *. lia. }
  assert (Hts : ∀ t, t ∈ ts → t mod 512 = 0 ∧ 0 <= t < Z.of_nat (bufferLength buffer)).
  { intros t Ht. rewrite Forall_forall in Hgrid.
    destruct (Hgrid t Ht) as (c & -> & Hc). unfold chunkSize in *.
    split; [apply Z.mod_mul; lia | nia]. }
  eexists. split; [reflexivity|].
  unfold withFinalFrame. destruct (_ <? _)%Z.
  - split.
    + intros t Ht. apply elem_of_app in Ht as [Ht|Ht]; [left; apply Hts, Ht|].
      apply list_elem_of_singleton in Ht. right. rewrite Ht, Hl. reflexivity.
    + rewrite length_app. cbn [length]. lia.
  - split; [intros t Ht; left; apply Hts, Ht | lia].
Qed.

Lemma transients_on_chunk_grid_witness :
  let st := stateOf [replicate 1000 0%Q] in
  ∃ transients,
    detectTransients exampleMath (monoBuffer 1000 0) (18 # 10) 50 st = (st, Ok transients) ∧
    (∀ t, t ∈ transients → (t mod 512 = 0 ∧ 0 <= t < 1000) ∨ t = 999) ∧
    (Z.of_nat (length transients) <= 3).
Proof.
  intros st.
  destruct (transients_on_chunk_grid exampleMath exampleAudio st (monoBuffer 1000 0)
              (18 # 10) 50) as (ts & Hrun & Hgrid & Hcount); [prove_valid|].
  exists ts. split; [exact Hrun|]. split; [exact Hgrid | exact Hcount].
Defined.
